(** * metalsmith-plugin-kit: a shallow embedding of [lib/index.js]

    The development follows the source file function by function:
    [clone], [defaultOptions], [filenameMatcher], [callFunction],
    [middleware], [chain] and [addFile].  The asynchronous part
    ([callFunction], [middleware]) runs on a small model of the host's
    promise machinery: a promise heap, the microtask queue and the timer
    queue.  The last part, the module [Heap], has [clone] and
    [defaultOptions] once more, on a heap of objects, where a copy can be
    told from its original. *)

From Stdlib Require Import String Ascii List ZArith NArith Bool Arith Lia.
From Stdlib Require Import Permutation Sorted.
From Stdlib Require Import DecimalString.
Import ListNotations.
Local Open Scope string_scope.
Local Open Scope list_scope.
Local Open Scope nat_scope.

Set Implicit Arguments.
Set Warnings "-register-all".

(** ** JavaScript values *)

(** Promises are named after the place of the program that creates them:
    every such place runs at most once per middleware invocation, apart from
    the [callFunction] of the [each] hook, which is indexed by the position
    of the file in the list of matched filenames. *)
Inductive pid : Type :=
| PBefore                 (* callFunction(options.before, ...) *)
| PEachPhase              (* result of the first .then() *)
| PAfterPhase             (* result of the second .then() *)
| PDone                   (* result of the third .then() *)
| PAll                    (* Promise.all(promises) *)
| PAfter                  (* callFunction(options.after, ...) *)
| PEach (i : nat)         (* callFunction(options.each, ...) for promises[i] *)
| PHook (owner : pid).    (* the promise a hook creates and returns *)

(** The identity of a function object: one of the [() => {}] defaults of
    [middleware], a function of the user, or the function that
    [Object.prototype] holds under a name. *)
Inductive fid : Type :=
| FNoop
| FUser (n : nat)
| FHost (name : string).

Definition rid := nat.    (* identity of a RegExp object *)

(** The values of the program: the primitives (numbers are integers
    here), functions and regular expressions by their identity, an [Error]
    by its message, and arrays and objects made by a literal, as the tree of
    their own enumerable properties.  Objects of another kind (a [Date], a
    [Buffer], a [Map], an instance of a class) are not among them: the
    module [Heap] has them. *)
Inductive value : Type :=
| VUndefined
| VNull
| VBool (b : bool)
| VNum (n : Z)
| VStr (s : string)
| VFunction (f : fid)
| VRegExp (r : rid)
| VError (msg : string)
| VArray (xs : list value)
| VObject (props : list (string * value))
| VCompletion (p : pid).  (* the (err, result) => {...} closure of callFunction *)

Definition props := list (string * value).

(** [!!v] *)
Definition truthy (v : value) : bool :=
  match v with
  | VUndefined | VNull => false
  | VBool b => b
  | VNum n => negb (n =? 0)%Z
  | VStr s => negb (String.eqb s "")
  | _ => true
  end.

(** [typeof v === "object"] *)
Definition typeof_object (v : value) : bool :=
  match v with
  | VNull | VRegExp _ | VError _ | VArray _ | VObject _ => true
  | _ => false
  end.

(** An object is the list of its own enumerable properties, in the order
    in which they were created, each key once. *)

(** The property of the object's own. *)
Fixpoint lookup {A : Type} (key : string) (o : list (string * A)) : option A :=
  match o with
  | [] => None
  | (k, v) :: rest => if String.eqb k key then Some v else lookup key rest
  end.

(** [Object.prototype.hasOwnProperty.call(o, key)] *)
Definition hasOwnProperty {A : Type} (o : list (string * A)) (key : string) : bool :=
  match lookup key o with Some _ => true | None => false end.

(** [Object.defineProperty(o, key, {value: v, enumerable: true, writable:
    true, configurable: true})]: an existing property keeps its place, a new
    one goes last. *)
Fixpoint define {A : Type} (key : string) (v : A) (o : list (string * A))
  : list (string * A) :=
  match o with
  | [] => [(key, v)]
  | (k, w) :: rest =>
      if String.eqb k key then (k, v) :: rest else (k, w) :: define key v rest
  end.

(** [o[key] = v] for an object whose prototype is [Object.prototype]: the
    property is defined, but for the key [__proto__] when the object has no
    such property of its own: the assignment then goes to the setter that
    [Object.prototype] has for the key, which gives the object another
    prototype (or does nothing) and no property. *)
Definition assign {A : Type} (key : string) (v : A) (o : list (string * A))
  : list (string * A) :=
  if String.eqb key "__proto__" && negb (hasOwnProperty o key) then o
  else define key v o.

(** [delete o[key]] *)
Definition delete {A : Type} (key : string) (o : list (string * A))
  : list (string * A) :=
  filter (fun kv => negb (String.eqb (fst kv) key)) o.

(** *** The order of the keys *)

Definition digit (c : ascii) : option N :=
  let n := N_of_ascii c in
  if ((48 <=? n) && (n <=? 57))%N then Some (n - 48)%N else None.

Fixpoint digits (s : string) (acc : N) : option N :=
  match s with
  | EmptyString => Some acc
  | String c rest =>
      match digit c with
      | Some d => digits rest (acc * 10 + d)%N
      | None => None
      end
  end.

(** The decimal form of a number. *)
Definition decimal (n : N) : string := NilZero.string_of_uint (N.to_uint n).

(** An array index: the decimal form of an integer below [2^32 - 1], as
    the language writes it. *)
Definition array_index (key : string) : option N :=
  match digits key 0 with
  | Some n =>
      if (n <? 4294967295)%N && String.eqb (decimal n) key then Some n else None
  | None => None
  end.

(** A key that is not an array index. *)
Definition is_name (key : string) : bool :=
  match array_index key with
  | Some _ => false
  | None => true
  end.

Fixpoint insert_index (n : N) (key : string) (l : list (N * string))
  : list (N * string) :=
  match l with
  | [] => [(n, key)]
  | (m, k) :: rest =>
      if (n <=? m)%N then (n, key) :: l else (m, k) :: insert_index n key rest
  end.

(** The keys that are array indices, by ascending index. *)
Fixpoint index_keys (keys : list string) : list (N * string) :=
  match keys with
  | [] => []
  | key :: rest =>
      match array_index key with
      | Some n => insert_index n key (index_keys rest)
      | None => index_keys rest
      end
  end.

(** The order in which the keys of an object are listed: the array indices
    by ascending index, then the other keys in the order of their
    creation. *)
Definition keys_in_order (keys : list string) : list string :=
  map snd (index_keys keys) ++ filter is_name keys.

Definition index_key (i : nat) : string :=
  NilEmpty.string_of_uint (Nat.to_uint i).

Fixpoint indexed (i : nat) (xs : list value) : props :=
  match xs with
  | [] => []
  | x :: rest => (index_key i, x) :: indexed (S i) rest
  end.

(** The own enumerable properties of a value of type "object". *)
Definition own_entries (v : value) : props :=
  match v with
  | VObject o => o
  | VArray xs => indexed 0 xs
  | _ => []
  end.

(** [Object.keys(v)] *)
Definition Object_keys (v : value) : list string :=
  keys_in_order (map fst (own_entries v)).

(** [v[key]] for the properties of its own that a value shows here: the
    enumerable ones, the [message] of an [Error] and the [length] of an
    array.  The other properties that are not enumerable (the [stack] of an
    [Error]) and what a value inherits are not given: the functions of the
    library read [v[key]] for the keys of [Object.keys(v)], and the options
    by their names. *)
Definition get (v : value) (key : string) : value :=
  match lookup key (own_entries v) with
  | Some x => x
  | None =>
      match v with
      | VError msg => if String.eqb key "message" then VStr msg else VUndefined
      | VArray xs =>
          if String.eqb key "length" then VNum (Z.of_nat (List.length xs))
          else VUndefined
      | _ => VUndefined
      end
  end.

(** ** exports.clone *)

(** Primitives, functions and regular expressions are returned as they are.
    Any other object is rebuilt from its own enumerable keys: an array as
    an array, everything else as a plain object (an [Error] has no
    enumerable key of its own).  A property [__proto__] of the original is
    not one of the result: [result[key] = ...] goes to the setter for it.

    A value of this development is the tree that an object unfolds to, and
    two objects with the same properties are the same value: what [clone]
    copies and what it shares is stated on the heap, in the module [Heap]
    below. *)
Fixpoint clone (original : value) : value :=
  match original with
  | VArray xs => VArray (map clone xs)
  | VObject o =>
      VObject (filter (fun kv => negb (String.eqb (fst kv) "__proto__"))
                 (map (fun kv => (fst kv, clone (snd kv))) o))
  | VError _ => VObject []
  | _ => original
  end.

(** The values for which every assignment [result[key] = ...] of [clone]
    goes through: no object in them has a function or a regular expression
    under a key [__proto__] of its own.  Such a value would become the
    prototype of the result, and an assignment to a key that the prototype
    has as a read-only property (the [name] of a function, the [source] of
    a regular expression) throws a [TypeError] in strict code.  The
    functions above are [clone] and [defaultOptions] for these values. *)
Fixpoint assignable (v : value) : bool :=
  match v with
  | VArray xs => forallb assignable xs
  | VObject o =>
      match lookup "__proto__" o with
      | Some (VFunction _) | Some (VRegExp _) | Some (VCompletion _) => false
      | _ => true
      end
      && forallb (fun kv => assignable (snd kv)) o
  | _ => true
  end.

(** ** exports.defaultOptions *)

Definition defaultOptions (defaults : props) (override : value) : props :=
  let result : props := [] in
  let result :=
    fold_left (fun result key => assign key (clone (get (VObject defaults) key)) result)
              (Object_keys (VObject defaults)) result in
  if truthy override && typeof_object override then
    fold_left (fun result key =>
                 if hasOwnProperty result key
                 then assign key (clone (get override key)) result
                 else result)
              (Object_keys override) result
  else result.

(** "The override defines the key": the second loop visits it. *)
Definition defines (override : value) (key : string) : bool :=
  truthy override && typeof_object override &&
  existsb (String.eqb key) (Object_keys override).

(** ** exports.filenameMatcher *)

Section Kit.

(** [micromatch.matcher(pattern, options)]: the function of a filename it
    returns, or [None] when it throws, as it does for the empty pattern; the
    library is a dependency of the package and not part of it. *)
Variable micromatch_matcher : string -> value -> option (string -> bool).

(** [re.test(filename)] for the regular expression object [re], which has
    neither the flag [g] nor the flag [y]: the result of [test] depends on
    the filename alone, and not on the calls made before. *)
Variable regexp_test : rid -> string -> bool.

(** The function objects used as match items: the value a function returns
    for a list of actual arguments.  Match functions are synchronous ("This
    function may not be asynchronous"). *)
Variable predicate : fid -> list value -> value.

Definition call_predicate (f : fid) (args : list value) : value :=
  match f with
  | FNoop => VUndefined
  | _ => predicate f args
  end.

(** [[].concat(match)] *)
Definition concat_match (m : value) : list value :=
  match m with
  | VArray xs => xs
  | _ => [m]
  end.

(** [singleMatch.test.bind(singleMatch)]; [None] when the expression throws
    a TypeError.  An object is taken for what it holds under [test] as a
    property of its own. *)
Definition test_bind (singleMatch : value) : option (list value -> value) :=
  match singleMatch with
  | VRegExp r =>
      Some (fun args => match args with
                        | VStr s :: _ => VBool (regexp_test r s)
                        | _ => VBool false
                        end)
  | VObject o =>
      match lookup "test" o with
      | Some (VFunction f) => Some (call_predicate f)
      | _ => None
      end
  | _ => None
  end.

(** The callback of [match.map(...)]. *)
Definition compile_item (options : value) (singleMatch : value)
  : option (list value -> value) :=
  match singleMatch with
  | VStr pattern =>
      match micromatch_matcher pattern options with
      | Some isMatch =>
          Some (fun args => match args with
                            | VStr s :: _ => VBool (isMatch s)
                            | _ => VBool false
                            end)
      | None => None
      end
  | VFunction f => Some (call_predicate f)
  | _ => test_bind singleMatch
  end.

Fixpoint compile_items (options : value) (ms : list value)
  : option (list (list value -> value)) :=
  match ms with
  | [] => Some []
  | m :: rest =>
      match compile_item options m, compile_items options rest with
      | Some p, Some ps => Some (p :: ps)
      | _, _ => None
      end
  end.

(** [Array.prototype.some] with the callback
    [(singleMatch) => singleMatch(filename)]. *)
Fixpoint some (ps : list (list value -> value)) (filename : string) : bool :=
  match ps with
  | [] => false
  | singleMatch :: rest =>
      if truthy (singleMatch [VStr filename]) then true else some rest filename
  end.

(** The compiled [matchFunction]; [None] when compiling throws. *)
Definition filenameMatcher (m : value) (options : value)
  : option (string -> value) :=
  let m := concat_match m in
  match m with
  | [] => Some (fun _ => VBool false)
  | _ =>
      match compile_items options m with
      | None => None
      | Some [single] => Some (fun item => single [VStr item])
      | Some ps => Some (fun filename => VBool (some ps filename))
      end
  end.

(** ** Functions used as hooks *)

(** What the orchestrator can observe of a hook: the number of formal
    parameters it declares, and for a list of actual arguments what it does
    before it returns.  It may change the file collection, call one of its
    arguments (the completion function, when one was appended) at once or
    from a timer, and it ends by returning a value, throwing, or returning
    a promise of its own. *)
Inductive outcome : Type :=
| Fulfill (v : value)
| Reject (e : value).

Inductive action : Type :=
| ADelete (name : string)                  (* delete files[name] *)
| AAssign (name : string) (record : props)
             (* files[name] = record, as Object.defineProperty has it: the
                collection gets a property of its own for every name *)
| ACallArg (i : nat) (cargs : list value)  (* arguments[i](...cargs) *)
| ACallArgLater (delay : nat) (i : nat) (cargs : list value).
                                 (* setTimeout(() => arguments[i](...cargs), delay) *)

Inductive promise_script : Type :=
| SettledNow (o : outcome)                 (* Promise.resolve(v), Promise.reject(e) *)
| SettledLater (delay : nat) (o : outcome) (* settled from a timer *)
| NeverSettled.

Inductive finish : Type :=
| Return (v : value)
| Throw (e : value)
| ReturnPromise (b : promise_script).

Record script : Type := { steps : list action; finish_ : finish }.

(** A formal parameter of a function: a parameter as such, one with a
    default value, or the rest parameter. *)
Inductive formal : Type :=
| Simple
| Defaulted
| Rest.

Record jsfun : Type := { fn_formals : list formal; fn_body : list value -> script }.

(** The [length] of a function: the number of its formal parameters before
    the first one that has a default value or is the rest parameter. *)
Fixpoint expected_arguments (formals : list formal) : nat :=
  match formals with
  | Simple :: rest => S (expected_arguments rest)
  | _ => 0
  end.

Definition fn_length (f : jsfun) : nat := expected_arguments (fn_formals f).

(** [n] parameters, none with a default value. *)
Definition simple (n : nat) : list formal := repeat Simple n.

(** [() => {}] *)
Definition noop : jsfun :=
  {| fn_formals := simple 0;
     fn_body := fun _ => {| steps := []; finish_ := Return VUndefined |} |}.

(** The function objects used as hooks, other than the default. *)
Variable code : fid -> jsfun.

Definition function_of (f : fid) : jsfun :=
  match f with
  | FNoop => noop
  | _ => code f
  end.

(** ** The promise machinery of the host *)

(** The four callbacks that [middlewareFn] passes to [.then]. *)
Inductive handler : Type :=
| HEach       (* () => { ...; return Promise.all(promises); } *)
| HAfter      (* () => { return exports.callFunction(options.after, ...); } *)
| HDone       (* done.bind(null) *)
| HDoneErr.   (* done *)

Inductive reaction : Type :=
| RThen (onFulfilled onRejected : option handler) (derived : pid)
                              (* p.then(onFulfilled, onRejected) *)
| RResolve (target : pid)     (* thenable.then(resolve, reject) of [target] *)
| RElement (index : nat).     (* Promise.all: the resolve function of an element *)

Inductive pstate : Type :=
| Pending (reactions : list reaction)
| Settled (o : outcome).

Inductive job : Type :=
| JReaction (r : reaction) (o : outcome)
| JResolveThenable (target thenable : pid).

Inductive timer : Type :=
| TCall (f : value) (cargs : list value)
| TSettle (p : pid) (o : outcome).

Inductive event : Type :=
| EvCallFunction (site : pid)                        (* callFunction entered *)
| EvCall (site : pid) (fn : fid) (args : list value) (* fn.apply(null, args) *)
| EvSettle (p : pid) (o : outcome)
| EvDone (arg : value).                              (* done(arg) *)

(** The state of [Promise.all(promises)]. *)
Record aggregate : Type := {
  elements : list (option pid);   (* promises; None for a null element *)
  alreadyCalled : list nat;       (* elements whose resolve function has run *)
  remaining : nat;
  values : list value
}.

Record state : Type := {
  promises : pid -> pstate;
  jobs : list job;                (* the microtask queue *)
  timers : list (nat * timer);    (* pending timers, by due time *)
  clock : nat;
  files : list (string * props);  (* the file collection *)
  all : option aggregate;
  log : list event
}.

Fixpoint pid_eqb (a b : pid) : bool :=
  match a, b with
  | PBefore, PBefore | PEachPhase, PEachPhase | PAfterPhase, PAfterPhase
  | PDone, PDone | PAll, PAll | PAfter, PAfter => true
  | PEach i, PEach j => Nat.eqb i j
  | PHook x, PHook y => pid_eqb x y
  | _, _ => false
  end.

Definition set_promise (p : pid) (st : pstate) (s : state) : state :=
  {| promises := fun q => if pid_eqb q p then st else promises s q;
     jobs := jobs s; timers := timers s; clock := clock s;
     files := files s; all := all s; log := log s |}.

Definition set_jobs (js : list job) (s : state) : state :=
  {| promises := promises s; jobs := js; timers := timers s; clock := clock s;
     files := files s; all := all s; log := log s |}.

Definition set_timers (ts : list (nat * timer)) (now : nat) (s : state) : state :=
  {| promises := promises s; jobs := jobs s; timers := ts; clock := now;
     files := files s; all := all s; log := log s |}.

Definition set_files (fs : list (string * props)) (s : state) : state :=
  {| promises := promises s; jobs := jobs s; timers := timers s; clock := clock s;
     files := fs; all := all s; log := log s |}.

Definition set_all (a : option aggregate) (s : state) : state :=
  {| promises := promises s; jobs := jobs s; timers := timers s; clock := clock s;
     files := files s; all := a; log := log s |}.

Definition record (ev : event) (s : state) : state :=
  {| promises := promises s; jobs := jobs s; timers := timers s; clock := clock s;
     files := files s; all := all s; log := log s ++ [ev] |}.

(** HostEnqueuePromiseJob *)
Definition enqueue (j : job) (s : state) : state := set_jobs (jobs s ++ [j]) s.

(** FulfillPromise and RejectPromise: a pending promise takes its outcome
    and its reactions become jobs; a settled promise stays as it is. *)
Definition settle (p : pid) (o : outcome) (s : state) : state :=
  match promises s p with
  | Pending reactions =>
      record (EvSettle p o)
        (set_jobs (jobs s ++ map (fun r => JReaction r o) reactions)
           (set_promise p (Settled o) s))
  | Settled _ => s
  end.

(** What a function returns: a plain value or a promise. *)
Inductive result : Type :=
| Plain (v : value)
| Thenable (q : pid).

Inductive completion : Type :=
| Returned (r : result)
| Threw (e : value).

(** The [resolve] function of promise [p]. *)
Definition resolve (p : pid) (r : result) (s : state) : state :=
  match r with
  | Plain v => settle p (Fulfill v) s
  | Thenable q => enqueue (JResolveThenable p q) s
  end.

(** PerformPromiseThen, without the derived promise. *)
Definition then_ (p : pid) (r : reaction) (s : state) : state :=
  match promises s p with
  | Pending reactions => set_promise p (Pending (reactions ++ [r])) s
  | Settled o => enqueue (JReaction r o) s
  end.

Fixpoint insert_timer (due : nat) (t : timer) (ts : list (nat * timer))
  : list (nat * timer) :=
  match ts with
  | [] => [(due, t)]
  | (d, u) :: rest =>
      if due <? d then (due, t) :: ts else (d, u) :: insert_timer due t rest
  end.

Definition setTimeout (t : timer) (delay : nat) (s : state) : state :=
  set_timers (insert_timer (clock s + delay) t (timers s)) (clock s) s.

(** The file collection as the argument a hook receives. *)
Definition files_value (s : state) : value :=
  VObject (map (fun kv => (fst kv, VObject (snd kv))) (files s)).

(** The properties that [Object.prototype] holds, which an object created
    by [{}], as the file collection is, inherits.  All are functions of the
    host, but for [__proto__], an accessor whose getter gives
    [Object.prototype] itself: an object without enumerable properties. *)
Definition Object_prototype : list string :=
  ["constructor"; "__defineGetter__"; "__defineSetter__"; "hasOwnProperty";
   "__lookupGetter__"; "__lookupSetter__"; "isPrototypeOf";
   "propertyIsEnumerable"; "toString"; "valueOf"; "toLocaleString"].

Definition inherited (key : string) : value :=
  if String.eqb key "__proto__" then VObject []
  else if existsb (String.eqb key) Object_prototype then VFunction (FHost key)
  else VUndefined.

(** [files[filename]]: the record the collection has of its own under the
    name, or else what it inherits under the name. *)
Definition files_get (s : state) (filename : string) : value :=
  match lookup filename (files s) with
  | Some file => VObject file
  | None => inherited filename
  end.

(** ** exports.callFunction *)

(** A value with a method [then] of its own, which [resolve] would call to
    take the state of the value rather than fulfil the promise with it. *)
Definition thenable (v : value) : bool :=
  match v with
  | VObject o =>
      match lookup "then" o with
      | Some (VFunction _) | Some (VCompletion _) => true
      | _ => false
      end
  | _ => false
  end.

(** The closure [(err, result) => { if (err) reject(err) else resolve(result) }]
    of the promise [p], for a result that is no thenable: the promise is
    fulfilled with the result. *)
Definition completion_function (p : pid) (err result : value) (s : state) : state :=
  if truthy err then settle p (Reject err) s
  else resolve p (Plain result) s.

(** Calling an argument as a function.  The call of a function object other
    than the completion function is outside this model: it has no effect on
    its state. *)
Definition call_value (f : value) (cargs : list value) (s : state)
  : state * option value :=
  match f with
  | VCompletion p =>
      (completion_function p (nth 0 cargs VUndefined) (nth 1 cargs VUndefined) s, None)
  | VFunction _ => (s, None)
  | _ => (s, Some (VError "TypeError: not a function"))
  end.

Definition run_action (args : list value) (a : action) (s : state)
  : state * option value :=
  match a with
  | ADelete name => (set_files (delete name (files s)) s, None)
  | AAssign name record => (set_files (define name record (files s)) s, None)
  | ACallArg i cargs => call_value (nth i args VUndefined) cargs s
  | ACallArgLater delay i cargs =>
      (setTimeout (TCall (nth i args VUndefined) cargs) delay s, None)
  end.

Fixpoint run_steps (args : list value) (acts : list action) (s : state)
  : state * option value :=
  match acts with
  | [] => (s, None)
  | a :: rest =>
      match run_action args a s with
      | (s', None) => run_steps args rest s'
      | (s', Some e) => (s', Some e)
      end
  end.

Definition hook_promise (q : pid) (b : promise_script) (s : state) : state :=
  match b with
  | SettledNow o => settle q o s
  | SettledLater delay o => setTimeout (TSettle q o) delay s
  | NeverSettled => s
  end.

(** The function that [fn.apply(null, args)] calls and the arguments this
    function receives; [None] when [fn.apply] is not a function.  A function
    has the method of [Function.prototype], which calls the function with
    the arguments.  An object may have a method [apply] of its own: it
    receives [null] and the array of the arguments ([fn] is its [this]).
    The completion function reaches a hook as its last argument; as [fn] or
    as a property of [fn] it is outside this model. *)
Definition applied (fn : value) (args : list value) : option (fid * list value) :=
  match fn with
  | VFunction f => Some (f, args)
  | VObject o =>
      match lookup "apply" o with
      | Some (VFunction method) => Some (method, [VNull; VArray args])
      | _ => None
      end
  | _ => None
  end.

(** [fn.apply(null, args)] at the call site [site]. *)
Definition fn_apply (site : pid) (fn : value) (args : list value) (s : state)
  : state * completion :=
  match applied fn args with
  | Some (f, received) =>
      let body := fn_body (function_of f) received in
      match run_steps received (steps body) (record (EvCall site f received) s) with
      | (s', Some e) => (s', Threw e)
      | (s', None) =>
          match finish_ body with
          | Return v => (s', Returned (Plain v))
          | Throw e => (s', Threw e)
          | ReturnPromise b =>
              (hook_promise (PHook site) b s', Returned (Thenable (PHook site)))
          end
      end
  | None => (s, Threw (VError "TypeError: fn.apply is not a function"))
  end.

(** [new Promise(executor)]: a throwing executor rejects the promise. *)
Definition new_Promise (p : pid) (executor : state -> state * option value)
  (s : state) : state :=
  match executor s with
  | (s', Some e) => settle p (Reject e) s'
  | (s', None) => s'
  end.

(** [fn.length > n].  The [length] of a function is the one the language
    gives it; an object has the [length] it holds as a property of its own,
    read here when it is a number or a boolean.  A value without a [length]
    compares false. *)
Definition length_gt (fn : value) (n : nat) : bool :=
  match fn with
  | VFunction f => n <? fn_length (function_of f)
  | VStr str => n <? String.length str
  | VArray xs => n <? List.length xs
  | VObject o =>
      match lookup "length" o with
      | Some (VNum len) => (Z.of_nat n <? len)%Z
      | Some (VBool b) => b && (n =? 0)
      | _ => false
      end
  | _ => false
  end.

(** [args && fn.length > args.length] *)
Definition supports_callbacks (fn : value) (args : option (list value)) : bool :=
  match args with
  | Some a => length_gt fn (List.length a)
  | None => false
  end.

(** [args] is [None] when the caller passes no argument list. *)
Definition callFunction (site : pid) (fn : value) (args : option (list value))
  (s : state) : state :=
  let s := record (EvCallFunction site) s in
  if negb (truthy fn) then
    settle site (Fulfill VUndefined) s
  else if supports_callbacks fn args then
    new_Promise site
      (fun s =>
         let args := match args with Some a => a | None => [] end
                     ++ [VCompletion site] in
         match fn_apply site fn args s with
         | (s', Threw e) => (s', Some e)
         | (s', Returned _) => (s', None)
         end) s
  else
    new_Promise site
      (fun s =>
         match fn_apply site fn (match args with Some a => a | None => [] end) s with
         | (s', Threw e) => (s', Some e)
         | (s', Returned result) => (resolve site result s', None)
         end) s.

(** ** Promise.all *)

Fixpoint all_elements (i : nat) (ps : list (option pid)) (s : state) : state :=
  match ps with
  | [] => s
  | Some p :: rest => all_elements (S i) rest (then_ p (RElement i) s)
  | None :: rest =>
      (* Promise.resolve(null).then(...) *)
      all_elements (S i) rest (enqueue (JReaction (RElement i) (Fulfill VNull)) s)
  end.

Definition Promise_all (ps : list (option pid)) (s : state) : state :=
  let a := {| elements := ps; alreadyCalled := [];
              remaining := List.length ps;
              values := repeat VUndefined (List.length ps) |} in
  let s := all_elements 0 ps (set_all (Some a) s) in
  if List.length ps =? 0 then settle PAll (Fulfill (VArray [])) s else s.

Fixpoint set_nth (i : nat) (v : value) (xs : list value) : list value :=
  match xs, i with
  | [], _ => []
  | _ :: rest, 0 => v :: rest
  | x :: rest, S j => x :: set_nth j v rest
  end.

(** Promise.all Resolve Element Functions *)
Definition resolve_element (i : nat) (v : value) (s : state) : state :=
  match all s with
  | None => s
  | Some a =>
      if existsb (Nat.eqb i) (alreadyCalled a) then s
      else
        let a' := {| elements := elements a;
                     alreadyCalled := i :: alreadyCalled a;
                     remaining := remaining a - 1;
                     values := set_nth i v (values a) |} in
        let s' := set_all (Some a') s in
        if remaining a' =? 0
        then settle PAll (Fulfill (VArray (values a'))) s'
        else s'
  end.

(** ** exports.middleware *)

Section Invocation.

(** The variables the closures of [middlewareFn] capture: the merged
    options, the compiled matcher and the [metalsmith] argument. *)
Variable options : props.
Variable matcher : string -> value.
Variable metalsmith : props.

Definition option_ (key : string) : value := get (VObject options) key.

(** The callback of [.map(...)] over the matched filenames, in order;
    [i] is the index in the array. *)
Fixpoint map_each (i : nat) (filenames : list string) (s : state)
  : state * list (option pid) :=
  match filenames with
  | [] => (s, [])
  | filename :: rest =>
      if negb (truthy (files_get s filename)) then
        (* Files can be deleted before they get processed. *)
        let (s', ps) := map_each (S i) rest s in (s', None :: ps)
      else
        let s1 := callFunction (PEach i) (option_ "each")
                    (Some [VStr filename; files_get s filename; files_value s;
                           VObject metalsmith]) s in
        let (s', ps) := map_each (S i) rest s1 in (s', Some (PEach i) :: ps)
  end.

(** [Object.keys(files).filter((filename) => matcher(filename))] *)
Definition matched (s : state) : list string :=
  filter (fun filename => truthy (matcher filename)) (Object_keys (files_value s)).

Definition run_handler (h : handler) (v : value) (s : state) : state * completion :=
  match h with
  | HEach =>
      let (s', promises) := map_each 0 (matched s) s in
      (Promise_all promises s', Returned (Thenable PAll))
  | HAfter =>
      (callFunction PAfter (option_ "after")
         (Some [files_value s; VObject metalsmith]) s,
       Returned (Thenable PAfter))
  | HDone | HDoneErr =>
      (record (EvDone v) s, Returned (Plain VUndefined))
  end.

(** PromiseReactionJob for [p.then(onFulfilled, onRejected)]. *)
Definition react (h : option handler) (derived : pid) (o : outcome) (s : state)
  : state :=
  match h with
  | None => settle derived o s
  | Some h =>
      match run_handler h (match o with Fulfill v => v | Reject e => e end) s with
      | (s', Returned r) => resolve derived r s'
      | (s', Threw e) => settle derived (Reject e) s'
      end
  end.

Definition run_job (j : job) (s : state) : state :=
  match j with
  | JReaction (RThen onFulfilled onRejected derived) o =>
      match o with
      | Fulfill _ => react onFulfilled derived o s
      | Reject _ => react onRejected derived o s
      end
  | JReaction (RResolve target) o => settle target o s
  | JReaction (RElement i) (Fulfill v) => resolve_element i v s
  | JReaction (RElement i) (Reject e) => settle PAll (Reject e) s
  | JResolveThenable target thenable => then_ thenable (RResolve target) s
  end.

Definition run_timer (t : timer) (s : state) : state :=
  match t with
  | TCall f cargs => fst (call_value f cargs s)
  | TSettle p o => settle p o s
  end.

(** One turn of the event loop: the oldest microtask if there is one, else
    the timer that is due first. *)
Definition step (s : state) : option state :=
  match jobs s with
  | j :: rest => Some (run_job j (set_jobs rest s))
  | [] =>
      match timers s with
      | (due, t) :: rest => Some (run_timer t (set_timers rest (Nat.max (clock s) due) s))
      | [] => None
      end
  end.

Fixpoint run (fuel : nat) (s : state) : state :=
  match fuel with
  | 0 => s
  | S k => match step s with Some s' => run k s' | None => s end
  end.

(** The three [.then] calls of [middlewareFn]. *)
Definition then_each : reaction := RThen (Some HEach) None PEachPhase.
Definition then_after : reaction := RThen (Some HAfter) None PAfterPhase.
Definition then_done : reaction := RThen (Some HDone) (Some HDoneErr) PDone.

(** The synchronous part of [middlewareFn(files, metalsmith, done)]. *)
Definition middlewareFn (s : state) : state :=
  let s := callFunction PBefore (option_ "before")
             (Some [files_value s; VObject metalsmith]) s in
  let s := then_ PBefore then_each s in
  let s := then_ PEachPhase then_after s in
  then_ PAfterPhase then_done s.

End Invocation.

(** The state in which the caller invokes the middleware. *)
Definition initial (fs : list (string * props)) : state :=
  {| promises := fun _ => Pending []; jobs := []; timers := []; clock := 0;
     files := fs; all := None; log := [] |}.

Definition middleware_defaults : props :=
  [("after", VFunction FNoop); ("before", VFunction FNoop);
   ("each", VFunction FNoop); ("match", VStr "**/*");
   ("matchOptions", VObject []); ("name", VNull)].

(** What [middleware(options)] returns: the closure [middlewareFn] with the
    variables it captures, and its [name] when it was renamed. *)
Record middlewareFunction : Type := {
  mw_options : props;
  mw_matcher : string -> value;
  mw_name : option value
}.

(** [None] when [filenameMatcher] throws. *)
Definition middleware (options : value) : option middlewareFunction :=
  let options := defaultOptions middleware_defaults options in
  match filenameMatcher (get (VObject options) "match")
                        (get (VObject options) "matchOptions") with
  | None => None
  | Some matcher =>
      Some {| mw_options := options; mw_matcher := matcher;
              mw_name := if truthy (get (VObject options) "name")
                         then Some (get (VObject options) "name") else None |}
  end.

(** [middleware(files, metalsmith, done)] followed by [fuel] turns of the
    event loop. *)
Definition invoke (mw : middlewareFunction) (fs : list (string * props))
  (metalsmith : props) (fuel : nat) : state :=
  run (mw_options mw) (mw_matcher mw) metalsmith fuel
      (middlewareFn (mw_options mw) metalsmith (initial fs)).

End Kit.

(** * Properties *)

(** ** Objects as association lists *)

Lemma lookup_define_same {A : Type} (k : string) (v : A) (o : list (string * A)) :
  lookup k (define k v o) = Some v.
Proof.
  induction o as [|[k' w] rest IH]; simpl.
  - now rewrite String.eqb_refl.
  - destruct (String.eqb k' k) eqn:E; simpl; rewrite E; auto.
Qed.

Lemma lookup_define_other {A : Type} (k k' : string) (v : A) (o : list (string * A)) :
  k <> k' -> lookup k' (define k v o) = lookup k' o.
Proof.
  intros Hne. induction o as [|[k0 w] rest IH]; simpl.
  - destruct (String.eqb_spec k k'); congruence.
  - destruct (String.eqb_spec k0 k) as [->|Hk]; simpl.
    + destruct (String.eqb_spec k k'); congruence.
    + now rewrite IH.
Qed.

Lemma lookup_None_keys {A : Type} (k : string) (o : list (string * A)) :
  lookup k o = None <-> ~ In k (map fst o).
Proof.
  induction o as [|[k0 w] rest IH]; simpl.
  - tauto.
  - destruct (String.eqb_spec k0 k) as [->|Hk].
    + split; [discriminate | tauto].
    + rewrite IH. tauto.
Qed.

Lemma keys_define_present {A : Type} (k : string) (v : A) (o : list (string * A)) :
  In k (map fst o) -> map fst (define k v o) = map fst o.
Proof.
  induction o as [|[k0 w] rest IH]; simpl; [tauto|].
  intros H. destruct (String.eqb_spec k0 k) as [->|Hk]; simpl; auto.
  f_equal. apply IH. destruct H; congruence.
Qed.

Lemma keys_define_absent {A : Type} (k : string) (v : A) (o : list (string * A)) :
  ~ In k (map fst o) -> map fst (define k v o) = map fst o ++ [k].
Proof.
  induction o as [|[k0 w] rest IH]; simpl; auto.
  intros H. destruct (String.eqb_spec k0 k) as [->|Hk]; simpl.
  - tauto.
  - f_equal. apply IH. tauto.
Qed.

Lemma existsb_eqb_In (k : string) (ks : list string) :
  existsb (String.eqb k) ks = true <-> In k ks.
Proof.
  rewrite existsb_exists. split.
  - intros [x [Hin Heq]]. apply String.eqb_eq in Heq. now subst.
  - intros H. exists k. split; auto. apply String.eqb_refl.
Qed.

Lemma lookup_Some_keys {A : Type} (k : string) (o : list (string * A)) :
  (exists v, lookup k o = Some v) <-> In k (map fst o).
Proof.
  destruct (lookup k o) eqn:E.
  - split; [intros _ | eauto].
    destruct (in_dec string_dec k (map fst o)) as [|Hn]; auto.
    apply lookup_None_keys in Hn. congruence.
  - split; [intros [v Hv]; discriminate |].
    intros Hin. apply lookup_None_keys in E. contradiction.
Qed.

(** An assignment defines the property, but for [__proto__]. *)
Lemma assign_own {A : Type} (k : string) (v : A) (o : list (string * A)) :
  hasOwnProperty o k = true -> assign k v o = define k v o.
Proof.
  intros H. unfold assign. rewrite H. now rewrite andb_false_r.
Qed.

Lemma assign_name {A : Type} (k : string) (v : A) (o : list (string * A)) :
  k <> "__proto__" -> assign k v o = define k v o.
Proof.
  intros H. unfold assign. destruct (String.eqb_spec k "__proto__"); [contradiction|].
  reflexivity.
Qed.

Lemma assign_proto {A : Type} (v : A) (o : list (string * A)) :
  hasOwnProperty o "__proto__" = false -> assign "__proto__" v o = o.
Proof. intros H. unfold assign. now rewrite H. Qed.

Lemma lookup_assign_same {A : Type} (k : string) (v : A) (o : list (string * A)) :
  k <> "__proto__" -> lookup k (assign k v o) = Some v.
Proof. intros H. rewrite assign_name by exact H. apply lookup_define_same. Qed.

Lemma lookup_assign_other {A : Type} (k k' : string) (v : A) (o : list (string * A)) :
  k <> k' -> lookup k' (assign k v o) = lookup k' o.
Proof.
  intros Hne. unfold assign.
  destruct (String.eqb k "__proto__" && negb (hasOwnProperty o k)); auto.
  now apply lookup_define_other.
Qed.

(** ** filenameMatcher *)

Section MatcherProperties.

Variable micromatch_matcher : string -> value -> option (string -> bool).
Variable regexp_test : rid -> string -> bool.
Variable predicate : fid -> list value -> value.

Local Abbreviation compiled :=
  (compile_items micromatch_matcher regexp_test predicate).
Local Abbreviation matcher_for :=
  (filenameMatcher micromatch_matcher regexp_test predicate).

(** Whether some compiled element accepts the filename. *)
Definition any_matches (ps : list (list value -> value)) (filename : string) : bool :=
  existsb (fun singleMatch => truthy (singleMatch [VStr filename])) ps.

Lemma some_any (ps : list (list value -> value)) (filename : string) :
  some ps filename = any_matches ps filename.
Proof.
  unfold any_matches.
  induction ps as [|p ps IH]; simpl; auto.
  destruct (truthy (p [VStr filename])); auto.
Qed.

(** C8. The compiled predicate accepts a filename exactly when one of the
    compiled elements of the normalized list does; with two or more
    elements, and with none, it returns that disjunction as a boolean.  For
    an empty list it is the constant [false]. *)
Theorem filenameMatcher_any (m options : value) (matchFn : string -> value) :
  matcher_for m options = Some matchFn ->
  exists ps,
    compiled options (concat_match m) = Some ps /\
    (forall filename,
        truthy (matchFn filename) = any_matches ps filename) /\
    (List.length ps <> 1 ->
     forall filename, matchFn filename = VBool (any_matches ps filename)) /\
    (concat_match m = [] -> forall filename, matchFn filename = VBool false).
Proof.
  unfold filenameMatcher.
  destruct (concat_match m) as [|item items] eqn:Hm.
  - intros H. injection H as <-. exists []. simpl. repeat split; auto.
  - destruct (compiled options (item :: items)) as [ps|] eqn:Hc;
      [|discriminate].
    intros H. exists ps. split; auto.
    destruct ps as [|single [|second more]]; injection H as <-.
    + repeat split; auto; discriminate.
    + repeat split; try discriminate.
      * intros filename. unfold any_matches. simpl. now rewrite orb_false_r.
      * simpl. congruence.
    + repeat split; try discriminate.
      * intros filename. now rewrite <- some_any.
      * intros _ filename. now rewrite <- some_any.
Qed.

(** A match item that is a function is compiled to that function, and the
    compiled predicate calls it with one argument, the filename. *)
Lemma filenameMatcher_function (f : fid) (options : value) :
  exists matchFn,
    matcher_for (VFunction f) options = Some matchFn /\
    forall filename,
      matchFn filename = call_predicate predicate f [VStr filename].
Proof.
  eexists. split; [reflexivity|]. reflexivity.
Qed.

End MatcherProperties.

(** ** The promise machinery: what each operation changes *)

Unset Implicit Arguments.

Lemma pid_eqb_spec (a b : pid) : reflect (a = b) (pid_eqb a b).
Proof.
  revert b. induction a; intros b; destruct b; simpl;
    try (now constructor); try (constructor; discriminate).
  - destruct (Nat.eqb_spec i i0); constructor; congruence.
  - destruct (IHa b); constructor; congruence.
Qed.

Lemma pid_eqb_refl (a : pid) : pid_eqb a a = true.
Proof. destruct (pid_eqb_spec a a); congruence. Qed.

(** The log only grows. *)
Definition log_extends (s s' : state) : Prop := exists l, log s' = log s ++ l.

Lemma log_extends_refl (s : state) : log_extends s s.
Proof. exists []. now rewrite app_nil_r. Qed.

Lemma log_extends_trans (s1 s2 s3 : state) :
  log_extends s1 s2 -> log_extends s2 s3 -> log_extends s1 s3.
Proof.
  intros [l1 H1] [l2 H2]. exists (l1 ++ l2). now rewrite H2, H1, app_assoc.
Qed.

Lemma settle_log (p : pid) (o : outcome) (s : state) :
  log (settle p o s) =
  match promises s p with
  | Pending _ => log s ++ [EvSettle p o]
  | Settled _ => log s
  end.
Proof. unfold settle. now destruct (promises s p). Qed.

Lemma settle_promises (p : pid) (o : outcome) (s : state) (q : pid) :
  promises (settle p o s) q =
  match promises s p with
  | Pending _ => if pid_eqb q p then Settled o else promises s q
  | Settled _ => promises s q
  end.
Proof. unfold settle. now destruct (promises s p). Qed.

Lemma settle_jobs (p : pid) (o : outcome) (s : state) :
  jobs (settle p o s) =
  match promises s p with
  | Pending rs => jobs s ++ map (fun r => JReaction r o) rs
  | Settled _ => jobs s
  end.
Proof. unfold settle. now destruct (promises s p). Qed.

Lemma settle_other (p : pid) (o : outcome) (s : state) :
  timers (settle p o s) = timers s /\ clock (settle p o s) = clock s /\
  files (settle p o s) = files s /\ all (settle p o s) = all s.
Proof. unfold settle. now destruct (promises s p). Qed.

Lemma settle_pending (p : pid) (o : outcome) (s : state) (rs : list reaction) :
  promises s p = Pending rs -> promises (settle p o s) p = Settled o.
Proof. intros H. rewrite settle_promises, H. now rewrite pid_eqb_refl. Qed.

Lemma settle_settled (p : pid) (o o' : outcome) (s : state) :
  promises s p = Settled o' -> settle p o s = s.
Proof. intros H. unfold settle. now rewrite H. Qed.

Lemma settle_log_extends (p : pid) (o : outcome) (s : state) :
  log_extends s (settle p o s).
Proof.
  unfold log_extends. rewrite settle_log.
  destruct (promises s p); [eexists; reflexivity | apply log_extends_refl].
Qed.

Lemma log_extends_eq (s s' : state) : log s' = log s -> log_extends s s'.
Proof. intros H. exists []. now rewrite H, app_nil_r. Qed.

Lemma then_log (p : pid) (r : reaction) (s : state) : log (then_ p r s) = log s.
Proof. unfold then_. now destruct (promises s p). Qed.

Lemma resolve_log_extends (p : pid) (r : result) (s : state) :
  log_extends s (resolve p r s).
Proof.
  destruct r; simpl; [apply settle_log_extends | now apply log_extends_eq].
Qed.

Lemma completion_function_log_extends (p : pid) (err v : value) (s : state) :
  log_extends s (completion_function p err v s).
Proof.
  unfold completion_function.
  destruct (truthy err); [apply settle_log_extends | apply resolve_log_extends].
Qed.

Lemma call_value_log_extends (f : value) (cargs : list value) (s : state) :
  log_extends s (fst (call_value f cargs s)).
Proof.
  destruct f; simpl; try (now apply log_extends_eq).
  apply completion_function_log_extends.
Qed.

Lemma run_action_log_extends (args : list value) (a : action) (s : state) :
  log_extends s (fst (run_action args a s)).
Proof.
  destruct a; simpl; try (now apply log_extends_eq).
  apply call_value_log_extends.
Qed.

Lemma run_steps_log_extends (args : list value) (acts : list action) (s : state) :
  log_extends s (fst (run_steps args acts s)).
Proof.
  revert s. induction acts as [|a acts IH]; intros s; simpl.
  - apply log_extends_refl.
  - pose proof (run_action_log_extends args a s) as Ha.
    destruct (run_action args a s) as [s' [e|]]; simpl in *; auto.
    eapply log_extends_trans; eauto.
Qed.

Lemma hook_promise_log_extends (q : pid) (b : promise_script) (s : state) :
  log_extends s (hook_promise q b s).
Proof.
  destruct b; simpl; try (now apply log_extends_eq). apply settle_log_extends.
Qed.

Lemma record_log_extends (ev : event) (s : state) : log_extends s (record ev s).
Proof. now exists [ev]. Qed.

(** ** callFunction *)

Section CallFunction.

Variable code : fid -> jsfun.

Local Abbreviation fn_of := (function_of code).
Local Abbreviation call := (callFunction code).
Local Abbreviation callbacks := (supports_callbacks code).

(** The state in which the body of a function starts. *)
Definition entered (site : pid) (f : fid) (args : list value) (s : state) : state :=
  record (EvCall site f args) (record (EvCallFunction site) s).


(** Calling a function directly: the promise takes what the function
    returns or throws. *)
Definition directly (site : pid) (f : fid) (a : list value) (s : state) : state :=
  match run_steps a (steps (fn_body (fn_of f) a)) (entered site f a s) with
  | (s', Some e) => settle site (Reject e) s'
  | (s', None) =>
      match finish_ (fn_body (fn_of f) a) with
      | Return v => settle site (Fulfill v) s'
      | Throw e => settle site (Reject e) s'
      | ReturnPromise b =>
          enqueue (JResolveThenable site (PHook site))
                  (hook_promise (PHook site) b s')
      end
  end.



Lemma callFunction_absent_args (site : pid) (f : fid) (s : state) :
  call site (VFunction f) None s = directly site f [] s.
Proof.
  unfold callFunction, directly, entered. simpl.
  unfold new_Promise, fn_apply. cbn [applied].
  destruct (run_steps _ _ _) as [s' [e|]]; auto.
  destruct (finish_ _); auto.
Qed.

Lemma directly_log (site : pid) (f : fid) (a : list value) (s : state) :
  exists rest,
    log (directly site f a s)
    = log s ++ EvCallFunction site :: EvCall site f a :: rest.
Proof.
  assert (Hent : log (entered site f a s)
                 = log s ++ [EvCallFunction site; EvCall site f a]).
  { unfold entered. simpl. now rewrite <- app_assoc. }
  assert (Hext : forall s', log_extends (entered site f a s) s' ->
            exists rest, log s' = log s ++ EvCallFunction site :: EvCall site f a :: rest).
  { intros s' [l Hl]. exists l. rewrite Hl, Hent. now rewrite <- app_assoc. }
  unfold directly.
  pose proof (run_steps_log_extends a (steps (fn_body (fn_of f) a))
                                    (entered site f a s)) as Hrun.
  destruct (run_steps _ _ _) as [s' [e|]]; simpl in Hrun; apply Hext.
  - eapply log_extends_trans; [exact Hrun | apply settle_log_extends].
  - destruct (finish_ _) as [v|e|b].
    + eapply log_extends_trans; [exact Hrun | apply settle_log_extends].
    + eapply log_extends_trans; [exact Hrun | apply settle_log_extends].
    + eapply log_extends_trans; [exact Hrun |].
      eapply log_extends_trans; [apply hook_promise_log_extends |].
      now apply log_extends_eq.
Qed.






(** C10. Without a list of arguments the completion-callback convention is
    not taken, whatever the number of parameters the function declares: the
    function is applied to no argument, no completion function is passed,
    and the promise takes what the function returns or throws. *)
Theorem callFunction_absent_arguments (site : pid) (f : fid) (s : state) :
  callbacks (VFunction f) None = false /\
  call site (VFunction f) None s = directly site f [] s /\
  exists rest,
    log (call site (VFunction f) None s)
    = log s ++ EvCallFunction site :: EvCall site f [] :: rest.
Proof.
  split; [reflexivity|]. split.
  - apply callFunction_absent_args.
  - rewrite callFunction_absent_args. apply directly_log.
Qed.

End CallFunction.

(** ** Invariants of a middleware invocation *)

Definition hook_site (p : pid) : Prop :=
  match p with
  | PBefore | PAfter | PEach _ => True
  | _ => False
  end.

(** [callFunction] has been entered at the site. *)
Definition started (s : state) (site : pid) : Prop :=
  In (EvCallFunction site) (log s).

(** The element of [Promise.all(promises)] at an index. *)
Definition element (s : state) (i : nat) : option (option pid) :=
  match all s with
  | Some a => nth_error (elements a) i
  | None => None
  end.

(** The reactions a promise of the program can hold. *)
Inductive reaction_ok (s : state) : pid -> reaction -> Prop :=
| rok_before : reaction_ok s PBefore then_each
| rok_eachphase : reaction_ok s PEachPhase then_after
| rok_afterphase : reaction_ok s PAfterPhase then_done
| rok_all : reaction_ok s PAll (RResolve PEachPhase)
| rok_after : reaction_ok s PAfter (RResolve PAfterPhase)
| rok_each i :
    element s i = Some (Some (PEach i)) -> reaction_ok s (PEach i) (RElement i)
| rok_hook x :
    hook_site x -> started s x -> reaction_ok s (PHook x) (RResolve x).

(** The jobs the microtask queue can hold: a reaction job carries the
    outcome of the promise the reaction was attached to. *)
Inductive job_ok (s : state) : job -> Prop :=
| jok_reaction p r o :
    reaction_ok s p r -> promises s p = Settled o -> job_ok s (JReaction r o)
| jok_null i :
    element s i = Some None -> job_ok s (JReaction (RElement i) (Fulfill VNull))
| jok_thenable_all :
    all s <> None -> job_ok s (JResolveThenable PEachPhase PAll)
| jok_thenable_after :
    started s PAfter -> job_ok s (JResolveThenable PAfterPhase PAfter)
| jok_thenable_hook x :
    hook_site x -> started s x -> job_ok s (JResolveThenable x (PHook x)).

Inductive timer_ok (s : state) : timer -> Prop :=
| tok_completion x cargs :
    hook_site x -> started s x -> timer_ok s (TCall (VCompletion x) cargs)
| tok_other f cargs :
    (forall p, f <> VCompletion p) -> timer_ok s (TCall f cargs)
| tok_settle x o :
    hook_site x -> started s x -> timer_ok s (TSettle (PHook x) o).

(** The failures of [each] invocations, in the order of the log. *)
Fixpoint each_failures (l : list event) : list (nat * value) :=
  match l with
  | [] => []
  | EvSettle (PEach i) (Reject e) :: rest => (i, e) :: each_failures rest
  | _ :: rest => each_failures rest
  end.

(** The rejections waiting to reach [Promise.all], in queue order. *)
Fixpoint queued_failures (js : list job) : list (nat * value) :=
  match js with
  | [] => []
  | JReaction (RElement i) (Reject e) :: rest => (i, e) :: queued_failures rest
  | _ :: rest => queued_failures rest
  end.

Definition is_then_each (j : job) : bool :=
  match j with
  | JReaction (RThen (Some HEach) _ _) _ => true
  | _ => false
  end.

Definition is_each_call (ev : event) : bool :=
  match ev with
  | EvCall (PEach _) _ _ => true
  | _ => false
  end.

(** The invocations of the [each] hook, in the order of the log. *)
Definition each_calls (l : list event) : list event := filter is_each_call l.

Record Base (s : state) : Prop := {
  (* what is attached and queued *)
  b_reactions : forall p rs r,
      promises s p = Pending rs -> In r rs -> reaction_ok s p r;
  b_jobs : forall j, In j (jobs s) -> job_ok s j;
  b_timers : forall d t, In (d, t) (timers s) -> timer_ok s t;
  (* the log and the heap *)
  b_settle_log : forall p o, In (EvSettle p o) (log s) <-> promises s p = Settled o;
  b_call_started : forall site f args,
      In (EvCall site f args) (log s) -> started s site;
  b_started_site : forall site, started s site -> hook_site site;
  b_settled_started : forall x o,
      hook_site x -> promises s x = Settled o -> started s x;
  (* the phases *)
  b_started_each : forall i,
      started s (PEach i) -> exists v, promises s PBefore = Settled (Fulfill v);
  b_all_before : all s <> None -> exists v, promises s PBefore = Settled (Fulfill v);
  b_all_pending : all s = None -> promises s PAll = Pending [];
  b_started_after : started s PAfter ->
      exists v, promises s PEachPhase = Settled (Fulfill v);
  b_eachphase : forall o,
      promises s PEachPhase = Settled o ->
      (exists e, o = Reject e /\ promises s PBefore = Settled (Reject e))
      \/ promises s PAll = Settled o;
  b_afterphase : forall o,
      promises s PAfterPhase = Settled o ->
      (exists e, o = Reject e /\ promises s PEachPhase = Settled (Reject e))
      \/ promises s PAfter = Settled o;
  b_done : forall x,
      In (EvDone x) (log s) ->
      promises s PAfterPhase = Settled (Fulfill x)
      \/ promises s PAfterPhase = Settled (Reject x);
  (* Promise.all *)
  b_elements : forall i p,
      element s i = Some (Some p) -> p = PEach i /\ started s (PEach i);
  b_started_element : forall i a,
      started s (PEach i) -> all s = Some a ->
      nth_error (elements a) i = Some (Some (PEach i));
  b_called_lt : forall a i,
      all s = Some a -> In i (alreadyCalled a) -> i < List.length (elements a);
  b_called_fulfilled : forall a i p,
      all s = Some a -> In i (alreadyCalled a) ->
      nth_error (elements a) i = Some (Some p) ->
      exists v, promises s p = Settled (Fulfill v);
  b_called_nodup : forall a, all s = Some a -> NoDup (alreadyCalled a);
  b_remaining : forall a,
      all s = Some a ->
      remaining a + List.length (alreadyCalled a) = List.length (elements a);
  b_all_fulfilled : forall v i p,
      promises s PAll = Settled (Fulfill v) ->
      element s i = Some (Some p) ->
      exists w, promises s p = Settled (Fulfill w);
  b_all_rejected : forall e,
      promises s PAll = Settled (Reject e) ->
      exists i rest, each_failures (log s) = (i, e) :: rest
}.

(** What holds once [Promise.all] has attached its reactions and the each
    phase has returned its promise: a failure makes its way to
    [Promise.all] and from there to the promise of the phase. *)
Record Linked (s : state) : Prop := {
  l_each_reaction : forall i rs,
      element s i = Some (Some (PEach i)) ->
      promises s (PEach i) = Pending rs -> rs = [RElement i];
  l_failures_queued : forall rs,
      all s <> None -> promises s PAll = Pending rs ->
      each_failures (log s) = queued_failures (jobs s);
  l_each_failure : forall i e,
      element s i = Some (Some (PEach i)) ->
      promises s (PEach i) = Settled (Reject e) ->
      In (JReaction (RElement i) (Reject e)) (jobs s)
      \/ exists e', promises s PAll = Settled (Reject e');
  l_all_token :
      all s <> None ->
      In (JResolveThenable PEachPhase PAll) (jobs s)
      \/ (exists rs, promises s PAll = Pending rs /\ In (RResolve PEachPhase) rs)
      \/ (exists o, promises s PAll = Settled o /\
                    (In (JReaction (RResolve PEachPhase) o) (jobs s)
                     \/ promises s PEachPhase = Settled o))
}.

(** What holds once the three [.then] calls of [middlewareFn] are made. *)
Record Chain (s : state) : Prop := {
  c_before : forall rs, promises s PBefore = Pending rs -> rs = [then_each];
  c_eachphase : forall rs, promises s PEachPhase = Pending rs -> rs = [then_after];
  c_afterphase : forall rs, promises s PAfterPhase = Pending rs -> rs = [then_done];
  c_before_failure : forall e,
      promises s PBefore = Settled (Reject e) ->
      In (JReaction then_each (Reject e)) (jobs s)
      \/ promises s PEachPhase = Settled (Reject e);
  c_eachphase_failure : forall e,
      promises s PEachPhase = Settled (Reject e) ->
      In (JReaction then_after (Reject e)) (jobs s)
      \/ promises s PAfterPhase = Settled (Reject e);
  c_afterphase_failure : forall e,
      promises s PAfterPhase = Settled (Reject e) ->
      In (JReaction then_done (Reject e)) (jobs s)
      \/ In (EvDone e) (log s);
  (* the each phase is entered at most once *)
  c_then_each_once : List.length (filter is_then_each (jobs s)) <= 1;
  c_then_each_pending : forall rs,
      promises s PBefore = Pending rs -> filter is_then_each (jobs s) = [];
  c_then_each_all : all s <> None -> filter is_then_each (jobs s) = []
}.

(** What holds except while the each phase is dispatching. *)
Definition Fresh (s : state) : Prop :=
  all s = None -> forall i, ~ started s (PEach i).

Definition Inv (s : state) : Prop := Base s /\ Linked s /\ Chain s /\ Fresh s.

(** *** Monotonicity *)

(** [sub s s']: what is settled in [s] is settled in [s'], the log of [s]
    is part of the log of [s'], and [Promise.all] keeps its elements. *)
Definition sub (s s' : state) : Prop :=
  (forall p o, promises s p = Settled o -> promises s' p = Settled o) /\
  (forall ev, In ev (log s) -> In ev (log s')) /\
  (forall a, all s = Some a ->
             exists a', all s' = Some a' /\ elements a' = elements a).

Lemma sub_refl (s : state) : sub s s.
Proof. repeat split; eauto. Qed.

Lemma sub_trans (s1 s2 s3 : state) : sub s1 s2 -> sub s2 s3 -> sub s1 s3.
Proof.
  intros (P1 & L1 & A1) (P2 & L2 & A2). repeat split; auto.
  intros a Ha. destruct (A1 a Ha) as (a' & Ha' & E1).
  destruct (A2 a' Ha') as (a'' & Ha'' & E2). exists a''. split; congruence.
Qed.

Lemma started_sub (s s' : state) (x : pid) : sub s s' -> started s x -> started s' x.
Proof. intros (_ & L & _). apply L. Qed.

Lemma element_sub (s s' : state) (i : nat) (x : option pid) :
  sub s s' -> element s i = Some x -> element s' i = Some x.
Proof.
  intros (_ & _ & A). unfold element.
  destruct (all s) as [a|] eqn:E; [|discriminate].
  destruct (A a eq_refl) as (a' & -> & ->). auto.
Qed.

Lemma all_sub (s s' : state) : sub s s' -> all s <> None -> all s' <> None.
Proof.
  intros (_ & _ & A) H. destruct (all s) as [a|]; [|congruence].
  destruct (A a eq_refl) as (a' & -> & _). discriminate.
Qed.

Lemma reaction_ok_sub (s s' : state) (p : pid) (r : reaction) :
  sub s s' -> reaction_ok s p r -> reaction_ok s' p r.
Proof.
  intros Hsub H. destruct H; constructor;
    eauto using started_sub, element_sub.
Qed.

Lemma job_ok_sub (s s' : state) (j : job) : sub s s' -> job_ok s j -> job_ok s' j.
Proof.
  intros Hsub H. destruct H.
  - eapply jok_reaction; [eapply reaction_ok_sub; eauto | now apply Hsub].
  - constructor. eauto using element_sub.
  - constructor. eauto using all_sub.
  - constructor. eauto using started_sub.
  - constructor; eauto using started_sub.
Qed.

Lemma timer_ok_sub (s s' : state) (t : timer) : sub s s' -> timer_ok s t -> timer_ok s' t.
Proof.
  intros Hsub H. destruct H; constructor; eauto using started_sub.
Qed.

Lemma each_failures_app (l1 l2 : list event) :
  each_failures (l1 ++ l2) = each_failures l1 ++ each_failures l2.
Proof.
  induction l1 as [|ev l1 IH]; simpl; auto.
  destruct ev as [| |p o|]; auto.
  destruct p; auto. destruct o; auto. simpl. now rewrite IH.
Qed.

Lemma queued_failures_app (l1 l2 : list job) :
  queued_failures (l1 ++ l2) = queued_failures l1 ++ queued_failures l2.
Proof.
  induction l1 as [|j l1 IH]; simpl; auto.
  destruct j as [r o|]; auto.
  destruct r; auto. destruct o; auto. simpl. now rewrite IH.
Qed.

(** *** Settling a promise *)

Lemma settle_state (p : pid) (o : outcome) (s : state) (rs : list reaction) :
  promises s p = Pending rs ->
  settle p o s =
  record (EvSettle p o)
    (set_jobs (jobs s ++ map (fun r => JReaction r o) rs)
       (set_promise p (Settled o) s)).
Proof. intros H. unfold settle. now rewrite H. Qed.

Lemma settle_sub (p : pid) (o : outcome) (s : state) : sub s (settle p o s).
Proof.
  destruct (promises s p) as [rs|o'] eqn:E.
  - rewrite (settle_state _ o _ _ E). repeat split; simpl.
    + intros q o' Hq. destruct (pid_eqb_spec q p); [congruence | auto].
    + intros ev Hev. apply in_or_app. auto.
    + eauto.
  - rewrite (settle_settled _ o _ _ E). apply sub_refl.
Qed.

Lemma In_snoc {A : Type} (x y : A) (l : list A) :
  In x (l ++ [y]) <-> In x l \/ y = x.
Proof. rewrite in_app_iff. simpl. tauto. Qed.

Ltac pid_cases :=
  repeat match goal with
         | H : context [pid_eqb ?a ?b] |- _ =>
             destruct (pid_eqb_spec a b); try subst; try discriminate; try congruence
         | |- context [pid_eqb ?a ?b] =>
             destruct (pid_eqb_spec a b); try subst; try discriminate; try congruence
         end.

Lemma settle_base (p : pid) (o : outcome) (s : state) (rs : list reaction) :
  Base s ->
  promises s p = Pending rs ->
  (hook_site p -> started s p) ->
  (p = PEachPhase ->
   (exists e, o = Reject e /\ promises s PBefore = Settled (Reject e))
   \/ promises s PAll = Settled o) ->
  (p = PAfterPhase ->
   (exists e, o = Reject e /\ promises s PEachPhase = Settled (Reject e))
   \/ promises s PAfter = Settled o) ->
  (p = PAll ->
   all s <> None /\
   match o with
   | Fulfill _ => forall i q, element s i = Some (Some q) ->
                              exists w, promises s q = Settled (Fulfill w)
   | Reject e => exists i rest, each_failures (log s) = (i, e) :: rest
   end) ->
  Base (settle p o s).
Proof.
  intros B Hp Hstarted Heach Hafter Hall.
  pose proof (settle_sub p o s) as Hsub.
  rewrite (settle_state _ o _ _ Hp) in *.
  set (s' := record _ _) in *.
  assert (Hprom : forall q, promises s' q
                            = if pid_eqb q p then Settled o else promises s q)
    by reflexivity.
  assert (Hlog : log s' = log s ++ [EvSettle p o]) by reflexivity.
  assert (Hall' : all s' = all s) by reflexivity.
  assert (Helem : forall i, element s' i = element s i) by reflexivity.
  assert (Hst : forall x, started s' x <-> started s x).
  { intros x. unfold started. rewrite Hlog, In_snoc.
    split; [intros [H|H]; [auto | discriminate] | auto]. }
  destruct Hsub as (Hs1 & Hs2 & Hs3).
  assert (Hsub : sub s s') by (repeat split; auto).
  constructor.
  - intros q rs' r Hq Hr. rewrite Hprom in Hq. pid_cases.
    eapply reaction_ok_sub; eauto. eapply b_reactions; eauto.
  - intros j Hj. simpl in Hj. apply in_app_or in Hj. destruct Hj as [Hj|Hj].
    + eapply job_ok_sub; eauto. eapply b_jobs; eauto.
    + apply in_map_iff in Hj. destruct Hj as (r & <- & Hr).
      eapply jok_reaction with (p := p).
      * eapply reaction_ok_sub; eauto. eapply b_reactions; eauto.
      * rewrite Hprom. now rewrite pid_eqb_refl.
  - intros d t Ht. eapply timer_ok_sub; eauto. eapply b_timers; eauto.
  - intros q o'. rewrite Hlog, In_snoc, Hprom.
    destruct (pid_eqb_spec q p) as [->|Hne].
    + split.
      * intros [H|H]; [|congruence].
        apply (b_settle_log _ B) in H. congruence.
      * intros H. right. congruence.
    + rewrite (b_settle_log _ B). split; [intros [H|H]; congruence | auto].
  - intros site f args. rewrite Hlog, In_snoc, Hst.
    intros [H|H]; [|discriminate]. eapply b_call_started; eauto.
  - intros site. rewrite Hst. apply (b_started_site _ B).
  - intros x o' Hx. rewrite Hprom, Hst.
    destruct (pid_eqb_spec x p) as [->|Hne]; auto.
    intros H. eapply b_settled_started; eauto.
  - intros i. rewrite Hst. intros H.
    destruct (b_started_each _ B _ H) as [v Hv]. eauto.
  - rewrite Hall'. intros H. destruct (b_all_before _ B H) as [v Hv]. eauto.
  - rewrite Hall'. intros H. rewrite Hprom.
    destruct (pid_eqb_spec PAll p) as [<-|Hne]; [|now apply (b_all_pending _ B)].
    destruct (Hall eq_refl). contradiction.
  - rewrite Hst. intros H. destruct (b_started_after _ B H) as [v Hv]. eauto.
  - intros o'. rewrite Hprom.
    destruct (pid_eqb_spec PEachPhase p) as [<-|Hne].
    + intros [= <-]. destruct (Heach eq_refl) as [(e & -> & He)|H]; eauto.
    + intros H. destruct (b_eachphase _ B _ H) as [(e & -> & He)|H']; eauto.
  - intros o'. rewrite Hprom.
    destruct (pid_eqb_spec PAfterPhase p) as [<-|Hne].
    + intros [= <-]. destruct (Hafter eq_refl) as [(e & -> & He)|H]; eauto.
    + intros H. destruct (b_afterphase _ B _ H) as [(e & -> & He)|H']; eauto.
  - intros x. rewrite Hlog, In_snoc. intros [H|H]; [|discriminate].
    destruct (b_done _ B _ H); auto.
  - intros i q. rewrite Helem, Hst. apply (b_elements _ B).
  - intros i a. rewrite Hst, Hall'. apply (b_started_element _ B).
  - intros a i. rewrite Hall'. apply (b_called_lt _ B).
  - intros a i q. rewrite Hall'. intros Ha Hi Hn.
    destruct (b_called_fulfilled _ B _ _ _ Ha Hi Hn) as [v Hv]. eauto.
  - intros a. rewrite Hall'. apply (b_called_nodup _ B).
  - intros a. rewrite Hall'. apply (b_remaining _ B).
  - intros v i q. rewrite Hprom, Helem.
    destruct (pid_eqb_spec PAll p) as [<-|Hne].
    + intros [= ->] Hq. destruct (Hall eq_refl) as [_ Hf].
      destruct (Hf _ _ Hq) as [w Hw]. eauto.
    + intros H Hq. destruct (b_all_fulfilled _ B _ _ _ H Hq) as [w Hw]. eauto.
  - intros e. rewrite Hprom, Hlog, each_failures_app.
    destruct (pid_eqb_spec PAll p) as [<-|Hne].
    + intros [= ->]. destruct (Hall eq_refl) as [_ (i & rest & ->)].
      simpl. eauto.
    + intros H. destruct (b_all_rejected _ B _ H) as (i & rest & ->).
      simpl. eauto.
Qed.

(** *** Operations that leave the heap and the log as they are *)

Lemma sub_view (s s' : state) :
  (forall p o, promises s' p = Settled o <-> promises s p = Settled o) ->
  log s' = log s -> all s' = all s ->
  sub s s' /\ sub s' s.
Proof.
  intros Hp Hl Ha. split; repeat split.
  - intros p o. apply Hp.
  - intros ev. now rewrite Hl.
  - intros a. rewrite Ha. eauto.
  - intros p o. apply Hp.
  - intros ev. now rewrite Hl.
  - intros a. rewrite Ha. eauto.
Qed.

(** The heap may gain reactions, the queues may gain and lose entries. *)
Lemma base_view (s s' : state) :
  Base s ->
  (forall p o, promises s' p = Settled o <-> promises s p = Settled o) ->
  (forall p rs r, promises s' p = Pending rs -> In r rs -> reaction_ok s p r) ->
  (all s = None -> promises s' PAll = Pending []) ->
  log s' = log s -> all s' = all s ->
  (forall j, In j (jobs s') -> In j (jobs s) \/ job_ok s j) ->
  (forall d t, In (d, t) (timers s') ->
               (exists d', In (d', t) (timers s)) \/ timer_ok s t) ->
  Base s'.
Proof.
  intros B Hp Hr Hpa Hl Ha Hj Ht.
  destruct (sub_view s s' Hp Hl Ha) as [Hsub Hsub'].
  assert (Hst : forall x, started s' x <-> started s x)
    by (intros x; unfold started; now rewrite Hl).
  assert (Helem : forall i, element s' i = element s i)
    by (intros i; unfold element; now rewrite Ha).
  constructor.
  - intros p rs r H1 H2. eapply reaction_ok_sub; eauto.
  - intros j H. eapply job_ok_sub; eauto.
    destruct (Hj j H); auto. eapply b_jobs; eauto.
  - intros d t H. eapply timer_ok_sub; eauto.
    destruct (Ht d t H) as [[d' H']|H']; auto. eapply b_timers; eauto.
  - intros p o. rewrite Hl, Hp. apply (b_settle_log _ B).
  - intros site f args. rewrite Hl, Hst. apply (b_call_started _ B).
  - intros site. rewrite Hst. apply (b_started_site _ B).
  - intros x o Hx H. apply Hp in H. apply Hst.
    eapply b_settled_started; eauto.
  - intros i. rewrite Hst. intros H.
    destruct (b_started_each _ B _ H) as [v Hv]. exists v. now apply Hp.
  - rewrite Ha. intros H.
    destruct (b_all_before _ B H) as [v Hv]. exists v. now apply Hp.
  - rewrite Ha. exact Hpa.
  - rewrite Hst. intros H.
    destruct (b_started_after _ B H) as [v Hv]. exists v. now apply Hp.
  - intros o H. apply Hp in H.
    destruct (b_eachphase _ B _ H) as [(e & -> & He)|H']; [left|right].
    + exists e. split; auto. now apply Hp.
    + now apply Hp.
  - intros o H. apply Hp in H.
    destruct (b_afterphase _ B _ H) as [(e & -> & He)|H']; [left|right].
    + exists e. split; auto. now apply Hp.
    + now apply Hp.
  - intros x. rewrite Hl. intros H.
    destruct (b_done _ B _ H); [left|right]; now apply Hp.
  - intros i p. rewrite Helem, Hst. apply (b_elements _ B).
  - intros i a. rewrite Hst, Ha. apply (b_started_element _ B).
  - intros a i. rewrite Ha. apply (b_called_lt _ B).
  - intros a i p. rewrite Ha. intros H1 H2 H3.
    destruct (b_called_fulfilled _ B _ _ _ H1 H2 H3) as [v Hv].
    exists v. now apply Hp.
  - intros a. rewrite Ha. apply (b_called_nodup _ B).
  - intros a. rewrite Ha. apply (b_remaining _ B).
  - intros v i p. rewrite Helem. intros H1 H2. apply Hp in H1.
    destruct (b_all_fulfilled _ B _ _ _ H1 H2) as [w Hw].
    exists w. now apply Hp.
  - intros e. rewrite Hl. intros H. apply Hp in H.
    now apply (b_all_rejected _ B).
Qed.

(** The same, when the heap is left as it is. *)
Lemma base_queues (s s' : state) :
  Base s ->
  (forall p, promises s' p = promises s p) -> log s' = log s -> all s' = all s ->
  (forall j, In j (jobs s') -> In j (jobs s) \/ job_ok s j) ->
  (forall d t, In (d, t) (timers s') ->
               (exists d', In (d', t) (timers s)) \/ timer_ok s t) ->
  Base s'.
Proof.
  intros B Hp Hl Ha Hj Ht. apply (base_view s); auto.
  - intros p o. now rewrite Hp.
  - intros p rs r. rewrite Hp. apply (b_reactions _ B).
  - rewrite Hp. apply (b_all_pending _ B).
Qed.

Lemma base_pop (s : state) (j : job) (rest : list job) :
  Base s -> jobs s = j :: rest -> Base (set_jobs rest s).
Proof.
  intros B Hj. apply (base_queues s); auto.
  - simpl. intros j' H. left. rewrite Hj. now right.
  - simpl. eauto.
Qed.

Lemma base_enqueue (s : state) (j : job) :
  Base s -> job_ok s j -> Base (enqueue j s).
Proof.
  intros B Hj. apply (base_queues s); auto.
  - simpl. intros j' H. apply in_app_or in H. destruct H as [H|[<-|[]]]; auto.
  - simpl. eauto.
Qed.

Lemma In_insert_timer (due : nat) (t : timer) (ts : list (nat * timer))
  (d : nat) (u : timer) :
  In (d, u) (insert_timer due t ts) -> In (d, u) ts \/ (d, u) = (due, t).
Proof.
  induction ts as [|[d0 u0] ts IH]; simpl.
  - intros [H|[]]; auto.
  - destruct (due <? d0); simpl.
    + intros [H|[H|H]]; auto.
    + intros [H|H]; auto. destruct (IH H); auto.
Qed.

Lemma base_setTimeout (s : state) (t : timer) (delay : nat) :
  Base s -> timer_ok s t -> Base (setTimeout t delay s).
Proof.
  intros B Ht. apply (base_queues s); auto.
  simpl. intros d u H. apply In_insert_timer in H.
  destruct H as [H|[= -> ->]]; eauto.
Qed.

Lemma base_set_files (s : state) (fs : list (string * props)) :
  Base s -> Base (set_files fs s).
Proof. intros B. apply (base_queues s); simpl; eauto. Qed.

Lemma base_timer_pop (s : state) (d : nat) (t : timer)
  (rest : list (nat * timer)) (now : nat) :
  Base s -> timers s = (d, t) :: rest -> Base (set_timers rest now s).
Proof.
  intros B Ht. apply (base_queues s); auto.
  simpl. intros d' u H. left. exists d'. rewrite Ht. now right.
Qed.

Lemma linked_view (s s' : state) :
  Linked s ->
  (forall p o, promises s' p = Settled o <-> promises s p = Settled o) ->
  (forall i rs, promises s' (PEach i) = Pending rs ->
                promises s (PEach i) = Pending rs) ->
  (forall rs, promises s PAll = Pending rs ->
              exists rs', promises s' PAll = Pending rs' /\ incl rs rs') ->
  each_failures (log s') = each_failures (log s) -> all s' = all s ->
  incl (jobs s) (jobs s') ->
  queued_failures (jobs s') = queued_failures (jobs s) ->
  Linked s'.
Proof.
  intros L Hp Heach Hall Hl Ha Hj Hq.
  assert (Helem : forall i, element s' i = element s i)
    by (intros i; unfold element; now rewrite Ha).
  assert (Hpending : forall p rs, promises s' p = Pending rs ->
                                  exists rs0, promises s p = Pending rs0).
  { intros p rs H. destruct (promises s p) as [rs0|o] eqn:E; eauto.
    apply Hp in E. congruence. }
  constructor.
  - intros i rs. rewrite Helem. intros H1 H2.
    eapply l_each_reaction; eauto.
  - intros rs. rewrite Ha, Hl, Hq. intros H1 H2.
    destruct (Hpending _ _ H2) as [rs0 H0]. eapply l_failures_queued; eauto.
  - intros i e. rewrite Helem. intros H1 H2. apply Hp in H2.
    destruct (l_each_failure _ L _ _ H1 H2) as [H|[e' H]]; [left|right].
    + now apply Hj.
    + exists e'. now apply Hp.
  - rewrite Ha. intros H.
    destruct (l_all_token _ L H) as [H1|[(rs & H1 & H2)|(o & H1 & H2)]].
    + left. now apply Hj.
    + right. left. destruct (Hall _ H1) as (rs' & H3 & H4). eauto.
    + right. right. exists o. split; [now apply Hp|].
      destruct H2 as [H2|H2]; [left; now apply Hj | right; now apply Hp].
Qed.

Lemma chain_view (s s' : state) :
  Chain s ->
  (forall p o, promises s' p = Settled o <-> promises s p = Settled o) ->
  promises s' PBefore = promises s PBefore ->
  promises s' PEachPhase = promises s PEachPhase ->
  promises s' PAfterPhase = promises s PAfterPhase ->
  incl (log s) (log s') -> all s' = all s ->
  incl (jobs s) (jobs s') ->
  filter is_then_each (jobs s') = filter is_then_each (jobs s) ->
  Chain s'.
Proof.
  intros C Hp H1 H2 H3 Hl Ha Hj Hf.
  constructor.
  - rewrite H1. apply (c_before _ C).
  - rewrite H2. apply (c_eachphase _ C).
  - rewrite H3. apply (c_afterphase _ C).
  - intros e. rewrite H1, H2. intros H.
    destruct (c_before_failure _ C _ H); auto.
  - intros e. rewrite H2, H3. intros H.
    destruct (c_eachphase_failure _ C _ H); auto.
  - intros e. rewrite H3. intros H.
    destruct (c_afterphase_failure _ C _ H); auto.
  - rewrite Hf. apply (c_then_each_once _ C).
  - rewrite H1, Hf. apply (c_then_each_pending _ C).
  - rewrite Ha, Hf. apply (c_then_each_all _ C).
Qed.

(** Taking the first job off the queue, after it has run. *)
Lemma linked_pop (s : state) (j : job) (rest : list job) :
  Linked s -> jobs s = j :: rest ->
  (forall i e, j = JReaction (RElement i) (Reject e) ->
               exists e', promises s PAll = Settled (Reject e')) ->
  (j = JResolveThenable PEachPhase PAll ->
   (exists rs, promises s PAll = Pending rs /\ In (RResolve PEachPhase) rs)
   \/ (exists o, promises s PAll = Settled o /\
                 (In (JReaction (RResolve PEachPhase) o) rest
                  \/ promises s PEachPhase = Settled o))) ->
  (forall o, j = JReaction (RResolve PEachPhase) o ->
             exists o', promises s PAll = Settled o' /\
                        promises s PEachPhase = Settled o') ->
  Linked (set_jobs rest s).
Proof.
  intros L Hj Helement Hthenable Hresolve.
  constructor; simpl.
  - apply (l_each_reaction _ L).
  - intros rs H1 H2. rewrite (l_failures_queued _ L rs H1 H2), Hj.
    destruct j as [[| |i] [v|e]|]; auto.
    destruct (Helement i e eq_refl) as [e' H]. congruence.
  - intros i e H1 H2.
    destruct (l_each_failure _ L _ _ H1 H2) as [H|H]; auto.
    rewrite Hj in H. destruct H as [Heq|H]; auto.
    right. eapply Helement; eauto.
  - intros H.
    destruct (l_all_token _ L H) as [H1|[H1|(o & H1 & [H2|H2])]]; auto.
    + rewrite Hj in H1. destruct H1 as [Heq|H1]; auto.
    + rewrite Hj in H2. destruct H2 as [Heq|H2]; eauto 6.
      destruct (Hresolve o Heq) as (o' & H3 & H4).
      right. right. exists o'. auto.
    + eauto 6.
Qed.

Lemma chain_pop (s : state) (j : job) (rest : list job) :
  Chain s -> jobs s = j :: rest ->
  (forall e, j = JReaction then_each (Reject e) ->
             promises s PEachPhase = Settled (Reject e)) ->
  (forall e, j = JReaction then_after (Reject e) ->
             promises s PAfterPhase = Settled (Reject e)) ->
  (forall e, j = JReaction then_done (Reject e) -> In (EvDone e) (log s)) ->
  Chain (set_jobs rest s).
Proof.
  intros C Hj Heach Hafter Hdone.
  assert (Hf : forall l, filter is_then_each (jobs s) = l ->
                         List.length (filter is_then_each rest) <= List.length l).
  { intros l <-. rewrite Hj. simpl. destruct (is_then_each j); simpl; lia. }
  assert (Hnil : filter is_then_each (jobs s) = [] -> filter is_then_each rest = []).
  { intros H. specialize (Hf _ H). simpl in Hf.
    destruct (filter is_then_each rest); auto. simpl in Hf. lia. }
  constructor; simpl.
  - apply (c_before _ C).
  - apply (c_eachphase _ C).
  - apply (c_afterphase _ C).
  - intros e H. destruct (c_before_failure _ C _ H) as [H'|H']; auto.
    rewrite Hj in H'. destruct H' as [Heq|H']; auto.
  - intros e H. destruct (c_eachphase_failure _ C _ H) as [H'|H']; auto.
    rewrite Hj in H'. destruct H' as [Heq|H']; auto.
  - intros e H. destruct (c_afterphase_failure _ C _ H) as [H'|H']; auto.
    rewrite Hj in H'. destruct H' as [Heq|H']; auto.
  - pose proof (c_then_each_once _ C). specialize (Hf _ eq_refl). lia.
  - intros rs H. apply Hnil. eapply c_then_each_pending; eauto.
  - intros H. apply Hnil. now apply (c_then_each_all _ C).
Qed.

Lemma queued_failures_none (o : outcome) (rs : list reaction) :
  (forall r i, In r rs -> r <> RElement i) ->
  queued_failures (map (fun r => JReaction r o) rs) = [].
Proof.
  induction rs as [|r rs IH]; simpl; auto.
  intros H. rewrite IH by (intros; apply H; auto).
  destruct r as [| |i]; auto. exfalso. apply (H (RElement i) i); auto.
Qed.

Lemma then_each_none (o : outcome) (rs : list reaction) :
  (forall r, In r rs -> r <> then_each) ->
  (forall r, In r rs -> forall h1 h2 d, r = RThen h1 h2 d ->
                        r = then_each \/ r = then_after \/ r = then_done) ->
  filter is_then_each (map (fun r => JReaction r o) rs) = [].
Proof.
  induction rs as [|r rs IH]; simpl; auto.
  intros H1 H2. rewrite IH by (intros; eauto; apply H1; auto).
  destruct r as [h1 h2 d| |]; auto.
  destruct (H2 _ (or_introl eq_refl) h1 h2 d eq_refl) as [H|[H|H]].
  - exfalso. apply (H1 _ (or_introl eq_refl)); auto.
  - now inversion H.
  - now inversion H.
Qed.

Lemma reactions_not_element (s : state) (p : pid) (rs : list reaction) :
  Base s -> promises s p = Pending rs -> (forall i, p <> PEach i) ->
  forall r i, In r rs -> r <> RElement i.
Proof.
  intros B Hp Hne r i Hr ->.
  pose proof (b_reactions _ B _ _ _ Hp Hr) as H. inversion H; subst.
  eapply Hne; eauto.
Qed.

Lemma reactions_not_then_each (s : state) (p : pid) (rs : list reaction) (o : outcome) :
  Base s -> promises s p = Pending rs -> p <> PBefore ->
  filter is_then_each (map (fun r => JReaction r o) rs) = [].
Proof.
  intros B Hp Hne. apply then_each_none.
  - intros r Hr ->.
    pose proof (b_reactions _ B _ _ _ Hp Hr) as H. inversion H; subst.
    congruence.
  - intros r Hr h1 h2 d ->.
    pose proof (b_reactions _ B _ _ _ Hp Hr) as H. inversion H; subst; auto.
Qed.

Lemma settle_failures (p : pid) (o : outcome) (s : state) (rs : list reaction) :
  Base s -> Linked s -> all s <> None ->
  promises s p = Pending rs ->
  (hook_site p -> started s p) ->
  each_failures [EvSettle p o] = queued_failures (map (fun r => JReaction r o) rs).
Proof.
  intros B L Hall Hp Hstarted.
  assert (Hother : (forall i, p <> PEach i) ->
                   each_failures [EvSettle p o]
                   = queued_failures (map (fun r => JReaction r o) rs)).
  { intros Hne. rewrite queued_failures_none.
    - destruct p; auto. exfalso. eapply Hne; eauto.
    - eapply reactions_not_element; eauto. }
  destruct p; try (apply Hother; discriminate).
  destruct (all s) as [a|] eqn:Ha; [|congruence].
  assert (He : element s i = Some (Some (PEach i))).
  { unfold element. rewrite Ha. eapply b_started_element; eauto.
    apply Hstarted. exact I. }
  rewrite (l_each_reaction _ L _ _ He Hp). simpl. now destruct o.
Qed.

Lemma settle_linked (p : pid) (o : outcome) (s : state) (rs : list reaction) :
  Base s -> Linked s ->
  promises s p = Pending rs ->
  (hook_site p -> started s p) ->
  Linked (settle p o s).
Proof.
  intros B L Hp Hstarted.
  pose proof (settle_sub p o s) as Hsub.
  rewrite (settle_state _ o _ _ Hp) in *.
  set (s' := record _ _) in *.
  assert (Hprom : forall q, promises s' q
                            = if pid_eqb q p then Settled o else promises s q)
    by reflexivity.
  assert (Hjobs : jobs s' = jobs s ++ map (fun r => JReaction r o) rs)
    by reflexivity.
  assert (Hlog : log s' = log s ++ [EvSettle p o]) by reflexivity.
  assert (Hall' : all s' = all s) by reflexivity.
  assert (Helem : forall i, element s' i = element s i) by reflexivity.
  constructor.
  - intros i rs'. rewrite Helem, Hprom. intros H1 H2. pid_cases.
    eapply l_each_reaction; eauto.
  - intros rs'. rewrite Hall', Hprom, Hlog, Hjobs. intros H1 H2. pid_cases.
    rewrite each_failures_app, queued_failures_app.
    rewrite (l_failures_queued _ L _ H1 H2). f_equal.
    eapply settle_failures; eauto.
  - intros i e. rewrite Helem, Hprom, Hjobs. intros H1 H2.
    destruct (pid_eqb_spec (PEach i) p) as [<-|Hne].
    + injection H2 as ->. left.
      rewrite (l_each_reaction _ L _ _ H1 Hp). apply in_or_app. simpl. auto.
    + destruct (l_each_failure _ L _ _ H1 H2) as [H|[e' H]].
      * left. apply in_or_app. auto.
      * right. exists e'. now apply Hsub.
  - rewrite Hall', Hjobs. intros H.
    destruct (l_all_token _ L H) as [H1|[(rs0 & H1 & H2)|(o' & H1 & H2)]].
    + left. apply in_or_app. auto.
    + right. rewrite !Hprom.
      destruct (pid_eqb_spec PAll p) as [<-|Hne].
      * right. exists o. split; auto. left. apply in_or_app. right.
        assert (rs0 = rs) as -> by congruence.
        apply in_map_iff. eauto.
      * left. eauto.
    + right. right. exists o'. split; [now apply Hsub|].
      destruct H2 as [H2|H2]; [left; apply in_or_app; auto | right; now apply Hsub].
Qed.

Lemma settle_chain (p : pid) (o : outcome) (s : state) (rs : list reaction) :
  Base s -> Chain s ->
  promises s p = Pending rs ->
  Chain (settle p o s).
Proof.
  intros B C Hp.
  pose proof (settle_sub p o s) as Hsub.
  rewrite (settle_state _ o _ _ Hp) in *.
  set (s' := record _ _) in *.
  assert (Hprom : forall q, promises s' q
                            = if pid_eqb q p then Settled o else promises s q)
    by reflexivity.
  assert (Hjobs : jobs s' = jobs s ++ map (fun r => JReaction r o) rs)
    by reflexivity.
  assert (Hlog : log s' = log s ++ [EvSettle p o]) by reflexivity.
  assert (Hall' : all s' = all s) by reflexivity.
  assert (Hnew : p <> PBefore ->
                 filter is_then_each (map (fun r => JReaction r o) rs) = [])
    by (intros; eapply reactions_not_then_each; eauto).
  constructor.
  - intros rs'. rewrite Hprom. intros H. pid_cases. now apply (c_before _ C).
  - intros rs'. rewrite Hprom. intros H. pid_cases. now apply (c_eachphase _ C).
  - intros rs'. rewrite Hprom. intros H. pid_cases. now apply (c_afterphase _ C).
  - intros e. rewrite Hjobs, Hprom.
    destruct (pid_eqb_spec PBefore p) as [<-|Hne].
    + intros [= ->]. left. rewrite (c_before _ C _ Hp). apply in_or_app. simpl. auto.
    + intros H. destruct (c_before_failure _ C _ H) as [H'|H'].
      * left. apply in_or_app. auto.
      * right. now apply Hsub.
  - intros e. rewrite Hjobs, Hprom.
    destruct (pid_eqb_spec PEachPhase p) as [<-|Hne].
    + intros [= ->]. left. rewrite (c_eachphase _ C _ Hp). apply in_or_app. simpl. auto.
    + intros H. destruct (c_eachphase_failure _ C _ H) as [H'|H'].
      * left. apply in_or_app. auto.
      * right. now apply Hsub.
  - intros e. rewrite Hjobs, Hprom, Hlog.
    destruct (pid_eqb_spec PAfterPhase p) as [<-|Hne].
    + intros [= ->]. left. rewrite (c_afterphase _ C _ Hp). apply in_or_app. simpl. auto.
    + intros H. destruct (c_afterphase_failure _ C _ H) as [H'|H'].
      * left. apply in_or_app. auto.
      * right. apply in_or_app. auto.
  - rewrite Hjobs, filter_app, length_app.
    destruct (pid_eqb_spec p PBefore) as [->|Hne].
    + rewrite (c_then_each_pending _ C _ Hp), (c_before _ C _ Hp). simpl. lia.
    + rewrite (Hnew Hne). pose proof (c_then_each_once _ C). simpl. lia.
  - intros rs'. rewrite Hprom, Hjobs, filter_app. intros H. pid_cases.
    rewrite (c_then_each_pending _ C _ H). apply Hnew. congruence.
  - rewrite Hall', Hjobs, filter_app. intros H.
    rewrite (c_then_each_all _ C H). simpl. apply Hnew. intros ->.
    destruct (b_all_before _ B H) as [v Hv]. congruence.
Qed.

(** *** Attaching a reaction *)

Lemma then_pending (p : pid) (r : reaction) (s : state) (rs : list reaction) :
  promises s p = Pending rs ->
  then_ p r s = set_promise p (Pending (rs ++ [r])) s.
Proof. intros H. unfold then_. now rewrite H. Qed.

Lemma then_settled (p : pid) (r : reaction) (s : state) (o : outcome) :
  promises s p = Settled o -> then_ p r s = enqueue (JReaction r o) s.
Proof. intros H. unfold then_. now rewrite H. Qed.

Lemma set_promise_promises (p : pid) (st : pstate) (s : state) (q : pid) :
  promises (set_promise p st s) q = if pid_eqb q p then st else promises s q.
Proof. reflexivity. Qed.

Lemma set_promise_settled (p : pid) (rs : list reaction) (s : state)
  (rs0 : list reaction) :
  promises s p = Pending rs0 ->
  forall q o, promises (set_promise p (Pending rs) s) q = Settled o
              <-> promises s q = Settled o.
Proof.
  intros Hp q o. rewrite set_promise_promises.
  destruct (pid_eqb_spec q p) as [->|Hne]; [|tauto].
  rewrite Hp. split; discriminate.
Qed.

Lemma then_base (p : pid) (r : reaction) (s : state) :
  Base s -> reaction_ok s p r -> (p = PAll -> all s <> None) ->
  Base (then_ p r s).
Proof.
  intros B Hr Hall. destruct (promises s p) as [rs|o] eqn:Hp.
  - rewrite (then_pending _ _ _ _ Hp). apply (base_view s); auto.
    + eapply set_promise_settled; eauto.
    + intros q rs' r'. rewrite set_promise_promises.
      destruct (pid_eqb_spec q p) as [->|Hne].
      * intros [= <-] Hin. apply in_app_or in Hin.
        destruct Hin as [Hin|[<-|[]]]; auto. eapply b_reactions; eauto.
      * apply (b_reactions _ B).
    + intros Hnone. rewrite set_promise_promises.
      destruct (pid_eqb_spec PAll p) as [<-|Hne].
      * now destruct (Hall eq_refl).
      * now apply (b_all_pending _ B).
    + simpl. eauto.
  - rewrite (then_settled _ _ _ _ Hp). apply base_enqueue; auto.
    eapply jok_reaction; eauto.
Qed.

Lemma then_linked (p : pid) (r : reaction) (s : state) :
  Linked s -> (forall i, p <> PEach i) -> (forall i, r <> RElement i) ->
  Linked (then_ p r s).
Proof.
  intros L Hp Hr. destruct (promises s p) as [rs|o] eqn:E.
  - rewrite (then_pending _ _ _ _ E). apply (linked_view s); auto.
    + eapply set_promise_settled; eauto.
    + intros i rs'. rewrite set_promise_promises.
      destruct (pid_eqb_spec (PEach i) p) as [<-|Hne]; auto.
      now destruct (Hp i).
    + intros rs'. rewrite set_promise_promises.
      destruct (pid_eqb_spec PAll p) as [<-|Hne].
      * intros H. assert (rs' = rs) as -> by congruence.
        eexists. split; eauto. apply incl_appl, incl_refl.
      * intros H. eexists. split; eauto. apply incl_refl.
    + apply incl_refl.
  - rewrite (then_settled _ _ _ _ E). apply (linked_view s); simpl; auto.
    + tauto.
    + eauto using incl_refl.
    + apply incl_appl, incl_refl.
    + rewrite queued_failures_app. simpl.
      destruct r as [| |i]; try (now rewrite app_nil_r).
      now destruct (Hr i).
Qed.

Lemma then_chain (p : pid) (r : reaction) (s : state) :
  Chain s -> p <> PBefore -> p <> PEachPhase -> p <> PAfterPhase ->
  (forall o, is_then_each (JReaction r o) = false) ->
  Chain (then_ p r s).
Proof.
  intros C H1 H2 H3 Hr. destruct (promises s p) as [rs|o] eqn:E.
  - rewrite (then_pending _ _ _ _ E).
    apply (chain_view s); rewrite ?set_promise_promises; auto.
    + eapply set_promise_settled; eauto.
    + pid_cases.
    + pid_cases.
    + pid_cases.
    + apply incl_refl.
    + apply incl_refl.
  - rewrite (then_settled _ _ _ _ E). apply (chain_view s); simpl; auto.
    + tauto.
    + apply incl_refl.
    + apply incl_appl, incl_refl.
    + rewrite filter_app. cbn [filter]. rewrite Hr. now rewrite app_nil_r.
Qed.

(** *** Events of the log that are not settlements *)

Inductive event_ok (s : state) : event -> Prop :=
| eok_start site :
    hook_site site ->
    (forall i, site = PEach i ->
               all s = None /\ exists v, promises s PBefore = Settled (Fulfill v)) ->
    (site = PAfter -> exists v, promises s PEachPhase = Settled (Fulfill v)) ->
    event_ok s (EvCallFunction site)
| eok_call site f args : started s site -> event_ok s (EvCall site f args)
| eok_done x :
    promises s PAfterPhase = Settled (Fulfill x)
    \/ promises s PAfterPhase = Settled (Reject x) ->
    event_ok s (EvDone x).

Lemma each_failures_event (s : state) (ev : event) (l : list event) :
  event_ok s ev -> each_failures (l ++ [ev]) = each_failures l.
Proof.
  intros H. rewrite each_failures_app. destruct H; simpl; now rewrite app_nil_r.
Qed.

Lemma record_sub (ev : event) (s : state) : sub s (record ev s).
Proof.
  repeat split; simpl; eauto. intros e H. apply in_or_app. auto.
Qed.

Lemma base_record (s : state) (ev : event) :
  Base s -> event_ok s ev -> Base (record ev s).
Proof.
  intros B Hev. pose proof (record_sub ev s) as Hsub.
  set (s' := record ev s) in *.
  assert (Hlog : log s' = log s ++ [ev]) by reflexivity.
  assert (Hprom : forall q, promises s' q = promises s q) by reflexivity.
  assert (Hall : all s' = all s) by reflexivity.
  assert (Helem : forall i, element s' i = element s i) by reflexivity.
  assert (Hst : forall x, started s' x <-> started s x \/ ev = EvCallFunction x).
  { intros x. unfold started. rewrite Hlog, In_snoc. tauto. }
  constructor.
  - intros p rs r. rewrite Hprom. intros H1 H2.
    eapply reaction_ok_sub; eauto. eapply b_reactions; eauto.
  - intros j H. eapply job_ok_sub; eauto. eapply b_jobs; eauto.
  - intros d t H. eapply timer_ok_sub; eauto. eapply b_timers; eauto.
  - intros p o. rewrite Hlog, In_snoc, Hprom, <- (b_settle_log _ B).
    split; auto. intros [H|H]; auto. subst ev. inversion Hev.
  - intros site f args. rewrite Hlog, In_snoc, Hst.
    intros [H|H].
    + left. eapply b_call_started; eauto.
    + subst ev. inversion Hev; subst. auto.
  - intros site. rewrite Hst. intros [H|H].
    + eapply b_started_site; eauto.
    + subst ev. now inversion Hev.
  - intros x o. rewrite Hprom, Hst. intros H1 H2. left.
    eapply b_settled_started; eauto.
  - intros i. rewrite Hst, Hprom. intros [H|H].
    + eapply b_started_each; eauto.
    + subst ev. inversion Hev as [site Hs He Ha| |]; subst.
      now destruct (He i eq_refl).
  - rewrite Hall, Hprom. apply (b_all_before _ B).
  - rewrite Hall, Hprom. apply (b_all_pending _ B).
  - rewrite Hst, !Hprom. intros [H|H].
    + eapply b_started_after; eauto.
    + subst ev. inversion Hev as [site Hs He Ha| |]; subst. auto.
  - intros o. rewrite !Hprom. apply (b_eachphase _ B).
  - intros o. rewrite !Hprom. apply (b_afterphase _ B).
  - intros x. rewrite Hlog, In_snoc, !Hprom. intros [H|H].
    + eapply b_done; eauto.
    + subst ev. now inversion Hev.
  - intros i p. rewrite Helem, Hst. intros H.
    destruct (b_elements _ B _ _ H); auto.
  - intros i a. rewrite Hst, Hall. intros [H|H] Ha.
    + eapply b_started_element; eauto.
    + subst ev. inversion Hev as [site Hs He Hafter| |]; subst.
      destruct (He i eq_refl). congruence.
  - intros a i. rewrite Hall. apply (b_called_lt _ B).
  - intros a i p. rewrite Hall, Hprom. apply (b_called_fulfilled _ B).
  - intros a. rewrite Hall. apply (b_called_nodup _ B).
  - intros a. rewrite Hall. apply (b_remaining _ B).
  - intros v i p. rewrite !Hprom, Helem. apply (b_all_fulfilled _ B).
  - intros e. rewrite Hprom, Hlog, (each_failures_event s); auto.
    apply (b_all_rejected _ B).
Qed.

Lemma linked_record (s : state) (ev : event) :
  Linked s -> event_ok s ev -> Linked (record ev s).
Proof.
  intros L Hev. apply (linked_view s); simpl; auto.
  - tauto.
  - eauto using incl_refl.
  - eapply each_failures_event; eauto.
  - apply incl_refl.
Qed.

Lemma chain_record (s : state) (ev : event) : Chain s -> Chain (record ev s).
Proof.
  intros C. apply (chain_view s); simpl; auto.
  - tauto.
  - apply incl_appl, incl_refl.
  - apply incl_refl.
Qed.

(** *** What a hook does *)

(** The steps a function called at the site [x] takes, as far as the state
    of the invocation goes. *)
Inductive hook_step (x : pid) (s : state) : state -> Prop :=
| hs_settle o : hook_step x s (settle x o s)
| hs_settle_hook o : hook_step x s (settle (PHook x) o s)
| hs_thenable : hook_step x s (enqueue (JResolveThenable x (PHook x)) s)
| hs_timer_call f cargs delay :
    (forall p, f = VCompletion p -> p = x) ->
    hook_step x s (setTimeout (TCall f cargs) delay s)
| hs_timer_settle o delay :
    hook_step x s (setTimeout (TSettle (PHook x) o) delay s)
| hs_files fs : hook_step x s (set_files fs s)
| hs_call f args : hook_step x s (record (EvCall x f args) s).

Inductive hook_steps (x : pid) : state -> state -> Prop :=
| hss_refl s : hook_steps x s s
| hss_step s s' s'' : hook_step x s s' -> hook_steps x s' s'' -> hook_steps x s s''.

Lemma hook_steps_one (x : pid) (s s' : state) : hook_step x s s' -> hook_steps x s s'.
Proof. intros H. eapply hss_step; eauto. constructor. Qed.

Lemma hook_steps_trans (x : pid) (s1 s2 s3 : state) :
  hook_steps x s1 s2 -> hook_steps x s2 s3 -> hook_steps x s1 s3.
Proof.
  induction 1; auto. intros H3. eapply hss_step; eauto.
Qed.

Definition Core (s : state) : Prop := Base s /\ Linked s.

Lemma linked_same (s s' : state) :
  Linked s ->
  (forall p, promises s' p = promises s p) -> log s' = log s -> all s' = all s ->
  jobs s' = jobs s -> Linked s'.
Proof.
  intros L Hp Hl Ha Hj. apply (linked_view s); auto.
  - intros p o. now rewrite Hp.
  - intros i rs. now rewrite Hp.
  - intros rs. rewrite Hp. eauto using incl_refl.
  - now rewrite Hl.
  - rewrite Hj. apply incl_refl.
  - now rewrite Hj.
Qed.

Lemma chain_same (s s' : state) :
  Chain s ->
  (forall p, promises s' p = promises s p) -> log s' = log s -> all s' = all s ->
  jobs s' = jobs s -> Chain s'.
Proof.
  intros C Hp Hl Ha Hj. apply (chain_view s); auto.
  - intros p o. now rewrite Hp.
  - rewrite Hl. apply incl_refl.
  - rewrite Hj. apply incl_refl.
  - now rewrite Hj.
Qed.

Lemma hook_site_cases (x : pid) :
  hook_site x -> x <> PEachPhase /\ x <> PAfterPhase /\ x <> PAll /\ x <> PDone.
Proof. destruct x; simpl; intros H; try contradiction; repeat split; discriminate. Qed.

Lemma settle_core (y : pid) (o : outcome) (s : state) :
  Core s ->
  (hook_site y -> started s y) ->
  y <> PEachPhase -> y <> PAfterPhase -> y <> PAll ->
  Core (settle y o s).
Proof.
  intros [B L] Hs H1 H2 H3. destruct (promises s y) as [rs|o'] eqn:E.
  - split.
    + eapply settle_base; eauto; intros ->; congruence.
    + eapply settle_linked; eauto.
  - rewrite (settle_settled _ o _ _ E). now split.
Qed.

Lemma settle_chain' (y : pid) (o : outcome) (s : state) :
  Base s -> Chain s -> Chain (settle y o s).
Proof.
  intros B C. destruct (promises s y) as [rs|o'] eqn:E.
  - eapply settle_chain; eauto.
  - now rewrite (settle_settled _ o _ _ E).
Qed.

Lemma hook_step_started (x : pid) (s s' : state) (y : pid) :
  hook_step x s s' -> started s' y <-> started s y.
Proof.
  intros H. unfold started. destruct H; simpl; try tauto.
  - rewrite settle_log. destruct (promises s x); try tauto.
    rewrite In_snoc. split; [intros [H|H]; [auto|discriminate] | auto].
  - rewrite settle_log. destruct (promises s (PHook x)); try tauto.
    rewrite In_snoc. split; [intros [H|H]; [auto|discriminate] | auto].
  - rewrite In_snoc. split; [intros [H|H]; [auto|discriminate] | auto].
Qed.

Lemma hook_step_core (x : pid) (s s' : state) :
  hook_site x -> started s x -> hook_step x s s' -> Core s -> Core s'.
Proof.
  intros Hx Hs Hstep HC.
  destruct (hook_site_cases x Hx) as (N1 & N2 & N3 & N4).
  destruct Hstep.
  - apply settle_core; auto.
  - apply settle_core; auto; try discriminate. simpl. tauto.
  - destruct HC as [B L]. split.
    + apply base_enqueue; auto. now constructor.
    + apply (linked_view s); simpl; auto.
      * tauto.
      * eauto using incl_refl.
      * apply incl_appl, incl_refl.
      * rewrite queued_failures_app. simpl. now rewrite app_nil_r.
  - destruct HC as [B L]. split.
    + apply base_setTimeout; auto.
      destruct f; try (apply tok_other; discriminate).
      rewrite (H p eq_refl). now constructor.
    + now apply (linked_same s).
  - destruct HC as [B L]. split.
    + apply base_setTimeout; auto. now constructor.
    + now apply (linked_same s).
  - destruct HC as [B L]. split.
    + now apply base_set_files.
    + now apply (linked_same s).
  - destruct HC as [B L]. split.
    + apply base_record; auto. now constructor.
    + apply linked_record; auto. now constructor.
Qed.

Lemma hook_step_chain (x : pid) (s s' : state) :
  hook_step x s s' -> Base s -> Chain s -> Chain s'.
Proof.
  intros Hstep B C. destruct Hstep.
  - now apply settle_chain'.
  - now apply settle_chain'.
  - apply (chain_view s); simpl; auto.
    + tauto.
    + apply incl_refl.
    + apply incl_appl, incl_refl.
    + rewrite filter_app. simpl. now rewrite app_nil_r.
  - now apply (chain_same s).
  - now apply (chain_same s).
  - now apply (chain_same s).
  - now apply chain_record.
Qed.

Lemma hook_step_all (x : pid) (s s' : state) : hook_step x s s' -> all s' = all s.
Proof.
  intros H. destruct H; simpl; auto; apply settle_other.
Qed.

Lemma hook_steps_core (x : pid) (s s' : state) :
  hook_site x -> started s x -> hook_steps x s s' -> Core s -> Core s'.
Proof.
  intros Hx Hs H. induction H; auto. intros HC. apply IHhook_steps.
  - eapply hook_step_started; eauto.
  - eapply hook_step_core; eauto.
Qed.

Lemma hook_steps_chain (x : pid) (s s' : state) :
  hook_site x -> started s x -> hook_steps x s s' ->
  Core s -> Chain s -> Chain s'.
Proof.
  intros Hx Hs H. induction H; auto. intros HC C. apply IHhook_steps.
  - eapply hook_step_started; eauto.
  - eapply hook_step_core; eauto.
  - eapply hook_step_chain; eauto. apply HC.
Qed.

Lemma hook_steps_started (x : pid) (s s' : state) (y : pid) :
  hook_steps x s s' -> started s' y <-> started s y.
Proof.
  induction 1; [tauto|]. rewrite IHhook_steps. eapply hook_step_started; eauto.
Qed.

Lemma hook_steps_all (x : pid) (s s' : state) : hook_steps x s s' -> all s' = all s.
Proof.
  induction 1; auto. rewrite IHhook_steps. eapply hook_step_all; eauto.
Qed.

(** *** Steps of the invariant *)

Lemma settle_started (p : pid) (o : outcome) (s : state) (x : pid) :
  started (settle p o s) x <-> started s x.
Proof.
  unfold started. rewrite settle_log. destruct (promises s p); [|tauto].
  rewrite In_snoc. split; [intros [H|H]; [auto|discriminate] | auto].
Qed.

Lemma settle_all (p : pid) (o : outcome) (s : state) : all (settle p o s) = all s.
Proof. apply settle_other. Qed.

Lemma then_all (p : pid) (r : reaction) (s : state) : all (then_ p r s) = all s.
Proof. unfold then_. now destruct (promises s p). Qed.

Lemma fresh_same (s s' : state) :
  Fresh s -> (all s' = None -> all s = None) ->
  (forall i, started s' (PEach i) -> started s (PEach i)) -> Fresh s'.
Proof. intros F Ha Hs Hnone i H. apply (F (Ha Hnone) i). auto. Qed.

Lemma inv_settle (p : pid) (o : outcome) (s : state) :
  Inv s ->
  (forall rs,
      promises s p = Pending rs ->
      (hook_site p -> started s p) /\
      (p = PEachPhase ->
       (exists e, o = Reject e /\ promises s PBefore = Settled (Reject e))
       \/ promises s PAll = Settled o) /\
      (p = PAfterPhase ->
       (exists e, o = Reject e /\ promises s PEachPhase = Settled (Reject e))
       \/ promises s PAfter = Settled o) /\
      (p = PAll ->
       all s <> None /\
       match o with
       | Fulfill _ => forall i q, element s i = Some (Some q) ->
                                  exists w, promises s q = Settled (Fulfill w)
       | Reject e => exists i rest, each_failures (log s) = (i, e) :: rest
       end)) ->
  Inv (settle p o s).
Proof.
  intros (B & L & C & F) H. destruct (promises s p) as [rs|o'] eqn:E.
  - destruct (H rs eq_refl) as (H1 & H2 & H3 & H4).
    split; [|split; [|split]].
    + eapply settle_base; eauto.
    + eapply settle_linked; eauto.
    + eapply settle_chain; eauto.
    + apply (fresh_same s); auto.
      * now rewrite settle_all.
      * intros x. apply settle_started.
  - rewrite (settle_settled _ o _ _ E). split; [|split; [|split]]; auto.
Qed.

Lemma inv_pop (s : state) (j : job) (rest : list job) :
  Inv s -> jobs s = j :: rest ->
  (forall i e, j = JReaction (RElement i) (Reject e) ->
               exists e', promises s PAll = Settled (Reject e')) ->
  (j = JResolveThenable PEachPhase PAll ->
   (exists rs, promises s PAll = Pending rs /\ In (RResolve PEachPhase) rs)
   \/ (exists o, promises s PAll = Settled o /\
                 (In (JReaction (RResolve PEachPhase) o) rest
                  \/ promises s PEachPhase = Settled o))) ->
  (forall o, j = JReaction (RResolve PEachPhase) o ->
             exists o', promises s PAll = Settled o' /\
                        promises s PEachPhase = Settled o') ->
  (forall e, j = JReaction then_each (Reject e) ->
             promises s PEachPhase = Settled (Reject e)) ->
  (forall e, j = JReaction then_after (Reject e) ->
             promises s PAfterPhase = Settled (Reject e)) ->
  (forall e, j = JReaction then_done (Reject e) -> In (EvDone e) (log s)) ->
  Inv (set_jobs rest s).
Proof.
  intros (B & L & C & F) Hj H1 H2 H3 H4 H5 H6. split; [|split; [|split]].
  - eapply base_pop; eauto.
  - eapply linked_pop; eauto.
  - eapply chain_pop; eauto.
  - exact F.
Qed.

(** A job whose removal from the queue needs no justification. *)
Definition plain_job (j : job) : Prop :=
  match j with
  | JReaction (RThen _ _ _) (Reject _) => False
  | JReaction (RElement _) (Reject _) => False
  | JReaction (RResolve PEachPhase) _ => False
  | JResolveThenable PEachPhase PAll => False
  | _ => True
  end.

Lemma inv_pop_plain (s : state) (j : job) (rest : list job) :
  Inv s -> jobs s = j :: rest -> plain_job j -> Inv (set_jobs rest s).
Proof.
  intros HI Hj Hp. eapply inv_pop; eauto; intros; subst j; now simpl in Hp.
Qed.

(** Running a job and then taking it off the queue, instead of the other
    way round. *)
Definition pop (s : state) : state := set_jobs (tl (jobs s)) s.

Lemma settle_pop (p : pid) (o : outcome) (s : state) (j : job) (rest : list job) :
  jobs s = j :: rest -> settle p o (set_jobs rest s) = pop (settle p o s).
Proof.
  intros H. unfold settle, pop. simpl. destruct (promises s p); simpl.
  - unfold record, set_jobs, set_promise. simpl. now rewrite H.
  - unfold set_jobs. now rewrite H.
Qed.

Lemma then_pop (p : pid) (r : reaction) (s : state) (j : job) (rest : list job) :
  jobs s = j :: rest -> then_ p r (set_jobs rest s) = pop (then_ p r s).
Proof.
  intros H. unfold then_, pop. simpl. destruct (promises s p); simpl.
  - unfold set_jobs, set_promise. simpl. now rewrite H.
  - unfold enqueue, set_jobs. simpl. now rewrite H.
Qed.

Lemma record_pop (ev : event) (s : state) (j : job) (rest : list job) :
  jobs s = j :: rest -> record ev (set_jobs rest s) = pop (record ev s).
Proof. intros H. unfold record, pop, set_jobs. simpl. now rewrite H. Qed.

Lemma settle_jobs_head (p : pid) (o : outcome) (s : state) (j : job) (rest : list job) :
  jobs s = j :: rest -> exists new, jobs (settle p o s) = j :: rest ++ new.
Proof.
  intros H. rewrite settle_jobs, H. destruct (promises s p).
  - eexists. reflexivity.
  - exists []. now rewrite app_nil_r.
Qed.

Lemma job_ok_reaction (s : state) (r : reaction) (o : outcome) :
  job_ok s (JReaction r o) ->
  (exists p, reaction_ok s p r /\ promises s p = Settled o)
  \/ (exists i, r = RElement i /\ o = Fulfill VNull /\ element s i = Some None).
Proof. intros H. inversion H; subst; eauto. Qed.

Lemma job_ok_then_each (s : state) (o : outcome) :
  job_ok s (JReaction then_each o) -> promises s PBefore = Settled o.
Proof.
  intros H. apply job_ok_reaction in H.
  destruct H as [(p & Hr & Hp)|(i & H & _)]; [|discriminate].
  now inversion Hr; subst.
Qed.

Lemma job_ok_then_after (s : state) (o : outcome) :
  job_ok s (JReaction then_after o) -> promises s PEachPhase = Settled o.
Proof.
  intros H. apply job_ok_reaction in H.
  destruct H as [(p & Hr & Hp)|(i & H & _)]; [|discriminate].
  now inversion Hr; subst.
Qed.

Lemma job_ok_then_done (s : state) (o : outcome) :
  job_ok s (JReaction then_done o) -> promises s PAfterPhase = Settled o.
Proof.
  intros H. apply job_ok_reaction in H.
  destruct H as [(p & Hr & Hp)|(i & H & _)]; [|discriminate].
  now inversion Hr; subst.
Qed.

Lemma job_ok_resolve_eachphase (s : state) (o : outcome) :
  job_ok s (JReaction (RResolve PEachPhase) o) -> promises s PAll = Settled o.
Proof.
  intros H. apply job_ok_reaction in H.
  destruct H as [(p & Hr & Hp)|(i & H & _)]; [|discriminate].
  inversion Hr; subst; auto. contradiction.
Qed.

Lemma job_ok_resolve_afterphase (s : state) (o : outcome) :
  job_ok s (JReaction (RResolve PAfterPhase) o) -> promises s PAfter = Settled o.
Proof.
  intros H. apply job_ok_reaction in H.
  destruct H as [(p & Hr & Hp)|(i & H & _)]; [|discriminate].
  inversion Hr; subst; auto. contradiction.
Qed.

Lemma all_settled_started (s : state) (o : outcome) :
  Base s -> promises s PAll = Settled o -> all s <> None.
Proof.
  intros B H Hnone. rewrite (b_all_pending _ B Hnone) in H. discriminate.
Qed.

(** The first [.then] passes a failure of [before] on. *)
Lemma inv_then_each_reject (s : state) (e : value) (rest : list job) :
  Inv s -> jobs s = JReaction then_each (Reject e) :: rest ->
  Inv (settle PEachPhase (Reject e) (set_jobs rest s)).
Proof.
  intros HI Hj. pose proof HI as (B & L & C & F).
  assert (Hb : promises s PBefore = Settled (Reject e)).
  { apply job_ok_then_each. apply (b_jobs _ B). rewrite Hj. now left. }
  rewrite (settle_pop _ _ _ _ _ Hj).
  destruct (settle_jobs_head PEachPhase (Reject e) s _ _ Hj) as [new Hnew].
  unfold pop. rewrite Hnew. simpl.
  eapply inv_pop; eauto; try discriminate.
  - apply inv_settle; auto. intros rs Hrs. repeat split; try discriminate; eauto.
    simpl. tauto.
  - intros e' [= <-].
    destruct (promises s PEachPhase) as [rs|o'] eqn:E.
    + eapply settle_pending; eauto.
    + rewrite (settle_settled _ _ _ _ E).
      destruct (b_eachphase _ B _ E) as [(e' & -> & He)|H]; [congruence|].
      apply all_settled_started in H; auto.
      destruct (b_all_before _ B H) as [v Hv]. congruence.
Qed.

(** The second [.then] passes a failure of the each phase on. *)
Lemma inv_then_after_reject (s : state) (e : value) (rest : list job) :
  Inv s -> jobs s = JReaction then_after (Reject e) :: rest ->
  Inv (settle PAfterPhase (Reject e) (set_jobs rest s)).
Proof.
  intros HI Hj. pose proof HI as (B & L & C & F).
  assert (Hb : promises s PEachPhase = Settled (Reject e)).
  { apply job_ok_then_after. apply (b_jobs _ B). rewrite Hj. now left. }
  rewrite (settle_pop _ _ _ _ _ Hj).
  destruct (settle_jobs_head PAfterPhase (Reject e) s _ _ Hj) as [new Hnew].
  unfold pop. rewrite Hnew. simpl.
  eapply inv_pop; eauto; try discriminate.
  - apply inv_settle; auto. intros rs Hrs. repeat split; try discriminate; eauto.
    simpl. tauto.
  - intros e' [= <-].
    destruct (promises s PAfterPhase) as [rs|o'] eqn:E.
    + eapply settle_pending; eauto.
    + rewrite (settle_settled _ _ _ _ E).
      destruct (b_afterphase _ B _ E) as [(e' & -> & He)|H]; [congruence|].
      assert (Hs : started s PAfter) by (eapply b_settled_started; eauto; exact I).
      destruct (b_started_after _ B Hs) as [v Hv]. congruence.
Qed.

Lemma inv_record (s : state) (ev : event) :
  Inv s -> event_ok s ev -> (forall i, ev <> EvCallFunction (PEach i)) ->
  Inv (record ev s).
Proof.
  intros (B & L & C & F) Hev Hne. split; [|split; [|split]].
  - now apply base_record.
  - now apply linked_record.
  - now apply chain_record.
  - apply (fresh_same s); auto. intros i. unfold started. simpl.
    rewrite In_snoc. intros [H|H]; auto. now destruct (Hne i).
Qed.

Lemma inv_then (p : pid) (r : reaction) (s : state) :
  Inv s -> reaction_ok s p r ->
  p <> PBefore -> p <> PEachPhase -> p <> PAfterPhase ->
  (forall i, p <> PEach i) -> (forall i, r <> RElement i) ->
  (forall o, is_then_each (JReaction r o) = false) ->
  (p = PAll -> all s <> None) ->
  Inv (then_ p r s).
Proof.
  intros (B & L & C & F) Hr H1 H2 H3 H4 H5 H6 H7. split; [|split; [|split]].
  - now apply then_base.
  - now apply then_linked.
  - now apply then_chain.
  - apply (fresh_same s); auto.
    + now rewrite then_all.
    + intros x. unfold started. now rewrite then_log.
Qed.

Lemma inv_timer_pop (s : state) (d : nat) (t : timer) (rest : list (nat * timer))
  (now : nat) :
  Inv s -> timers s = (d, t) :: rest -> Inv (set_timers rest now s).
Proof.
  intros (B & L & C & F) Ht. split; [|split; [|split]].
  - eapply base_timer_pop; eauto.
  - now apply (linked_same s).
  - now apply (chain_same s).
  - exact F.
Qed.

(** The third [.then] calls [done] and settles its own promise. *)
Lemma inv_then_done (s : state) (o : outcome) (x : value) (rest : list job) :
  Inv s -> jobs s = JReaction then_done o :: rest ->
  x = match o with Fulfill v => v | Reject e => e end ->
  Inv (settle PDone (Fulfill VUndefined) (record (EvDone x) (set_jobs rest s))).
Proof.
  intros HI Hj Hx. pose proof HI as (B & L & C & F).
  assert (Hb : promises s PAfterPhase = Settled o).
  { apply job_ok_then_done. apply (b_jobs _ B). rewrite Hj. now left. }
  assert (Hrec : Inv (record (EvDone x) s)).
  { apply inv_record; auto; [|discriminate]. constructor.
    subst x. destruct o; auto. }
  rewrite (record_pop _ _ _ _ Hj).
  assert (Hj' : jobs (record (EvDone x) s) = JReaction then_done o :: rest)
    by exact Hj.
  unfold pop at 1. rewrite Hj'. simpl tl.
  rewrite (settle_pop _ _ _ _ _ Hj').
  destruct (settle_jobs_head PDone (Fulfill VUndefined) _ _ _ Hj') as [new Hnew].
  unfold pop. rewrite Hnew. simpl.
  eapply inv_pop; eauto; try discriminate.
  - apply inv_settle; auto. intros rs Hrs.
    repeat split; try discriminate. simpl. tauto.
  - intros e [= ->]. rewrite settle_log.
    destruct (promises _ PDone); simpl; rewrite ?In_snoc; subst x; auto.
Qed.

(** The promise of the each phase takes the outcome of [Promise.all]. *)
Lemma inv_resolve_eachphase (s : state) (o : outcome) (rest : list job) :
  Inv s -> jobs s = JReaction (RResolve PEachPhase) o :: rest ->
  Inv (settle PEachPhase o (set_jobs rest s)).
Proof.
  intros HI Hj. pose proof HI as (B & L & C & F).
  assert (Hb : promises s PAll = Settled o).
  { apply job_ok_resolve_eachphase. apply (b_jobs _ B). rewrite Hj. now left. }
  rewrite (settle_pop _ _ _ _ _ Hj).
  destruct (settle_jobs_head PEachPhase o s _ _ Hj) as [new Hnew].
  unfold pop. rewrite Hnew. simpl.
  eapply inv_pop; eauto; try discriminate.
  - apply inv_settle; auto. intros rs Hrs. repeat split; try discriminate; eauto.
    simpl. tauto.
  - intros o' [= <-]. exists o. split; [now apply settle_sub|].
    destruct (promises s PEachPhase) as [rs|o'] eqn:E.
    + eapply settle_pending; eauto.
    + rewrite (settle_settled _ _ _ _ E).
      destruct (b_eachphase _ B _ E) as [(e' & -> & He)|H]; [|congruence].
      apply all_settled_started in Hb; auto.
      destruct (b_all_before _ B Hb) as [v Hv]. congruence.
Qed.

(** The promise of the after phase takes the outcome of [after]. *)
Lemma inv_resolve_afterphase (s : state) (o : outcome) (rest : list job) :
  Inv s -> jobs s = JReaction (RResolve PAfterPhase) o :: rest ->
  Inv (settle PAfterPhase o (set_jobs rest s)).
Proof.
  intros HI Hj. pose proof HI as (B & L & C & F).
  assert (Hb : promises s PAfter = Settled o).
  { apply job_ok_resolve_afterphase. apply (b_jobs _ B). rewrite Hj. now left. }
  apply inv_settle.
  - eapply inv_pop_plain; eauto. exact I.
  - intros rs Hrs. repeat split; try discriminate; eauto. simpl. tauto.
Qed.

(** The promise of a call takes the outcome of the promise the hook
    returned. *)
Lemma inv_resolve_hook (s : state) (x : pid) (o : outcome) (rest : list job) :
  Inv s -> jobs s = JReaction (RResolve x) o :: rest ->
  hook_site x -> started s x ->
  Inv (settle x o (set_jobs rest s)).
Proof.
  intros HI Hj Hx Hs.
  destruct (hook_site_cases x Hx) as (N1 & N2 & N3 & N4).
  apply inv_settle.
  - eapply inv_pop_plain; eauto. destruct x; simpl; auto.
  - intros rs Hrs. split; [intros _; exact Hs|].
    split; [intros ->; congruence|]. split; intros ->; congruence.
Qed.

(** A failed element rejects [Promise.all]. *)
Lemma inv_element_reject (s : state) (i : nat) (e : value) (rest : list job) :
  Inv s -> jobs s = JReaction (RElement i) (Reject e) :: rest ->
  Inv (settle PAll (Reject e) (set_jobs rest s)).
Proof.
  intros HI Hj. pose proof HI as (B & L & C & F).
  assert (Hok : job_ok s (JReaction (RElement i) (Reject e)))
    by (apply (b_jobs _ B); rewrite Hj; now left).
  apply job_ok_reaction in Hok.
  destruct Hok as [(p & Hr & Hp)|(i' & _ & H & _)]; [|discriminate].
  inversion Hr as [| | | | |i' Helem|]; subst.
  assert (Hall : all s <> None).
  { unfold element in Helem. destruct (all s); [discriminate|discriminate]. }
  rewrite (settle_pop _ _ _ _ _ Hj).
  destruct (settle_jobs_head PAll (Reject e) s _ _ Hj) as [new Hnew].
  unfold pop. rewrite Hnew. simpl.
  eapply inv_pop; eauto; try discriminate.
  - apply inv_settle; auto. intros rs Hrs. repeat split; try discriminate; auto.
    + simpl. tauto.
    + rewrite (l_failures_queued _ L _ Hall Hrs), Hj. simpl. eauto.
  - intros i' e' _.
    destruct (promises s PAll) as [rs|[v|e1]] eqn:E.
    + exists e. eapply settle_pending; eauto.
    + destruct (b_all_fulfilled _ B _ _ _ E Helem) as [w Hw]. congruence.
    + exists e1. now rewrite (settle_settled _ _ _ _ E).
Qed.

(** The promise of the each phase starts to follow [Promise.all]. *)
Lemma inv_thenable_all (s : state) (rest : list job) :
  Inv s -> jobs s = JResolveThenable PEachPhase PAll :: rest ->
  Inv (then_ PAll (RResolve PEachPhase) (set_jobs rest s)).
Proof.
  intros HI Hj. pose proof HI as (B & L & C & F).
  assert (Hok : job_ok s (JResolveThenable PEachPhase PAll))
    by (apply (b_jobs _ B); rewrite Hj; now left).
  assert (Hall : all s <> None).
  { inversion Hok; subst; auto; contradiction. }
  rewrite (then_pop _ _ _ _ _ Hj).
  assert (Hthen : Inv (then_ PAll (RResolve PEachPhase) s)).
  { apply inv_then; auto; try discriminate. constructor. }
  destruct (promises s PAll) as [rs|o] eqn:E.
  - rewrite (then_pending _ _ _ _ E) in *. unfold pop. simpl. rewrite Hj. simpl.
    eapply inv_pop; eauto; try discriminate.
    intros _. left. exists (rs ++ [RResolve PEachPhase]). split.
    + rewrite set_promise_promises. now rewrite pid_eqb_refl.
    + apply in_or_app. simpl. auto.
  - rewrite (then_settled _ _ _ _ E) in *. unfold pop. simpl. rewrite Hj. simpl.
    eapply inv_pop; eauto; simpl; try (rewrite Hj; reflexivity); try discriminate.
    intros _. right. exists o. split; auto. left. apply in_or_app. simpl. auto.
Qed.

(** *** An element of [Promise.all] is fulfilled *)

Lemma below_length (l : list nat) (n : nat) :
  NoDup l -> (forall x, In x l -> x < n) -> List.length l <= n.
Proof.
  intros Hnd Hlt. rewrite <- (length_seq n 0).
  apply NoDup_incl_length; auto.
  intros x Hx. apply in_seq. specialize (Hlt x Hx). lia.
Qed.

Lemma below_all (l : list nat) (n : nat) :
  NoDup l -> (forall x, In x l -> x < n) -> List.length l = n ->
  forall i, i < n -> In i l.
Proof.
  intros Hnd Hlt Hlen i Hi.
  assert (Hincl : incl (seq 0 n) l).
  { apply NoDup_length_incl; auto.
    - rewrite length_seq. lia.
    - intros x Hx. apply in_seq. specialize (Hlt x Hx). lia. }
  apply Hincl. apply in_seq. lia.
Qed.

Lemma inv_set_all (s : state) (a a' : aggregate) :
  Inv s -> all s = Some a -> elements a' = elements a ->
  (forall i, In i (alreadyCalled a') -> i < List.length (elements a)) ->
  (forall i p, In i (alreadyCalled a') ->
               nth_error (elements a) i = Some (Some p) ->
               exists v, promises s p = Settled (Fulfill v)) ->
  NoDup (alreadyCalled a') ->
  remaining a' + List.length (alreadyCalled a') = List.length (elements a) ->
  Inv (set_all (Some a') s).
Proof.
  intros (B & L & C & F) Ha He Hlt Hful Hnd Hrem.
  set (s' := set_all (Some a') s).
  assert (Helem : forall i, element s' i = element s i).
  { intros i. unfold element. simpl. now rewrite Ha, He. }
  assert (Hsub : sub s s').
  { repeat split; auto. intros a0. rewrite Ha. intros [= <-]. simpl. eauto. }
  assert (Hnone : all s <> None) by congruence.
  split; [|split; [|split]].
  - constructor; simpl; try (now destruct B).
    + intros p rs r H1 H2. eapply reaction_ok_sub; eauto.
      eapply b_reactions; eauto.
    + intros j H. eapply job_ok_sub; eauto. eapply b_jobs; eauto.
    + intros d t H. eapply timer_ok_sub; eauto. eapply b_timers; eauto.
    + intros _. now apply (b_all_before _ B).
    + intros i p. rewrite Helem. apply (b_elements _ B).
    + intros i a0 H [= <-]. rewrite He. eapply b_started_element; eauto.
    + intros a0 i [= <-]. rewrite He. auto.
    + intros a0 i p [= <-]. rewrite He. eauto.
    + intros a0 [= <-]. auto.
    + intros a0 [= <-]. now rewrite He.
    + intros v i p. rewrite Helem. apply (b_all_fulfilled _ B).
  - constructor; simpl.
    + intros i rs. rewrite Helem. apply (l_each_reaction _ L).
    + intros rs _. now apply (l_failures_queued _ L).
    + intros i e. rewrite Helem. apply (l_each_failure _ L).
    + intros _. now apply (l_all_token _ L).
  - constructor; simpl; try (now destruct C).
    intros _. now apply (c_then_each_all _ C).
  - intros H. discriminate.
Qed.

Lemma inv_resolve_element (s : state) (i : nat) (v : value) :
  Inv s ->
  (element s i = Some (Some (PEach i)) /\
   promises s (PEach i) = Settled (Fulfill v))
  \/ element s i = Some None ->
  Inv (resolve_element i v s).
Proof.
  intros HI Hi. pose proof HI as (B & L & C & F).
  unfold resolve_element.
  destruct (all s) as [a|] eqn:Ha; auto.
  destruct (existsb (Nat.eqb i) (alreadyCalled a)) eqn:Hcalled; auto.
  assert (Hnotin : ~ In i (alreadyCalled a)).
  { intros Hin. assert (existsb (Nat.eqb i) (alreadyCalled a) = true); [|congruence].
    apply existsb_exists. exists i. split; auto. apply Nat.eqb_refl. }
  assert (Hlt : i < List.length (elements a)).
  { apply nth_error_Some. unfold element in Hi. rewrite Ha in Hi.
    destruct Hi as [[Hi _]|Hi]; congruence. }
  assert (Hnd : NoDup (i :: alreadyCalled a)).
  { constructor; auto. eapply b_called_nodup; eauto. }
  assert (Hbelow : forall x, In x (i :: alreadyCalled a) ->
                             x < List.length (elements a)).
  { intros x [<-|Hx]; auto. eapply b_called_lt; eauto. }
  pose proof (below_length _ _ Hnd Hbelow) as Hlen. simpl in Hlen.
  pose proof (b_remaining _ B _ Ha) as Hrem.
  set (a' := {| elements := elements a; alreadyCalled := i :: alreadyCalled a;
                remaining := remaining a - 1;
                values := set_nth i v (values a) |}).
  assert (Hful : forall x p, In x (alreadyCalled a') ->
                   nth_error (elements a) x = Some (Some p) ->
                   exists w, promises s p = Settled (Fulfill w)).
  { intros x p [<-|Hx] Hn.
    - unfold element in Hi. rewrite Ha in Hi.
      destruct Hi as [[Hi Hp]|Hi]; [|congruence].
      assert (p = PEach i) as -> by congruence. eauto.
    - eapply b_called_fulfilled; eauto. }
  assert (Hset : Inv (set_all (Some a') s)).
  { eapply inv_set_all; eauto. simpl. lia. }
  destruct (remaining a' =? 0) eqn:Hzero; auto.
  apply Nat.eqb_eq in Hzero. simpl in Hzero.
  apply inv_settle; auto. intros rs Hrs.
  repeat split; try discriminate.
  - simpl. tauto.
  - intros x q Hx. simpl. unfold element in Hx. simpl in Hx.
    apply (Hful x q); auto.
    apply (below_all _ (List.length (elements a))); auto.
    + simpl. lia.
    + apply nth_error_Some. congruence.
Qed.

Lemma inv_enqueue (s : state) (j : job) :
  Inv s -> job_ok s j ->
  queued_failures [j] = [] -> is_then_each j = false ->
  Inv (enqueue j s).
Proof.
  intros (B & L & C & F) Hok Hq Ht. split; [|split; [|split]].
  - now apply base_enqueue.
  - apply (linked_view s); simpl; auto.
    + tauto.
    + eauto using incl_refl.
    + apply incl_appl, incl_refl.
    + rewrite queued_failures_app, Hq. now rewrite app_nil_r.
  - apply (chain_view s); simpl; auto.
    + tauto.
    + apply incl_refl.
    + apply incl_appl, incl_refl.
    + rewrite filter_app. cbn [filter]. rewrite Ht. now rewrite app_nil_r.
  - exact F.
Qed.

Lemma inv_hook_steps (x : pid) (s s' : state) :
  hook_site x -> started s x -> hook_steps x s s' -> Inv s -> Inv s'.
Proof.
  intros Hx Hs Hsteps (B & L & C & F).
  destruct (hook_steps_core x s s' Hx Hs Hsteps (conj B L)) as [B' L'].
  split; [|split; [|split]]; auto.
  - eapply hook_steps_chain; eauto. now split.
  - apply (fresh_same s); auto.
    + now rewrite (hook_steps_all x s s').
    + intros i. now apply (hook_steps_started x s s').
Qed.

(** *** While the each phase dispatches *)

Definition failure_of (s : state) (i : nat) : list (nat * value) :=
  match promises s (PEach i) with
  | Settled (Reject e) => [(i, e)]
  | _ => []
  end.

(** The failures among the first [k] calls of [each], by index. *)
Definition settled_failures (s : state) (k : nat) : list (nat * value) :=
  flat_map (failure_of s) (seq 0 k).

Lemma settled_failures_S (s : state) (k : nat) :
  settled_failures s (S k) = settled_failures s k ++ failure_of s k.
Proof.
  unfold settled_failures. rewrite seq_S, flat_map_app. simpl.
  now rewrite app_nil_r.
Qed.

Lemma flat_map_same {A B : Type} (f g : A -> list B) (l : list A) :
  (forall x, In x l -> f x = g x) -> flat_map f l = flat_map g l.
Proof.
  induction l as [|x l IH]; simpl; auto.
  intros H. rewrite IH, (H x); auto.
Qed.

Lemma settled_failures_ext (s s' : state) (k : nat) :
  (forall i, i < k -> promises s' (PEach i) = promises s (PEach i)) ->
  settled_failures s' k = settled_failures s k.
Proof.
  intros H. unfold settled_failures. apply flat_map_same.
  intros i Hi. apply in_seq in Hi. unfold failure_of. rewrite H; auto. lia.
Qed.

(** The [k] first matched files have been dealt with; [Promise.all] is
    still to be called. *)
Record Mid (k : nat) (s : state) : Prop := {
  m_base : Base s;
  m_linked : Linked s;
  m_chain : Chain s;
  m_all : all s = None;
  m_before : exists v, promises s PBefore = Settled (Fulfill v);
  m_started : forall i, started s (PEach i) -> i < k;
  m_failures : each_failures (log s) = settled_failures s k;
  m_then_each : filter is_then_each (jobs s) = []
}.

Lemma mid_unsettled (k : nat) (s : state) (i : nat) :
  Mid k s -> k <= i -> failure_of s i = [].
Proof.
  intros M Hi. unfold failure_of.
  destruct (promises s (PEach i)) as [rs|[v|e]] eqn:E; auto.
  assert (Hs : started s (PEach i)).
  { eapply b_settled_started; eauto. apply M. exact I. }
  apply (m_started _ _ M) in Hs. lia.
Qed.

Lemma mid_skip (k : nat) (s : state) : Mid k s -> Mid (S k) s.
Proof.
  intros M. destruct M as [B L C A Hb Hs Hf Ht]. constructor; auto.
  - intros i Hi. specialize (Hs i Hi). lia.
  - rewrite settled_failures_S, Hf.
    rewrite (mid_unsettled k s k); [now rewrite app_nil_r | | lia].
    constructor; auto.
Qed.

Lemma mid_enter (k : nat) (s : state) :
  Mid k s -> Mid (S k) (record (EvCallFunction (PEach k)) s).
Proof.
  intros M. pose proof (mid_skip k s M) as M'.
  destruct M' as [B L C A Hb Hs Hf Ht].
  assert (Hev : event_ok s (EvCallFunction (PEach k))).
  { constructor; [exact I | | discriminate]. intros i _. auto. }
  constructor; auto.
  - now apply base_record.
  - now apply linked_record.
  - now apply chain_record.
  - intros i. unfold started. simpl. rewrite In_snoc.
    intros [H|[= <-]]; auto.
  - simpl. rewrite (each_failures_event s); auto.
Qed.

Lemma hook_step_sub (x : pid) (s s' : state) : hook_step x s s' -> sub s s'.
Proof.
  intros H. destruct H; try apply settle_sub; try apply record_sub;
    repeat split; simpl; eauto.
Qed.

Lemma hook_step_log (x : pid) (s s' : state) :
  hook_step x s s' ->
  (forall i, promises s' (PEach i) = promises s (PEach i)) /\
  each_failures (log s') = each_failures (log s)
  \/ exists i o rs, x = PEach i /\ promises s (PEach i) = Pending rs /\
                    s' = settle (PEach i) o s.
Proof.
  intros H. destruct H; try (left; split; auto; fail).
  - destruct (promises s x) as [rs|o'] eqn:E.
    + destruct x; try (left; split;
        [intros i; rewrite settle_promises, E; reflexivity
        |rewrite settle_log, E, each_failures_app; simpl; apply app_nil_r]).
      right. eauto 6.
    + left. rewrite (settle_settled _ o _ _ E). auto.
  - left. destruct (promises s (PHook x)) as [rs|o'] eqn:E.
    + split.
      * intros i. now rewrite settle_promises, E.
      * rewrite settle_log, E, each_failures_app. simpl. apply app_nil_r.
    + rewrite (settle_settled _ o _ _ E). auto.
  - left. split; auto. simpl.
    rewrite each_failures_app. simpl. apply app_nil_r.
Qed.

Lemma hook_step_then_each (x : pid) (s s' : state) :
  Base s -> x <> PBefore -> hook_step x s s' ->
  filter is_then_each (jobs s') = filter is_then_each (jobs s).
Proof.
  intros B Hx H. destruct H; auto.
  - rewrite settle_jobs. destruct (promises s x) as [rs|] eqn:E; auto.
    rewrite filter_app, (reactions_not_then_each s x rs o); auto.
    apply app_nil_r.
  - rewrite settle_jobs. destruct (promises s (PHook x)) as [rs|] eqn:E; auto.
    rewrite filter_app, (reactions_not_then_each s (PHook x) rs o); auto.
    + apply app_nil_r.
    + discriminate.
  - simpl. rewrite filter_app. simpl. apply app_nil_r.
Qed.

Lemma mid_hook_step (k : nat) (s s' : state) :
  Mid (S k) s -> started s (PEach k) -> hook_step (PEach k) s s' -> Mid (S k) s'.
Proof.
  intros M Hs Hstep. destruct M as [B L C A Hb Hst Hf Ht].
  destruct (hook_step_core (PEach k) s s' I Hs Hstep (conj B L)) as [B' L'].
  constructor; auto.
  - eapply hook_step_chain; eauto.
  - now rewrite (hook_step_all _ _ _ Hstep).
  - destruct Hb as [v Hv]. exists v. now apply (hook_step_sub _ _ _ Hstep).
  - intros i Hi. apply Hst. now apply (hook_step_started _ _ _ (PEach i) Hstep).
  - destruct (hook_step_log _ _ _ Hstep) as [[Hp Hl]|(i & o & rs & Hx & Hp & ->)].
    + rewrite Hl, Hf. symmetry. apply settled_failures_ext. auto.
    + injection Hx as <-.
      rewrite settle_log, Hp, each_failures_app, Hf, !settled_failures_S.
      rewrite (settled_failures_ext s (settle (PEach k) o s) k).
      * unfold failure_of. rewrite Hp, (settle_pending _ _ _ _ Hp).
        rewrite app_nil_r. simpl. destruct o; auto; now rewrite app_nil_r.
      * intros i Hi. rewrite settle_promises, Hp.
        destruct (pid_eqb_spec (PEach i) (PEach k)) as [[= ->]|]; auto. lia.
  - rewrite (hook_step_then_each (PEach k) s s'); auto. discriminate.
Qed.

Lemma mid_hook_steps (k : nat) (s s' : state) :
  hook_steps (PEach k) s s' -> Mid (S k) s -> started s (PEach k) -> Mid (S k) s'.
Proof.
  induction 1; auto. intros M Hs. apply IHhook_steps.
  - eapply mid_hook_step; eauto.
  - now apply (hook_step_started _ _ _ _ H).
Qed.

(** *** Promise.all attaches its reactions *)

(** The array [promises] against the calls made: an element is the promise
    of the call with its index, or [null] and no call was made. *)
Definition elements_ok (k : nat) (ps : list (option pid)) (s : state) : Prop :=
  forall j, j < List.length ps ->
    (nth_error ps j = Some (Some (PEach (k + j))) /\ started s (PEach (k + j)))
    \/ (nth_error ps j = Some None /\ ~ started s (PEach (k + j))).

Lemma mid_each_pending (k : nat) (s : state) (i : nat) (rs : list reaction) :
  Mid k s -> promises s (PEach i) = Pending rs -> rs = [].
Proof.
  intros M Hp. destruct rs as [|r rs]; auto. exfalso.
  pose proof (b_reactions _ (m_base _ _ M) _ _ r Hp (or_introl eq_refl)) as H.
  inversion H as [| | | | |i' Helem|]; subst.
  unfold element in Helem. now rewrite (m_all _ _ M) in Helem.
Qed.

Lemma mid_no_queued (k : nat) (s : state) : Mid k s -> queued_failures (jobs s) = [].
Proof.
  intros M. pose proof (b_jobs _ (m_base _ _ M)) as Hjobs.
  induction (jobs s) as [|j js IH]; simpl; auto.
  rewrite IH by (intros; apply Hjobs; now right).
  destruct j as [[| |i] [v|e]|]; auto. exfalso.
  pose proof (Hjobs _ (or_introl eq_refl)) as Hok.
  apply job_ok_reaction in Hok.
  destruct Hok as [(p & Hr & _)|(i' & _ & H & _)]; [|discriminate].
  inversion Hr as [| | | | |i' Helem|]; subst.
  unfold element in Helem. now rewrite (m_all _ _ M) in Helem.
Qed.

Section Registration.

(** The state [s0] in which [Promise.all(ps)] is called. *)
Variable s0 : state.
Variable ps : list (option pid).
Hypothesis Hmid : Mid (List.length ps) s0.
Hypothesis Hps : elements_ok 0 ps s0.

Let a0 : aggregate :=
  {| elements := ps; alreadyCalled := []; remaining := List.length ps;
     values := repeat VUndefined (List.length ps) |}.

Lemma element_promise (i : nat) (p : pid) :
  nth_error ps i = Some (Some p) -> p = PEach i /\ started s0 (PEach i).
Proof.
  intros H. assert (Hi : i < List.length ps) by (apply nth_error_Some; congruence).
  destruct (Hps i Hi) as [[H1 H2]|[H1 _]]; simpl in *; [|congruence].
  split; auto. congruence.
Qed.

Lemma started_element (i : nat) :
  started s0 (PEach i) -> nth_error ps i = Some (Some (PEach i)).
Proof.
  intros H. pose proof (m_started _ _ Hmid i H) as Hi.
  destruct (Hps i Hi) as [[H1 _]|[_ H2]]; simpl in *; [auto | contradiction].
Qed.

Lemma null_element (i : nat) : nth_error ps i = Some None -> failure_of s0 i = [].
Proof.
  intros H. unfold failure_of.
  destruct (promises s0 (PEach i)) as [rs|[v|e]] eqn:E; auto.
  assert (Hs : started s0 (PEach i)).
  { eapply b_settled_started; eauto. apply Hmid. exact I. }
  apply started_element in Hs. congruence.
Qed.

(** The [j] first elements have their reaction. *)
Record Reg (j : nat) (t : state) : Prop := {
  r_base : Base t;
  r_chain : Chain t;
  r_all : all t = Some a0;
  r_log : log t = log s0;
  r_settled : forall p o, promises t p = Settled o <-> promises s0 p = Settled o;
  r_all_pending : promises t PAll = Pending [];
  r_unregistered : forall i,
      j <= i \/ nth_error ps i <> Some (Some (PEach i)) ->
      promises t (PEach i) = promises s0 (PEach i);
  r_registered : forall i rs,
      i < j -> nth_error ps i = Some (Some (PEach i)) ->
      promises t (PEach i) = Pending rs -> rs = [RElement i];
  r_queued : queued_failures (jobs t) = settled_failures s0 j;
  r_in : forall i e,
      i < j -> nth_error ps i = Some (Some (PEach i)) ->
      promises s0 (PEach i) = Settled (Reject e) ->
      In (JReaction (RElement i) (Reject e)) (jobs t)
}.

Lemma reg_init : Reg 0 (set_all (Some a0) s0).
Proof.
  pose proof Hmid as [B L C A Hb Hs Hf Ht].
  set (t := set_all (Some a0) s0).
  assert (Hsub : sub s0 t).
  { repeat split; auto. intros a. rewrite A. discriminate. }
  assert (Helem : forall i, element t i = nth_error ps i) by reflexivity.
  constructor; simpl; auto; try tauto.
  - constructor; simpl; try (now destruct B).
    + intros p rs r H1 H2. eapply reaction_ok_sub; eauto.
      eapply b_reactions; eauto.
    + intros j H. eapply job_ok_sub; eauto. eapply b_jobs; eauto.
    + intros d u H. eapply timer_ok_sub; eauto. eapply b_timers; eauto.
    + intros i p. rewrite Helem. apply element_promise.
    + intros i a H [= <-]. simpl. now apply started_element.
    + intros a i [= <-]. simpl. tauto.
    + intros a i p [= <-]. simpl. tauto.
    + intros a [= <-]. simpl. constructor.
    + intros a [= <-]. simpl. lia.
    + intros v i p H. rewrite (b_all_pending _ B A) in H. discriminate.
  - constructor; simpl; try (now destruct C); intros _; exact Ht.
  - now apply (b_all_pending _ B).
  - intros i rs Hi. lia.
  - now apply (mid_no_queued _ _ Hmid).
  - intros i e Hi. lia.
Qed.

Lemma reg_element (j : nat) (t : state) (e : option pid) :
  Reg j t -> nth_error ps j = Some e -> element t j = Some e.
Proof. intros R H. unfold element. now rewrite (r_all _ _ R). Qed.

Lemma reg_then (j : nat) (t : state) :
  Reg j t -> nth_error ps j = Some (Some (PEach j)) ->
  Reg (S j) (then_ (PEach j) (RElement j) t).
Proof.
  intros R Hj.
  assert (B' : Base (then_ (PEach j) (RElement j) t)).
  { apply then_base; [exact (r_base _ _ R) | | discriminate].
    constructor. now apply reg_element. }
  assert (C' : Chain (then_ (PEach j) (RElement j) t)).
  { apply then_chain; auto; try discriminate. exact (r_chain _ _ R). }
  assert (Hp0 : promises t (PEach j) = promises s0 (PEach j)).
  { apply (r_unregistered _ _ R). left. lia. }
  destruct (promises s0 (PEach j)) as [rs|o] eqn:E.
  - assert (rs = []) as -> by (eapply mid_each_pending; eauto).
    rewrite (then_pending _ _ _ _ Hp0) in *. simpl app in *.
    constructor; auto.
    + exact (r_all _ _ R).
    + exact (r_log _ _ R).
    + intros p o. rewrite (set_promise_settled _ _ _ _ Hp0).
      exact (r_settled _ _ R p o).
    + rewrite set_promise_promises. simpl. exact (r_all_pending _ _ R).
    + intros i Hi. rewrite set_promise_promises.
      destruct (pid_eqb_spec (PEach i) (PEach j)) as [[= ->]|Hne].
      * destruct Hi; [lia | contradiction].
      * apply (r_unregistered _ _ R). destruct Hi; [left; lia | now right].
    + intros i rs Hi Hn. rewrite set_promise_promises.
      destruct (pid_eqb_spec (PEach i) (PEach j)) as [[= ->]|Hne].
      * now intros [= <-].
      * apply (r_registered _ _ R); auto.
        assert (i <> j) by congruence. lia.
    + simpl. rewrite (r_queued _ _ R), settled_failures_S.
      unfold failure_of. rewrite E. now rewrite app_nil_r.
    + intros i e Hi Hn He. simpl. apply (r_in _ _ R); auto.
      assert (i <> j) by congruence. lia.
  - rewrite (then_settled _ _ _ _ Hp0) in *.
    constructor; auto; simpl.
    + exact (r_all _ _ R).
    + exact (r_log _ _ R).
    + exact (r_settled _ _ R).
    + exact (r_all_pending _ _ R).
    + intros i Hi. apply (r_unregistered _ _ R). destruct Hi; [left; lia | now right].
    + intros i rs Hi Hn Hp.
      assert (i <> j) by congruence.
      apply (r_registered _ _ R i); auto. lia.
    + rewrite queued_failures_app, (r_queued _ _ R), settled_failures_S.
      f_equal. unfold failure_of. rewrite E. simpl. now destruct o.
    + intros i e Hi Hn He. apply in_or_app.
      destruct (Nat.eq_dec i j) as [->|Hne].
      * right. simpl. left. congruence.
      * left. apply (r_in _ _ R); auto. lia.
Qed.

Lemma reg_null (j : nat) (t : state) :
  Reg j t -> nth_error ps j = Some None ->
  Reg (S j) (enqueue (JReaction (RElement j) (Fulfill VNull)) t).
Proof.
  intros R Hj.
  constructor; simpl.
  - apply base_enqueue; [exact (r_base _ _ R)|]. constructor.
    now apply reg_element.
  - apply (chain_view t); simpl; auto; try tauto.
    + exact (r_chain _ _ R).
    + apply incl_refl.
    + apply incl_appl, incl_refl.
    + rewrite filter_app. simpl. apply app_nil_r.
  - exact (r_all _ _ R).
  - exact (r_log _ _ R).
  - exact (r_settled _ _ R).
  - exact (r_all_pending _ _ R).
  - intros i Hi. apply (r_unregistered _ _ R). destruct Hi; [left; lia | now right].
  - intros i rs Hi Hn. apply (r_registered _ _ R); auto.
    assert (i <> j) by congruence. lia.
  - rewrite queued_failures_app, (r_queued _ _ R), settled_failures_S.
    now rewrite (null_element j Hj).
  - intros i e Hi Hn He. apply in_or_app. left. apply (r_in _ _ R); auto.
    assert (i <> j) by congruence. lia.
Qed.

Lemma all_elements_reg (rest : list (option pid)) :
  forall j t,
    Reg j t -> (forall i, nth_error rest i = nth_error ps (j + i)) ->
    Reg (j + List.length rest) (all_elements j rest t).
Proof.
  induction rest as [|e rest IH]; intros j t R Hrest; simpl.
  - now rewrite Nat.add_0_r.
  - pose proof (Hrest 0) as H0. simpl in H0. rewrite Nat.add_0_r in H0.
    replace (j + S (List.length rest)) with (S j + List.length rest) by lia.
    assert (Hnext : forall i, nth_error rest i = nth_error ps (S j + i)).
    { intros i. specialize (Hrest (S i)). simpl in Hrest.
      now replace (S j + i) with (j + S i) by lia. }
    destruct e as [p|].
    + assert (p = PEach j) as -> by (eapply element_promise; eauto).
      apply IH; auto. now apply reg_then.
    + apply IH; auto. now apply reg_null.
Qed.

(** Once [Promise.all] has returned and the each phase has passed its
    promise on, the invariant holds again. *)
Lemma inv_promise_all :
  Inv (enqueue (JResolveThenable PEachPhase PAll) (Promise_all ps s0)).
Proof.
  unfold Promise_all. fold a0.
  pose proof (all_elements_reg ps 0 _ reg_init (fun i => eq_refl)) as R.
  simpl in R. set (t := all_elements 0 ps _) in *.
  assert (Hnone : all t <> None) by (rewrite (r_all _ _ R); discriminate).
  assert (Helem : forall i, element t i = nth_error ps i).
  { intros i. unfold element. now rewrite (r_all _ _ R). }
  assert (Hreg : forall i, element t i = Some (Some (PEach i)) ->
                           i < List.length ps /\
                           nth_error ps i = Some (Some (PEach i))).
  { intros i. rewrite Helem. intros H. split; auto.
    apply nth_error_Some. congruence. }
  assert (L : Linked (enqueue (JResolveThenable PEachPhase PAll) t)).
  { constructor; simpl.
    - intros i rs Hi Hp. destruct (Hreg i Hi). eapply r_registered; eauto.
    - intros rs _ _. rewrite (r_log _ _ R), queued_failures_app. simpl.
      rewrite app_nil_r, (r_queued _ _ R). apply Hmid.
    - intros i e Hi Hp. destruct (Hreg i Hi). left. apply in_or_app. left.
      eapply r_in; eauto. now apply (r_settled _ _ R).
    - intros _. left. apply in_or_app. simpl. auto. }
  assert (HI : Inv (enqueue (JResolveThenable PEachPhase PAll) t)).
  { split; [|split; [|split]]; auto.
    - apply base_enqueue; [exact (r_base _ _ R)|]. now constructor.
    - apply (chain_view t); simpl; auto; try tauto.
      + exact (r_chain _ _ R).
      + apply incl_refl.
      + apply incl_appl, incl_refl.
      + rewrite filter_app. simpl. apply app_nil_r.
    - intros H. simpl in H. contradiction. }
  destruct (List.length ps =? 0) eqn:Hlen; auto.
  apply Nat.eqb_eq in Hlen.
  assert (Hswap : enqueue (JResolveThenable PEachPhase PAll)
                    (settle PAll (Fulfill (VArray [])) t)
                  = settle PAll (Fulfill (VArray []))
                      (enqueue (JResolveThenable PEachPhase PAll) t)).
  { unfold settle. simpl. rewrite (r_all_pending _ _ R). simpl.
    unfold enqueue, record, set_jobs, set_promise. simpl.
    now rewrite !app_nil_r. }
  rewrite Hswap. apply inv_settle; auto.
  intros rs Hrs. repeat split; try discriminate; auto.
  - simpl. tauto.
  - intros i q.
    change (element (enqueue (JResolveThenable PEachPhase PAll) t) i)
      with (element t i).
    rewrite Helem. intros Hq.
    assert (nth_error ps i = None) by (apply nth_error_None; lia).
    congruence.
Qed.

End Registration.

(** ** The orchestrator *)

Section Orchestrator.

Variable code : fid -> jsfun.

Local Abbreviation call := (callFunction code).

(** The arguments the library passes hold no completion function, apart
    from the one [callFunction] appends. *)
Definition plain_args (a : list value) : Prop :=
  forall i p, nth i a VUndefined <> VCompletion p.

Definition args_of (x : pid) (args : list value) : Prop :=
  forall i p, nth i args VUndefined = VCompletion p -> p = x.

Lemma plain_args_of (x : pid) (a : list value) : plain_args a -> args_of x a.
Proof. intros H i p Hi. now destruct (H i p). Qed.

Lemma plain_args_completion (x : pid) (a : list value) :
  plain_args a -> args_of x (a ++ [VCompletion x]).
Proof.
  intros H i p. destruct (Nat.lt_ge_cases i (List.length a)) as [Hlt|Hge].
  - rewrite app_nth1 by assumption. intros Hi. now destruct (H i p).
  - rewrite app_nth2 by assumption.
    destruct (i - List.length a) as [|[|n]]; simpl; congruence.
Qed.

Lemma call_value_steps (x : pid) (f : value) (cargs : list value) (s : state) :
  (forall p, f = VCompletion p -> p = x) ->
  hook_steps x s (fst (call_value f cargs s)).
Proof.
  intros H. destruct f; simpl; try constructor.
  rewrite (H p eq_refl). unfold completion_function.
  destruct (truthy _); apply hook_steps_one; simpl; apply hs_settle.
Qed.

Lemma run_action_steps (x : pid) (args : list value) (a : action) (s : state) :
  args_of x args -> hook_steps x s (fst (run_action args a s)).
Proof.
  intros H. destruct a; simpl.
  - apply hook_steps_one. apply hs_files.
  - apply hook_steps_one. apply hs_files.
  - apply call_value_steps. intros p. apply H.
  - apply hook_steps_one. apply hs_timer_call. intros p. apply H.
Qed.

Lemma run_steps_steps (x : pid) (args : list value) (acts : list action) (s : state) :
  args_of x args -> hook_steps x s (fst (run_steps args acts s)).
Proof.
  intros H. revert s. induction acts as [|a acts IH]; intros s; simpl.
  - constructor.
  - pose proof (run_action_steps x args a s H) as Ha.
    destruct (run_action args a s) as [s' [e|]]; simpl in *; auto.
    eapply hook_steps_trans; eauto.
Qed.

Lemma hook_promise_steps (x : pid) (b : promise_script) (s : state) :
  hook_steps x s (hook_promise (PHook x) b s).
Proof.
  destruct b; simpl.
  - apply hook_steps_one. apply hs_settle_hook.
  - apply hook_steps_one. apply hs_timer_settle.
  - constructor.
Qed.

Lemma applied_args (x : pid) (fn : value) (args : list value) (f : fid)
  (received : list value) :
  applied fn args = Some (f, received) -> args_of x args -> args_of x received.
Proof.
  destruct fn as [ | | | | |g| | | |o| ]; try discriminate; simpl.
  - now intros [= <- <-].
  - destruct (lookup "apply" o) as [[]|]; try discriminate.
    intros [= <- <-] _ [|[|[|i]]] p; discriminate.
Qed.

Lemma fn_apply_steps (x : pid) (fn : value) (args : list value) (s : state) :
  args_of x args ->
  hook_steps x s (fst (fn_apply code x fn args s)) /\
  (forall q, snd (fn_apply code x fn args s) = Returned (Thenable q) -> q = PHook x).
Proof.
  intros H0. unfold fn_apply.
  destruct (applied fn args) as [[f received]|] eqn:Ha;
    [|split; [constructor | discriminate]].
  assert (H : args_of x received) by (eapply applied_args; eauto).
  pose proof (run_steps_steps x received
                (steps (fn_body (function_of code f) received))
                (record (EvCall x f received) s) H) as Hrun.
  destruct (run_steps _ _ _) as [s' [e|]]; simpl in *.
  - split; [|discriminate]. eapply hss_step; [apply hs_call | exact Hrun].
  - destruct (finish_ _); simpl.
    + split; [|discriminate]. eapply hss_step; [apply hs_call | exact Hrun].
    + split; [|discriminate]. eapply hss_step; [apply hs_call | exact Hrun].
    + split; [|congruence]. eapply hss_step; [apply hs_call |].
      eapply hook_steps_trans; [exact Hrun | apply hook_promise_steps].
Qed.

Lemma callFunction_steps (x : pid) (fn : value) (args : option (list value))
  (s : state) :
  (forall a, args = Some a -> plain_args a) ->
  hook_steps x (record (EvCallFunction x) s) (call x fn args s).
Proof.
  intros Hargs. unfold callFunction.
  set (s0 := record (EvCallFunction x) s).
  destruct (negb (truthy fn)).
  - apply hook_steps_one. apply hs_settle.
  - assert (Hplain : plain_args (match args with Some a => a | None => [] end)).
    { destruct args as [a|]; auto. intros [|i] p; discriminate. }
    destruct (supports_callbacks code fn args); unfold new_Promise.
    + destruct (fn_apply_steps x fn _ s0
                  (plain_args_completion x _ Hplain)) as [H _].
      destruct (fn_apply _ _ _ _ _) as [s' [r|e]]; simpl in *; auto.
      eapply hook_steps_trans; [exact H|]. apply hook_steps_one. apply hs_settle.
    + destruct (fn_apply_steps x fn _ s0 (plain_args_of x _ Hplain)) as [H Hq].
      destruct (fn_apply _ _ _ _ _) as [s' [r|e]]; simpl in *.
      * eapply hook_steps_trans; [exact H|]. apply hook_steps_one.
        destruct r as [v|q]; simpl; [apply hs_settle|].
        rewrite (Hq q eq_refl). apply hs_thenable.
      * eapply hook_steps_trans; [exact H|]. apply hook_steps_one. apply hs_settle.
Qed.

Lemma inv_callFunction (x : pid) (fn : value) (args : option (list value))
  (s : state) :
  Inv s -> hook_site x -> (forall i, x <> PEach i) ->
  (x = PAfter -> exists v, promises s PEachPhase = Settled (Fulfill v)) ->
  (forall a, args = Some a -> plain_args a) ->
  Inv (call x fn args s).
Proof.
  intros HI Hx Hne Hafter Hargs.
  apply (inv_hook_steps x (record (EvCallFunction x) s)); auto.
  - unfold started. simpl. apply in_or_app. simpl. auto.
  - now apply callFunction_steps.
  - apply inv_record; auto.
    + constructor; auto. intros i ->. now destruct (Hne i).
    + intros i [= ->]. now destruct (Hne i).
Qed.

Lemma callFunction_started (x : pid) (fn : value) (args : option (list value))
  (s : state) (y : pid) :
  (forall a, args = Some a -> plain_args a) ->
  started (call x fn args s) y <-> started s y \/ y = x.
Proof.
  intros Hargs.
  rewrite (hook_steps_started x _ _ y (callFunction_steps x fn args s Hargs)).
  unfold started. simpl. rewrite In_snoc.
  split; (intros [H|H]; [auto | right; congruence]).
Qed.

Lemma callFunction_all (x : pid) (fn : value) (args : option (list value))
  (s : state) :
  (forall a, args = Some a -> plain_args a) -> all (call x fn args s) = all s.
Proof.
  intros Hargs.
  now rewrite (hook_steps_all x _ _ (callFunction_steps x fn args s Hargs)).
Qed.

Variable options : props.
Variable matcher : string -> value.
Variable metalsmith : props.

Local Abbreviation run_job_ := (run_job code options matcher metalsmith).
Local Abbreviation run_timer_ := (run_timer).
Local Abbreviation step_ := (step code options matcher metalsmith).
Local Abbreviation run_ := (run code options matcher metalsmith).
Local Abbreviation map_each_ := (map_each code options metalsmith).

Lemma plain_args_hook (s : state) :
  plain_args [files_value s; VObject metalsmith].
Proof. intros [|[|[|i]]] p; discriminate. Qed.

Lemma files_get_plain (s : state) (filename : string) (p : pid) :
  files_get s filename <> VCompletion p.
Proof.
  unfold files_get, inherited. destruct (lookup filename (files s)); [discriminate|].
  destruct (String.eqb filename "__proto__"); [discriminate|].
  destruct (existsb _ _); discriminate.
Qed.

Lemma plain_args_each (filename : string) (s : state) :
  plain_args [VStr filename; files_get s filename; files_value s;
              VObject metalsmith].
Proof.
  intros [|[|[|[|[|i]]]]] p; try discriminate. apply files_get_plain.
Qed.

(** The second [.then] starts the after phase. *)
Lemma inv_then_after_fulfill (s : state) (v : value) (rest : list job) :
  Inv s -> jobs s = JReaction then_after (Fulfill v) :: rest ->
  Inv (run_job_ (JReaction then_after (Fulfill v)) (set_jobs rest s)).
Proof.
  intros HI Hj. pose proof HI as (B & L & C & F).
  assert (Hb : promises s PEachPhase = Settled (Fulfill v)).
  { apply job_ok_then_after. apply (b_jobs _ B). rewrite Hj. now left. }
  assert (H0 : Inv (set_jobs rest s)) by (eapply inv_pop_plain; eauto; exact I).
  simpl. set (s0 := set_jobs rest s) in *.
  set (s1 := callFunction code PAfter _ _ s0).
  assert (H1 : Inv s1).
  { apply inv_callFunction; auto.
    - exact I.
    - discriminate.
    - intros _. exists v. exact Hb.
    - intros a [= <-]. apply plain_args_hook. }
  apply inv_enqueue; auto.
  constructor. apply callFunction_started; auto.
  intros a [= <-]. apply plain_args_hook.
Qed.

(** *** The each phase *)

Lemma mid_callFunction (k : nat) (fn : value) (args : option (list value)) (s : state) :
  Mid k s -> (forall a, args = Some a -> plain_args a) ->
  Mid (S k) (call (PEach k) fn args s).
Proof.
  intros M Hargs.
  apply (mid_hook_steps k (record (EvCallFunction (PEach k)) s)).
  - now apply callFunction_steps.
  - now apply mid_enter.
  - unfold started. simpl. apply in_or_app. simpl. auto.
Qed.

Lemma map_each_mid (filenames : list string) :
  forall k s s' ps,
    Mid k s -> map_each_ k filenames s = (s', ps) ->
    Mid (k + List.length filenames) s' /\
    List.length ps = List.length filenames /\
    elements_ok k ps s' /\
    (forall i, i < k -> started s' (PEach i) <-> started s (PEach i)).
Proof.
  induction filenames as [|filename rest IH]; intros k s s' ps M Hmap; simpl in Hmap.
  - injection Hmap as <- <-. rewrite Nat.add_0_r.
    split; [|split; [|split]]; auto; [|tauto].
    intros j Hj. simpl in Hj. lia.
  - destruct (negb (truthy (files_get s filename))) eqn:Hfile.
    2: { set (s1 := callFunction code (PEach k) _ _ s) in Hmap.
      assert (Hplain : forall a,
                 Some [VStr filename; files_get s filename; files_value s;
                       VObject metalsmith]
                 = Some a -> plain_args a).
      { intros a [= <-]. apply plain_args_each. }
      assert (M1 : Mid (S k) s1) by (apply mid_callFunction; auto).
      destruct (map_each_ (S k) rest s1) as [s2 ps'] eqn:Hrest.
      injection Hmap as <- <-.
      destruct (IH _ _ _ _ M1 Hrest) as (M2 & Hlen & Hel & Hst).
      assert (Hs1 : forall y, started s1 y <-> started s y \/ y = PEach k).
      { intros y. apply callFunction_started. exact Hplain. }
      split; [|split; [|split]].
      * replace (k + List.length (filename :: rest))
          with (S k + List.length rest) by (simpl; lia).
        exact M2.
      * simpl. now rewrite Hlen.
      * intros [|j] Hj; simpl in *.
        -- left. rewrite Nat.add_0_r. split; auto.
           apply Hst; [lia|]. apply Hs1. auto.
        -- replace (k + S j) with (S k + j) by lia. apply Hel. lia.
      * intros i Hi. rewrite Hst by lia. rewrite Hs1.
        split; [intros [H|[= ->]]; [auto|lia] | auto]. }
    destruct (map_each_ (S k) rest s) as [s2 ps'] eqn:Hrest.
    injection Hmap as <- <-.
    destruct (IH _ _ _ _ (mid_skip _ _ M) Hrest) as (M2 & Hlen & Hel & Hst).
    split; [|split; [|split]].
      * replace (k + List.length (filename :: rest))
          with (S k + List.length rest) by (simpl; lia).
        exact M2.
      * simpl. now rewrite Hlen.
      * intros [|j] Hj; simpl in *.
        -- right. rewrite Nat.add_0_r. split; auto.
           rewrite Hst by lia. intros H. apply (m_started _ _ M) in H. lia.
        -- replace (k + S j) with (S k + j) by lia. apply Hel. lia.
      * intros i Hi. apply Hst. lia.
Qed.

Lemma each_failures_none (l : list event) :
  (forall i e, ~ In (EvSettle (PEach i) (Reject e)) l) -> each_failures l = [].
Proof.
  induction l as [|ev l IH]; simpl; auto.
  intros H. rewrite IH by (intros i e Hin; apply (H i e); auto).
  destruct ev as [| |p o|]; auto. destruct p; auto. destruct o; auto.
  exfalso. apply (H i e). auto.
Qed.

(** The first [.then] starts the each phase. *)
Lemma inv_then_each_fulfill (s : state) (v : value) (rest : list job) :
  Inv s -> jobs s = JReaction then_each (Fulfill v) :: rest ->
  Inv (run_job_ (JReaction then_each (Fulfill v)) (set_jobs rest s)).
Proof.
  intros HI Hj. pose proof HI as (B & L & C & F).
  assert (Hb : promises s PBefore = Settled (Fulfill v)).
  { apply job_ok_then_each. apply (b_jobs _ B). rewrite Hj. now left. }
  assert (Hall : all s = None).
  { destruct (all s) eqn:E; auto.
    assert (H : filter is_then_each (jobs s) = [])
      by (apply (c_then_each_all _ C); congruence).
    rewrite Hj in H. discriminate. }
  assert (Hrest : filter is_then_each rest = []).
  { pose proof (c_then_each_once _ C) as H. rewrite Hj in H. simpl in H.
    destruct (filter is_then_each rest); auto. simpl in H. lia. }
  destruct (inv_pop_plain s _ rest HI Hj I) as (B0 & L0 & C0 & F0).
  set (s0 := set_jobs rest s) in *.
  assert (M : Mid 0 s0).
  { constructor; auto.
    - eauto.
    - intros i Hi. now destruct (F0 Hall i).
    - apply each_failures_none. intros i e Hin.
      apply (b_settle_log _ B0) in Hin.
      apply (F0 Hall i). eapply b_settled_started; eauto. exact I. }
  simpl. destruct (map_each code options metalsmith 0 _ s0) as [s' ps] eqn:Hmap.
  destruct (map_each_mid _ _ _ _ _ M Hmap) as (M' & Hlen & Hel & _).
  simpl in M'. rewrite <- Hlen in M'.
  now apply inv_promise_all.
Qed.

Lemma inv_run_timer (s : state) (d : nat) (t : timer) (rest : list (nat * timer))
  (now : nat) :
  Inv s -> timers s = (d, t) :: rest ->
  Inv (run_timer t (set_timers rest now s)).
Proof.
  intros HI Ht. pose proof HI as (B & L & C & F).
  assert (Hok : timer_ok s t) by (apply (b_timers _ B d); rewrite Ht; now left).
  pose proof (inv_timer_pop s d t rest now HI Ht) as H0.
  destruct Hok as [x cargs Hx Hs|f cargs Hf|x o Hx Hs]; simpl.
  - destruct (hook_site_cases x Hx) as (N1 & N2 & N3 & N4).
    unfold completion_function. simpl.
    destruct (truthy _); apply inv_settle; auto; intros rs Hrs;
      (split; [intros _; exact Hs|]);
      (split; [intros ->; congruence|]); split; intros ->; congruence.
  - destruct f; simpl; auto. now destruct (Hf p).
  - apply inv_settle; auto. intros rs Hrs.
    split; [simpl; tauto|]. repeat split; discriminate.
Qed.

(** Every job keeps the invariant. *)
Lemma inv_run_job (s : state) (j : job) (rest : list job) :
  Inv s -> jobs s = j :: rest -> Inv (run_job_ j (set_jobs rest s)).
Proof.
  intros HI Hj. pose proof HI as (B & L & C & F).
  assert (Hok : job_ok s j) by (apply (b_jobs _ B); rewrite Hj; now left).
  destruct Hok as [p r o Hr Hp|i Hi|Hall|Hs|x Hx Hs].
  - destruct Hr as [| | | | |i Hi|x Hx Hs].
    + destruct o as [v|e].
      * now apply inv_then_each_fulfill.
      * now apply inv_then_each_reject.
    + destruct o as [v|e].
      * now apply inv_then_after_fulfill.
      * now apply inv_then_after_reject.
    + destruct o as [v|e]; simpl; eapply inv_then_done; eauto.
    + now apply inv_resolve_eachphase.
    + now apply inv_resolve_afterphase.
    + destruct o as [v|e].
      * simpl. apply inv_resolve_element; auto.
        eapply inv_pop_plain; eauto. exact I.
      * simpl. eapply inv_element_reject; eauto.
    + simpl. now apply inv_resolve_hook.
  - simpl. apply inv_resolve_element; auto.
    eapply inv_pop_plain; eauto. exact I.
  - simpl. now apply inv_thenable_all.
  - simpl. apply inv_then; auto; try discriminate.
    + eapply inv_pop_plain; eauto. exact I.
    + constructor.
  - simpl. apply inv_then; auto; try discriminate.
    + eapply inv_pop_plain; eauto. destruct x; simpl; auto.
    + now constructor.
Qed.

Lemma inv_step (s s' : state) : Inv s -> step_ s = Some s' -> Inv s'.
Proof.
  intros HI. unfold step.
  destruct (jobs s) as [|j rest] eqn:Hj.
  - destruct (timers s) as [|[d t] rest] eqn:Ht; [discriminate|].
    intros [= <-]. eapply inv_run_timer; eauto.
  - intros [= <-]. now apply inv_run_job.
Qed.

Lemma inv_run (n : nat) (s : state) : Inv s -> Inv (run_ n s).
Proof.
  revert s. induction n as [|n IH]; intros s HI; simpl; auto.
  destruct (step_ s) as [s'|] eqn:E; auto.
  apply IH. eapply inv_step; eauto.
Qed.

(** *** The synchronous part of [middlewareFn] *)

Lemma base_initial (fs : list (string * props)) : Base (initial fs).
Proof.
  constructor; unfold started, element; simpl; try tauto; try discriminate.
  - intros p rs r [= <-] [].
  - intros p o. split; [tauto | discriminate].
Qed.

Lemma linked_initial (fs : list (string * props)) : Linked (initial fs).
Proof.
  constructor; simpl; try tauto; try discriminate;
    unfold element; simpl; discriminate.
Qed.

(** No reaction is attached and no job of the chain is queued. *)
Definition Quiet (s : state) : Prop :=
  (forall q rs, promises s q = Pending rs -> rs = []) /\
  filter is_then_each (jobs s) = [].

Lemma settle_quiet (p : pid) (o : outcome) (s : state) :
  Quiet s -> Quiet (settle p o s).
Proof.
  intros [Hq Hj]. destruct (promises s p) as [rs|o'] eqn:E.
  - rewrite (settle_state _ o _ _ E). rewrite (Hq _ _ E). split; simpl.
    + intros q rs'. destruct (pid_eqb_spec q p); [discriminate | apply Hq].
    + now rewrite app_nil_r.
  - rewrite (settle_settled _ o _ _ E). now split.
Qed.

Lemma hook_step_quiet (x : pid) (s s' : state) :
  hook_step x s s' -> Quiet s -> Quiet s'.
Proof.
  intros H Q. destruct H; try (now apply settle_quiet); destruct Q as [Hq Hj];
    split; simpl; auto.
  rewrite filter_app. simpl. now rewrite app_nil_r.
Qed.

Lemma hook_steps_quiet (x : pid) (s s' : state) :
  hook_steps x s s' -> Quiet s -> Quiet s'.
Proof. induction 1; eauto using hook_step_quiet. Qed.

Lemma hook_step_other (x : pid) (s s' : state) (q : pid) :
  hook_step x s s' -> q <> x -> q <> PHook x -> promises s' q = promises s q.
Proof.
  intros H H1 H2. destruct H; auto; rewrite settle_promises.
  - destruct (promises s x); auto. destruct (pid_eqb_spec q x); congruence.
  - destruct (promises s (PHook x)); auto.
    destruct (pid_eqb_spec q (PHook x)); congruence.
Qed.

Lemma hook_steps_other (x : pid) (s s' : state) (q : pid) :
  hook_steps x s s' -> q <> x -> q <> PHook x -> promises s' q = promises s q.
Proof.
  induction 1; auto. intros H1 H2. rewrite IHhook_steps; auto.
  eapply hook_step_other; eauto.
Qed.

Theorem inv_middlewareFn (fs : list (string * props)) :
  Inv (middlewareFn code options metalsmith (initial fs)).
Proof.
  unfold middlewareFn.
  set (i0 := initial fs).
  set (args := Some [files_value i0; VObject metalsmith]).
  assert (Hplain : forall a, args = Some a -> plain_args a).
  { intros a [= <-]. apply plain_args_hook. }
  set (s1 := callFunction code PBefore _ args i0).
  pose proof (callFunction_steps PBefore (option_ options "before") args i0 Hplain)
    as Hsteps. fold s1 in Hsteps.
  set (r0 := record (EvCallFunction PBefore) i0) in *.
  assert (Hr0 : started r0 PBefore) by (unfold started; simpl; auto).
  assert (Hcore : Core s1).
  { apply (hook_steps_core PBefore r0); auto; [exact I|]. split.
    - apply base_record; [apply base_initial|].
      constructor; [exact I | discriminate | discriminate].
    - apply linked_record; [apply linked_initial|].
      constructor; [exact I | discriminate | discriminate]. }
  assert (Hquiet : Quiet s1).
  { apply (hook_steps_quiet PBefore r0); auto. split; simpl; auto.
    now intros q rs [= <-]. }
  assert (Hall : all s1 = None) by (rewrite (hook_steps_all _ _ _ Hsteps); auto).
  assert (Hstarted : forall y, started s1 y -> y = PBefore).
  { intros y Hy. apply (hook_steps_started _ _ _ y Hsteps) in Hy.
    unfold started in Hy. simpl in Hy. destruct Hy as [[= <-]|[]]. auto. }
  assert (Hep : promises s1 PEachPhase = Pending []).
  { rewrite (hook_steps_other _ _ _ PEachPhase Hsteps); auto; discriminate. }
  assert (Hap : promises s1 PAfterPhase = Pending []).
  { rewrite (hook_steps_other _ _ _ PAfterPhase Hsteps); auto; discriminate. }
  destruct Hcore as [B1 L1]. destruct Hquiet as [Hq Hjobs].
  set (s2 := then_ PBefore then_each s1).
  assert (B2 : Base s2) by (apply then_base; auto; [constructor | discriminate]).
  assert (L2 : Linked s2) by (apply then_linked; auto; discriminate).
  assert (Hep2 : promises s2 PEachPhase = Pending []).
  { unfold s2, then_. destruct (promises s1 PBefore); simpl; auto. }
  assert (Hap2 : promises s2 PAfterPhase = Pending []).
  { unfold s2, then_. destruct (promises s1 PBefore); simpl; auto. }
  rewrite (then_pending _ _ _ _ Hep2).
  set (s3 := set_promise PEachPhase _ s2).
  assert (Hap3 : promises s3 PAfterPhase = Pending []) by exact Hap2.
  rewrite (then_pending _ _ _ _ Hap3).
  assert (B3 : Base s3).
  { unfold s3. rewrite <- (then_pending _ then_after _ _ Hep2).
    apply then_base; auto; [constructor | discriminate]. }
  assert (L3 : Linked s3).
  { unfold s3. rewrite <- (then_pending _ then_after _ _ Hep2).
    apply then_linked; auto; discriminate. }
  split; [|split; [|split]].
  - rewrite <- (then_pending _ then_done _ _ Hap3).
    apply then_base; auto; [constructor | discriminate].
  - rewrite <- (then_pending _ then_done _ _ Hap3).
    apply then_linked; auto; discriminate.
  - unfold s3, s2, then_.
    destruct (promises s1 PBefore) as [rs|o] eqn:Eb.
    + rewrite (Hq _ _ Eb). constructor; simpl; rewrite ?Hjobs; simpl; auto;
        try discriminate; try (intros; congruence).
    + constructor; simpl; rewrite ?Eb, ?Hep, ?Hap, ?filter_app, ?Hjobs;
        simpl; auto; try discriminate; try (intros; congruence).
      intros e [= ->]. left. apply in_or_app. simpl. auto.
  - intros _ i Hi. unfold started in Hi. simpl in Hi.
    assert (Hs : started s1 (PEach i)).
    { unfold started. unfold s3, s2, then_ in Hi.
      destruct (promises s1 PBefore); exact Hi. }
    apply Hstarted in Hs. discriminate.
Qed.

(** ** What a turn of the event loop adds *)

Definition is_settle (ev : event) : bool :=
  match ev with
  | EvSettle _ _ => true
  | _ => false
  end.

Definition any_event (ev : event) : bool := true.

(** [advances P s s']: the log grows by events of the kind [P], jobs are
    added at the end of the queue, a settled promise keeps its outcome, and
    a reaction attached to a pending promise stays attached or becomes a job
    with the outcome of the promise. *)
Record advances (P : event -> bool) (s s' : state) : Prop := {
  adv_log : exists l, log s' = log s ++ l /\ forallb P l = true;
  adv_jobs : exists js, jobs s' = jobs s ++ js;
  adv_settled : forall p o, promises s p = Settled o -> promises s' p = Settled o;
  adv_pending : forall p rs r,
      promises s p = Pending rs -> In r rs ->
      (exists rs', promises s' p = Pending rs' /\ In r rs')
      \/ (exists o, promises s' p = Settled o /\ In (JReaction r o) (jobs s'));
  adv_all : all s <> None -> all s' <> None
}.

Lemma adv_same (P : event -> bool) (s s' : state) :
  (forall p, promises s' p = promises s p) -> log s' = log s ->
  jobs s' = jobs s -> all s' = all s -> advances P s s'.
Proof.
  intros Hp Hl Hj Ha. constructor.
  - exists []. now rewrite Hl, app_nil_r.
  - exists []. now rewrite Hj, app_nil_r.
  - intros p o. now rewrite Hp.
  - intros p rs r H Hr. left. exists rs. now rewrite Hp.
  - now rewrite Ha.
Qed.

Lemma adv_refl (P : event -> bool) (s : state) : advances P s s.
Proof. now apply adv_same. Qed.

Lemma adv_trans (P : event -> bool) (s1 s2 s3 : state) :
  advances P s1 s2 -> advances P s2 s3 -> advances P s1 s3.
Proof.
  intros [[l1 [Hl1 HP1]] [j1 Hj1] Hs1 Hp1 Ha1] [[l2 [Hl2 HP2]] [j2 Hj2] Hs2 Hp2 Ha2].
  constructor; auto.
  - exists (l1 ++ l2). rewrite Hl2, Hl1, app_assoc, forallb_app, HP1, HP2. auto.
  - exists (j1 ++ j2). now rewrite Hj2, Hj1, app_assoc.
  - intros p rs r H Hr. destruct (Hp1 p rs r H Hr) as [(rs' & H' & Hr')|(o & H' & Hj)].
    + eauto.
    + right. exists o. split; auto. rewrite Hj2. apply in_or_app. now left.
Qed.

Lemma adv_weaken (P Q : event -> bool) (s s' : state) :
  (forall ev, P ev = true -> Q ev = true) -> advances P s s' -> advances Q s s'.
Proof.
  intros HPQ [[l [Hl HP]] Hj Hs Hp Ha]. constructor; auto.
  exists l. split; auto. rewrite forallb_forall in *. auto.
Qed.

Lemma settle_adv (p : pid) (o : outcome) (s : state) :
  advances is_settle s (settle p o s).
Proof.
  destruct (promises s p) as [rs0|o0] eqn:E.
  - rewrite (settle_state _ o _ _ E). constructor; simpl; eauto.
    + intros q o' Hq. destruct (pid_eqb_spec q p); congruence.
    + intros q rs r Hq Hr. destruct (pid_eqb_spec q p) as [->|Hne].
      * right. exists o. split; auto. apply in_or_app. right.
        assert (rs = rs0) by congruence. subst.
        now apply (in_map (fun r => JReaction r o)).
      * left. eauto.
  - rewrite (settle_settled _ o _ _ E). apply adv_refl.
Qed.

Ltac adv_easy :=
  constructor; simpl; eauto; try discriminate;
  try (exists []; split; [now rewrite app_nil_r | reflexivity]);
  try (exists []; now rewrite app_nil_r);
  try (intros ? ? ? ? ?; left; eauto; fail).

Lemma enqueue_adv (P : event -> bool) (j : job) (s : state) :
  advances P s (enqueue j s).
Proof. adv_easy. Qed.

Lemma record_adv (P : event -> bool) (ev : event) (s : state) :
  P ev = true -> advances P s (record ev s).
Proof.
  intros HP. adv_easy. exists [ev]. simpl. now rewrite HP.
Qed.

Lemma then_adv (P : event -> bool) (p : pid) (r : reaction) (s : state) :
  advances P s (then_ p r s).
Proof.
  unfold then_. destruct (promises s p) as [rs0|o0] eqn:E.
  - adv_easy.
    + intros q o Hq. destruct (pid_eqb_spec q p); congruence.
    + intros q rs r' Hq Hr. left. destruct (pid_eqb_spec q p) as [->|Hne]; eauto.
      exists (rs0 ++ [r]). split; auto. apply in_or_app. left. congruence.
  - apply enqueue_adv.
Qed.

Lemma set_all_adv (P : event -> bool) (a : aggregate) (s : state) :
  advances P s (set_all (Some a) s).
Proof. adv_easy. Qed.

Lemma setTimeout_adv (P : event -> bool) (t : timer) (delay : nat) (s : state) :
  advances P s (setTimeout t delay s).
Proof. now apply adv_same. Qed.

Lemma set_files_adv (P : event -> bool) (fs : list (string * props)) (s : state) :
  advances P s (set_files fs s).
Proof. now apply adv_same. Qed.

Lemma resolve_adv (p : pid) (r : result) (s : state) :
  advances is_settle s (resolve p r s).
Proof. destruct r; simpl; [apply settle_adv | apply enqueue_adv]. Qed.

Lemma completion_function_adv (p : pid) (err v : value) (s : state) :
  advances is_settle s (completion_function p err v s).
Proof.
  unfold completion_function.
  destruct (truthy err); [apply settle_adv | apply resolve_adv].
Qed.

Lemma call_value_adv (f : value) (cargs : list value) (s : state) :
  advances is_settle s (fst (call_value f cargs s)).
Proof.
  destruct f; simpl; try apply adv_refl. apply completion_function_adv.
Qed.

Lemma run_action_adv (args : list value) (a : action) (s : state) :
  advances is_settle s (fst (run_action args a s)).
Proof.
  destruct a; simpl.
  - apply set_files_adv.
  - apply set_files_adv.
  - apply call_value_adv.
  - apply setTimeout_adv.
Qed.

Lemma run_steps_adv (args : list value) (acts : list action) (s : state) :
  advances is_settle s (fst (run_steps args acts s)).
Proof.
  revert s. induction acts as [|a acts IH]; intros s; simpl.
  - apply adv_refl.
  - pose proof (run_action_adv args a s) as Ha.
    destruct (run_action args a s) as [s' [e|]]; simpl in *; auto.
    eapply adv_trans; eauto.
Qed.

Lemma hook_promise_adv (q : pid) (b : promise_script) (s : state) :
  advances is_settle s (hook_promise q b s).
Proof.
  destruct b; simpl.
  - apply settle_adv.
  - apply setTimeout_adv.
  - apply adv_refl.
Qed.

(** The call [callFunction] makes, when it makes one: the function receives
    the arguments, followed by the completion function in the
    completion-callback convention. *)
Definition invocation (site : pid) (fn : value) (args : option (list value))
  : list event :=
  match applied fn
          (match args with Some a => a | None => [] end
           ++ if supports_callbacks code fn args then [VCompletion site] else [])
  with
  | Some (f, received) => [EvCall site f received]
  | None => []
  end.

Definition record_all (l : list event) (s : state) : state :=
  fold_left (fun s ev => record ev s) l s.

Lemma fn_apply_adv (site : pid) (fn : value) (args : list value) (s : state) :
  advances is_settle
    (record_all match applied fn args with
                | Some (f, received) => [EvCall site f received]
                | None => []
                end s)
    (fst (fn_apply code site fn args s)).
Proof.
  unfold fn_apply. destruct (applied fn args) as [[f received]|]; simpl;
    [|apply adv_refl].
  pose proof (run_steps_adv received
                (steps (fn_body (function_of code f) received))
                (record (EvCall site f received) s)) as H.
  destruct (run_steps _ _ _) as [s' [e|]]; simpl in *; auto.
  destruct (finish_ _); simpl; auto.
  eapply adv_trans; [exact H | apply hook_promise_adv].
Qed.

(** [callFunction] logs its entry and the call, and settles promises. *)
Lemma callFunction_adv (site : pid) (fn : value) (args : option (list value))
  (s : state) :
  advances is_settle
    (record_all (EvCallFunction site :: invocation site fn args) s)
    (call site fn args s).
Proof.
  unfold callFunction. destruct (truthy fn) eqn:Ht; simpl negb; cbv iota.
  - destruct (supports_callbacks code fn args) eqn:Hc; unfold new_Promise.
    + pose proof (fn_apply_adv site fn
                    (match args with Some a => a | None => [] end ++ [VCompletion site])
                    (record (EvCallFunction site) s)) as H.
      destruct (fn_apply _ _ _ _ _) as [s' [r|e]]; simpl in H;
        (assert (H' : advances is_settle
                   (record_all (EvCallFunction site :: invocation site fn args) s) s')
          by (unfold invocation; rewrite Hc; exact H)); auto.
      eapply adv_trans; [exact H' | apply settle_adv].
    + pose proof (fn_apply_adv site fn
                    (match args with Some a => a | None => [] end)
                    (record (EvCallFunction site) s)) as H.
      destruct (fn_apply _ _ _ _ _) as [s' [r|e]]; simpl in H;
        (assert (H' : advances is_settle
                   (record_all (EvCallFunction site :: invocation site fn args) s) s')
          by (unfold invocation; rewrite Hc, app_nil_r; exact H)).
      * eapply adv_trans; [exact H' | apply resolve_adv].
      * eapply adv_trans; [exact H' | apply settle_adv].
  - assert (Hi : invocation site fn args = [])
      by (unfold invocation; destruct fn; auto; discriminate).
    rewrite Hi. apply settle_adv.
Qed.

(** The calls made at a call site, in the order of the log. *)
Definition calls_at (site : pid) (l : list event) : list event :=
  filter (fun ev => match ev with
                    | EvCall p _ _ => pid_eqb p site
                    | _ => false
                    end) l.

Definition not_each_call (ev : event) : bool := negb (is_each_call ev).

(** The events of [callFunction] at a site. *)
Definition site_event (site : pid) (ev : event) : bool :=
  match ev with
  | EvCallFunction p | EvCall p _ _ => pid_eqb p site
  | EvSettle _ _ => true
  | EvDone _ => false
  end.

Lemma calls_at_app (site : pid) (l1 l2 : list event) :
  calls_at site (l1 ++ l2) = calls_at site l1 ++ calls_at site l2.
Proof. apply filter_app. Qed.

Lemma calls_at_settles (site : pid) (l : list event) :
  forallb is_settle l = true -> calls_at site l = [].
Proof.
  induction l as [|ev l IH]; simpl; auto.
  destruct ev; simpl; auto; discriminate.
Qed.

Lemma calls_at_quiet (i : nat) (l : list event) :
  forallb not_each_call l = true -> calls_at (PEach i) l = [].
Proof.
  induction l as [|ev l IH]; simpl; auto.
  destruct ev as [p|p f a|p o|x]; simpl; auto.
  destruct p; simpl; auto; discriminate.
Qed.

Lemma each_calls_quiet (l : list event) :
  forallb not_each_call l = true -> each_calls l = [].
Proof.
  induction l as [|ev l IH]; simpl; auto.
  destruct ev as [p|p f a|p o|x]; simpl; auto.
  destruct p; simpl; auto; discriminate.
Qed.

Lemma calls_at_each_calls (i : nat) (l : list event) :
  each_calls l = [] -> calls_at (PEach i) l = [].
Proof.
  induction l as [|ev l IH]; simpl; auto.
  destruct ev as [p|p f a|p o|x]; simpl; auto.
  destruct p; simpl; auto; discriminate.
Qed.

Lemma record_all_log (l : list event) (s : state) :
  log (record_all l s) = log s ++ l.
Proof.
  revert s. induction l as [|ev l IH]; intros s; simpl.
  - now rewrite app_nil_r.
  - unfold record_all in IH. rewrite IH. simpl. now rewrite <- app_assoc.
Qed.

Lemma record_all_adv (P : event -> bool) (l : list event) (s : state) :
  forallb P l = true -> advances P s (record_all l s).
Proof.
  revert s. induction l as [|ev l IH]; intros s; simpl.
  - intros _. apply adv_refl.
  - intros H. apply andb_prop in H as [H1 H2].
    eapply adv_trans; [apply record_adv; exact H1 | apply IH; exact H2].
Qed.

Lemma callFunction_log (site : pid) (fn : value) (args : option (list value))
  (s : state) :
  exists l,
    log (call site fn args s)
    = log s ++ EvCallFunction site :: invocation site fn args ++ l /\
    forallb is_settle l = true.
Proof.
  destruct (adv_log _ _ _ (callFunction_adv site fn args s)) as [l [Hl HP]].
  exists l. split; auto. rewrite Hl, record_all_log. now rewrite <- app_assoc.
Qed.

Lemma calls_at_invocation (site site' : pid) (fn : value)
  (args : option (list value)) :
  calls_at site' (invocation site fn args)
  = if pid_eqb site site' then invocation site fn args else [].
Proof.
  unfold invocation. destruct (applied _ _) as [[f received]|]; simpl;
    now destruct (pid_eqb site site').
Qed.

(** [callFunction] calls the function once, at its own site. *)
Lemma callFunction_calls (site : pid) (fn : value) (args : option (list value))
  (s : state) (site' : pid) :
  calls_at site' (log (call site fn args s))
  = calls_at site' (log s)
    ++ if pid_eqb site site' then invocation site fn args else [].
Proof.
  destruct (callFunction_log site fn args s) as [l [Hl HP]].
  rewrite Hl, calls_at_app. f_equal.
  change (EvCallFunction site :: invocation site fn args ++ l)
    with ([EvCallFunction site] ++ invocation site fn args ++ l).
  rewrite !calls_at_app, calls_at_invocation, (calls_at_settles _ l HP).
  simpl. apply app_nil_r.
Qed.

Lemma callFunction_advances (site : pid) (fn : value) (args : option (list value))
  (s : state) :
  advances (site_event site) s (call site fn args s).
Proof.
  eapply adv_trans.
  - apply (record_all_adv _ (EvCallFunction site :: invocation site fn args)).
    simpl. rewrite pid_eqb_refl. unfold invocation.
    destruct (applied _ _) as [[f received]|]; simpl; auto.
    now rewrite pid_eqb_refl.
  - eapply adv_weaken; [|apply callFunction_adv].
    now intros [p|p f a|p o|x].
Qed.

(** *** The calls of the each phase *)

(** The call of the each phase for the index [j] of the matched names, when
    the names are processed from the index [i] on in the state [s]: none
    when the record of the name is gone at the time its turn comes. *)
Definition each_call (i : nat) (names : list string) (s : state) (j : nat)
  : list event :=
  if j <? i then []
  else
    match nth_error names (j - i) with
    | None => []
    | Some name =>
        let sk := fst (map_each_ i (firstn (j - i) names) s) in
        if truthy (files_get sk name) then
          invocation (PEach j) (option_ options "each")
            (Some [VStr name; files_get sk name; files_value sk;
                   VObject metalsmith])
        else []
    end.

Lemma map_each_cons_none (i : nat) (name : string) (rest : list string) (s : state) :
  truthy (files_get s name) = false ->
  fst (map_each_ i (name :: rest) s) = fst (map_each_ (S i) rest s).
Proof.
  intros H. simpl. rewrite H. simpl. now destruct (map_each _ _ _ (S i) rest s).
Qed.

Lemma map_each_cons_some (i : nat) (name : string) (rest : list string) (s : state) :
  truthy (files_get s name) = true ->
  fst (map_each_ i (name :: rest) s)
  = fst (map_each_ (S i) rest
           (call (PEach i) (option_ options "each")
              (Some [VStr name; files_get s name; files_value s;
                     VObject metalsmith]) s)).
Proof.
  intros H. simpl. rewrite H. simpl. now destruct (map_each _ _ _ (S i) rest _).
Qed.

Lemma each_call_below (i : nat) (names : list string) (s : state) (j : nat) :
  j < i -> each_call i names s j = [].
Proof. intros H. unfold each_call. apply Nat.ltb_lt in H. now rewrite H. Qed.

Lemma each_call_next (i : nat) (name : string) (rest : list string) (s s1 : state)
  (j : nat) :
  i < j ->
  (forall k, fst (map_each_ i (name :: firstn k rest) s)
             = fst (map_each_ (S i) (firstn k rest) s1)) ->
  each_call i (name :: rest) s j = each_call (S i) rest s1 j.
Proof.
  intros Hlt Hk. unfold each_call.
  assert (H1 : (j <? i) = false) by (apply Nat.ltb_ge; lia).
  assert (H2 : (j <? S i) = false) by (apply Nat.ltb_ge; lia).
  rewrite H1, H2.
  replace (j - i) with (S (j - S i)) by lia. simpl nth_error. simpl firstn.
  now rewrite Hk.
Qed.

Lemma map_each_calls (names : list string) (i : nat) (s : state) (j : nat) :
  calls_at (PEach j) (log (fst (map_each_ i names s)))
  = calls_at (PEach j) (log s) ++ each_call i names s j.
Proof.
  revert i s. induction names as [|name rest IH]; intros i s.
  - simpl. unfold each_call. destruct (j <? i); [now rewrite app_nil_r|].
    destruct (j - i); simpl; now rewrite app_nil_r.
  - destruct (truthy (files_get s name)) eqn:E.
    + rewrite (map_each_cons_some _ _ _ _ E), IH, callFunction_calls.
      rewrite <- app_assoc. f_equal.
      destruct (Nat.lt_total j i) as [Hlt|[->|Hgt]].
      * rewrite !each_call_below by lia. simpl.
        destruct (Nat.eqb_spec i j); [lia | reflexivity].
      * rewrite each_call_below by lia. simpl. rewrite Nat.eqb_refl, app_nil_r.
        unfold each_call. rewrite Nat.ltb_irrefl, Nat.sub_diag. simpl.
        now rewrite E.
      * simpl. destruct (Nat.eqb_spec i j); [lia|]. simpl.
        symmetry. apply each_call_next; auto.
        intros k. now rewrite (map_each_cons_some _ _ _ _ E).
    + rewrite (map_each_cons_none _ _ _ _ E), IH. f_equal.
      destruct (Nat.lt_total j i) as [Hlt|[->|Hgt]].
      * now rewrite !each_call_below by lia.
      * rewrite each_call_below by lia.
        unfold each_call. rewrite Nat.ltb_irrefl, Nat.sub_diag. simpl.
        now rewrite E.
      * symmetry. apply each_call_next; auto.
        intros k. now rewrite (map_each_cons_none _ _ _ _ E).
Qed.

(** *** The jobs and the timers *)

Lemma map_each_adv (names : list string) (i : nat) (s : state) :
  advances any_event s (fst (map_each_ i names s)).
Proof.
  revert i s. induction names as [|name rest IH]; intros i s.
  - simpl. apply adv_refl.
  - destruct (truthy (files_get s name)) eqn:E.
    + rewrite (map_each_cons_some _ _ _ _ E).
      eapply adv_trans; [|apply IH].
      eapply adv_weaken; [|apply callFunction_advances]. reflexivity.
    + rewrite (map_each_cons_none _ _ _ _ E). apply IH.
Qed.

Lemma all_elements_adv (P : event -> bool) (ps : list (option pid)) (i : nat)
  (s : state) :
  advances P s (all_elements i ps s).
Proof.
  revert i s. induction ps as [|[p|] ps IH]; intros i s; simpl.
  - apply adv_refl.
  - eapply adv_trans; [apply then_adv | apply IH].
  - eapply adv_trans; [apply enqueue_adv | apply IH].
Qed.

Lemma Promise_all_adv (ps : list (option pid)) (s : state) :
  advances is_settle s (Promise_all ps s).
Proof.
  unfold Promise_all.
  match goal with
  | |- context [set_all (Some ?a) s] =>
      assert (H : advances is_settle s (all_elements 0 ps (set_all (Some a) s)))
        by (eapply adv_trans; [apply set_all_adv | apply all_elements_adv])
  end.
  destruct (List.length ps =? 0); auto.
  eapply adv_trans; [exact H | apply settle_adv].
Qed.

Lemma resolve_element_adv (i : nat) (v : value) (s : state) :
  advances is_settle s (resolve_element i v s).
Proof.
  unfold resolve_element. destruct (all s) as [a|]; [|apply adv_refl].
  destruct (existsb _ _); [apply adv_refl|].
  match goal with
  | |- context [if ?c then _ else _] => destruct c
  end.
  - eapply adv_trans; [apply set_all_adv | apply settle_adv].
  - apply set_all_adv.
Qed.

Lemma settle_any (ev : event) : is_settle ev = true -> any_event ev = true.
Proof. reflexivity. Qed.

Lemma settle_not_each (ev : event) : is_settle ev = true -> not_each_call ev = true.
Proof. now destruct ev. Qed.

Lemma after_not_each (ev : event) :
  site_event PAfter ev = true -> not_each_call ev = true.
Proof. destruct ev as [p|p f a|p o|x]; auto. now destruct p. Qed.

(** The handlers other than the one of the each phase. *)
Lemma run_handler_quiet (h : handler) (v : value) (s : state) :
  h <> HEach ->
  advances not_each_call s (fst (run_handler code options matcher metalsmith h v s))
  /\ (all s = None ->
      all (fst (run_handler code options matcher metalsmith h v s)) = None).
Proof.
  intros Hh. destruct h; try congruence; simpl.
  - split.
    + eapply adv_weaken; [apply after_not_each | apply callFunction_advances].
    + rewrite callFunction_all; auto. intros a [= <-]. apply plain_args_hook.
  - split; auto. now apply record_adv.
  - split; auto. now apply record_adv.
Qed.

Lemma run_handler_adv (h : handler) (v : value) (s : state) :
  advances any_event s (fst (run_handler code options matcher metalsmith h v s)).
Proof.
  destruct h.
  - simpl. pose proof (map_each_adv (matched matcher s) 0 s) as H.
    destruct (map_each _ _ _ 0 _ s) as [s' ps]. simpl in *.
    eapply adv_trans; [exact H|].
    eapply adv_weaken; [apply settle_any | apply Promise_all_adv].
  - eapply adv_weaken; [|apply (run_handler_quiet HAfter)]; [reflexivity|discriminate].
  - eapply adv_weaken; [|apply (run_handler_quiet HDone)]; [reflexivity|discriminate].
  - eapply adv_weaken; [|apply (run_handler_quiet HDoneErr)]; [reflexivity|discriminate].
Qed.

Lemma resolve_all (p : pid) (r : result) (s : state) : all (resolve p r s) = all s.
Proof. destruct r; simpl; auto. apply settle_all. Qed.

Lemma react_adv (h : option handler) (d : pid) (o : outcome) (s : state) :
  advances any_event s (react code options matcher metalsmith h d o s).
Proof.
  unfold react. destruct h as [h|].
  - pose proof (run_handler_adv h (match o with Fulfill v => v | Reject e => e end) s)
      as H.
    destruct (run_handler _ _ _ _ _ _ _) as [s' [r|e]]; simpl in H;
      (eapply adv_trans; [exact H|]); (eapply adv_weaken; [apply settle_any|]).
    + apply resolve_adv.
    + apply settle_adv.
  - eapply adv_weaken; [apply settle_any | apply settle_adv].
Qed.

Lemma react_quiet (h : option handler) (d : pid) (o : outcome) (s : state) :
  h <> Some HEach ->
  advances not_each_call s (react code options matcher metalsmith h d o s)
  /\ (all s = None -> all (react code options matcher metalsmith h d o s) = None).
Proof.
  intros Hh. unfold react. destruct h as [h|].
  - assert (Hne : h <> HEach) by congruence.
    destruct (run_handler_quiet h (match o with Fulfill v => v | Reject e => e end)
                s Hne) as [H Ha].
    destruct (run_handler _ _ _ _ _ _ _) as [s' [r|e]]; simpl in H, Ha; split.
    + eapply adv_trans; [exact H|].
      eapply adv_weaken; [apply settle_not_each | apply resolve_adv].
    + now rewrite resolve_all.
    + eapply adv_trans; [exact H|].
      eapply adv_weaken; [apply settle_not_each | apply settle_adv].
    + now rewrite settle_all.
  - split.
    + eapply adv_weaken; [apply settle_not_each | apply settle_adv].
    + now rewrite settle_all.
Qed.

(** The job that enters the each phase. *)
Definition dispatches (j : job) : bool :=
  match j with
  | JReaction (RThen onFulfilled onRejected _) o =>
      match (match o with Fulfill _ => onFulfilled | Reject _ => onRejected end) with
      | Some HEach => true
      | _ => false
      end
  | _ => false
  end.

Lemma run_job_adv (j : job) (s : state) : advances any_event s (run_job_ j s).
Proof.
  destruct j as [[onF onR d|target|i] o|target thenable]; simpl.
  - destruct o; apply react_adv.
  - eapply adv_weaken; [apply settle_any | apply settle_adv].
  - destruct o.
    + eapply adv_weaken; [apply settle_any | apply resolve_element_adv].
    + eapply adv_weaken; [apply settle_any | apply settle_adv].
  - apply then_adv.
Qed.

Lemma resolve_element_none (i : nat) (v : value) (s : state) :
  all s = None -> all (resolve_element i v s) = None.
Proof. intros H. unfold resolve_element. now rewrite H. Qed.

Lemma run_job_quiet (j : job) (s : state) :
  dispatches j = false ->
  advances not_each_call s (run_job_ j s)
  /\ (all s = None -> all (run_job_ j s) = None).
Proof.
  destruct j as [[onF onR d|target|i] o|target thenable]; simpl; intros Hd.
  - destruct o; apply react_quiet; intros ->; discriminate.
  - split; [|now rewrite settle_all].
    eapply adv_weaken; [apply settle_not_each | apply settle_adv].
  - destruct o; split.
    + eapply adv_weaken; [apply settle_not_each | apply resolve_element_adv].
    + apply resolve_element_none.
    + eapply adv_weaken; [apply settle_not_each | apply settle_adv].
    + now rewrite settle_all.
  - split; [apply then_adv | now rewrite then_all].
Qed.

Lemma run_timer_adv (t : timer) (s : state) :
  advances is_settle s (run_timer_ t s).
Proof.
  destruct t; simpl; [apply call_value_adv | apply settle_adv].
Qed.

Lemma run_timer_all (t : timer) (s : state) : all (run_timer_ t s) = all s.
Proof.
  destruct t as [f cargs|p o]; simpl; [|apply settle_all].
  destruct f; simpl; auto. unfold completion_function.
  destruct (truthy _); [apply settle_all | apply resolve_all].
Qed.

(** A turn of the event loop takes the job at the head of the queue, or a
    timer when the queue is empty. *)
Inductive turn (s : state) : state -> Prop :=
| turn_job j rest :
    jobs s = j :: rest -> turn s (run_job_ j (set_jobs rest s))
| turn_timer d t rest :
    jobs s = [] -> timers s = (d, t) :: rest ->
    turn s (run_timer_ t (set_timers rest (Nat.max (clock s) d) s)).

Lemma step_turn (s s' : state) : step_ s = Some s' <-> turn s s'.
Proof.
  unfold step. split.
  - destruct (jobs s) as [|j rest] eqn:Hj.
    + destruct (timers s) as [|[d t] rest] eqn:Ht; [discriminate|].
      intros [= <-]. now apply turn_timer.
    + intros [= <-]. now apply turn_job.
  - intros [j rest Hj|d t rest Hj Ht].
    + now rewrite Hj.
    + now rewrite Hj, Ht.
Qed.

(** What a turn leaves of the state it starts from. *)
Record follows (s s' : state) : Prop := {
  f_log : exists l, log s' = log s ++ l;
  f_jobs : exists js, jobs s' = tl (jobs s) ++ js;
  f_settled : forall p o, promises s p = Settled o -> promises s' p = Settled o;
  f_pending : forall p rs r,
      promises s p = Pending rs -> In r rs ->
      (exists rs', promises s' p = Pending rs' /\ In r rs')
      \/ (exists o, promises s' p = Settled o /\ In (JReaction r o) (jobs s'));
  f_all : all s <> None -> all s' <> None
}.

Lemma adv_follows (P : event -> bool) (s s1 s' : state) :
  (forall p, promises s1 p = promises s p) -> log s1 = log s ->
  jobs s1 = tl (jobs s) -> all s1 = all s ->
  advances P s1 s' -> follows s s'.
Proof.
  intros Hp Hl Hj Ha [[l [Hl' _]] Hj' Hs' Hp' Ha']. constructor.
  - exists l. now rewrite Hl', Hl.
  - now rewrite <- Hj.
  - intros p o. rewrite <- Hp. auto.
  - intros p rs r. rewrite <- Hp. apply Hp'.
  - now rewrite <- Ha.
Qed.

Lemma step_follows (s s' : state) : step_ s = Some s' -> follows s s'.
Proof.
  intros H. apply step_turn in H. destruct H as [j rest Hj|d t rest Hj Ht].
  - apply (adv_follows any_event s (set_jobs rest s)); auto.
    + simpl. now rewrite Hj.
    + apply run_job_adv.
  - apply (adv_follows is_settle s (set_timers rest (Nat.max (clock s) d) s)); auto.
    + simpl. now rewrite Hj.
    + apply run_timer_adv.
Qed.

(** *** Running the event loop *)

Lemma run_stuck (n : nat) (s : state) : step_ s = None -> run_ n s = s.
Proof. intros H. destruct n; simpl; auto. now rewrite H. Qed.

Lemma run_add (n m : nat) (s : state) : run_ (n + m) s = run_ m (run_ n s).
Proof.
  revert s. induction n as [|n IH]; intros s; simpl; auto.
  destruct (step_ s) as [s'|] eqn:E; auto.
  now rewrite run_stuck.
Qed.

Lemma run_S (n : nat) (s : state) :
  run_ (S n) s = match step_ (run_ n s) with
                 | Some s' => s'
                 | None => run_ n s
                 end.
Proof.
  replace (S n) with (n + 1) by lia. rewrite run_add. simpl.
  now destruct (step_ (run_ n s)).
Qed.

Lemma run_log (n : nat) (s : state) : exists l, log (run_ n s) = log s ++ l.
Proof.
  revert s. induction n as [|n IH]; intros s; simpl.
  - exists []. now rewrite app_nil_r.
  - destruct (step_ s) as [s'|] eqn:E.
    + destruct (f_log _ _ (step_follows _ _ E)) as [l1 H1].
      destruct (IH s') as [l2 H2]. exists (l1 ++ l2).
      now rewrite H2, H1, app_assoc.
    + exists []. now rewrite app_nil_r.
Qed.

Lemma run_settled (n : nat) (s : state) (p : pid) (o : outcome) :
  promises s p = Settled o -> promises (run_ n s) p = Settled o.
Proof.
  revert s. induction n as [|n IH]; intros s H; simpl; auto.
  destruct (step_ s) as [s'|] eqn:E; auto.
  apply IH. eapply f_settled; eauto. now apply step_follows.
Qed.

Lemma run_all (n : nat) (s : state) : all s <> None -> all (run_ n s) <> None.
Proof.
  revert s. induction n as [|n IH]; intros s H; simpl; auto.
  destruct (step_ s) as [s'|] eqn:E; auto.
  apply IH. eapply f_all; eauto. now apply step_follows.
Qed.

Lemma run_in_log (n : nat) (s : state) (ev : event) :
  In ev (log s) -> In ev (log (run_ n s)).
Proof.
  intros H. destruct (run_log n s) as [l Hl]. rewrite Hl.
  apply in_or_app. now left.
Qed.

Lemma run_le (n m : nat) (s : state) :
  n <= m -> exists k, run_ m s = run_ k (run_ n s).
Proof.
  intros H. exists (m - n). rewrite <- run_add. f_equal. lia.
Qed.

(** A job of the queue reaches its head. *)
Lemma run_head (pre : list job) (j : job) (post : list job) (s : state) :
  jobs s = pre ++ j :: post ->
  exists js, jobs (run_ (List.length pre) s) = j :: post ++ js.
Proof.
  revert post s. induction pre as [|a pre IH]; intros post s Hj.
  - exists []. simpl. now rewrite app_nil_r.
  - simpl. destruct (step_ s) as [s'|] eqn:E.
    + destruct (f_jobs _ _ (step_follows _ _ E)) as [js1 H1].
      rewrite Hj in H1. simpl in H1. rewrite <- app_assoc in H1. simpl in H1.
      destruct (IH _ _ H1) as [js H]. exists (js1 ++ js).
      now rewrite H, <- app_assoc.
    + unfold step in E. rewrite Hj in E. discriminate.
Qed.

Lemma job_turn (s : state) (j : job) :
  Inv s -> In j (jobs s) ->
  exists n rest,
    Inv (run_ n s) /\ jobs (run_ n s) = j :: rest /\
    run_ (S n) s = run_job_ j (set_jobs rest (run_ n s)).
Proof.
  intros HI Hin. apply in_split in Hin as (pre & post & Hj).
  destruct (run_head _ _ _ _ Hj) as [js H].
  exists (List.length pre), (post ++ js). split; [now apply inv_run|]. split; auto.
  rewrite run_S. unfold step. now rewrite H.
Qed.

(** *** A failure reaches the completion callback *)

Lemma settle_cases (p : pid) (o : outcome) (s : state) :
  promises (settle p o s) p = Settled o
  \/ exists o', promises s p = Settled o' /\ settle p o s = s.
Proof.
  destruct (promises s p) as [rs|o'] eqn:E.
  - left. eapply settle_pending; eauto.
  - right. exists o'. split; auto. eapply settle_settled; eauto.
Qed.

Lemma all_started (s : state) (o : outcome) :
  Base s -> promises s PAll = Settled o -> all s <> None.
Proof.
  intros B H Hnone. rewrite (b_all_pending _ B Hnone) in H. discriminate.
Qed.

Lemma stage_afterphase (s : state) (e : value) :
  Inv s -> promises s PAfterPhase = Settled (Reject e) ->
  exists n, In (EvDone e) (log (run_ n s)).
Proof.
  intros HI H. pose proof HI as (B & L & C & F).
  destruct (c_afterphase_failure _ C e H) as [Hj|Hd]; [|now exists 0].
  destruct (job_turn s _ HI Hj) as (n & rest & HI1 & Hj1 & Hrun).
  exists (S n). rewrite Hrun. simpl. unfold react. simpl.
  destruct (adv_log _ _ _ (settle_adv PDone (Fulfill VUndefined)
             (record (EvDone e) (set_jobs rest (run_ n s))))) as [l [Hl _]].
  rewrite Hl. simpl. apply in_or_app. left. apply in_or_app. right. now left.
Qed.

Lemma stage_eachphase (s : state) (e : value) :
  Inv s -> promises s PEachPhase = Settled (Reject e) ->
  exists n, promises (run_ n s) PAfterPhase = Settled (Reject e).
Proof.
  intros HI H. pose proof HI as (B & L & C & F).
  destruct (c_eachphase_failure _ C e H) as [Hj|Hd]; [|now exists 0].
  destruct (job_turn s _ HI Hj) as (n & rest & HI1 & Hj1 & Hrun).
  exists (S n). rewrite Hrun. simpl. unfold react.
  destruct (settle_cases PAfterPhase (Reject e) (set_jobs rest (run_ n s)))
    as [Hs|(o' & Hs & Heq)]; auto.
  rewrite Heq. simpl in *. rewrite Hs. f_equal.
  destruct HI1 as (B1 & _).
  pose proof (run_settled n s _ _ H) as He.
  destruct (b_afterphase _ B1 o' Hs) as [(e' & -> & He')|Ha].
  - congruence.
  - assert (Hst : started (run_ n s) PAfter)
      by (eapply (b_settled_started _ B1); eauto; exact I).
    destruct (b_started_after _ B1 Hst) as [v Hv]. congruence.
Qed.

Lemma stage_before (s : state) (e : value) :
  Inv s -> promises s PBefore = Settled (Reject e) ->
  exists n, promises (run_ n s) PEachPhase = Settled (Reject e).
Proof.
  intros HI H. pose proof HI as (B & L & C & F).
  destruct (c_before_failure _ C e H) as [Hj|Hd]; [|now exists 0].
  destruct (job_turn s _ HI Hj) as (n & rest & HI1 & Hj1 & Hrun).
  exists (S n). rewrite Hrun. simpl. unfold react.
  destruct (settle_cases PEachPhase (Reject e) (set_jobs rest (run_ n s)))
    as [Hs|(o' & Hs & Heq)]; auto.
  rewrite Heq. simpl in *. rewrite Hs. f_equal.
  destruct HI1 as (B1 & _).
  pose proof (run_settled n s _ _ H) as He.
  destruct (b_eachphase _ B1 o' Hs) as [(e' & -> & He')|Ha].
  - congruence.
  - destruct (b_all_before _ B1 (all_started _ _ B1 Ha)) as [v Hv]. congruence.
Qed.

Lemma stage_all_job (s : state) (o : outcome) :
  Inv s -> promises s PAll = Settled o ->
  In (JReaction (RResolve PEachPhase) o) (jobs s) ->
  exists n, promises (run_ n s) PEachPhase = Settled o.
Proof.
  intros HI H Hj.
  destruct (job_turn s _ HI Hj) as (n & rest & HI1 & Hj1 & Hrun).
  exists (S n). rewrite Hrun. simpl.
  destruct (settle_cases PEachPhase o (set_jobs rest (run_ n s)))
    as [Hs|(o' & Hs & Heq)]; auto.
  rewrite Heq. simpl in *. rewrite Hs. f_equal.
  destruct HI1 as (B1 & _).
  pose proof (run_settled n s _ _ H) as He.
  destruct (b_eachphase _ B1 o' Hs) as [(e' & -> & He')|Ha].
  - destruct (b_all_before _ B1 (all_started _ _ B1 He)) as [v Hv]. congruence.
  - congruence.
Qed.

Lemma stage_all (s : state) (o : outcome) :
  Inv s -> promises s PAll = Settled o ->
  exists n, promises (run_ n s) PEachPhase = Settled o.
Proof.
  intros HI H. pose proof HI as (B & L & C & F).
  destruct (l_all_token _ L (all_started _ _ B H))
    as [Hj|[(rs & Hp & _)|(o' & Hp & [Hj|Hd])]].
  - destruct (job_turn s _ HI Hj) as (n & rest & HI1 & Hj1 & Hrun).
    pose proof (run_settled n s _ _ H) as He.
    assert (HI2 : Inv (run_ (S n) s)) by now apply inv_run.
    assert (H2 : promises (run_ (S n) s) PAll = Settled o) by now apply run_settled.
    assert (Hj2 : In (JReaction (RResolve PEachPhase) o) (jobs (run_ (S n) s))).
    { rewrite Hrun. simpl. unfold then_. simpl. rewrite He. simpl.
      apply in_or_app. right. now left. }
    destruct (stage_all_job _ _ HI2 H2 Hj2) as [m Hm].
    exists (S n + m). now rewrite run_add.
  - congruence.
  - assert (o' = o) by congruence. subst. now apply stage_all_job.
  - assert (o' = o) by congruence. subst. now exists 0.
Qed.

Lemma started_element_inv (s : state) (i : nat) :
  Inv s -> started s (PEach i) -> element s i = Some (Some (PEach i)).
Proof.
  intros (B & L & C & F) Hs. unfold element.
  destruct (all s) as [a|] eqn:E.
  - now apply (b_started_element _ B).
  - now destruct (F E i).
Qed.

Lemma stage_each (s : state) (i : nat) (e0 : value) :
  Inv s -> promises s (PEach i) = Settled (Reject e0) ->
  exists n e, promises (run_ n s) PAll = Settled (Reject e).
Proof.
  intros HI H. pose proof HI as (B & L & C & F).
  assert (Hs : started s (PEach i))
    by (eapply (b_settled_started _ B); eauto; exact I).
  pose proof (started_element_inv s i HI Hs) as He.
  destruct (l_each_failure _ L i e0 He H) as [Hj|[e' He']]; [|now exists 0, e'].
  destruct (job_turn s _ HI Hj) as (n & rest & HI1 & Hj1 & Hrun).
  exists (S n). rewrite Hrun. simpl.
  destruct (settle_cases PAll (Reject e0) (set_jobs rest (run_ n s)))
    as [Hp|(o' & Hp & Heq)]; [now exists e0|].
  rewrite Heq. simpl in *. destruct o' as [v|e']; [|now exists e'].
  exfalso.
  assert (Hs1 : started (run_ n s) (PEach i)) by now apply run_in_log.
  pose proof (started_element_inv _ i HI1 Hs1) as He1.
  destruct HI1 as (B1 & _).
  destruct (b_all_fulfilled _ B1 v i (PEach i) Hp He1) as [w Hw].
  rewrite (run_settled n s _ _ H) in Hw. discriminate.
Qed.

Lemma each_failures_In (l : list event) (i : nat) (e : value) :
  In (i, e) (each_failures l) -> In (EvSettle (PEach i) (Reject e)) l.
Proof.
  induction l as [|ev l IH]; simpl; auto.
  destruct ev as [| |p o|]; auto.
  destruct p; auto. destruct o; auto.
  intros [[= -> ->]|H]; auto.
Qed.

(** The first failure of a log is the first failure of the logs that
    extend it. *)
Lemma each_failures_first (l l' : list event) (x y : nat * value) :
  hd_error (each_failures (l ++ l')) = Some x ->
  hd_error (each_failures l) = Some y -> y = x.
Proof.
  rewrite each_failures_app. destruct (each_failures l); simpl; congruence.
Qed.

Lemma run_common (n m : nat) (s : state) :
  exists k, run_ k s = run_ m (run_ n s) /\ run_ k s = run_ n (run_ m s).
Proof.
  exists (n + m). split; [apply run_add|]. rewrite Nat.add_comm. apply run_add.
Qed.

(** A rejected promise of the chain: the completion callback gets the
    error and nothing else, at some turn. *)
Lemma eachphase_failure_done (s : state) (e : value) :
  Inv s -> promises s PEachPhase = Settled (Reject e) ->
  exists n, promises (run_ n s) PAfterPhase = Settled (Reject e) /\
            In (EvDone e) (log (run_ n s)).
Proof.
  intros HI H.
  destruct (stage_eachphase s e HI H) as [n1 H1].
  destruct (stage_afterphase _ e (inv_run n1 s HI) H1) as [n2 H2].
  exists (n1 + n2). rewrite run_add. split; auto. now apply run_settled.
Qed.

Lemma done_argument (s : state) (e x : value) :
  Inv s -> promises s PAfterPhase = Settled (Reject e) ->
  In (EvDone x) (log s) -> x = e.
Proof.
  intros (B & _) H Hd. destruct (b_done _ B x Hd); congruence.
Qed.

(** The invocation: the state the call of the middleware function leaves,
    and the states of the event loop after it. *)
Local Abbreviation invoked fs := (middlewareFn code options metalsmith (initial fs)).

Lemma inv_invoked (fs : list (string * props)) (n : nat) : Inv (run_ n (invoked fs)).
Proof. apply inv_run, inv_middlewareFn. Qed.

(** A call site at which a function was started when the before hook
    failed is the site of the before hook. *)
Lemma before_failure_sites (s : state) (e : value) (site : pid) :
  Inv s -> promises s PBefore = Settled (Reject e) -> started s site ->
  site = PBefore.
Proof.
  intros (B & L & C & F) H Hs.
  pose proof (b_started_site _ B site Hs) as Hsite.
  destruct site; try contradiction; auto.
  - destruct (b_started_after _ B Hs) as [v Hv].
    destruct (b_eachphase _ B _ Hv) as [(e' & He & _)|Ha]; [discriminate|].
    destruct (b_all_before _ B (all_started _ _ B Ha)) as [w Hw]. congruence.
  - destruct (b_started_each _ B i Hs) as [v Hv]. congruence.
Qed.

(** C4. When the before hook fails, that is when the promise that
    [callFunction] made for it is rejected with an error, which is what a
    throw, a rejected promise and an error given to the completion function
    come to: no call of [callFunction] is entered and no function is called
    at a site other than the one of the before hook, so that neither the each
    hook nor the after hook is invoked, at any turn of the event loop; the
    completion callback is invoked with that error after enough turns; and
    it is never invoked with anything else. *)
Theorem before_failure_reaches_done (fs : list (string * props)) (n : nat)
  (e : value) :
  promises (run_ n (invoked fs)) PBefore = Settled (Reject e) ->
  (forall m site, started (run_ m (invoked fs)) site -> site = PBefore) /\
  (forall m site f args,
      In (EvCall site f args) (log (run_ m (invoked fs))) -> site = PBefore) /\
  (exists m, In (EvDone e) (log (run_ m (invoked fs)))) /\
  (forall m x, In (EvDone x) (log (run_ m (invoked fs))) -> x = e).
Proof.
  intros H. set (s0 := invoked fs) in *.
  destruct (stage_before _ e (inv_invoked fs n) H) as [n1 H1]. fold s0 in H1.
  rewrite <- run_add in H1.
  destruct (eachphase_failure_done _ e (inv_invoked fs (n + n1)) H1)
    as (n2 & H2 & Hd). fold s0 in H2, Hd. rewrite <- run_add in H2, Hd.
  assert (Hlater : forall m, exists u,
             Inv u /\ (forall ev, In ev (log (run_ m s0)) -> In ev (log u)) /\
             promises u PBefore = Settled (Reject e) /\
             promises u PAfterPhase = Settled (Reject e)).
  { intros m. destruct (run_common m (n + n1 + n2) s0) as (k & Hk1 & Hk2).
    exists (run_ k s0). split; [apply inv_invoked|]. split; [|split].
    - intros ev Hev. rewrite Hk1. now apply run_in_log.
    - rewrite Hk2. apply run_settled.
      replace (n + n1 + n2) with (n + (n1 + n2)) by lia.
      rewrite run_add. now apply run_settled.
    - rewrite Hk2. now apply run_settled. }
  assert (Hsites : forall m site, started (run_ m s0) site -> site = PBefore).
  { intros m site Hs. destruct (Hlater m) as (u & HI & Hlog & Hb & _).
    apply (before_failure_sites u e); auto. now apply Hlog. }
  split; [exact Hsites|]. split; [|split].
  - intros m site f args Hc. apply (Hsites m).
    destruct (inv_invoked fs m) as (B & _). eapply (b_call_started _ B); eauto.
  - eauto.
  - intros m x Hx. destruct (Hlater m) as (u & HI & Hlog & _ & Ha).
    apply (done_argument u); auto.
Qed.

Lemma each_failures_head (l l' : list event) (x : nat * value) :
  hd_error (each_failures l) = Some x ->
  hd_error (each_failures (l ++ l')) = Some x.
Proof.
  rewrite each_failures_app. destruct (each_failures l); simpl; congruence.
Qed.

(** C3. When an invocation of the each hook fails, that is when the
    promise that [callFunction] made for it is rejected: the completion
    callback is invoked, after enough turns of the event loop, with the
    first failure among the invocations of the each hook, the first one in
    the order in which their promises were rejected; it is never invoked with
    anything else; and [callFunction] is never entered for the after hook,
    which is never called. *)
Theorem each_failure_reaches_done (fs : list (string * props)) (n i : nat)
  (e0 : value) :
  promises (run_ n (invoked fs)) (PEach i) = Settled (Reject e0) ->
  exists j e,
    (exists m,
        hd_error (each_failures (log (run_ m (invoked fs)))) = Some (j, e) /\
        promises (run_ m (invoked fs)) (PEach j) = Settled (Reject e) /\
        In (EvDone e) (log (run_ m (invoked fs)))) /\
    (forall m x,
        hd_error (each_failures (log (run_ m (invoked fs)))) = Some x ->
        x = (j, e)) /\
    (forall m, ~ started (run_ m (invoked fs)) PAfter) /\
    (forall m f args, ~ In (EvCall PAfter f args) (log (run_ m (invoked fs)))) /\
    (forall m x, In (EvDone x) (log (run_ m (invoked fs))) -> x = e).
Proof.
  intros H. set (s0 := invoked fs) in *.
  destruct (stage_each _ i e0 (inv_invoked fs n) H) as (n1 & e & H1).
  fold s0 in H1. rewrite <- run_add in H1.
  destruct (inv_invoked fs (n + n1)) as (B1 & _). fold s0 in B1.
  destruct (b_all_rejected _ B1 e H1) as (j & rest & Hf).
  destruct (stage_all _ _ (inv_invoked fs (n + n1)) H1) as [n2 H2].
  fold s0 in H2. rewrite <- run_add in H2.
  destruct (eachphase_failure_done _ e (inv_invoked fs (n + n1 + n2)) H2)
    as (n3 & H3 & Hd). fold s0 in H3, Hd. rewrite <- run_add in H3, Hd.
  set (N := n + n1 + n2 + n3) in *.
  assert (HfN : hd_error (each_failures (log (run_ N s0))) = Some (j, e)).
  { replace N with ((n + n1) + (n2 + n3)) by (unfold N; lia). rewrite run_add.
    destruct (run_log (n2 + n3) (run_ (n + n1) s0)) as [l Hl]. rewrite Hl.
    apply each_failures_head. now rewrite Hf. }
  assert (HeN : promises (run_ N s0) PEachPhase = Settled (Reject e)).
  { replace N with ((n + n1 + n2) + n3) by (unfold N; lia). rewrite run_add.
    now apply run_settled. }
  assert (Hlater : forall m, exists u l,
             Inv u /\ log u = log (run_ m s0) ++ l /\
             hd_error (each_failures (log u)) = Some (j, e) /\
             promises u PEachPhase = Settled (Reject e) /\
             promises u PAfterPhase = Settled (Reject e)).
  { intros m. destruct (run_common m N s0) as (k & Hk1 & Hk2).
    destruct (run_log N (run_ m s0)) as [l Hl].
    exists (run_ k s0), l. split; [apply inv_invoked|]. split; [|split; [|split]].
    - now rewrite Hk1.
    - rewrite Hk2. destruct (run_log m (run_ N s0)) as [l' Hl']. rewrite Hl'.
      now apply each_failures_head.
    - rewrite Hk2. now apply run_settled.
    - rewrite Hk2. now apply run_settled. }
  assert (Hafter : forall m, ~ started (run_ m s0) PAfter).
  { intros m Hs. destruct (Hlater m) as (u & l & (B & _) & Hlog & _ & He & _).
    assert (Hu : started u PAfter).
    { unfold started. rewrite Hlog. apply in_or_app. now left. }
    destruct (b_started_after _ B Hu) as [v Hv]. congruence. }
  exists j, e. split; [|split; [|split; [|split]]].
  - exists N. split; auto. split; auto.
    destruct (inv_invoked fs N) as (B & _). fold s0 in B.
    apply (b_settle_log _ B). apply each_failures_In.
    destruct (each_failures (log (run_ N s0))); [discriminate|].
    simpl in HfN. injection HfN as ->. now left.
  - intros m x Hx. destruct (Hlater m) as (u & l & _ & Hlog & Hhd & _).
    rewrite Hlog in Hhd. eapply each_failures_first; eauto.
  - exact Hafter.
  - intros m f args Hc. apply (Hafter m).
    destruct (inv_invoked fs m) as (B & _). eapply (b_call_started _ B); eauto.
  - intros m x Hx. destruct (Hlater m) as (u & l & HI & Hlog & _ & _ & Ha).
    apply (done_argument u); auto. rewrite Hlog. apply in_or_app. now left.
Qed.

(** *** The completion callback and the each phase *)

(** The after hook starts when every invocation of the each hook that
    started has fulfilled. *)
Lemma after_started_each_fulfilled (s : state) (i : nat) :
  Inv s -> started s PAfter -> started s (PEach i) ->
  exists v, promises s (PEach i) = Settled (Fulfill v).
Proof.
  intros HI Ha Hi. pose proof HI as (B & _).
  destruct (b_started_after _ B Ha) as [v Hv].
  destruct (b_eachphase _ B _ Hv) as [(e & He & _)|Hall]; [discriminate|].
  apply (b_all_fulfilled _ B v i (PEach i) Hall).
  now apply started_element_inv.
Qed.

(** C2. The completion callback is invoked when every invocation of the
    each hook that started has fulfilled, or else with the first failure of
    an invocation of the each hook, whether or not the other invocations
    that started have settled; and the after hook starts only when every
    invocation of the each hook that started has fulfilled. *)
Theorem done_after_each (fs : list (string * props)) (n : nat) :
  (forall x,
      In (EvDone x) (log (run_ n (invoked fs))) ->
      (forall i, started (run_ n (invoked fs)) (PEach i) ->
                 exists v, promises (run_ n (invoked fs)) (PEach i)
                           = Settled (Fulfill v))
      \/ (exists j,
             promises (run_ n (invoked fs)) (PEach j) = Settled (Reject x) /\
             hd_error (each_failures (log (run_ n (invoked fs)))) = Some (j, x))) /\
  (started (run_ n (invoked fs)) PAfter ->
   forall i, started (run_ n (invoked fs)) (PEach i) ->
             exists v, promises (run_ n (invoked fs)) (PEach i)
                       = Settled (Fulfill v)).
Proof.
  pose proof (inv_invoked fs n) as HI. set (s := run_ n (invoked fs)) in *.
  pose proof HI as (B & L & C & F).
  split; [|intros Ha i; now apply after_started_each_fulfilled].
  intros x Hx.
  assert (Hafter : forall o, promises s PAfter = Settled o ->
            forall i, started s (PEach i) ->
                      exists v, promises s (PEach i) = Settled (Fulfill v)).
  { intros o Ho i. apply after_started_each_fulfilled; auto.
    eapply (b_settled_started _ B); eauto. exact I. }
  destruct (b_done _ B x Hx) as [Hp|Hp];
    destruct (b_afterphase _ B _ Hp) as [(e & He & Hep)|Ha];
    try discriminate; eauto.
  injection He as <-.
  destruct (b_eachphase _ B _ Hep) as [(e & He & Hb)|Hall].
  - left. intros i Hi. destruct (b_started_each _ B i Hi) as [v Hv]. congruence.
  - right. destruct (b_all_rejected _ B x Hall) as (j & rest & Hf).
    exists j. split; [|now rewrite Hf].
    apply (b_settle_log _ B). apply each_failures_In. rewrite Hf. now left.
Qed.

(** *** The dispatch of the each phase *)

Lemma each_calls_none (s : state) :
  Inv s -> all s = None -> each_calls (log s) = [].
Proof.
  intros (B & L & C & F) Hall.
  assert (H : forall ev, In ev (log s) -> is_each_call ev = false).
  { intros [p|p f a|p o|x] Hev; auto. destruct p; auto.
    destruct (F Hall i). eapply (b_call_started _ B); eauto. }
  unfold each_calls. induction (log s) as [|ev l IH]; simpl; auto.
  rewrite (H ev) by now left. apply IH. intros ev' Hev'. apply H. now right.
Qed.

Lemma all_invoked (fs : list (string * props)) : all (invoked fs) = None.
Proof.
  unfold middlewareFn. rewrite !then_all, callFunction_all; auto.
  intros a [= <-]. apply plain_args_hook.
Qed.

Lemma all_elements_all (ps : list (option pid)) (i : nat) (s : state) :
  all (all_elements i ps s) = all s.
Proof.
  revert i s. induction ps as [|[p|] ps IH]; intros i s; simpl; auto.
  - now rewrite IH, then_all.
  - now rewrite IH.
Qed.

Lemma Promise_all_all (ps : list (option pid)) (s : state) :
  all (Promise_all ps s) <> None.
Proof.
  unfold Promise_all. destruct (List.length ps =? 0);
    rewrite ?settle_all, all_elements_all; discriminate.
Qed.

Lemma run_job_then_each (v : value) (s : state) :
  run_job_ (JReaction then_each (Fulfill v)) s
  = enqueue (JResolveThenable PEachPhase PAll)
      (Promise_all (snd (map_each_ 0 (matched matcher s) s))
                   (fst (map_each_ 0 (matched matcher s) s))).
Proof.
  simpl. unfold react. simpl. now destruct (map_each _ _ _ 0 _ s).
Qed.

Lemma dispatch_all (v : value) (s : state) :
  all (run_job_ (JReaction then_each (Fulfill v)) s) <> None.
Proof. rewrite run_job_then_each. simpl. apply Promise_all_all. Qed.

(** The job that enters the each phase is the reaction of the first
    [.then], for a before hook that fulfilled, and it comes once. *)
Lemma dispatches_then_each (s : state) (j : job) (rest : list job) :
  Inv s -> jobs s = j :: rest -> dispatches j = true ->
  exists v, j = JReaction then_each (Fulfill v) /\
            promises s PBefore = Settled (Fulfill v) /\ all s = None.
Proof.
  intros (B & L & C & F) Hj Hd.
  assert (Hok : job_ok s j) by (apply (b_jobs _ B); rewrite Hj; now left).
  destruct j as [[onF onR d|target|i] o|target thenable]; try discriminate.
  assert (Hr : RThen onF onR d = then_each).
  { apply job_ok_reaction in Hok as [(p & Hr & _)|(i & Hi & _)]; [|discriminate].
    inversion Hr; subst; simpl in Hd; destruct o; discriminate || reflexivity. }
  injection Hr as -> -> ->. destruct o as [v|e]; [|discriminate].
  exists v. split; auto. split; [now apply job_ok_then_each|].
  destruct (all s) eqn:E; auto.
  assert (Hne : all s <> None) by congruence.
  pose proof (c_then_each_all _ C Hne) as Hf. rewrite Hj in Hf. discriminate.
Qed.

(** The each phase was entered at the turn [m], in the state [d], and the
    calls of the each hook in the log of [s] are the ones of that turn. *)
Definition dispatched (fs : list (string * props)) (m : nat) (d s : state) : Prop :=
  exists v rest,
    jobs (run_ m (invoked fs)) = JReaction then_each (Fulfill v) :: rest /\
    promises (run_ m (invoked fs)) PBefore = Settled (Fulfill v) /\
    all (run_ m (invoked fs)) = None /\
    d = set_jobs rest (run_ m (invoked fs)) /\
    forall k, calls_at (PEach k) (log s) = each_call 0 (matched matcher d) d k.

Lemma dispatched_quiet (fs : list (string * props)) (m : nat) (d s s' : state) :
  (exists l, log s' = log s ++ l /\ forallb not_each_call l = true) ->
  dispatched fs m d s -> dispatched fs m d s'.
Proof.
  intros (l & Hl & HP) (v & rest & Hj & Hb & Ha & Hd & Hk).
  exists v, rest. repeat (split; auto).
  intros k. rewrite Hl, calls_at_app, (calls_at_quiet k l HP), app_nil_r. apply Hk.
Qed.

Lemma dispatched_at (fs : list (string * props)) (n : nat) :
  all (run_ n (invoked fs)) <> None ->
  exists m d, m < n /\ dispatched fs m d (run_ n (invoked fs)).
Proof.
  induction n as [|n IH].
  - simpl. intros H. now destruct (H (all_invoked fs)).
  - rewrite run_S. pose proof (inv_invoked fs n) as HI.
    set (s := run_ n (invoked fs)) in *.
    destruct (step_ s) as [s'|] eqn:E.
    2: { intros H. destruct (IH H) as (m & d & Hm & Hd). exists m, d. split; auto. }
    apply step_turn in E. destruct E as [j rest Hj|dl t rest Hj Ht]; intros H.
    + destruct (dispatches j) eqn:Ed.
      * destruct (dispatches_then_each s j rest HI Hj Ed) as (v & -> & Hb & Ha).
        exists n, (set_jobs rest s). split; [lia|].
        exists v, rest. fold s. repeat (split; auto).
        intros k. rewrite run_job_then_each.
        destruct (adv_log _ _ _ (Promise_all_adv
                   (snd (map_each_ 0 (matched matcher (set_jobs rest s)) (set_jobs rest s)))
                   (fst (map_each_ 0 (matched matcher (set_jobs rest s)) (set_jobs rest s)))))
          as (l & Hl & HP).
        simpl log. rewrite Hl, calls_at_app, (calls_at_settles _ l HP), app_nil_r.
        rewrite map_each_calls. simpl log.
        now rewrite (calls_at_each_calls k _ (each_calls_none s HI Ha)).
      * destruct (run_job_quiet j (set_jobs rest s) Ed) as [Hadv Hall].
        assert (Hs : all s <> None) by (intros Hn; apply H, Hall, Hn).
        destruct (IH Hs) as (m & d & Hm & Hd). exists m, d. split; [lia|].
        eapply dispatched_quiet; [|exact Hd].
        destruct (adv_log _ _ _ Hadv) as (l & Hl & HP). exists l. now split.
    + rewrite run_timer_all in H. destruct (IH H) as (m & d & Hm & Hd).
      exists m, d. split; [lia|].
      eapply dispatched_quiet; [|exact Hd].
      destruct (adv_log _ _ _ (run_timer_adv t
                 (set_timers rest (Nat.max (clock s) dl) s))) as (l & Hl & HP).
      exists l. split; auto.
      rewrite forallb_forall in *. intros ev Hev. apply settle_not_each. auto.
Qed.

(** When the before hook has fulfilled, the job that enters the each phase
    is in the queue until the each phase is entered. *)
Definition Relay (s : state) : Prop :=
  forall v, promises s PBefore = Settled (Fulfill v) ->
            In (JReaction then_each (Fulfill v)) (jobs s) \/ all s <> None.

Lemma then_promises_other (p q : pid) (r : reaction) (s : state) :
  q <> p -> promises (then_ p r s) q = promises s q.
Proof.
  intros H. unfold then_. destruct (promises s p); simpl; auto.
  destruct (pid_eqb_spec q p); congruence.
Qed.

Lemma relay_invoked (fs : list (string * props)) : Relay (invoked fs).
Proof.
  unfold middlewareFn.
  set (s1 := call PBefore _ _ _).
  intros v Hv. left.
  rewrite !then_promises_other in Hv by discriminate.
  destruct (adv_jobs _ _ _ (then_adv any_event PAfterPhase then_done
             (then_ PEachPhase then_after (then_ PBefore then_each s1)))) as [j2 H2].
  destruct (adv_jobs _ _ _ (then_adv any_event PEachPhase then_after
             (then_ PBefore then_each s1))) as [j1 H1].
  rewrite H2, H1. apply in_or_app. left. apply in_or_app. left.
  unfold then_ in *. destruct (promises s1 PBefore) as [rs|o] eqn:E.
  - simpl in Hv. discriminate.
  - simpl in *. rewrite E in Hv. injection Hv as ->.
    apply in_or_app. right. now left.
Qed.

Lemma relay_step (s s' : state) :
  Inv s -> Relay s -> step_ s = Some s' -> Relay s'.
Proof.
  intros HI HR E v Hv. pose proof HI as (B & L & C & F).
  pose proof (step_follows _ _ E) as Hf.
  destruct (promises s PBefore) as [rs|o] eqn:Hb.
  - pose proof (c_before _ C rs Hb) as ->.
    destruct (f_pending _ _ Hf PBefore [then_each] then_each Hb)
      as [(rs' & Hp & _)|(o & Hp & Hj)]; [now left|congruence|].
    left. congruence.
  - assert (o = Fulfill v) as ->.
    { pose proof (f_settled _ _ Hf _ _ Hb). congruence. }
    destruct (HR v Hb) as [Hj|Ha]; [|right; now apply (f_all _ _ Hf)].
    apply step_turn in E. destruct E as [j rest Hjs|d t rest Hjs Ht].
    + rewrite Hjs in Hj. destruct Hj as [->|Hj].
      * right. apply dispatch_all.
      * left. destruct (adv_jobs _ _ _ (run_job_adv j (set_jobs rest s))) as [js H].
        rewrite H. simpl. apply in_or_app. now left.
    + rewrite Hjs in Hj. destruct Hj.
Qed.

Lemma relay_run (n : nat) (s : state) : Inv s -> Relay s -> Relay (run_ n s).
Proof.
  revert s. induction n as [|n IH]; intros s HI HR; simpl; auto.
  destruct (step_ s) as [s'|] eqn:E; auto.
  apply IH; [eapply inv_step | eapply relay_step]; eauto.
Qed.

(** The each phase is entered once the before hook has fulfilled. *)
Lemma dispatch_happens (fs : list (string * props)) (n : nat) (v : value) :
  promises (run_ n (invoked fs)) PBefore = Settled (Fulfill v) ->
  exists n', all (run_ n' (invoked fs)) <> None.
Proof.
  intros H.
  destruct (relay_run n _ (inv_middlewareFn fs) (relay_invoked fs) v H) as [Hj|Ha].
  - destruct (job_turn _ _ (inv_invoked fs n) Hj) as (k & rest & _ & _ & Hrun).
    exists (n + S k). rewrite run_add, Hrun. apply dispatch_all.
  - now exists n.
Qed.

(** Once the job that enters the each phase has run, [Promise.all] has
    been called. *)
Lemma entered_from (fs : list (string * props)) (m : nat) (v : value)
  (rest : list job) :
  jobs (run_ m (invoked fs)) = JReaction then_each (Fulfill v) :: rest ->
  forall n, m < n -> all (run_ n (invoked fs)) <> None.
Proof.
  intros Hj n Hn. replace n with (S m + (n - S m)) by lia.
  rewrite run_add. apply run_all. rewrite run_S. unfold step. rewrite Hj.
  apply dispatch_all.
Qed.

(** The turn at which the each phase is entered is the one whose job is
    the reaction of the first [.then] to the fulfilled before hook. *)
Lemma dispatched_from (fs : list (string * props)) (m : nat) (v : value)
  (rest : list job) :
  jobs (run_ m (invoked fs)) = JReaction then_each (Fulfill v) :: rest ->
  promises (run_ m (invoked fs)) PBefore = Settled (Fulfill v) /\
  all (run_ m (invoked fs)) = None /\
  forall n, m < n ->
    forall k, calls_at (PEach k) (log (run_ n (invoked fs)))
              = each_call 0 (matched matcher (set_jobs rest (run_ m (invoked fs))))
                  (set_jobs rest (run_ m (invoked fs))) k.
Proof.
  intros Hj.
  destruct (dispatches_then_each _ _ _ (inv_invoked fs m) Hj eq_refl)
    as (v' & Hv & Hb & Ha).
  injection Hv as <-. split; [exact Hb|]. split; [exact Ha|].
  intros n Hn k.
  destruct (dispatched_at fs n (entered_from fs m v rest Hj n Hn))
    as (m' & d & Hm' & v' & rest' & Hj' & Hb' & Ha' & -> & Hk).
  destruct (Nat.lt_total m m') as [Hlt|[<-|Hgt]].
  - destruct (entered_from fs m v rest Hj m' Hlt Ha').
  - rewrite Hj in Hj'. injection Hj' as _ <-. apply Hk.
  - destruct (entered_from fs m' v' rest' Hj' m Hgt Ha).
Qed.

(** X20. The calls of the each hook.  With a function as the each hook:
    no call is made before the each phase is entered; the each phase is entered
    once the before hook has fulfilled, at a turn whose job is the reaction
    of the first [.then] to the fulfilled before hook; and from the turn [m]
    that has this job on, whatever the number of turns taken since, the calls
    of the each hook are the ones made at that turn: for the name at the
    index [k] among the keys that [Object.keys] lists for the file collection
    and that the matcher accepts, taken when the phase is entered, and for
    what the collection holds or inherits under the name when the names
    before it have been processed, no call if that is falsy, and else one
    call with the name, that value, the file collection as it is then and
    the [metalsmith] argument, followed by the completion function when the
    length of the hook is above four. *)
Theorem each_invocations (fs : list (string * props)) (f : fid) :
  option_ options "each" = VFunction f ->
  (forall n, all (run_ n (invoked fs)) = None ->
             each_calls (log (run_ n (invoked fs))) = []) /\
  (forall n v, promises (run_ n (invoked fs)) PBefore = Settled (Fulfill v) ->
               exists n', all (run_ n' (invoked fs)) <> None) /\
  (forall n,
      all (run_ n (invoked fs)) <> None ->
      exists m v rest,
        m < n /\
        jobs (run_ m (invoked fs)) = JReaction then_each (Fulfill v) :: rest) /\
  (forall m v rest,
      jobs (run_ m (invoked fs)) = JReaction then_each (Fulfill v) :: rest ->
      promises (run_ m (invoked fs)) PBefore = Settled (Fulfill v) /\
      let d := set_jobs rest (run_ m (invoked fs)) in
      let names := filter (fun filename => truthy (matcher filename))
                     (keys_in_order (map fst (files d))) in
      forall n k,
        m < n ->
        calls_at (PEach k) (log (run_ n (invoked fs)))
        = match nth_error names k with
          | None => []
          | Some name =>
              let dk := fst (map_each_ 0 (firstn k names) d) in
              let file := match lookup name (files dk) with
                          | Some record => VObject record
                          | None => inherited name
                          end in
              if truthy file then
                [EvCall (PEach k) f
                   ([VStr name; file;
                     VObject (map (fun kv => (fst kv, VObject (snd kv))) (files dk));
                     VObject metalsmith]
                    ++ if 4 <? fn_length (function_of code f)
                       then [VCompletion (PEach k)] else [])]
              else []
          end).
Proof.
  intros Heach. split; [|split; [|split]].
  - intros n. apply each_calls_none, inv_invoked.
  - apply dispatch_happens.
  - intros n Hn.
    destruct (dispatched_at fs n Hn) as (m & d & Hm & v & rest & Hj & _).
    now exists m, v, rest.
  - intros m v rest Hj.
    destruct (dispatched_from fs m v rest Hj) as (Hb & _ & Hk).
    split; [exact Hb|]. intros d names n k Hn. rewrite (Hk n Hn k). fold d.
    assert (Hnames : matched matcher d = names).
    { unfold matched, names, Object_keys, files_value. simpl own_entries.
      rewrite map_map. reflexivity. }
    rewrite Hnames. unfold each_call. simpl. rewrite Nat.sub_0_r.
    destruct (nth_error names k) as [name|]; auto.
    unfold files_get, files_value.
    destruct (truthy _); auto.
    unfold invocation. now rewrite Heach.
Qed.

(** Once the event loop has nothing left to run, more turns change
    nothing. *)
Lemma run_finished (n m : nat) (s : state) :
  step_ (run_ n s) = None -> n <= m -> run_ m s = run_ n s.
Proof.
  intros H Hle. replace m with (n + (m - n)) by lia.
  rewrite run_add. now apply run_stuck.
Qed.

End Orchestrator.

(** * Invocations *)

(** A stand-in for micromatch that knows the default pattern, and throws
    for the empty one. *)
Definition star (pattern : string) (options : value) : option (string -> bool) :=
  if String.eqb pattern "" then None
  else Some (fun filename => String.eqb pattern "**/*").

Definition no_regexp (r : rid) (filename : string) : bool := false.

Definition no_predicate (f : fid) (args : list value) : value := VUndefined.

Definition every (filename : string) : value := VBool true.

Definition is_done (ev : event) : bool :=
  match ev with
  | EvDone _ => true
  | _ => false
  end.

(** [() => v] *)
Definition returns (v : value) (f : fid) : jsfun :=
  {| fn_formals := simple 0;
     fn_body := fun _ => {| steps := []; finish_ := Return v |} |}.

(** [() => { throw new Error("boom"); }] *)
Definition throws (f : fid) : jsfun :=
  {| fn_formals := simple 0;
     fn_body := fun _ => {| steps := []; finish_ := Throw (VError "boom") |} |}.

(** An each hook of one parameter whose promise is rejected after one
    tick of the clock for the file [a] and fulfilled after five ticks for
    any other file. *)
Definition fails_first (f : fid) : jsfun :=
  {| fn_formals := simple 1;
     fn_body := fun args =>
       match args with
       | VStr name :: _ =>
           if String.eqb name "a"
           then {| steps := [];
                   finish_ := ReturnPromise (SettledLater 1 (Reject (VError "boom"))) |}
           else {| steps := [];
                   finish_ := ReturnPromise (SettledLater 5 (Fulfill VUndefined)) |}
       | _ => {| steps := []; finish_ := Return VUndefined |}
       end |}.


(** [(filename, file, files) => { delete files.constructor; }] *)
Definition deletes_constructor (f : fid) : jsfun :=
  {| fn_formals := simple 3;
     fn_body := fun _ => {| steps := [ADelete "constructor"];
                            finish_ := Return VUndefined |} |}.

(** [(filename, contents) => contents !== undefined] *)
Definition wants_contents (f : fid) (args : list value) : value :=
  match nth 1 args VUndefined with
  | VUndefined => VBool false
  | _ => VBool true
  end.

Definition each_options : props :=
  defaultOptions middleware_defaults (VObject [("each", VFunction (FUser 0))]).

Definition before_options : props :=
  defaultOptions middleware_defaults (VObject [("before", VFunction (FUser 0))]).

Definition two_files : list (string * props) := [("a", []); ("b", [])].

Definition one_file : list (string * props) :=
  [("a.md", [("contents", VStr "text")])].

(** A collection with a file whose name [Object.prototype] has too. *)
Definition named_constructor : list (string * props) :=
  [("a", []); ("constructor", [])].

(** The completion callback waits for every invocation of the each hook
    that started: when it is invoked, each of them has settled. *)
Definition done_waits_for_each (s : state) : Prop :=
  forall x, In (EvDone x) (log s) ->
  forall i, started s (PEach i) -> exists o, promises s (PEach i) = Settled o.

Ltac in_log := repeat (first [left; reflexivity | right]).

(** C1. The completion callback receives the value of the after hook as
    its first argument.  For [middleware({after: () => v})] invoked on one
    file, whatever the value [v]: the three phases fulfil, the event loop
    runs to its end, and the completion callback is invoked once, with [v]
    in the place of the error. *)
Theorem done_receives_after_value (v : value) :
  exists mw,
    middleware star no_regexp no_predicate
      (VObject [("after", VFunction (FUser 0))]) = Some mw /\
    let s := invoke (returns v) mw [("test.txt", [])] [] 20 in
    promises s PBefore = Settled (Fulfill VUndefined) /\
    promises s (PEach 0) = Settled (Fulfill VUndefined) /\
    promises s PAfter = Settled (Fulfill v) /\
    filter is_done (log s) = [EvDone v] /\
    step (returns v) (mw_options mw) (mw_matcher mw) [] s = None.
Proof.
  eexists. split; [reflexivity|]. vm_compute. repeat split.
Qed.

(** The completion callback is invoked with the error of the first
    invocation of the each hook while the second one is pending. *)
Lemma done_does_not_wait :
  exists mw,
    middleware star no_regexp no_predicate
      (VObject [("each", VFunction (FUser 0))]) = Some mw /\
    ~ done_waits_for_each (invoke fails_first mw two_files [] 10).
Proof.
  eexists. split; [reflexivity|]. intros H.
  destruct (H (VError "boom")) with (i := 1) as [o Ho].
  - vm_compute. in_log.
  - vm_compute. in_log.
  - vm_compute in Ho. discriminate.
Qed.

Lemma done_after_each_witness :
  (forall i,
      started (run fails_first each_options every [] 10
                 (middlewareFn fails_first each_options [] (initial two_files)))
              (PEach i) ->
      exists v,
        promises (run fails_first each_options every [] 10
                    (middlewareFn fails_first each_options [] (initial two_files)))
                 (PEach i) = Settled (Fulfill v))
  \/ (exists j,
         promises (run fails_first each_options every [] 10
                     (middlewareFn fails_first each_options [] (initial two_files)))
                  (PEach j) = Settled (Reject (VError "boom")) /\
         hd_error (each_failures
                     (log (run fails_first each_options every [] 10
                             (middlewareFn fails_first each_options []
                                (initial two_files)))))
         = Some (j, VError "boom")).
Proof.
  apply (proj1 (done_after_each fails_first each_options every [] two_files 10)
               (VError "boom")).
  vm_compute. in_log.
Defined.

Lemma each_failure_reaches_done_witness :
  promises (run fails_first each_options every [] 6
              (middlewareFn fails_first each_options [] (initial two_files)))
           (PEach 0) = Settled (Reject (VError "boom")) /\
  exists j e m,
    hd_error (each_failures
                (log (run fails_first each_options every [] m
                        (middlewareFn fails_first each_options []
                           (initial two_files))))) = Some (j, e) /\
    In (EvDone e)
       (log (run fails_first each_options every [] m
               (middlewareFn fails_first each_options [] (initial two_files)))).
Proof.
  assert (H : promises (run fails_first each_options every [] 6
                          (middlewareFn fails_first each_options []
                             (initial two_files)))
                       (PEach 0) = Settled (Reject (VError "boom")))
    by (vm_compute; reflexivity).
  split; [exact H|].
  destruct (each_failure_reaches_done fails_first each_options every []
              two_files 6 0 (VError "boom") H)
    as (j & e & (m & Hf & _ & Hd) & _).
  exists j, e, m. split; assumption.
Defined.

Lemma before_failure_reaches_done_witness :
  promises (run throws before_options every [] 0
              (middlewareFn throws before_options [] (initial two_files)))
           PBefore = Settled (Reject (VError "boom")) /\
  exists m,
    In (EvDone (VError "boom"))
       (log (run throws before_options every [] m
               (middlewareFn throws before_options [] (initial two_files)))).
Proof.
  assert (H : promises (run throws before_options every [] 0
                          (middlewareFn throws before_options []
                             (initial two_files)))
                       PBefore = Settled (Reject (VError "boom")))
    by (vm_compute; reflexivity).
  split; [exact H|].
  exact (proj1 (proj2 (proj2
    (before_failure_reaches_done throws before_options every [] two_files 0
       (VError "boom") H)))).
Defined.

Lemma each_invocations_witness :
  option_ each_options "each" = VFunction (FUser 0) /\
  jobs (run (returns VUndefined) each_options every [] 0
          (middlewareFn (returns VUndefined) each_options [] (initial two_files)))
  = [JReaction then_each (Fulfill VUndefined)] /\
  calls_at (PEach 1)
    (log (run (returns VUndefined) each_options every [] 5
            (middlewareFn (returns VUndefined) each_options []
               (initial two_files))))
  = [EvCall (PEach 1) (FUser 0)
       [VStr "b"; VObject []; VObject [("a", VObject []); ("b", VObject [])];
        VObject []]].
Proof.
  assert (H : option_ each_options "each" = VFunction (FUser 0)) by reflexivity.
  assert (Hj : jobs (run (returns VUndefined) each_options every [] 0
                       (middlewareFn (returns VUndefined) each_options []
                          (initial two_files)))
               = [JReaction then_each (Fulfill VUndefined)])
    by (vm_compute; reflexivity).
  split; [exact H|]. split; [exact Hj|].
  rewrite (proj2 (proj2 (proj2 (proj2
             (each_invocations (returns VUndefined) each_options every []
                two_files (FUser 0) H))) 0 VUndefined [] Hj)
             5 1 (le_n_S _ _ (le_0_n _))).
  vm_compute. reflexivity.
Defined.




(** The matcher compiled from [["**/*", f]]. *)
Definition glob_or_function : string -> value :=
  fun filename =>
    VBool (some [fun args => match args with
                             | VStr s :: _ => VBool (String.eqb "**/*" "**/*")
                             | _ => VBool false
                             end;
                 call_predicate wants_contents (FUser 0)] filename).

Lemma filenameMatcher_any_witness :
  exists ps,
    compile_items star no_regexp wants_contents (VObject [])
      (concat_match (VArray [VStr "**/*"; VFunction (FUser 0)])) = Some ps /\
    (forall filename,
        truthy (glob_or_function filename) = any_matches ps filename) /\
    (List.length ps <> 1 ->
     forall filename, glob_or_function filename = VBool (any_matches ps filename)) /\
    (concat_match (VArray [VStr "**/*"; VFunction (FUser 0)]) = [] ->
     forall filename, glob_or_function filename = VBool false).
Proof.
  apply (@filenameMatcher_any star no_regexp wants_contents
           (VArray [VStr "**/*"; VFunction (FUser 0)]) (VObject [])
           glob_or_function).
  reflexivity.
Defined.

(** C5. The each hook is called for a name whose record has been removed
    from the collection before its turn, when [Object.prototype] holds a
    property under the name.  For [middleware({each: (filename, file, files)
    => { delete files.constructor; }})] invoked on a collection with the
    files [a] and [constructor]: the call for [a] removes the record of
    [constructor]; the collection then holds the file [a] alone, as the
    third argument of the next call shows; and the each hook is called all
    the same for [constructor], with the function that the collection
    inherits under this name in the place of the record.  The calls stay
    these two whatever the number of turns taken, and the completion
    callback is reached. *)
Theorem each_called_for_removed_name :
  exists mw,
    middleware star no_regexp no_predicate
      (VObject [("each", VFunction (FUser 0))]) = Some mw /\
    files (invoke deletes_constructor mw named_constructor [] 1) = [("a", [])] /\
    (forall fuel,
        each_calls (log (invoke deletes_constructor mw named_constructor []
                           (S fuel)))
        = [EvCall (PEach 0) (FUser 0)
             [VStr "a"; VObject [];
              VObject [("a", VObject []); ("constructor", VObject [])];
              VObject []];
           EvCall (PEach 1) (FUser 0)
             [VStr "constructor"; VFunction (FHost "constructor");
              VObject [("a", VObject [])]; VObject []]]) /\
    filter is_done (log (invoke deletes_constructor mw named_constructor [] 9))
    = [EvDone VUndefined].
Proof.
  eexists. split; [reflexivity|]. split; [reflexivity|]. split.
  - intros fuel. unfold invoke. cbn [mw_options mw_matcher].
    destruct (le_lt_dec 9 (S fuel)) as [Hle|Hlt].
    + rewrite (run_finished _ _ _ _ 9 (S fuel)); [|vm_compute; reflexivity|exact Hle].
      vm_compute. reflexivity.
    + do 8 (destruct fuel as [|fuel]; [vm_compute; reflexivity|]). lia.
  - vm_compute. reflexivity.
Qed.

(** C9. A match item that is a function becomes the compiled predicate of
    its item, and the compiled matcher calls it with the filename as its only
    argument: the contents of the file are never passed, though the
    documentation of the match items gives them as the second argument.
    With [(filename, contents) => contents !== undefined] as the [match]
    option the compiled matcher refuses every filename, so that the
    middleware, invoked on a file that has contents, never calls the each
    hook and goes on to the completion callback. *)
Theorem match_function_sees_no_contents :
  (forall mm rt pr f options,
      exists matchFn,
        filenameMatcher mm rt pr (VFunction f) options = Some matchFn /\
        forall filename,
          matchFn filename = call_predicate pr f [VStr filename]) /\
  wants_contents (FUser 0) [VStr "a.md"; VStr "text"] = VBool true /\
  exists mw,
    middleware star no_regexp wants_contents
      (VObject [("match", VFunction (FUser 0))]) = Some mw /\
    (forall filename, mw_matcher mw filename = VBool false) /\
    (forall fuel,
        each_calls (log (invoke (returns VUndefined) mw one_file [] fuel)) = []) /\
    filter is_done (log (invoke (returns VUndefined) mw one_file [] 8))
    = [EvDone VUndefined].
Proof.
  split; [|split; [reflexivity|]].
  - intros mm rt pr f options. apply filenameMatcher_function.
  - eexists. split; [reflexivity|]. split; [reflexivity|]. split.
    + intros fuel. unfold invoke. cbn [mw_options mw_matcher].
      destruct (le_lt_dec 8 fuel) as [Hle|Hlt].
      * rewrite (run_finished _ _ _ _ 8 fuel); [|vm_compute; reflexivity|exact Hle].
        vm_compute. reflexivity.
      * do 8 (destruct fuel as [|fuel]; [vm_compute; reflexivity|]). lia.
    + vm_compute. reflexivity.
Qed.

(** * Further properties of the library *)

(** ** The order of the keys *)

Lemma In_insert_index (n : N) (k : string) (l : list (N * string)) (x : N * string) :
  In x (insert_index n k l) <-> x = (n, k) \/ In x l.
Proof.
  induction l as [|[m k'] l IH]; simpl.
  - intuition congruence.
  - destruct (n <=? m)%N; simpl; [intuition congruence|].
    rewrite IH. intuition congruence.
Qed.

Lemma In_index_keys (n : N) (k : string) (ks : list string) :
  In (n, k) (index_keys ks) <-> In k ks /\ array_index k = Some n.
Proof.
  induction ks as [|k0 ks IH]; simpl; [tauto|].
  destruct (array_index k0) as [m|] eqn:E.
  - rewrite In_insert_index, IH. split.
    + intros [[= -> ->]|[H1 H2]]; auto.
    + intros [[->|H1] H2]; auto. left. congruence.
  - rewrite IH. split; [tauto|]. intros [[->|H1] H2]; [congruence | auto].
Qed.

Lemma In_keys_in_order (k : string) (ks : list string) :
  In k (keys_in_order ks) <-> In k ks.
Proof.
  unfold keys_in_order. rewrite in_app_iff, in_map_iff, filter_In. split.
  - intros [([n k'] & <- & H)|[H _]]; auto. now apply In_index_keys in H.
  - intros H. destruct (array_index k) as [n|] eqn:E.
    + left. exists (n, k). split; auto. now apply In_index_keys.
    + right. split; auto. unfold is_name. now rewrite E.
Qed.

Lemma insert_index_Permutation (n : N) (k : string) (l : list (N * string)) :
  Permutation (insert_index n k l) ((n, k) :: l).
Proof.
  induction l as [|[m k'] l IH]; simpl; auto.
  destruct (n <=? m)%N; auto.
  eapply perm_trans; [apply perm_skip, IH | apply perm_swap].
Qed.

Lemma keys_in_order_Permutation (ks : list string) :
  Permutation (keys_in_order ks) ks.
Proof.
  unfold keys_in_order. induction ks as [|k ks IH]; simpl; auto.
  unfold is_name at 1. destruct (array_index k) as [n|].
  - eapply perm_trans; [|apply perm_skip, IH].
    apply (Permutation_app_tail (filter is_name ks)
             (Permutation_map snd (insert_index_Permutation n k (index_keys ks)))).
  - eapply perm_trans; [|apply perm_skip, IH].
    apply Permutation_sym, Permutation_middle.
Qed.

Lemma keys_in_order_NoDup (ks : list string) :
  NoDup ks -> NoDup (keys_in_order ks).
Proof.
  apply Permutation_NoDup, Permutation_sym, keys_in_order_Permutation.
Qed.

(** The indices are in ascending order, each with its key. *)
Definition ascending (l : list (N * string)) : Prop :=
  StronglySorted (fun a b => (fst a <= fst b)%N) l.

Definition indexed_by (l : list (N * string)) : Prop :=
  Forall (fun p => array_index (snd p) = Some (fst p)) l.

Lemma insert_index_ascending (n : N) (k : string) (l : list (N * string)) :
  ascending l -> ascending (insert_index n k l).
Proof.
  unfold ascending. induction l as [|[m k'] l IH]; simpl; intros H.
  - repeat constructor.
  - apply StronglySorted_inv in H as [Hl Hm].
    destruct (n <=? m)%N eqn:E.
    + apply N.leb_le in E. constructor; [now constructor|].
      constructor; auto. eapply Forall_impl; [|exact Hm].
      simpl. intros a Ha. lia.
    + apply N.leb_gt in E. constructor; auto.
      apply Forall_forall. intros x Hx. apply In_insert_index in Hx as [->|Hx].
      * simpl. lia.
      * rewrite Forall_forall in Hm. now apply Hm.
Qed.

Lemma index_keys_ascending (ks : list string) : ascending (index_keys ks).
Proof.
  induction ks as [|k ks IH]; simpl; [constructor|].
  destruct (array_index k); auto. now apply insert_index_ascending.
Qed.

Lemma index_keys_indexed_by (ks : list string) : indexed_by (index_keys ks).
Proof.
  apply Forall_forall. intros [n k] H. now apply In_index_keys in H.
Qed.

Lemma index_keys_again (l : list (N * string)) :
  ascending l -> indexed_by l -> index_keys (map snd l) = l.
Proof.
  unfold ascending, indexed_by. induction l as [|[n k] l IH]; simpl; auto.
  intros Hs Hi. apply StronglySorted_inv in Hs as [Hl Hn].
  inversion Hi as [|? ? Hk Hi']; subst. simpl in Hk. rewrite Hk, IH by auto.
  destruct l as [|[m k'] l]; simpl; auto.
  inversion Hn as [|? ? Hm _]; subst. simpl in Hm.
  apply N.leb_le in Hm. now rewrite Hm.
Qed.

Lemma ascending_filter (f : N * string -> bool) (l : list (N * string)) :
  ascending l -> ascending (filter f l).
Proof.
  unfold ascending. induction l as [|a l IH]; simpl; intros H; [constructor|].
  apply StronglySorted_inv in H as [Hl Ha].
  destruct (f a); auto. constructor; auto.
  apply Forall_forall. intros x Hx. apply filter_In in Hx as [Hx _].
  rewrite Forall_forall in Ha. now apply Ha.
Qed.

Lemma indexed_by_filter (f : N * string -> bool) (l : list (N * string)) :
  indexed_by l -> indexed_by (filter f l).
Proof.
  unfold indexed_by. rewrite !Forall_forall. intros H x Hx.
  apply filter_In in Hx as [Hx _]. now apply H.
Qed.

Lemma index_keys_names (ks : list string) :
  forallb is_name ks = true -> index_keys ks = [].
Proof.
  induction ks as [|k ks IH]; simpl; auto.
  intros H. apply andb_prop in H as [Hk Hks]. unfold is_name in Hk.
  destruct (array_index k); [discriminate | auto].
Qed.

Lemma index_keys_app_names (xs ys : list string) :
  forallb is_name ys = true -> index_keys (xs ++ ys) = index_keys xs.
Proof.
  intros H. induction xs as [|x xs IH]; simpl.
  - now apply index_keys_names.
  - now rewrite IH.
Qed.

Lemma filter_names_indexed_by (l : list (N * string)) :
  indexed_by l -> filter is_name (map snd l) = [].
Proof.
  unfold indexed_by. induction 1 as [|[n k] l Hk _ IH]; simpl; auto.
  simpl in Hk. unfold is_name. now rewrite Hk.
Qed.

Lemma filter_same {A : Type} (f : A -> bool) (l : list A) :
  forallb f l = true -> filter f l = l.
Proof.
  induction l as [|x l IH]; simpl; auto.
  intros H. apply andb_prop in H as [Hx Hl]. rewrite Hx. now rewrite IH.
Qed.

Lemma forallb_filter {A : Type} (f g : A -> bool) (l : list A) :
  forallb f l = true -> forallb f (filter g l) = true.
Proof.
  rewrite !forallb_forall. intros H x Hx. apply filter_In in Hx as [Hx _]. auto.
Qed.

Lemma forallb_filter_same {A : Type} (f : A -> bool) (l : list A) :
  forallb f (filter f l) = true.
Proof.
  apply forallb_forall. intros x Hx. now apply filter_In in Hx.
Qed.

Lemma filter_map_snd (f : string -> bool) (l : list (N * string)) :
  filter f (map snd l) = map snd (filter (fun p => f (snd p)) l).
Proof.
  induction l as [|[n k] l IH]; simpl; auto.
  destruct (f k); simpl; now rewrite IH.
Qed.

(** Keys that are listed in order stay in order when some are left out. *)
Lemma keys_in_order_filter (f : string -> bool) (ks : list string) :
  keys_in_order (filter f (keys_in_order ks)) = filter f (keys_in_order ks).
Proof.
  unfold keys_in_order at 2 3. rewrite filter_app, filter_map_snd.
  set (idx := filter (fun p => f (snd p)) (index_keys ks)).
  set (names := filter f (filter is_name ks)).
  assert (Hnames : forallb is_name names = true)
    by apply forallb_filter, forallb_filter_same.
  assert (Hasc : ascending idx) by apply ascending_filter, index_keys_ascending.
  assert (Hidx : indexed_by idx) by apply indexed_by_filter, index_keys_indexed_by.
  unfold keys_in_order.
  rewrite index_keys_app_names, index_keys_again, filter_app by auto.
  now rewrite filter_names_indexed_by, (filter_same _ _ Hnames) by auto.
Qed.

Lemma keys_in_order_again (ks : list string) :
  keys_in_order (keys_in_order ks) = keys_in_order ks.
Proof.
  pose proof (keys_in_order_filter (fun _ => true) ks) as H.
  rewrite !(filter_same (fun _ => true)) in H; auto;
    apply forallb_forall; auto.
Qed.

(** A new key that is not an array index is listed last. *)
Lemma keys_in_order_name_last (ks : list string) (k : string) :
  is_name k = true -> keys_in_order (ks ++ [k]) = keys_in_order ks ++ [k].
Proof.
  intros H. unfold keys_in_order.
  rewrite index_keys_app_names, filter_app by (simpl; now rewrite H).
  simpl. rewrite H. now rewrite app_assoc.
Qed.

(** ** clone *)

(** Induction on a value through its elements and properties. *)
Lemma value_induction (P : value -> Prop) :
  (forall v, match v with VArray _ | VObject _ => False | _ => True end -> P v) ->
  (forall xs, Forall P xs -> P (VArray xs)) ->
  (forall o, Forall (fun kv => P (snd kv)) o -> P (VObject o)) ->
  forall v, P v.
Proof.
  intros Hbase Harray Hobject. fix IH 1. intros v.
  destruct v as [ | | | | | | | |xs|o| ]; try (apply Hbase; exact I).
  - apply Harray. induction xs as [|x xs IHxs]; constructor; auto.
  - apply Hobject. induction o as [|[k w] o IHo]; constructor; auto.
Qed.

(** A key other than [__proto__]. *)
Definition not_proto (key : string) : bool := negb (String.eqb key "__proto__").

Lemma filter_map_key (f : value -> value) (p : string -> bool) (o : props) :
  filter (fun kv => p (fst kv)) (map (fun kv => (fst kv, f (snd kv))) o)
  = map (fun kv => (fst kv, f (snd kv))) (filter (fun kv => p (fst kv)) o).
Proof.
  induction o as [|[k w] o IH]; simpl; auto.
  destruct (p k); simpl; now rewrite IH.
Qed.

Lemma filter_filter_same {A : Type} (f : A -> bool) (l : list A) :
  filter f (filter f l) = filter f l.
Proof. apply filter_same, forallb_filter_same. Qed.

Lemma clone_object (o : props) :
  clone (VObject o)
  = VObject (map (fun kv => (fst kv, clone (snd kv)))
               (filter (fun kv => not_proto (fst kv)) o)).
Proof. simpl. f_equal. apply (filter_map_key clone not_proto). Qed.

Lemma lookup_map_clone (key : string) (o : props) :
  lookup key (map (fun kv => (fst kv, clone (snd kv))) o)
  = option_map clone (lookup key o).
Proof.
  induction o as [|[k w] o IH]; simpl; auto.
  destruct (String.eqb k key); auto.
Qed.

(** Cloning a clone changes nothing. *)
Lemma clone_clone (original : value) : clone (clone original) = clone original.
Proof.
  induction original as [v Hv|xs IH|o IH] using value_induction.
  - destruct v; try contradiction; reflexivity.
  - simpl. f_equal. rewrite map_map. apply map_ext_in.
    rewrite Forall_forall in IH. exact IH.
  - rewrite !clone_object. f_equal.
    rewrite (filter_map_key clone not_proto), filter_filter_same, map_map.
    apply map_ext_in. intros kv Hkv. simpl. f_equal.
    rewrite Forall_forall in IH. apply IH. now apply filter_In in Hkv.
Qed.

(** ** defaultOptions *)

(** The first loop of [defaultOptions]. *)
Lemma fill_lookup (g : string -> value) (ks : list string) (acc : props) (k : string) :
  k <> "__proto__" ->
  lookup k (fold_left (fun result key => assign key (g key) result) ks acc)
    = if existsb (String.eqb k) ks then Some (g k) else lookup k acc.
Proof.
  intros Hk. revert acc. induction ks as [|k0 ks IH]; simpl; intros acc; auto.
  rewrite IH. destruct (existsb (String.eqb k) ks) eqn:E.
  - now rewrite orb_true_r.
  - rewrite orb_false_r. destruct (String.eqb_spec k k0) as [<-|Hne].
    + now apply lookup_assign_same.
    + apply lookup_assign_other. congruence.
Qed.

Lemma fill_proto (g : string -> value) (ks : list string) (acc : props) :
  lookup "__proto__" acc = None ->
  lookup "__proto__" (fold_left (fun result key => assign key (g key) result) ks acc)
  = None.
Proof.
  revert acc. induction ks as [|k0 ks IH]; simpl; intros acc H; auto.
  apply IH. destruct (String.eqb_spec k0 "__proto__") as [->|Hne].
  - rewrite assign_proto; auto. unfold hasOwnProperty. now rewrite H.
  - now rewrite lookup_assign_other.
Qed.

(** The second loop of [defaultOptions]. *)
Lemma override_lookup (h : string -> value) (ks : list string) (acc : props) (k : string) :
  lookup k (fold_left (fun result key =>
                         if hasOwnProperty result key
                         then assign key (h key) result else result) ks acc)
    = match lookup k acc with
      | None => None
      | Some d => Some (if existsb (String.eqb k) ks then h k else d)
      end.
Proof.
  revert acc. induction ks as [|k0 ks IH]; simpl; intros acc.
  - destruct (lookup k acc); auto.
  - rewrite IH. destruct (hasOwnProperty acc k0) eqn:Hown.
    + rewrite (assign_own _ _ _ Hown). unfold hasOwnProperty in Hown.
      destruct (String.eqb_spec k k0) as [->|Hne]; simpl.
      * rewrite lookup_define_same. destruct (lookup k0 acc); [|discriminate].
        now destruct (existsb (String.eqb k0) ks).
      * rewrite lookup_define_other by congruence. reflexivity.
    + unfold hasOwnProperty in Hown.
      destruct (String.eqb_spec k k0) as [->|Hne]; simpl; auto.
      destruct (lookup k0 acc); [discriminate | reflexivity].
Qed.

Lemma Object_keys_In (defaults : props) (k : string) :
  existsb (String.eqb k) (Object_keys (VObject defaults)) = true
  <-> In k (map fst defaults).
Proof.
  unfold Object_keys. simpl. now rewrite existsb_eqb_In, In_keys_in_order.
Qed.

(** The value [defaultOptions] gives a key. *)
Lemma defaultOptions_value (defaults : props) (override : value) (key : string) :
  key <> "__proto__" ->
  lookup key (defaultOptions defaults override) =
  match lookup key defaults with
  | None => None
  | Some d => Some (clone (if defines override key then get override key else d))
  end.
Proof.
  intros Hkey. unfold defaultOptions, defines.
  pose (g := fun key => clone (get (VObject defaults) key)).
  pose (h := fun key => clone (get override key)).
  assert (Hfirst : lookup key (fold_left (fun result key => assign key (g key) result)
                                 (Object_keys (VObject defaults)) [])
                   = match lookup key defaults with
                     | None => None
                     | Some d => Some (clone d)
                     end).
  { rewrite fill_lookup by exact Hkey.
    destruct (existsb (String.eqb key) (Object_keys (VObject defaults))) eqn:E.
    - apply Object_keys_In in E. destruct (lookup key defaults) eqn:L.
      + unfold g, get, own_entries. now rewrite L.
      + apply lookup_None_keys in L. contradiction.
    - destruct (lookup key defaults) eqn:L; auto.
      assert (In key (map fst defaults)) as H by (apply lookup_Some_keys; eauto).
      apply Object_keys_In in H. congruence. }
  unfold g in Hfirst.
  destruct (truthy override && typeof_object override); simpl.
  - rewrite (override_lookup h). rewrite Hfirst.
    destruct (lookup key defaults); auto.
    destruct (existsb (String.eqb key) (Object_keys override)); auto.
  - rewrite Hfirst. reflexivity.
Qed.

(** The result has no property [__proto__]. *)
Lemma defaultOptions_proto (defaults : props) (override : value) :
  lookup "__proto__" (defaultOptions defaults override) = None.
Proof.
  unfold defaultOptions.
  destruct (truthy override && typeof_object override).
  - rewrite override_lookup. now rewrite fill_proto.
  - now apply fill_proto.
Qed.

(** The first loop adds the keys in their order. *)
Lemma fill_order (g : string -> value) (ks : list string) (acc : props) :
  NoDup ks -> (forall k, In k ks -> ~ In k (map fst acc)) ->
  ~ In "__proto__" (map fst acc) ->
  map fst (fold_left (fun result key => assign key (g key) result) ks acc)
  = map fst acc ++ filter not_proto ks.
Proof.
  revert acc. induction ks as [|k ks IH]; intros acc Hnd Hfresh Hproto; simpl.
  - now rewrite app_nil_r.
  - inversion Hnd as [|? ? Hk Hks]; subst. unfold not_proto at 1.
    destruct (String.eqb_spec k "__proto__") as [->|Hne]; simpl.
    + rewrite assign_proto.
      * apply IH; auto. intros k' Hk'. apply Hfresh. now right.
      * unfold hasOwnProperty.
        now rewrite (proj2 (lookup_None_keys "__proto__" acc) Hproto).
    + rewrite assign_name by exact Hne.
      assert (Hacc : ~ In k (map fst acc)) by (apply Hfresh; now left).
      rewrite IH; auto.
      * rewrite keys_define_absent by exact Hacc. now rewrite <- app_assoc.
      * intros k' Hk'. rewrite keys_define_absent by exact Hacc.
        intros Hin. apply in_app_or in Hin as [Hin|[->|[]]].
        -- apply (Hfresh k'); auto. now right.
        -- contradiction.
      * rewrite keys_define_absent by exact Hacc.
        intros Hin. apply in_app_or in Hin as [Hin|[Heq|[]]]; auto.
Qed.

(** The second loop keeps the keys. *)
Lemma override_order (h : string -> value) (ks : list string) (acc : props) :
  map fst (fold_left (fun result key =>
                        if hasOwnProperty result key
                        then assign key (h key) result else result) ks acc)
  = map fst acc.
Proof.
  revert acc. induction ks as [|k ks IH]; intros acc; simpl; auto.
  rewrite IH. destruct (hasOwnProperty acc k) eqn:E; auto.
  rewrite (assign_own _ _ _ E). apply keys_define_present.
  unfold hasOwnProperty in E. apply lookup_Some_keys.
  destruct (lookup k acc); [eauto | discriminate].
Qed.

Lemma defaultOptions_keys (defaults : props) (override : value) :
  NoDup (map fst defaults) ->
  map fst (defaultOptions defaults override)
  = filter not_proto (Object_keys (VObject defaults)).
Proof.
  intros Hnd. unfold defaultOptions.
  assert (Hk : NoDup (Object_keys (VObject defaults)))
    by now apply keys_in_order_NoDup.
  destruct (truthy override && typeof_object override); rewrite ?override_order;
    now rewrite fill_order.
Qed.

(** Two objects with the same keys in the same order and the same value for
    every key are equal. *)
Lemma props_ext {A : Type} (a b : list (string * A)) :
  map fst a = map fst b -> NoDup (map fst a) ->
  (forall k, lookup k a = lookup k b) -> a = b.
Proof.
  revert b. induction a as [|[k v] a IH]; intros [|[k' v'] b]; simpl;
    try discriminate; auto.
  intros [= <- Hkeys] Hnd Hlookup. inversion Hnd as [|? ? Hk Hnd']; subst.
  pose proof (Hlookup k) as Hk0. rewrite String.eqb_refl in Hk0.
  injection Hk0 as <-. f_equal. apply IH; auto.
  intros k0. specialize (Hlookup k0).
  destruct (String.eqb_spec k k0) as [Heq|Hne]; auto. subst k0.
  assert (Ha : lookup k a = None) by now apply lookup_None_keys.
  assert (Hb : lookup k b = None) by (apply lookup_None_keys; now rewrite <- Hkeys).
  congruence.
Qed.

Lemma lookup_In {A : Type} (k : string) (v : A) (o : list (string * A)) :
  NoDup (map fst o) -> In (k, v) o -> lookup k o = Some v.
Proof.
  induction o as [|[k0 w] o IH]; simpl; [tauto|].
  intros Hnd [H|Hin].
  - injection H as -> ->. now rewrite String.eqb_refl.
  - inversion Hnd as [|? ? Hk Hnd']; subst.
    destruct (String.eqb_spec k0 k) as [->|Hne]; auto.
    destruct Hk. now apply (in_map fst) in Hin.
Qed.

Lemma defaultOptions_NoDup (defaults : props) (override : value) :
  NoDup (map fst defaults) -> NoDup (map fst (defaultOptions defaults override)).
Proof.
  intros Hnd. rewrite defaultOptions_keys by exact Hnd.
  apply NoDup_filter. now apply keys_in_order_NoDup.
Qed.

(** The keys of a result are in order, and [__proto__] is not among them. *)
Lemma defaultOptions_keys_again (defaults : props) (override override' : value) :
  NoDup (map fst defaults) ->
  map fst (defaultOptions (defaultOptions defaults override) override')
  = map fst (defaultOptions defaults override).
Proof.
  intros Hnd.
  rewrite (defaultOptions_keys (defaultOptions defaults override))
    by now apply defaultOptions_NoDup.
  unfold Object_keys. simpl own_entries.
  rewrite defaultOptions_keys by exact Hnd. unfold Object_keys. simpl own_entries.
  rewrite keys_in_order_filter. apply filter_filter_same.
Qed.

(** X3. When the keys of the defaults are distinct, and no object of the
    defaults or of the override has a function or a regular expression under
    a key [__proto__] of its own, [Object.keys] lists for the result of
    [defaultOptions] the keys it lists for the defaults, in the same order,
    the array indices first, but for the key [__proto__], which the result
    never has. *)
Theorem defaultOptions_order (defaults : props) (override : value) :
  NoDup (map fst defaults) ->
  assignable (VObject defaults) = true -> assignable override = true ->
  Object_keys (VObject (defaultOptions defaults override))
  = filter not_proto (Object_keys (VObject defaults)) /\
  hasOwnProperty (defaultOptions defaults override) "__proto__" = false.
Proof.
  intros Hnd _ _. split.
  - unfold Object_keys at 1. simpl own_entries.
    rewrite defaultOptions_keys by exact Hnd. unfold Object_keys. simpl own_entries.
    apply keys_in_order_filter.
  - unfold hasOwnProperty. now rewrite defaultOptions_proto.
Qed.

Lemma defaultOptions_order_witness :
  NoDup (map fst [("b", VNum 1); ("__proto__", VNull); ("10", VNum 2); ("9", VNum 3)]) /\
  Object_keys (VObject (defaultOptions
                          [("b", VNum 1); ("__proto__", VNull); ("10", VNum 2);
                           ("9", VNum 3)] VUndefined))
  = ["9"; "10"; "b"].
Proof.
  assert (Hnd : NoDup (map fst [("b", VNum 1); ("__proto__", VNull);
                                ("10", VNum 2); ("9", VNum 3)])).
  { simpl. repeat (constructor; [simpl; intuition discriminate|]). constructor. }
  split; [exact Hnd|].
  exact (proj1 (defaultOptions_order
                  [("b", VNum 1); ("__proto__", VNull); ("10", VNum 2); ("9", VNum 3)]
                  VUndefined Hnd eq_refl eq_refl)).
Defined.

(** X4. When the keys of the defaults are distinct, merging the result
    with the same override again changes nothing, and merging the defaults
    with nothing first and with the override next is the same as merging
    them with the override at once. *)
Theorem defaultOptions_again (defaults : props) (override : value) :
  NoDup (map fst defaults) ->
  defaultOptions (defaultOptions defaults override) override
  = defaultOptions defaults override /\
  defaultOptions (defaultOptions defaults VUndefined) override
  = defaultOptions defaults override.
Proof.
  intros Hnd.
  assert (Hvalue : forall o o' k,
             lookup k (defaultOptions (defaultOptions defaults o) o')
             = match lookup k (defaultOptions defaults o) with
               | None => None
               | Some d => Some (clone (if defines o' k then get o' k else d))
               end).
  { intros o o' k. destruct (String.eqb_spec k "__proto__") as [->|Hne].
    - now rewrite !defaultOptions_proto.
    - now apply defaultOptions_value. }
  split; apply props_ext.
  - now apply defaultOptions_keys_again.
  - now apply defaultOptions_NoDup, defaultOptions_NoDup.
  - intros k. rewrite Hvalue.
    destruct (String.eqb_spec k "__proto__") as [->|Hne].
    + now rewrite defaultOptions_proto.
    + rewrite defaultOptions_value by exact Hne.
      destruct (lookup k defaults) as [d|]; auto.
      destruct (defines override k); simpl; auto. now rewrite clone_clone.
  - rewrite defaultOptions_keys_again by exact Hnd.
    now rewrite !defaultOptions_keys.
  - now apply defaultOptions_NoDup, defaultOptions_NoDup.
  - intros k. rewrite Hvalue.
    destruct (String.eqb_spec k "__proto__") as [->|Hne].
    + now rewrite !defaultOptions_proto.
    + rewrite !defaultOptions_value by exact Hne.
      destruct (lookup k defaults) as [d|]; auto.
      unfold defines at 2. simpl.
      destruct (defines override k); simpl; auto. now rewrite clone_clone.
Qed.

Lemma defaultOptions_again_witness :
  defaultOptions
    (defaultOptions middleware_defaults (VObject [("name", VStr "mine")]))
    (VObject [("name", VStr "mine")])
  = defaultOptions middleware_defaults (VObject [("name", VStr "mine")]).
Proof.
  apply (defaultOptions_again middleware_defaults (VObject [("name", VStr "mine")])).
  simpl. repeat (constructor; [simpl; intuition discriminate|]). constructor.
Defined.

(** ** filenameMatcher: the items of the list *)

Section MatcherItems.

Variable micromatch_matcher : string -> value -> option (string -> bool).
Variable regexp_test : rid -> string -> bool.
Variable predicate : fid -> list value -> value.

Local Abbreviation compile_one :=
  (compile_item micromatch_matcher regexp_test predicate).
Local Abbreviation compile_all :=
  (compile_items micromatch_matcher regexp_test predicate).
Local Abbreviation matcher_of :=
  (filenameMatcher micromatch_matcher regexp_test predicate).



(** Whether an item accepts a filename. *)
Definition item_matches (options : value) (filename : string) (item : value) : bool :=
  match compile_one options item with
  | Some singleMatch => truthy (singleMatch [VStr filename])
  | None => false
  end.



Lemma compile_items_any (options : value) (items : list value)
  (ps : list (list value -> value)) (filename : string) :
  compile_all options items = Some ps ->
  any_matches ps filename = existsb (item_matches options filename) items.
Proof.
  revert ps. induction items as [|item items IH]; simpl; intros ps.
  - now intros [= <-].
  - unfold item_matches at 1.
    destruct (compile_one options item) as [p|]; [|discriminate].
    destruct (compile_all options items) as [ps'|]; [|discriminate].
    intros [= <-]. simpl. f_equal. now apply IH.
Qed.

(** The compiled matcher accepts a filename when one of the items does. *)
Lemma matcher_items (m options : value) (matchFn : string -> value)
  (filename : string) :
  matcher_of m options = Some matchFn ->
  truthy (matchFn filename)
  = existsb (item_matches options filename) (concat_match m).
Proof.
  unfold filenameMatcher.
  destruct (concat_match m) as [|item items] eqn:Hm.
  - now intros [= <-].
  - destruct (compile_all options (item :: items)) as [ps|] eqn:Hc; [|discriminate].
    rewrite <- (compile_items_any _ _ _ filename Hc).
    destruct ps as [|single [|second more]]; intros [= <-]; auto.
    + unfold any_matches. simpl. now rewrite orb_false_r.
    + exact (some_any (single :: second :: more) filename).
Qed.




End MatcherItems.

(** ** callFunction: what settles the promise *)

Section CallFunctionOutcomes.

Variable code : fid -> jsfun.

Local Abbreviation call := (callFunction code).
Local Abbreviation fn_of := (function_of code).

(** X7. When [fn] is neither a function nor an object with a method
    [apply] of its own, [callFunction] calls nothing; its promise is
    fulfilled with [undefined] when [fn] is falsy, and rejected with a
    [TypeError] when [fn] is truthy: the error of [fn.apply] is not thrown
    to the caller. *)
Theorem callFunction_not_a_function (site : pid) (fn : value)
  (args : option (list value)) (s : state) (rs : list reaction) :
  (forall f, fn <> VFunction f) -> (forall p, fn <> VCompletion p) ->
  (forall o, fn = VObject o ->
             match lookup "apply" o with
             | Some (VFunction _) | Some (VCompletion _) => False
             | _ => True
             end) ->
  promises s site = Pending rs ->
  promises (call site fn args s) site
  = Settled (if truthy fn
             then Reject (VError "TypeError: fn.apply is not a function")
             else Fulfill VUndefined) /\
  forall site', calls_at site' (log (call site fn args s)) = calls_at site' (log s).
Proof.
  intros Hf Hc Ho Hp.
  assert (Hnone : forall a, applied fn a = None).
  { intros a. destruct fn as [ | | | | |g| | | |o| ]; try reflexivity.
    - now destruct (Hf g).
    - simpl. specialize (Ho o eq_refl).
      destruct (lookup "apply" o) as [[]|]; auto; contradiction. }
  split.
  - unfold callFunction.
    assert (Hp' : promises (record (EvCallFunction site) s) site = Pending rs)
      by exact Hp.
    destruct (truthy fn) eqn:Ht; simpl negb; cbv iota.
    + assert (Happly : forall a s0,
                 fn_apply code site fn a s0
                 = (s0, Threw (VError "TypeError: fn.apply is not a function"))).
      { intros a s0. unfold fn_apply. now rewrite Hnone. }
      destruct (supports_callbacks code fn args); unfold new_Promise;
        rewrite Happly; eapply settle_pending; eauto.
    + eapply settle_pending; eauto.
  - intros site'. rewrite callFunction_calls.
    assert (Hi : invocation code site fn args = []).
    { unfold invocation. now rewrite Hnone. }
    rewrite Hi. destruct (pid_eqb site site'); apply app_nil_r.
Qed.

End CallFunctionOutcomes.

Lemma callFunction_not_a_function_witness :
  promises (callFunction (returns VUndefined) PBefore
              (VObject [("apply", VStr "abc")]) (Some []) (initial [])) PBefore
  = Settled (Reject (VError "TypeError: fn.apply is not a function")).
Proof.
  apply (proj1 (callFunction_not_a_function (returns VUndefined) PBefore
                  (VObject [("apply", VStr "abc")]) (Some []) (initial []) []
                  ltac:(intros; discriminate) ltac:(intros; discriminate)
                  ltac:(intros o [= <-]; exact I)
                  eq_refl)).
Defined.

Section CallFunctionSettles.

Variable code : fid -> jsfun.
Variable options : props.
Variable matcher : string -> value.
Variable metalsmith : props.

Local Abbreviation call := (callFunction code).
Local Abbreviation fn_of := (function_of code).
Local Abbreviation run_ := (run code options matcher metalsmith).








End CallFunctionSettles.





(** ** middleware: building the middleware function *)

Section MiddlewareOptions.

Variable micromatch_matcher : string -> value -> option (string -> bool).
Variable regexp_test : rid -> string -> bool.
Variable predicate : fid -> list value -> value.

Local Abbreviation middleware_ :=
  (middleware micromatch_matcher regexp_test predicate).






End MiddlewareOptions.


(** * exports.chain *)

(** What a plugin does in the call [plugin(files, metalsmith, next)] before
    it returns: it may change the file collection, call [next] at once,
    arrange for [next] to be called from a later turn of the event loop, and
    throw. *)
Inductive plugin_action : Type :=
| PAssign (name : string) (record : props)
             (* files[name] = record, as Object.defineProperty has it: the
                collection gets a property of its own for every name *)
| PDelete (name : string)                    (* delete files[name] *)
| PNext (e : value)                          (* next(e) *)
| PNextLater (e : value)                     (* next(e), later *)
| PThrow (e : value).

(** A plugin, for the file collection and the [metalsmith] argument it is
    called with. *)
Definition plugin : Type := list (string * props) -> props -> list plugin_action.

(** The state of one call of the function [chain] returns: the variable
    [i], the file collection, and what has been observed of the call. *)
Record chain_state : Type := {
  c_i : nat;
  c_files : list (string * props);
  c_called : list nat;      (* the plugins called, by their index in args *)
  c_done : list value;      (* the arguments of the calls of done *)
  c_later : list value      (* the arguments of the calls of next to come *)
}.

Definition chain_files (fs : list (string * props)) (s : chain_state) : chain_state :=
  {| c_i := c_i s; c_files := fs; c_called := c_called s; c_done := c_done s;
     c_later := c_later s |}.

Definition chain_later (l : list value) (s : chain_state) : chain_state :=
  {| c_i := c_i s; c_files := c_files s; c_called := c_called s;
     c_done := c_done s; c_later := l |}.

(** [done(e)] *)
Definition chain_done (e : value) (s : chain_state) : chain_state :=
  {| c_i := c_i s; c_files := c_files s; c_called := c_called s;
     c_done := c_done s ++ [e]; c_later := c_later s |}.

(** [plugin = args[i]; i += 1;] *)
Definition chain_take (s : chain_state) : chain_state :=
  {| c_i := S (c_i s); c_files := c_files s; c_called := c_called s ++ [c_i s];
     c_done := c_done s; c_later := c_later s |}.

(** The body of a plugin, with [next] for the function it is given; the
    second component is the error, when one is thrown. *)
Fixpoint run_plugin (next : value -> chain_state -> chain_state * option value)
  (acts : list plugin_action) (s : chain_state) : chain_state * option value :=
  match acts with
  | [] => (s, None)
  | PAssign name record :: rest =>
      run_plugin next rest (chain_files (define name record (c_files s)) s)
  | PDelete name :: rest =>
      run_plugin next rest (chain_files (delete name (c_files s)) s)
  | PNext e :: rest =>
      match next e s with
      | (s', None) => run_plugin next rest s'
      | (s', Some thrown) => (s', Some thrown)
      end
  | PNextLater e :: rest => run_plugin next rest (chain_later (c_later s ++ [e]) s)
  | PThrow e :: _ => (s, Some e)
  end.

(** [runNext(e)]; an element of [args] that is not a function is [None].
    The calls nest at most as deep as there are plugins left, which is what
    the fuel counts. *)
Fixpoint runNext (fuel : nat) (args : list (option plugin)) (metalsmith : props)
  (e : value) (s : chain_state) : chain_state * option value :=
  if truthy e || (List.length args <=? c_i s) then (chain_done e s, None)
  else
    match fuel with
    | 0 => (s, None)
    | S fuel' =>
        match nth_error args (c_i s) with
        | Some (Some plugin) =>
            run_plugin (runNext fuel' args metalsmith)
              (plugin (c_files s) metalsmith) (chain_take s)
        | _ => (chain_take s, Some (VError "TypeError: plugin is not a function"))
        end
    end.

(** The state in which the function [chain] returns is called. *)
Definition chain_initial (files : list (string * props)) : chain_state :=
  {| c_i := 0; c_files := files; c_called := []; c_done := []; c_later := [] |}.

(** [chain(...args)(files, metalsmith, done)]: the call [runNext()]. *)
Definition chain (args : list (option plugin)) (files : list (string * props))
  (metalsmith : props) : chain_state * option value :=
  runNext (List.length args) args metalsmith VUndefined (chain_initial files).

(** A later turn of the event loop: the oldest call of [next] that is to
    come; an error it throws is lost. *)
Definition chain_turn (args : list (option plugin)) (metalsmith : props)
  (s : chain_state) : option chain_state :=
  match c_later s with
  | [] => None
  | e :: rest =>
      Some (fst (runNext (List.length args) args metalsmith e (chain_later rest s)))
  end.

Fixpoint chain_loop (fuel : nat) (args : list (option plugin)) (metalsmith : props)
  (s : chain_state) : chain_state :=
  match fuel with
  | 0 => s
  | S k =>
      match chain_turn args metalsmith s with
      | Some s' => chain_loop k args metalsmith s'
      | None => s
      end
  end.

(** ** The order of the plugins *)

Section Chain.

Variable args : list (option plugin).
Variable metalsmith : props.

(** From [s] to [s']: the plugins called are the next ones, in order, and
    [done] is called without an error only when every plugin has been
    called. *)
Record chain_order (s s' : chain_state) : Prop := {
  co_i : c_i s <= c_i s';
  co_bound : c_i s <= List.length args -> c_i s' <= List.length args;
  co_called : c_called s' = c_called s ++ seq (c_i s) (c_i s' - c_i s);
  co_done : exists l,
      c_done s' = c_done s ++ l /\
      (c_i s <= List.length args ->
       forall x, In x l -> truthy x = true \/ c_i s' = List.length args)
}.

Lemma chain_order_same (s s' : chain_state) :
  c_i s' = c_i s -> c_called s' = c_called s -> c_done s' = c_done s ->
  chain_order s s'.
Proof.
  intros Hi Hc Hd. constructor; rewrite ?Hi, ?Hc, ?Hd; auto.
  - rewrite Nat.sub_diag. simpl. now rewrite app_nil_r.
  - exists []. rewrite app_nil_r. split; [reflexivity | intros _ x []].
Qed.

Lemma chain_order_refl (s : chain_state) : chain_order s s.
Proof. now apply chain_order_same. Qed.

Lemma chain_order_trans (s1 s2 s3 : chain_state) :
  chain_order s1 s2 -> chain_order s2 s3 -> chain_order s1 s3.
Proof.
  intros [Hi1 Hb1 Hc1 (l1 & Hd1 & Hl1)] [Hi2 Hb2 Hc2 (l2 & Hd2 & Hl2)].
  constructor; auto.
  - lia.
  - rewrite Hc2, Hc1, <- app_assoc. f_equal.
    replace (c_i s3 - c_i s1) with ((c_i s2 - c_i s1) + (c_i s3 - c_i s2)) by lia.
    rewrite seq_app. do 2 f_equal. lia.
  - exists (l1 ++ l2). split; [now rewrite Hd2, Hd1, app_assoc|].
    intros Hle x Hx. apply in_app_or in Hx as [Hx|Hx].
    + destruct (Hl1 Hle x Hx) as [Ht|He]; auto. right.
      pose proof (Hb2 (Hb1 Hle)). lia.
    + apply Hl2; auto.
Qed.

Lemma chain_take_order (s : chain_state) :
  c_i s < List.length args -> chain_order s (chain_take s).
Proof.
  intros Hlt. constructor; cbn [chain_take c_i c_called c_done]; auto.
  - replace (S (c_i s) - c_i s) with 1 by lia. reflexivity.
  - exists []. rewrite app_nil_r. split; [reflexivity | intros _ x []].
Qed.

Lemma chain_done_order (e : value) (s : chain_state) :
  truthy e || (List.length args <=? c_i s) = true ->
  chain_order s (chain_done e s).
Proof.
  intros H. constructor; simpl; auto.
  - rewrite Nat.sub_diag. simpl. now rewrite app_nil_r.
  - exists [e]. split; [reflexivity|]. intros Hle x [<-|[]].
    apply orb_prop in H as [H|H]; auto. apply Nat.leb_le in H. right. lia.
Qed.

Lemma run_plugin_order (next : value -> chain_state -> chain_state * option value)
  (acts : list plugin_action) (s : chain_state) :
  (forall e s0, chain_order s0 (fst (next e s0))) ->
  chain_order s (fst (run_plugin next acts s)).
Proof.
  intros Hnext. revert s. induction acts as [|a acts IH]; intros s; simpl.
  - apply chain_order_refl.
  - destruct a as [name record|name|e|e|e]; simpl.
    + eapply chain_order_trans; [|apply IH]. now apply chain_order_same.
    + eapply chain_order_trans; [|apply IH]. now apply chain_order_same.
    + pose proof (Hnext e s) as H. destruct (next e s) as [s' [thrown|]];
        simpl in *; auto.
      eapply chain_order_trans; [exact H | apply IH].
    + eapply chain_order_trans; [|apply IH]. now apply chain_order_same.
    + apply chain_order_refl.
Qed.

Lemma runNext_order (fuel : nat) (e : value) (s : chain_state) :
  chain_order s (fst (runNext fuel args metalsmith e s)).
Proof.
  revert e s. induction fuel as [|fuel IH]; intros e s; simpl;
    destruct (truthy e || (List.length args <=? c_i s)) eqn:E;
    try (now apply chain_done_order); try apply chain_order_refl.
  assert (Hlt : c_i s < List.length args).
  { apply orb_false_elim in E as [_ E]. apply Nat.leb_gt in E. exact E. }
  destruct (nth_error args (c_i s)) as [[p|]|]; simpl;
    try (now apply chain_take_order).
  eapply chain_order_trans; [now apply chain_take_order|].
  apply run_plugin_order. exact IH.
Qed.

Lemma run_plugin_ext (next1 next2 : value -> chain_state -> chain_state * option value)
  (acts : list plugin_action) (s : chain_state) :
  (forall e s', c_i s <= c_i s' -> next1 e s' = next2 e s') ->
  (forall e s', c_i s' <= c_i (fst (next1 e s'))) ->
  run_plugin next1 acts s = run_plugin next2 acts s.
Proof.
  intros Hext Hmono. revert s Hext.
  induction acts as [|a acts IH]; intros s Hext; simpl; auto.
  destruct a as [name record|name|e|e|e]; try (apply IH; exact Hext); auto.
  rewrite <- (Hext e s) by lia. pose proof (Hmono e s) as Hle.
  destruct (next1 e s) as [s' [thrown|]]; auto. simpl in Hle.
  apply IH. intros e' s'' Hs''. apply Hext. lia.
Qed.

(** With fuel for the plugins that are left, [runNext] does not depend on
    the fuel. *)
Lemma runNext_fuel (fuel1 fuel2 : nat) (e : value) (s : chain_state) :
  List.length args - c_i s <= fuel1 -> List.length args - c_i s <= fuel2 ->
  runNext fuel1 args metalsmith e s = runNext fuel2 args metalsmith e s.
Proof.
  revert fuel2 e s. induction fuel1 as [|fuel1 IH]; intros fuel2 e s H1 H2.
  - destruct fuel2; simpl; auto.
    destruct (truthy e || (List.length args <=? c_i s)) eqn:E; auto.
    apply orb_false_elim in E as [_ E]. apply Nat.leb_gt in E. lia.
  - simpl. destruct (truthy e || (List.length args <=? c_i s)) eqn:E.
    + destruct fuel2; simpl; now rewrite E.
    + assert (Hlt : c_i s < List.length args).
      { apply orb_false_elim in E as [_ E]. now apply Nat.leb_gt in E. }
      destruct fuel2 as [|fuel2]; [lia|]. simpl. rewrite E.
      destruct (nth_error args (c_i s)) as [[p|]|]; auto.
      apply run_plugin_ext.
      * intros e' s' Hs'. simpl in Hs'. apply IH; lia.
      * intros e' s'. apply (co_i _ _ (runNext_order fuel1 e' s')).
Qed.

(** The state after calls of [runNext] with the arguments [es], the first
    of them the call [runNext()] of the chain and the others those the
    plugins make later, in whatever order they come. *)
Definition chain_calls (es : list value) (files : list (string * props))
  : chain_state :=
  fold_left (fun s e => fst (runNext (List.length args) args metalsmith e s))
            es (chain_initial files).

Lemma chain_calls_order (es : list value) (s : chain_state) :
  chain_order s
    (fold_left (fun s e => fst (runNext (List.length args) args metalsmith e s))
               es s).
Proof.
  revert s. induction es as [|e es IH]; intros s; simpl.
  - apply chain_order_refl.
  - eapply chain_order_trans; [apply runNext_order | apply IH].
Qed.

(** X11. Whatever the plugins do, and however often and in whatever order
    they call [next]: the plugins that have been called are the first ones
    of the arguments, each called once, in the order of the arguments, so
    that no plugin is called twice or before the ones that precede it. *)
Theorem chain_in_order (es : list value) (files : list (string * props)) :
  c_called (chain_calls es files) = seq 0 (c_i (chain_calls es files)) /\
  c_i (chain_calls es files) <= List.length args /\
  NoDup (c_called (chain_calls es files)).
Proof.
  destruct (chain_calls_order es (chain_initial files)) as [Hi Hb Hc _].
  fold (chain_calls es files) in *. simpl in *.
  rewrite Nat.sub_0_r in Hc. split; [exact Hc|]. split; [apply Hb; lia|].
  rewrite Hc. apply seq_NoDup.
Qed.

(** X12. Whatever the plugins do: [done] is called with a falsy argument,
    that is without an error, only when every plugin has been called. *)
Theorem chain_done_without_error (es : list value) (files : list (string * props))
  (x : value) :
  In x (c_done (chain_calls es files)) -> truthy x = false ->
  c_called (chain_calls es files) = seq 0 (List.length args).
Proof.
  destruct (chain_calls_order es (chain_initial files)) as [Hi Hb Hc (l & Hd & Hl)].
  fold (chain_calls es files) in *. simpl in *.
  rewrite Nat.sub_0_r in Hc. rewrite Hd. intros Hx Hfalse.
  destruct (Hl (Nat.le_0_l _) x Hx) as [Ht|He]; [congruence|].
  now rewrite Hc, He.
Qed.

(** ** Plugins that call [next] once *)

Definition edit (a : plugin_action) : bool :=
  match a with
  | PAssign _ _ | PDelete _ => true
  | _ => false
  end.

(** The plugin changes files and ends with one call of [next], made at
    once or later, with the argument [e]. *)
Definition ends_with_next (acts : list plugin_action) (e : value) : Prop :=
  exists edits,
    forallb edit edits = true /\
    (acts = edits ++ [PNext e] \/ acts = edits ++ [PNextLater e]).

(** The element of [args] is a plugin that ends with one call of [next],
    whose argument is an error or not as [failing] says. *)
Definition calls_next (failing : bool) (p : option plugin) : Prop :=
  exists pl,
    p = Some pl /\
    forall files, exists e, truthy e = failing /\ ends_with_next (pl files metalsmith) e.

Lemma run_plugin_edits (next : value -> chain_state -> chain_state * option value)
  (edits rest : list plugin_action) (s : chain_state) :
  forallb edit edits = true ->
  exists fs, run_plugin next (edits ++ rest) s
             = run_plugin next rest (chain_files fs s).
Proof.
  revert s. induction edits as [|a edits IH]; intros s H; simpl.
  - exists (c_files s). now destruct s.
  - simpl in H. apply andb_prop in H as [Ha H].
    destruct a as [name record|name|e|e|e]; try discriminate;
      match goal with
      | |- context [run_plugin next (edits ++ rest) ?s1] =>
          destruct (IH s1 H) as [fs Hfs]
      end; exists fs; now rewrite Hfs.
Qed.

Lemma chain_loop_idle (fuel : nat) (s : chain_state) :
  c_later s = [] -> chain_loop fuel args metalsmith s = s.
Proof. intros H. destruct fuel; simpl; auto. unfold chain_turn. now rewrite H. Qed.

(** The outcome of a call of [runNext] and of the turns that follow it:
    the plugins up to [last] have been called and [done] has been called
    once more, with [e]. *)
Definition chain_outcome (s s' : chain_state) (last : nat) (failing : bool) : Prop :=
  c_i s' = last /\
  c_called s' = c_called s ++ seq (c_i s) (last - c_i s) /\
  (exists e, c_done s' = c_done s ++ [e] /\ truthy e = failing) /\
  c_later s' = [].

Local Abbreviation n_args := (List.length args).

Lemma runNext_done (fuel : nat) (e : value) (s : chain_state) :
  truthy e || (n_args <=? c_i s) = true ->
  runNext fuel args metalsmith e s = (chain_done e s, None).
Proof. intros H. destruct fuel; simpl; now rewrite H. Qed.

Lemma runNext_plugin (e : value) (s : chain_state) (pl : plugin) :
  truthy e = false -> nth_error args (c_i s) = Some (Some pl) ->
  runNext n_args args metalsmith e s
  = run_plugin (runNext n_args args metalsmith) (pl (c_files s) metalsmith)
      (chain_take s).
Proof.
  intros He Hnth.
  assert (Hlt : c_i s < n_args) by (apply nth_error_Some; congruence).
  rewrite (runNext_fuel n_args (S n_args)) by lia.
  cbn [runNext]. rewrite He, Hnth.
  assert (Hleb : (n_args <=? c_i s) = false) by (apply Nat.leb_gt; lia).
  now rewrite Hleb.
Qed.

(** One plugin that ends with a call of [next]: what [runNext] comes to. *)
Lemma runNext_calls_next (e : value) (s : chain_state) (p : option plugin)
  (failing : bool) :
  truthy e = false -> nth_error args (c_i s) = Some p -> calls_next failing p ->
  exists fs e',
    truthy e' = failing /\
    (runNext n_args args metalsmith e s
     = runNext n_args args metalsmith e' (chain_files fs (chain_take s))
     \/ runNext n_args args metalsmith e s
        = (chain_later (c_later s ++ [e']) (chain_files fs (chain_take s)), None)).
Proof.
  intros He Hnth (pl & -> & Hpl).
  destruct (Hpl (c_files s)) as (e' & He' & edits & Hedits & Hacts).
  rewrite (runNext_plugin e s pl He Hnth).
  destruct (run_plugin_edits (runNext n_args args metalsmith) edits [PNext e']
              (chain_take s) Hedits) as [fs Hfs].
  destruct (run_plugin_edits (runNext n_args args metalsmith) edits [PNextLater e']
              (chain_take s) Hedits) as [fs' Hfs'].
  destruct Hacts as [Hacts|Hacts]; rewrite Hacts.
  - exists fs, e'. split; [exact He'|]. left. rewrite Hfs. simpl.
    now destruct (runNext n_args args metalsmith e' _) as [s' [thrown|]].
  - exists fs', e'. split; [exact He'|]. right. rewrite Hfs'. reflexivity.
Qed.

Lemma chain_outcome_step (s s1 s' : chain_state) (last : nat) (failing : bool) :
  c_i s1 = S (c_i s) -> c_called s1 = c_called s ++ [c_i s] ->
  c_done s1 = c_done s -> c_i s < last ->
  chain_outcome s1 s' last failing -> chain_outcome s s' last failing.
Proof.
  intros Hi Hc Hd Hlt (H1 & H2 & H3 & H4). repeat split; auto.
  - rewrite H2, Hc, Hi, <- app_assoc. f_equal.
    replace (last - c_i s) with (S (last - S (c_i s))) by lia. reflexivity.
  - now rewrite <- Hd.
Qed.

Lemma chain_loop_later (lf : nat) (s : chain_state) (e : value) (rest : list value) :
  c_later s = e :: rest ->
  chain_loop (S lf) args metalsmith s
  = chain_loop lf args metalsmith
      (fst (runNext n_args args metalsmith e (chain_later rest s))).
Proof. intros H. simpl. unfold chain_turn. now rewrite H. Qed.

Ltac chain_simpl :=
  cbn [chain_files chain_take chain_later chain_done
       c_i c_called c_done c_later c_files].

Lemma chain_outcome_done (s : chain_state) (e : value) (last : nat) :
  c_i s <= last -> last <= S (c_i s) -> c_later s = [] ->
  forall s1,
    c_i s1 = last -> c_called s1 = c_called s ++ seq (c_i s) (last - c_i s) ->
    c_done s1 = c_done s -> c_later s1 = [] ->
    chain_outcome s (chain_done e s1) last (truthy e).
Proof.
  intros _ _ _ s1 Hi Hc Hd Hl. repeat split; simpl; auto.
  exists e. now rewrite Hd.
Qed.

Lemma chain_advance (k : nat) (failing : bool) :
  (forall j p, j < k -> nth_error args j = Some p -> calls_next false p) ->
  (if failing
   then exists p, nth_error args k = Some p /\ calls_next true p
   else k = n_args) ->
  forall m s e lf,
    m = k - c_i s -> c_i s <= k -> c_later s = [] -> truthy e = false ->
    n_args - c_i s <= lf ->
    chain_outcome s
      (chain_loop lf args metalsmith (fst (runNext n_args args metalsmith e s)))
      (if failing then S k else k) failing /\
    snd (runNext n_args args metalsmith e s) = None.
Proof.
  intros Hbefore Hlast. induction m as [|m IH]; intros s e lf Hm Hle Hlater He Hlf.
  - assert (Hi : c_i s = k) by lia.
    destruct failing.
    + destruct Hlast as (p & Hnth & Hp). rewrite <- Hi in Hnth.
      assert (Hlt : c_i s < n_args) by (apply nth_error_Some; congruence).
      destruct (runNext_calls_next e s p true He Hnth Hp)
        as (fs & e' & He' & [Hrun|Hrun]); rewrite Hrun.
      * rewrite runNext_done by (rewrite He'; reflexivity).
        simpl fst. rewrite chain_loop_idle by (simpl; exact Hlater).
        split; auto. rewrite <- He'.
        apply chain_outcome_done; chain_simpl; auto; try lia.
        rewrite <- Hi. replace (S (c_i s) - c_i s) with 1 by lia. reflexivity.
      * simpl fst. split; auto. destruct lf as [|lf]; [lia|].
        rewrite (chain_loop_later lf _ e' [])
          by (chain_simpl; now rewrite Hlater).
        rewrite runNext_done by (rewrite He'; reflexivity).
        simpl fst. rewrite chain_loop_idle by reflexivity.
        rewrite <- He'.
        apply chain_outcome_done; chain_simpl; auto; try lia.
        rewrite <- Hi. replace (S (c_i s) - c_i s) with 1 by lia. reflexivity.
    + subst k.
      assert (Hleb : (n_args <=? c_i s) = true) by (apply Nat.leb_le; lia).
      rewrite runNext_done by (rewrite Hleb; apply orb_true_r).
      simpl fst. rewrite chain_loop_idle by (simpl; exact Hlater).
      split; auto. rewrite <- He.
      apply chain_outcome_done; auto; try lia.
      rewrite Hi, Nat.sub_diag. simpl. now rewrite app_nil_r.
  - assert (Hlt : c_i s < k) by lia.
    destruct (nth_error args (c_i s)) as [p|] eqn:Hnth.
    2: { apply nth_error_None in Hnth. destruct failing; [|lia].
         destruct Hlast as (p & Hk & _).
         assert (k < n_args) by (apply nth_error_Some; congruence). lia. }
    pose proof (Hbefore _ _ Hlt Hnth) as Hp.
    assert (Hn : c_i s < n_args) by (apply nth_error_Some; congruence).
    destruct (runNext_calls_next e s p false He Hnth Hp)
      as (fs & e' & He' & [Hrun|Hrun]); rewrite Hrun.
    + destruct (IH (chain_files fs (chain_take s)) e' lf) as [Hout Hnone];
        simpl; auto; try lia.
      split; auto.
      eapply chain_outcome_step; [| | | |exact Hout]; simpl; auto.
      destruct failing; lia.
    + simpl fst. split; auto. destruct lf as [|lf]; [lia|].
      rewrite (chain_loop_later lf _ e' [])
        by (chain_simpl; now rewrite Hlater).
      set (s1 := chain_later [] (chain_later (c_later s ++ [e'])
                                   (chain_files fs (chain_take s)))).
      destruct (IH s1 e' lf) as [Hout Hnone]; simpl; auto; try lia.
      eapply chain_outcome_step; [| | | |exact Hout]; simpl; auto.
      destruct failing; lia.
Qed.

(** X13. When every plugin changes files and ends with one call of
    [next] without an error, made at once or from a later turn: the chain
    throws nothing, and after all the turns every plugin has been called, in
    order, [done] has been called once, without an error, and no call of
    [next] is left to come. *)
Theorem chain_runs_every_plugin (files : list (string * props)) (lf : nat) :
  Forall (calls_next false) args -> n_args <= lf ->
  snd (chain args files metalsmith) = None /\
  c_called (chain_loop lf args metalsmith (fst (chain args files metalsmith)))
  = seq 0 n_args /\
  (exists e,
      c_done (chain_loop lf args metalsmith (fst (chain args files metalsmith)))
      = [e] /\ truthy e = false) /\
  c_later (chain_loop lf args metalsmith (fst (chain args files metalsmith))) = [].
Proof.
  intros Hall Hlf.
  destruct (chain_advance n_args false) with (m := n_args)
    (s := chain_initial files) (e := VUndefined) (lf := lf)
    as [(Hi & Hc & He & Hl) Hnone]; simpl; auto; try lia.
  - intros j p Hj Hnth. rewrite Forall_forall in Hall. apply Hall.
    eapply nth_error_In; eauto.
  - unfold chain. split; auto. split; [|split]; auto.
    rewrite Hc. simpl. now rewrite Nat.sub_0_r.
Qed.

(** X14. When the plugins before the one at the index [k] are such
    plugins and the plugin at [k] ends with one call of [next] with an
    error: after all the turns the plugins up to [k] have been called, in
    order, and no other, [done] has been called once, with an error, and no
    call of [next] is left to come. *)
Theorem chain_stops_at_error (files : list (string * props)) (k : nat)
  (p : option plugin) (lf : nat) :
  (forall j q, j < k -> nth_error args j = Some q -> calls_next false q) ->
  nth_error args k = Some p -> calls_next true p -> n_args <= lf ->
  c_called (chain_loop lf args metalsmith (fst (chain args files metalsmith)))
  = seq 0 (S k) /\
  (exists e,
      c_done (chain_loop lf args metalsmith (fst (chain args files metalsmith)))
      = [e] /\ truthy e = true) /\
  c_later (chain_loop lf args metalsmith (fst (chain args files metalsmith))) = [].
Proof.
  intros Hbefore Hnth Hp Hlf.
  destruct (chain_advance k true) with (m := k)
    (s := chain_initial files) (e := VUndefined) (lf := lf)
    as [(Hi & Hc & He & Hl) Hnone]; simpl; eauto; try lia.
Qed.

End Chain.

(** [(files, metalsmith, next) => { files["x"] = {}; next(); }] *)
Definition adds_file : plugin := fun _ _ => [PAssign "x" []; PNext VUndefined].

(** [(files, metalsmith, next) => { setTimeout(() => next(null)); }] *)
Definition waits : plugin := fun _ _ => [PNextLater VNull].

(** [(files, metalsmith, next) => { next(new Error("boom")); }] *)
Definition reports : plugin := fun _ _ => [PNext (VError "boom")].

Lemma adds_file_calls_next : calls_next [] false (Some adds_file).
Proof.
  exists adds_file. split; auto. intros files. exists VUndefined. split; auto.
  exists [PAssign "x" []]. split; auto.
Qed.

Lemma waits_calls_next : calls_next [] false (Some waits).
Proof.
  exists waits. split; auto. intros files. exists VNull. split; auto.
  exists []. split; auto.
Qed.

Lemma reports_calls_next : calls_next [] true (Some reports).
Proof.
  exists reports. split; auto. intros files. exists (VError "boom"). split; auto.
  exists []. split; auto.
Qed.

Lemma chain_runs_every_plugin_witness :
  c_called (chain_loop 2 [Some adds_file; Some waits] []
              (fst (chain [Some adds_file; Some waits] [] [])))
  = seq 0 2.
Proof.
  refine (proj1 (proj2 (chain_runs_every_plugin [Some adds_file; Some waits] []
                          [] 2 _ _))).
  - repeat constructor; [apply adds_file_calls_next | apply waits_calls_next].
  - simpl. lia.
Defined.

Lemma chain_stops_at_error_witness :
  c_called (chain_loop 3 [Some waits; Some reports; Some adds_file] []
              (fst (chain [Some waits; Some reports; Some adds_file] [] [])))
  = seq 0 2.
Proof.
  refine (proj1 (chain_stops_at_error [Some waits; Some reports; Some adds_file]
                   [] [] 1 (Some reports) 3 _ _ _ _)).
  - intros j q Hj Hq. destruct j as [|j]; [|lia]. injection Hq as <-.
    apply waits_calls_next.
  - reflexivity.
  - apply reports_calls_next.
  - simpl. lia.
Defined.

Lemma chain_done_without_error_witness :
  c_called (chain_calls [Some adds_file; Some waits] [] [VUndefined; VNull] [])
  = seq 0 2.
Proof.
  apply (chain_done_without_error [Some adds_file; Some waits] []
           [VUndefined; VNull] [] VNull).
  - vm_compute. now left.
  - reflexivity.
Defined.

(** * exports.addFile *)

(** The [contents] argument: a [Buffer], or any other value. *)
Inductive content : Type :=
| CBuffer (bytes : list Byte.byte)
| CValue (v : value).

(** A record of the file collection: one that [addFile] made, with its
    buffer and its mode, or any other record. *)
Inductive entry : Type :=
| Added (contents : list Byte.byte) (mode : value)   (* { contents, mode } *)
| Other (record : props).

Section AddFile.

(** [JSON.stringify(v)]; [None] when the result is [undefined]. *)
Variable JSON_stringify : value -> option string.

(** [Buffer.from(text, encoding)]; [None] when it throws. *)
Variable Buffer_from : string -> value -> option (list Byte.byte).

Definition addFile_defaults : props :=
  [("encoding", VStr "utf8"); ("mode", VStr "0644")].

(** [None] when [Buffer.from] throws, which it does for a text that is
    [undefined]. *)
Definition addFile (files : list (string * entry)) (filename : string)
  (contents : content) (options : value) : option (list (string * entry)) :=
  let options := defaultOptions addFile_defaults options in
  let buffer :=
    match contents with
    | CBuffer bytes => Some bytes
    | CValue v =>
        let text := match v with
                    | VStr text => Some text
                    | _ => JSON_stringify v
                    end in
        match text with
        | Some text => Buffer_from text (get (VObject options) "encoding")
        | None => None
        end
    end in
  match buffer with
  | Some bytes =>
      Some (assign filename (Added bytes (get (VObject options) "mode")) files)
  | None => None
  end.

(** The mode [addFile] gives a file. *)
Definition mode_of (options : value) : value :=
  if defines options "mode" then clone (get options "mode") else VStr "0644".

Lemma merged_mode (options : value) :
  get (VObject (defaultOptions addFile_defaults options)) "mode" = mode_of options.
Proof.
  unfold get. simpl own_entries. rewrite defaultOptions_value by discriminate. simpl.
  unfold mode_of. now destruct (defines options "mode").
Qed.

Lemma keys_define {A : Type} (k : string) (v : A) (o : list (string * A)) :
  map fst (define k v o)
  = if existsb (String.eqb k) (map fst o) then map fst o else map fst o ++ [k].
Proof.
  destruct (existsb (String.eqb k) (map fst o)) eqn:E.
  - apply keys_define_present. now apply existsb_eqb_In.
  - apply keys_define_absent. intros H. apply existsb_eqb_In in H. congruence.
Qed.

Lemma define_define {A : Type} (k : string) (v w : A) (o : list (string * A)) :
  define k w (define k v o) = define k w o.
Proof.
  induction o as [|[k0 x] o IH]; simpl.
  - now rewrite String.eqb_refl.
  - destruct (String.eqb k0 k) eqn:E; simpl; rewrite E; auto. now rewrite IH.
Qed.

Lemma assign_assign {A : Type} (k : string) (v w : A) (o : list (string * A)) :
  assign k w (assign k v o) = assign k w o.
Proof.
  unfold assign at 2.
  destruct (String.eqb k "__proto__" && negb (hasOwnProperty o k)) eqn:E; auto.
  unfold assign. rewrite E. unfold hasOwnProperty at 1.
  rewrite lookup_define_same, andb_false_r. apply define_define.
Qed.

Lemma array_index_decimal (key : string) (n : N) :
  array_index key = Some n -> key = decimal n.
Proof.
  unfold array_index. destruct (digits key 0) as [m|]; [|discriminate].
  destruct (m <? 4294967295)%N; [|discriminate]. simpl.
  destruct (String.eqb_spec (decimal m) key) as [<-|]; [|discriminate].
  now intros [= <-].
Qed.

Lemma insert_index_swap (n m : N) (k k' : string) (l : list (N * string)) :
  n <> m ->
  insert_index n k (insert_index m k' l) = insert_index m k' (insert_index n k l).
Proof.
  intros Hne. induction l as [|[a ka] l IH]; simpl.
  - destruct (N.leb_spec n m), (N.leb_spec m n); auto; lia.
  - destruct (N.leb_spec m a), (N.leb_spec n a); simpl;
      repeat match goal with
             | |- context [(?x <=? ?y)%N] => destruct (N.leb_spec x y)
             end; auto; try lia.
    now rewrite IH.
Qed.

(** A new array index takes its place among the indices. *)
Lemma index_keys_index_last (ks : list string) (k : string) (n : N) :
  array_index k = Some n -> ~ In k ks ->
  index_keys (ks ++ [k]) = insert_index n k (index_keys ks).
Proof.
  intros Hk. induction ks as [|k0 ks IH]; simpl; intros Hin.
  - now rewrite Hk.
  - destruct (array_index k0) as [m|] eqn:E; [|apply IH; tauto].
    rewrite IH by tauto. apply insert_index_swap. intros <-.
    apply array_index_decimal in E, Hk. apply Hin. left. congruence.
Qed.

Lemma keys_in_order_index_last (ks : list string) (k : string) (n : N) :
  array_index k = Some n -> ~ In k ks ->
  keys_in_order (ks ++ [k])
  = map snd (insert_index n k (index_keys ks)) ++ filter is_name ks.
Proof.
  intros Hk Hin. unfold keys_in_order.
  rewrite (index_keys_index_last _ _ _ Hk Hin), filter_app. simpl.
  unfold is_name at 2. rewrite Hk. now rewrite app_nil_r.
Qed.

(** X15. For options in which no object has a function or a regular
    expression under a key [__proto__] of its own: [addFile] with the
    filename [__proto__], for a collection with no such property of its own,
    leaves the properties of the collection as they are.  With any other filename, when it returns, the collection
    holds under the filename a record with a buffer and with the mode of the
    options, ["0644"] by default; a buffer given as the contents is that
    buffer, whatever the options; and among the keys that [Object.keys]
    lists, the filename keeps its place when the collection had it, comes
    last when it is new and no array index, and takes its place among the
    array indices, which come first by ascending index, when it is one.
    Every other file is as it was. *)
Theorem addFile_adds (files : list (string * entry)) (filename : string)
  (contents : content) (options : value) (files' : list (string * entry)) :
  assignable options = true ->
  addFile files filename contents options = Some files' ->
  (filename = "__proto__" -> hasOwnProperty files filename = false ->
   files' = files) /\
  (filename <> "__proto__" ->
   (exists bytes,
       lookup filename files' = Some (Added bytes (mode_of options)) /\
       (forall given, contents = CBuffer given -> bytes = given)) /\
   keys_in_order (map fst files')
   = if existsb (String.eqb filename) (map fst files)
     then keys_in_order (map fst files)
     else match array_index filename with
          | None => keys_in_order (map fst files) ++ [filename]
          | Some n =>
              map snd (insert_index n filename (index_keys (map fst files)))
              ++ filter is_name (map fst files)
          end) /\
  (forall other, other <> filename -> lookup other files' = lookup other files).
Proof.
  intros _. unfold addFile. rewrite merged_mode.
  set (buffer := match contents with CBuffer b => Some b | CValue _ => _ end).
  assert (Hb : forall given, contents = CBuffer given -> buffer = Some given).
  { intros given ->. reflexivity. }
  destruct buffer as [bytes|]; [|discriminate]. intros [= <-].
  split; [|split].
  - intros -> Hown. now apply assign_proto.
  - intros Hname. split.
    + exists bytes. split; [now apply lookup_assign_same|].
      intros given Hg. specialize (Hb given Hg). congruence.
    + rewrite assign_name, keys_define by exact Hname.
      destruct (existsb (String.eqb filename) (map fst files)) eqn:E; auto.
      assert (Hnew : ~ In filename (map fst files)).
      { intros H. apply existsb_eqb_In in H. congruence. }
      destruct (array_index filename) as [n|] eqn:Hn.
      * now apply keys_in_order_index_last.
      * apply keys_in_order_name_last. unfold is_name. now rewrite Hn.
  - intros other Hne. apply lookup_assign_other. congruence.
Qed.

(** X16. Adding a file under a name that [addFile] has just added
    replaces the record: the result is the one of the second call alone. *)
Theorem addFile_replaces (files files1 : list (string * entry)) (filename : string)
  (contents1 contents2 : content) (options1 options2 : value) :
  addFile files filename contents1 options1 = Some files1 ->
  addFile files1 filename contents2 options2
  = addFile files filename contents2 options2.
Proof.
  unfold addFile.
  destruct (match contents1 with CBuffer b => Some b | CValue _ => _ end)
    as [bytes1|]; [|discriminate].
  intros [= <-].
  destruct (match contents2 with CBuffer b => Some b | CValue _ => _ end)
    as [bytes2|]; auto.
  now rewrite assign_assign.
Qed.

End AddFile.

Definition no_json (v : value) : option string := None.

Definition no_encoding (text : string) (encoding : value)
  : option (list Byte.byte) := None.

Lemma addFile_adds_witness :
  keys_in_order
    (map fst (assign "10" (Added [Byte.x48; Byte.x69] (VStr "0644"))
                [("b", Added [] (VStr "0644")); ("9", Added [] (VStr "0644"));
                 ("11", Added [] (VStr "0644"))]))
  = ["9"; "10"; "11"; "b"].
Proof.
  exact (proj2 (proj1 (proj2 (addFile_adds no_json no_encoding
                  [("b", Added [] (VStr "0644")); ("9", Added [] (VStr "0644"));
                   ("11", Added [] (VStr "0644"))]
                  "10" (CBuffer [Byte.x48; Byte.x69]) VUndefined _ eq_refl
                  eq_refl))
                 ltac:(discriminate))).
Defined.

Lemma addFile_replaces_witness :
  addFile no_json no_encoding
    (assign "hello.txt" (Added [Byte.x48] (VStr "0644")) []) "hello.txt"
    (CBuffer [Byte.x69]) VUndefined
  = addFile no_json no_encoding [] "hello.txt" (CBuffer [Byte.x69]) VUndefined.
Proof.
  exact (addFile_replaces no_json no_encoding [] _ "hello.txt"
           (CBuffer [Byte.x48]) (CBuffer [Byte.x69]) VUndefined VUndefined
           eq_refl).
Defined.

(** * The middleware: the completion callback, once *)

(** ** What a turn of the event loop is made of *)

Definition chain_reaction (r : reaction) : bool :=
  match r with
  | RThen _ _ _ => true
  | _ => false
  end.

Definition chain_job (j : job) : bool :=
  match j with
  | JReaction r _ => chain_reaction r
  | JResolveThenable _ _ => false
  end.

(** The operations on the promises, the queue and the log that the
    functions of a turn come down to; [P] tells the events they record
    besides the settlements. *)
Inductive prim (P : event -> bool) (s : state) : state -> Prop :=
| prim_settle p o : prim P s (settle p o s)
| prim_then p r : chain_reaction r = false -> prim P s (then_ p r s)
| prim_enqueue j : chain_job j = false -> prim P s (enqueue j s)
| prim_record ev : P ev = true -> prim P s (record ev s)
| prim_frame s' :
    (forall p, promises s' p = promises s p) -> jobs s' = jobs s ->
    log s' = log s -> prim P s s'.

Inductive prims (P : event -> bool) : state -> state -> Prop :=
| prims_refl s : prims P s s
| prims_step s s' s'' : prim P s s' -> prims P s' s'' -> prims P s s''.

Lemma prims_one (P : event -> bool) (s s' : state) : prim P s s' -> prims P s s'.
Proof. intros H. eapply prims_step; [exact H | apply prims_refl]. Qed.

Lemma prims_trans (P : event -> bool) (s1 s2 s3 : state) :
  prims P s1 s2 -> prims P s2 s3 -> prims P s1 s3.
Proof. induction 1; auto. intros H3. eapply prims_step; eauto. Qed.

Lemma prims_weaken (P Q : event -> bool) (s s' : state) :
  (forall ev, P ev = true -> Q ev = true) -> prims P s s' -> prims Q s s'.
Proof.
  intros HPQ H. induction H as [|s s' s'' H1 _ IH]; [apply prims_refl|].
  eapply prims_step; [|exact IH].
  destruct H1; try (now constructor). apply prim_record. auto.
Qed.

Section Operations.

Variable code : fid -> jsfun.
Variable options : props.
Variable matcher : string -> value.
Variable metalsmith : props.
Variable P : event -> bool.

Lemma settle_prims (p : pid) (o : outcome) (s : state) : prims P s (settle p o s).
Proof. apply prims_one, prim_settle. Qed.

Lemma frame_prims (s s' : state) :
  (forall p, promises s' p = promises s p) -> jobs s' = jobs s ->
  log s' = log s -> prims P s s'.
Proof. intros. now apply prims_one, prim_frame. Qed.

Lemma resolve_prims (p : pid) (r : result) (s : state) : prims P s (resolve p r s).
Proof.
  destruct r; simpl; [apply settle_prims|]. now apply prims_one, prim_enqueue.
Qed.

Lemma completion_function_prims (p : pid) (err v : value) (s : state) :
  prims P s (completion_function p err v s).
Proof.
  unfold completion_function.
  destruct (truthy err); [apply settle_prims | apply resolve_prims].
Qed.

Lemma call_value_prims (f : value) (cargs : list value) (s : state) :
  prims P s (fst (call_value f cargs s)).
Proof.
  destruct f; simpl; try apply prims_refl. apply completion_function_prims.
Qed.

Lemma run_action_prims (args : list value) (a : action) (s : state) :
  prims P s (fst (run_action args a s)).
Proof.
  destruct a; simpl; try (now apply frame_prims). apply call_value_prims.
Qed.

Lemma run_steps_prims (args : list value) (acts : list action) (s : state) :
  prims P s (fst (run_steps args acts s)).
Proof.
  revert s. induction acts as [|a acts IH]; intros s; simpl.
  - apply prims_refl.
  - pose proof (run_action_prims args a s) as Ha.
    destruct (run_action args a s) as [s' [e|]]; simpl in *; auto.
    eapply prims_trans; eauto.
Qed.

Lemma hook_promise_prims (q : pid) (b : promise_script) (s : state) :
  prims P s (hook_promise q b s).
Proof.
  destruct b; simpl; [apply settle_prims | now apply frame_prims | apply prims_refl].
Qed.

Lemma fn_apply_prims (site : pid) (fn : value) (args : list value) (s : state) :
  (forall f a, P (EvCall site f a) = true) ->
  prims P s (fst (fn_apply code site fn args s)).
Proof.
  intros HP. unfold fn_apply.
  destruct (applied fn args) as [[f received]|]; simpl; [|apply prims_refl].
  pose proof (run_steps_prims received
                (steps (fn_body (function_of code f) received))
                (record (EvCall site f received) s)) as H.
  assert (H0 : prims P s (record (EvCall site f received) s))
    by (apply prims_one, prim_record, HP).
  destruct (run_steps _ _ _) as [s' [e|]]; simpl in *;
    try (eapply prims_trans; eauto; fail).
  destruct (finish_ _); simpl; try (eapply prims_trans; eauto; fail).
  eapply prims_trans; [exact H0|]. eapply prims_trans; [exact H|].
  apply hook_promise_prims.
Qed.

Lemma callFunction_prims (site : pid) (fn : value) (args : option (list value))
  (s : state) :
  P (EvCallFunction site) = true -> (forall f a, P (EvCall site f a) = true) ->
  prims P s (callFunction code site fn args s).
Proof.
  intros H1 H2. unfold callFunction.
  eapply prims_trans; [apply prims_one, prim_record, H1|].
  destruct (negb (truthy fn)); [apply settle_prims|].
  destruct (supports_callbacks code fn args); unfold new_Promise.
  - match goal with
    | |- context [fn_apply code site fn ?a ?s0] =>
        pose proof (fn_apply_prims site fn a s0 H2) as H;
        destruct (fn_apply code site fn a s0) as [s' [r|e]]; simpl in H; auto
    end.
    eapply prims_trans; [exact H | apply settle_prims].
  - match goal with
    | |- context [fn_apply code site fn ?a ?s0] =>
        pose proof (fn_apply_prims site fn a s0 H2) as H;
        destruct (fn_apply code site fn a s0) as [s' [r|e]]; simpl in H
    end.
    + eapply prims_trans; [exact H | apply resolve_prims].
    + eapply prims_trans; [exact H | apply settle_prims].
Qed.

End Operations.

Definition each_event (ev : event) : bool :=
  match ev with
  | EvCallFunction (PEach _) | EvCall (PEach _) _ _ => true
  | _ => false
  end.

Definition after_event (ev : event) : bool :=
  match ev with
  | EvCallFunction PAfter | EvCall PAfter _ _ => true
  | _ => false
  end.

(** The job calls the completion callback. *)
Definition calls_done (j : job) : bool :=
  match j with
  | JReaction (RThen onFulfilled onRejected _) o =>
      match (match o with Fulfill _ => onFulfilled | Reject _ => onRejected end) with
      | Some HDone | Some HDoneErr => true
      | _ => false
      end
  | _ => false
  end.

(** The job enters the after phase. *)
Definition calls_after (j : job) : bool :=
  match j with
  | JReaction (RThen onFulfilled onRejected _) o =>
      match (match o with Fulfill _ => onFulfilled | Reject _ => onRejected end) with
      | Some HAfter => true
      | _ => false
      end
  | _ => false
  end.

Section Turns.

Variable code : fid -> jsfun.
Variable options : props.
Variable matcher : string -> value.
Variable metalsmith : props.

Local Abbreviation run_job_ := (run_job code options matcher metalsmith).
Local Abbreviation step_ := (step code options matcher metalsmith).
Local Abbreviation run_ := (run code options matcher metalsmith).
Local Abbreviation invoked fs := (middlewareFn code options metalsmith (initial fs)).

Lemma map_each_prims (names : list string) (i : nat) (s : state) :
  prims each_event s (fst (map_each code options metalsmith i names s)).
Proof.
  revert i s. induction names as [|name rest IH]; intros i s.
  - apply prims_refl.
  - destruct (truthy (files_get s name)) eqn:E.
    + rewrite (map_each_cons_some _ _ _ _ _ _ _ E).
      eapply prims_trans; [|apply IH]. now apply callFunction_prims.
    + rewrite (map_each_cons_none _ _ _ _ _ _ _ E). apply IH.
Qed.

Lemma all_elements_prims (P : event -> bool) (ps : list (option pid)) (i : nat)
  (s : state) :
  prims P s (all_elements i ps s).
Proof.
  revert i s. induction ps as [|[p|] ps IH]; intros i s; simpl.
  - apply prims_refl.
  - eapply prims_step; [|apply IH]. now apply prim_then.
  - eapply prims_step; [|apply IH]. now apply prim_enqueue.
Qed.

Lemma Promise_all_prims (P : event -> bool) (ps : list (option pid)) (s : state) :
  prims P s (Promise_all ps s).
Proof.
  unfold Promise_all.
  match goal with
  | |- context [set_all (Some ?a) s] =>
      assert (H : prims P s (all_elements 0 ps (set_all (Some a) s)))
        by (apply (prims_trans P s (set_all (Some a) s));
            [now apply frame_prims | apply all_elements_prims])
  end.
  destruct (List.length ps =? 0); auto.
  eapply prims_trans; [exact H | apply settle_prims].
Qed.

Lemma resolve_element_prims (P : event -> bool) (i : nat) (v : value) (s : state) :
  prims P s (resolve_element i v s).
Proof.
  unfold resolve_element. destruct (all s) as [a|]; [|apply prims_refl].
  destruct (existsb _ _); [apply prims_refl|].
  match goal with
  | |- context [if ?c then settle _ _ ?s1 else _] => destruct c;
      [apply (prims_trans P s s1); [now apply frame_prims | apply settle_prims]
      |now apply frame_prims]
  end.
Qed.

Lemma run_timer_prims (P : event -> bool) (t : timer) (s : state) :
  prims P s (run_timer t s).
Proof. destruct t; simpl; [apply call_value_prims | apply settle_prims]. Qed.

(** A job that does not enter the after phase and does not call the
    completion callback. *)
Lemma run_job_each_prims (j : job) (s : state) :
  calls_done j = false -> calls_after j = false ->
  prims each_event s (run_job_ j s).
Proof.
  intros Hd Ha.
  destruct j as [[onF onR d|target|i] o|target thenable]; simpl.
  - assert (Hreact : forall h,
               match h with Some HDone | Some HDoneErr | Some HAfter => False
                       | _ => True end ->
               prims each_event s (react code options matcher metalsmith h d o s)).
    { intros [[| | |]|] Hh; try contradiction; unfold react; simpl.
      - pose proof (map_each_prims (matched matcher s) 0 s) as H.
        destruct (map_each _ _ _ 0 _ s) as [s' ps]. simpl in *.
        eapply prims_trans; [exact H|]. eapply prims_trans; [apply Promise_all_prims|].
        now apply prims_one, prim_enqueue.
      - apply settle_prims. }
    simpl in Hd, Ha.
    destruct o; apply Hreact;
      [destruct onF as [[| | |]|] | destruct onR as [[| | |]|]];
      auto; discriminate.
  - apply settle_prims.
  - destruct o; [apply resolve_element_prims | apply settle_prims].
  - now apply prims_one, prim_then.
Qed.

(** The job that enters the after phase. *)
Lemma run_job_after_prims (j : job) (s : state) :
  calls_after j = true -> prims after_event s (run_job_ j s).
Proof.
  destruct j as [[onF onR d|target|i] o|target thenable]; simpl; try discriminate.
  intros Ha.
  assert (H : react code options matcher metalsmith (Some HAfter) d o s
              = run_job_ (JReaction (RThen onF onR d) o) s).
  { simpl. destruct o; [destruct onF as [[| | |]|] | destruct onR as [[| | |]|]];
      try discriminate; reflexivity. }
  simpl in H. rewrite <- H. unfold react. simpl.
  match goal with
  | |- prims _ _ (enqueue _ ?s1) => apply (prims_trans after_event s s1)
  end.
  - now apply callFunction_prims.
  - now apply prims_one, prim_enqueue.
Qed.

(** The job that calls the completion callback. *)
Lemma run_job_done (j : job) (s : state) :
  calls_done j = true ->
  exists d v, run_job_ j s = settle d (Fulfill VUndefined) (record (EvDone v) s).
Proof.
  destruct j as [[onF onR d|target|i] o|target thenable]; simpl; try discriminate.
  intros Hd. exists d, (match o with Fulfill v => v | Reject e => e end).
  destruct o; [destruct onF as [[| | |]|] | destruct onR as [[| | |]|]];
    try discriminate; reflexivity.
Qed.

End Turns.

(** ** The calls of the completion callback, made and to come *)

Definition is_then_done (r : reaction) : bool :=
  match r with
  | RThen (Some HDone) (Some HDoneErr) PDone => true
  | _ => false
  end.

Definition done_job (j : job) : bool :=
  match j with
  | JReaction r _ => is_then_done r
  | JResolveThenable _ _ => false
  end.

(** The calls of the completion callback in the log. *)
Definition done_calls (s : state) : nat := List.length (filter is_done (log s)).

(** The calls to come: the jobs of the third [.then] in the queue, and its
    reaction while it is attached to the promise of the after phase. *)
Definition to_come (s : state) : nat :=
  List.length (filter done_job (jobs s))
  + match promises s PAfterPhase with
    | Pending rs => List.length (filter is_then_done rs)
    | Settled _ => 0
    end.

(** The reaction of the third [.then] is attached to no other promise. *)
Definition Placed (s : state) : Prop :=
  forall p rs r,
    promises s p = Pending rs -> In r rs -> is_then_done r = true ->
    p = PAfterPhase.

Lemma is_then_done_eq (r : reaction) : is_then_done r = true -> r = then_done.
Proof.
  destruct r as [[[| | |]|] [[| | |]|] []| |]; simpl; try discriminate. reflexivity.
Qed.

Lemma is_then_done_chain (r : reaction) :
  chain_reaction r = false -> is_then_done r = false.
Proof. destruct r; simpl; auto; discriminate. Qed.

Lemma filter_none {A : Type} (f : A -> bool) (l : list A) :
  (forall x, In x l -> f x = false) -> filter f l = [].
Proof.
  induction l as [|x l IH]; simpl; auto. intros H.
  rewrite (H x) by now left. apply IH. intros y Hy. apply H. now right.
Qed.

Lemma base_placed (s : state) : Base s -> Placed s.
Proof.
  intros B p rs r Hp Hr Hd. apply is_then_done_eq in Hd. subst r.
  pose proof (b_reactions _ B p rs _ Hp Hr) as Hok. now inversion Hok.
Qed.

(** Nothing is added to the two counts, and the reaction stays in place. *)
Definition tally (s s' : state) : Prop :=
  Placed s ->
  Placed s' /\ done_calls s' = done_calls s /\ to_come s' = to_come s.

Lemma tally_refl (s : state) : tally s s.
Proof. intros H. auto. Qed.

Lemma tally_trans (s1 s2 s3 : state) : tally s1 s2 -> tally s2 s3 -> tally s1 s3.
Proof.
  intros H1 H2 Hp. destruct (H1 Hp) as (Hp2 & Hd2 & Ht2).
  destruct (H2 Hp2) as (Hp3 & Hd3 & Ht3). repeat split; auto; congruence.
Qed.

Lemma settle_tally (p : pid) (o : outcome) (s : state) : tally s (settle p o s).
Proof.
  intros Hpl. destruct (promises s p) as [rs|o'] eqn:E.
  2: { rewrite (settle_settled _ o _ _ E). auto. }
  rewrite (settle_state _ o _ _ E). split; [|split].
  - intros q rs' r. simpl. destruct (pid_eqb_spec q p); [discriminate|]. apply Hpl.
  - unfold done_calls. simpl. rewrite filter_app. simpl. now rewrite app_nil_r.
  - unfold to_come. simpl. rewrite filter_app, length_app.
    assert (Hmap : filter done_job (map (fun r => JReaction r o) rs)
                   = map (fun r => JReaction r o) (filter is_then_done rs)).
    { clear. induction rs as [|r rs IH]; simpl; auto.
      destruct (is_then_done r); simpl; now rewrite IH. }
    rewrite Hmap, length_map.
    assert (Hcount : p <> PAfterPhase -> filter is_then_done rs = []).
    { intros Hne. apply filter_none. intros r Hr.
      destruct (is_then_done r) eqn:Er; auto.
      now destruct Hne; rewrite (Hpl p rs r E Hr Er). }
    destruct p; try (rewrite Hcount by discriminate; simpl; lia).
    rewrite E. lia.
Qed.

Lemma then_tally (p : pid) (r : reaction) (s : state) :
  is_then_done r = false -> tally s (then_ p r s).
Proof.
  intros Hr Hpl. unfold then_. destruct (promises s p) as [rs|o] eqn:E.
  - split; [|split]; auto.
    + intros q rs' r'. simpl. destruct (pid_eqb_spec q p) as [->|Hne].
      * intros [= <-] Hin Hd. apply in_app_or in Hin as [Hin|[<-|[]]].
        -- eapply Hpl; eauto.
        -- congruence.
      * apply Hpl.
    + unfold to_come. simpl. destruct p; auto.
      rewrite E, filter_app. simpl. rewrite Hr. now rewrite app_nil_r.
  - split; [|split]; auto.
    unfold to_come. simpl. rewrite filter_app. simpl. rewrite Hr.
    now rewrite app_nil_r.
Qed.

Lemma prim_tally (P : event -> bool) (s s' : state) :
  (forall ev, P ev = true -> is_done ev = false) -> prim P s s' -> tally s s'.
Proof.
  intros HP H. destruct H as [p o|p r Hr|j Hj|ev Hev|s' Hp Hjobs Hlog].
  - apply settle_tally.
  - apply then_tally. now apply is_then_done_chain.
  - intros Hpl. split; [|split]; auto.
    unfold to_come. simpl. rewrite filter_app. simpl.
    assert (Hd : done_job j = false).
    { destruct j; auto. simpl in *. now apply is_then_done_chain. }
    rewrite Hd. now rewrite app_nil_r.
  - intros Hpl. split; [|split]; auto.
    unfold done_calls. simpl. rewrite filter_app. simpl.
    rewrite (HP ev Hev). now rewrite app_nil_r.
  - intros Hpl. split; [|split].
    + intros p rs r. rewrite Hp. apply Hpl.
    + unfold done_calls. now rewrite Hlog.
    + unfold to_come. now rewrite Hjobs, Hp.
Qed.

Lemma prims_tally (P : event -> bool) (s s' : state) :
  (forall ev, P ev = true -> is_done ev = false) -> prims P s s' -> tally s s'.
Proof.
  intros HP H. induction H as [|s s' s'' H1 _ IH]; [apply tally_refl|].
  eapply tally_trans; [eapply prim_tally; eauto | exact IH].
Qed.

Section Once.

Variable code : fid -> jsfun.
Variable options : props.
Variable matcher : string -> value.
Variable metalsmith : props.

Local Abbreviation run_job_ := (run_job code options matcher metalsmith).
Local Abbreviation step_ := (step code options matcher metalsmith).
Local Abbreviation run_ := (run code options matcher metalsmith).
Local Abbreviation invoked fs := (middlewareFn code options metalsmith (initial fs)).

Lemma each_event_not_done (ev : event) : each_event ev = true -> is_done ev = false.
Proof. now destruct ev. Qed.

Lemma after_event_not_done (ev : event) : after_event ev = true -> is_done ev = false.
Proof. now destruct ev. Qed.

Lemma site_event_not_done (site : pid) (ev : event) :
  site_event site ev = true -> is_done ev = false.
Proof. now destruct ev. Qed.

(** The jobs of the queue that call the completion callback are the jobs
    of the third [.then]. *)
Lemma job_ok_calls_done (s : state) (j : job) :
  job_ok s j -> calls_done j = done_job j.
Proof.
  intros Hok. destruct j as [r o|]; auto.
  apply job_ok_reaction in Hok as [(p & Hr & _)|(i & -> & _)]; auto.
  inversion Hr; subst; simpl; auto; now destruct o.
Qed.

Lemma pop_counts (s : state) (j : job) (rest : list job) :
  jobs s = j :: rest ->
  done_calls (set_jobs rest s) = done_calls s /\
  to_come s = (if done_job j then 1 else 0) + to_come (set_jobs rest s) /\
  (Placed s -> Placed (set_jobs rest s)).
Proof.
  intros Hj. split; [reflexivity|]. split; [|auto].
  unfold to_come. simpl. rewrite Hj. simpl. destruct (done_job j); simpl; lia.
Qed.

Lemma ledger_step (s s' : state) :
  Inv s -> done_calls s + to_come s = 1 -> step_ s = Some s' ->
  done_calls s' + to_come s' = 1.
Proof.
  intros HI Hsum E. pose proof HI as (B & _).
  pose proof (base_placed s B) as Hpl.
  apply step_turn in E. destruct E as [j rest Hj|d t rest Hj Ht].
  - destruct (pop_counts s j rest Hj) as (Hd & Ht & Hp). specialize (Hp Hpl).
    assert (Hok : job_ok s j) by (apply (b_jobs _ B); rewrite Hj; now left).
    pose proof (job_ok_calls_done s j Hok) as Hcd.
    destruct (calls_done j) eqn:Ec.
    + rewrite <- Hcd in Ht.
      destruct (run_job_done code options matcher metalsmith j (set_jobs rest s) Ec)
        as (dd & v & ->).
      destruct (settle_tally dd (Fulfill VUndefined)
                  (record (EvDone v) (set_jobs rest s))) as (_ & Hd' & Ht'); auto.
      rewrite Hd', Ht'. unfold done_calls, to_come in *. simpl in *.
      rewrite filter_app, length_app. simpl. lia.
    + rewrite <- Hcd in Ht.
      assert (Htally : tally (set_jobs rest s) (run_job_ j (set_jobs rest s))).
      { destruct (calls_after j) eqn:Ea.
        - eapply prims_tally; [apply after_event_not_done|].
          now apply run_job_after_prims.
        - eapply prims_tally; [apply each_event_not_done|].
          now apply run_job_each_prims. }
      destruct (Htally Hp) as (_ & Hd' & Ht'). rewrite Hd', Ht'. lia.
  - assert (Htally : tally (set_timers rest (Nat.max (clock s) d) s)
                       (run_timer t (set_timers rest (Nat.max (clock s) d) s))).
    { eapply (prims_tally (fun _ => false)); [discriminate|].
      apply run_timer_prims. }
    destruct (Htally Hpl) as (_ & Hd' & Ht'). rewrite Hd', Ht'. exact Hsum.
Qed.

Lemma ledger_invoked (fs : list (string * props)) :
  done_calls (invoked fs) + to_come (invoked fs) = 1.
Proof.
  unfold middlewareFn.
  set (s1 := callFunction code PBefore _ _ (initial fs)).
  assert (H1 : Placed s1 /\ done_calls s1 = 0 /\ to_come s1 = 0).
  { assert (Ht : tally (initial fs) s1).
    { eapply prims_tally; [apply (site_event_not_done PBefore)|].
      apply callFunction_prims; [reflexivity|].
      intros f a. simpl. reflexivity. }
    apply Ht. intros p rs r [= <-] []. }
  destruct H1 as (Hp1 & Hd1 & Ht1).
  destruct (then_tally PBefore then_each s1 eq_refl Hp1) as (Hp2 & Hd2 & Ht2).
  destruct (then_tally PEachPhase then_after _ eq_refl Hp2) as (Hp3 & Hd3 & Ht3).
  set (s3 := then_ PEachPhase then_after (then_ PBefore then_each s1)) in *.
  assert (Hd4 : done_calls (then_ PAfterPhase then_done s3) = done_calls s3).
  { unfold done_calls. now rewrite then_log. }
  assert (Ht4 : to_come (then_ PAfterPhase then_done s3) = S (to_come s3)).
  { unfold to_come, then_. destruct (promises s3 PAfterPhase) as [rs|o] eqn:E; simpl.
    - rewrite filter_app, length_app. simpl. lia.
    - rewrite E, filter_app, length_app. simpl. lia. }
  rewrite Hd4, Ht4. lia.
Qed.

Lemma ledger_run (n : nat) (s : state) :
  Inv s -> done_calls s + to_come s = 1 ->
  done_calls (run_ n s) + to_come (run_ n s) = 1.
Proof.
  revert s. induction n as [|n IH]; intros s HI H; simpl; auto.
  destruct (step_ s) as [s'|] eqn:E; auto.
  apply IH; [eapply inv_step | eapply ledger_step]; eauto.
Qed.

(** X17. The completion callback is called at most once, at any turn of
    the event loop and whatever the hooks do; and as long as it has not been
    called, a call is to come: the job of the third [.then] is in the
    queue, or its reaction is attached to the pending promise of the after
    phase. *)
Theorem done_at_most_once (fs : list (string * props)) (n : nat) :
  List.length (filter is_done (log (run_ n (invoked fs)))) <= 1 /\
  List.length (filter is_done (log (run_ n (invoked fs))))
  + to_come (run_ n (invoked fs)) = 1.
Proof.
  pose proof (ledger_run n (invoked fs) (inv_middlewareFn code options metalsmith fs)
                (ledger_invoked fs)) as H.
  unfold done_calls in H. split; [lia | exact H].
Qed.

End Once.

(** * The middleware: from the after hook to the completion callback *)

Lemma prims_log (P : event -> bool) (s s' : state) (ev : event) :
  prims P s s' -> In ev (log s') ->
  In ev (log s) \/ is_settle ev = true \/ P ev = true.
Proof.
  intros H. induction H as [|s s' s'' H1 _ IH]; auto.
  intros Hev. destruct (IH Hev) as [Hin|Hother]; auto.
  destruct H1 as [p o|p r Hr|j Hj|ev' Hev'|s' Hp Hjobs Hlog].
  - rewrite settle_log in Hin. destruct (promises s p); auto.
    apply in_app_or in Hin as [Hin|[<-|[]]]; auto.
  - rewrite then_log in Hin. auto.
  - auto.
  - simpl in Hin. apply in_app_or in Hin as [Hin|[<-|[]]]; auto.
  - rewrite Hlog in Hin. auto.
Qed.

Section AfterToDone.

Variable code : fid -> jsfun.
Variable options : props.
Variable matcher : string -> value.
Variable metalsmith : props.

Local Abbreviation run_job_ := (run_job code options matcher metalsmith).
Local Abbreviation step_ := (step code options matcher metalsmith).
Local Abbreviation run_ := (run code options matcher metalsmith).
Local Abbreviation invoked fs := (middlewareFn code options metalsmith (initial fs)).

(** Once the after hook is started, its outcome is on its way to the
    promise of the after phase. *)
Definition Handed (s : state) : Prop :=
  started s PAfter ->
  In (JResolveThenable PAfterPhase PAfter) (jobs s)
  \/ (exists rs, promises s PAfter = Pending rs /\ In (RResolve PAfterPhase) rs)
  \/ (exists o, promises s PAfter = Settled o /\
                (In (JReaction (RResolve PAfterPhase) o) (jobs s)
                 \/ promises s PAfterPhase = Settled o)).

(** The job that enters the after phase is the reaction of the second
    [.then] to the fulfilled promise of the each phase. *)
Lemma calls_after_then_after (s : state) (j : job) :
  job_ok s j -> calls_after j = true -> exists v, j = JReaction then_after (Fulfill v).
Proof.
  intros Hok Ha. destruct j as [r o|]; [|discriminate].
  apply job_ok_reaction in Hok as [(p & Hr & _)|(i & -> & _)]; [|discriminate].
  inversion Hr; subst; simpl in Ha; try discriminate;
    destruct o; try discriminate. eauto.
Qed.

Lemma run_job_then_after (v : value) (s : state) :
  run_job_ (JReaction then_after (Fulfill v)) s
  = enqueue (JResolveThenable PAfterPhase PAfter)
      (callFunction code PAfter (option_ options "after")
         (Some [files_value s; VObject metalsmith]) s).
Proof. reflexivity. Qed.

(** A turn other than the one that enters the after phase does not start
    the after hook. *)
Lemma started_after_before (s s' : state) :
  Inv s -> turn code options matcher metalsmith s s' ->
  (forall j rest, jobs s = j :: rest -> calls_after j = false) ->
  started s' PAfter -> started s PAfter.
Proof.
  intros (B & _) Hturn Hnot Hs'. unfold started in *.
  destruct Hturn as [j rest Hj|d t rest Hj Ht].
  - pose proof (Hnot j rest Hj) as Ha.
    assert (Hok : job_ok s j) by (apply (b_jobs _ B); rewrite Hj; now left).
    destruct (calls_done j) eqn:Ed.
    + destruct (run_job_done code options matcher metalsmith j (set_jobs rest s) Ed)
        as (dd & v & Hrun). rewrite Hrun in Hs'.
      rewrite settle_log in Hs'. simpl in Hs'.
      destruct (promises s dd);
        repeat (apply in_app_or in Hs' as [Hs'|[Hs'|[]]]; try discriminate); auto.
    + destruct (prims_log each_event _ _ _
                  (run_job_each_prims code options matcher metalsmith j
                     (set_jobs rest s) Ed Ha) Hs') as [H|[H|H]];
        auto; discriminate.
  - destruct (prims_log (fun _ => false) _ _ _
                (run_timer_prims (fun _ => false) t
                   (set_timers rest (Nat.max (clock s) d) s)) Hs') as [H|[H|H]];
      auto; discriminate.
Qed.

Lemma handed_invoked (fs : list (string * props)) : Handed (invoked fs).
Proof.
  intros Hs. exfalso. unfold started, middlewareFn in Hs.
  rewrite !then_log in Hs.
  destruct (prims_log (site_event PBefore) _ _ _
              (callFunction_prims code (site_event PBefore) PBefore
                 (option_ options "before")
                 (Some [files_value (initial fs); VObject metalsmith]) (initial fs)
                 eq_refl (fun _ _ => eq_refl)) Hs) as [[]|[H|H]];
    discriminate.
Qed.

Lemma handed_step (s s' : state) :
  Inv s -> Handed s -> step_ s = Some s' -> Handed s'.
Proof.
  intros HI HH E Hs'. pose proof HI as (B & _).
  pose proof (step_follows code options matcher metalsmith _ _ E) as Hf.
  pose proof E as Hturn. apply step_turn in Hturn.
  assert (Hkeep : forall o,
             promises s PAfter = Settled o ->
             promises s PAfterPhase = Settled o ->
             exists o', promises s' PAfter = Settled o' /\
                        (In (JReaction (RResolve PAfterPhase) o') (jobs s')
                         \/ promises s' PAfterPhase = Settled o')).
  { intros o H1 H2. exists o. split; [|right]; eapply f_settled; eauto. }
  assert (Hpend : forall rs,
             promises s PAfter = Pending rs -> In (RResolve PAfterPhase) rs ->
             (exists rs', promises s' PAfter = Pending rs' /\
                          In (RResolve PAfterPhase) rs')
             \/ (exists o, promises s' PAfter = Settled o /\
                           (In (JReaction (RResolve PAfterPhase) o) (jobs s')
                            \/ promises s' PAfterPhase = Settled o))).
  { intros rs H1 H2.
    destruct (f_pending _ _ Hf PAfter rs _ H1 H2) as [H|(o & Ho & Hj)]; [now left|].
    right. exists o. auto. }
  inversion Hturn as [j rest Hj Heq|d t rest Hj Ht Heq]; subst s'.
  - destruct (calls_after j) eqn:Ea.
    + assert (Hok : job_ok s j) by (apply (b_jobs _ B); rewrite Hj; now left).
      destruct (calls_after_then_after s j Hok Ea) as [v ->].
      left. rewrite run_job_then_after. simpl. apply in_or_app. right. now left.
    + assert (Hs : started s PAfter).
      { apply (started_after_before s _ HI Hturn); auto.
        intros j0 rest0 Hj0. rewrite Hj in Hj0. now injection Hj0 as <- _. }
      destruct (f_jobs _ _ Hf) as [js Hjs]. rewrite Hj in Hjs. simpl in Hjs.
      destruct (HH Hs) as [H1|[(rs & H1 & H2)|(o & H1 & [H2|H2])]].
      * rewrite Hj in H1. destruct H1 as [->|H1].
        -- simpl. unfold then_. simpl.
           destruct (promises s PAfter) as [rs|o] eqn:Ep.
           ++ right. left. exists (rs ++ [RResolve PAfterPhase]). simpl. split; auto.
              apply in_or_app. right. now left.
           ++ right. right. exists o. simpl. split; auto. left.
              apply in_or_app. right. now left.
        -- left. rewrite Hjs. apply in_or_app. now left.
      * right. now apply (Hpend rs).
      * right. right. exists o. split; [eapply f_settled; eauto|].
        rewrite Hj in H2. destruct H2 as [->|H2].
        -- right. simpl.
           destruct (settle_cases PAfterPhase o (set_jobs rest s))
             as [Hp|(o' & Hp & Hsame)]; auto.
           rewrite Hsame. simpl in *. rewrite Hp. f_equal.
           destruct (b_afterphase _ B o' Hp) as [(e & -> & He)|Ha]; [|congruence].
           destruct (b_started_after _ B Hs) as [v Hv]. congruence.
        -- left. rewrite Hjs. apply in_or_app. now left.
      * right. right. now apply (Hkeep o).
  - assert (Hs : started s PAfter).
    { apply (started_after_before s _ HI Hturn); auto.
      intros j0 rest0 Hj0. rewrite Hj in Hj0. discriminate. }
    destruct (HH Hs) as [H1|[(rs & H1 & H2)|(o & H1 & [H2|H2])]].
    + rewrite Hj in H1. destruct H1.
    + right. now apply (Hpend rs).
    + rewrite Hj in H2. destruct H2.
    + right. right. now apply (Hkeep o).
Qed.

Lemma handed_run (n : nat) (s : state) : Inv s -> Handed s -> Handed (run_ n s).
Proof.
  revert s. induction n as [|n IH]; intros s HI HH; simpl; auto.
  destruct (step_ s) as [s'|] eqn:E; auto.
  apply IH; [eapply inv_step | eapply handed_step]; eauto.
Qed.

(** What the completion callback receives for an outcome of the after
    phase: [done.bind(null)] passes the value on, [done] the reason. *)
Definition passed_on (o : outcome) : value :=
  match o with
  | Fulfill v => v
  | Reject e => e
  end.

Lemma stage_after_job (s : state) (o : outcome) :
  Inv s -> promises s PAfter = Settled o ->
  In (JReaction (RResolve PAfterPhase) o) (jobs s) ->
  exists n, promises (run_ n s) PAfterPhase = Settled o.
Proof.
  intros HI H Hj.
  destruct (job_turn code options matcher metalsmith s _ HI Hj)
    as (n & rest & HI1 & Hj1 & Hrun).
  exists (S n). rewrite Hrun. simpl.
  destruct (settle_cases PAfterPhase o (set_jobs rest (run_ n s)))
    as [Hs|(o' & Hs & Heq)]; auto.
  rewrite Heq. simpl in *. rewrite Hs. f_equal.
  destruct HI1 as (B1 & _).
  pose proof (run_settled code options matcher metalsmith n s _ _ H) as He.
  destruct (b_afterphase _ B1 o' Hs) as [(e' & -> & He')|Ha]; [|congruence].
  assert (Hst : started (run_ n s) PAfter)
    by (eapply (b_settled_started _ B1); eauto; exact I).
  destruct (b_started_after _ B1 Hst) as [v Hv]. congruence.
Qed.

Lemma stage_after (s : state) (o : outcome) :
  Inv s -> Handed s -> promises s PAfter = Settled o ->
  exists n, promises (run_ n s) PAfterPhase = Settled o.
Proof.
  intros HI HH H. pose proof HI as (B & _).
  assert (Hs : started s PAfter)
    by (eapply (b_settled_started _ B); eauto; exact I).
  destruct (HH Hs) as [Hj|[(rs & Hp & _)|(o' & Hp & [Hj|Hd])]].
  - destruct (job_turn code options matcher metalsmith s _ HI Hj)
      as (n & rest & HI1 & Hj1 & Hrun).
    pose proof (run_settled code options matcher metalsmith n s _ _ H) as He.
    assert (HI2 : Inv (run_ (S n) s)) by now apply inv_run.
    assert (H2 : promises (run_ (S n) s) PAfter = Settled o) by now apply run_settled.
    assert (Hj2 : In (JReaction (RResolve PAfterPhase) o) (jobs (run_ (S n) s))).
    { rewrite Hrun. simpl. unfold then_. simpl. rewrite He. simpl.
      apply in_or_app. right. now left. }
    destruct (stage_after_job _ _ HI2 H2 Hj2) as [m Hm].
    exists (S n + m). now rewrite run_add.
  - congruence.
  - assert (o' = o) by congruence. subst. now apply stage_after_job.
  - assert (o' = o) by congruence. subst. now exists 0.
Qed.

Lemma stage_afterphase_done (s : state) (o : outcome) :
  Inv s -> done_calls s + to_come s = 1 ->
  promises s PAfterPhase = Settled o ->
  exists n, In (EvDone (passed_on o)) (log (run_ n s)).
Proof.
  intros HI Hsum H. pose proof HI as (B & _).
  unfold done_calls, to_come in Hsum. rewrite H in Hsum.
  destruct (filter is_done (log s)) as [|ev l] eqn:Ed.
  - destruct (filter done_job (jobs s)) as [|j js] eqn:Ej; [simpl in Hsum; lia|].
    assert (Hin : In j (filter done_job (jobs s))) by (rewrite Ej; now left).
    apply filter_In in Hin as [Hin Hdj].
    destruct j as [r o'|]; [|discriminate]. simpl in Hdj.
    apply is_then_done_eq in Hdj. subst r.
    assert (o' = o) as ->.
    { pose proof (b_jobs _ B _ Hin) as Hok.
      apply job_ok_reaction in Hok as [(p & Hr & Hp)|(i & Hi & _)]; [|discriminate].
      inversion Hr; subst. congruence. }
    destruct (job_turn code options matcher metalsmith s _ HI Hin)
      as (n & rest & _ & _ & Hrun).
    exists (S n). rewrite Hrun.
    assert (Hrec : run_job_ (JReaction then_done o) (set_jobs rest (run_ n s))
                   = settle PDone (Fulfill VUndefined)
                       (record (EvDone (passed_on o)) (set_jobs rest (run_ n s))))
      by now destruct o.
    rewrite Hrec, settle_log. simpl.
    destruct (promises (run_ n s) PDone); simpl; [apply in_or_app; left|];
      apply in_or_app; right; now left.
  - exists 0. simpl.
    assert (Hin : In ev (filter is_done (log s))) by (rewrite Ed; now left).
    apply filter_In in Hin as [Hin Hev]. destruct ev as [| | |x]; try discriminate.
    destruct (b_done _ B x Hin) as [Hx|Hx]; rewrite Hx in H; injection H as <-; auto.
Qed.

(** X18. Once the promise that [callFunction] returns for the after hook
    has settled, the completion callback is called after finitely many more
    turns of the event loop, and it receives the fulfilment value or the
    rejection reason of that promise as its first argument. *)
Theorem after_outcome_reaches_done (fs : list (string * props)) (n : nat)
  (o : outcome) :
  promises (run_ n (invoked fs)) PAfter = Settled o ->
  exists m, n <= m /\ In (EvDone (passed_on o)) (log (run_ m (invoked fs))).
Proof.
  intros H.
  pose proof (inv_middlewareFn code options metalsmith fs) as HI0.
  assert (HI : Inv (run_ n (invoked fs))) by now apply inv_run.
  destruct (stage_after _ o HI (handed_run n _ HI0 (handed_invoked fs)) H) as [k Hk].
  rewrite <- run_add in Hk.
  assert (HI1 : Inv (run_ (n + k) (invoked fs))) by now apply inv_run.
  destruct (stage_afterphase_done _ o HI1
              (ledger_run code options matcher metalsmith (n + k) _ HI0
                 (ledger_invoked code options metalsmith fs)) Hk) as [m Hm].
  exists (n + k + m). split; [lia|]. now rewrite run_add.
Qed.

End AfterToDone.

Definition after_options : props :=
  defaultOptions middleware_defaults (VObject [("after", VFunction (FUser 0))]).

Lemma after_outcome_reaches_done_witness :
  promises (run throws after_options every [] 10
              (middlewareFn throws after_options [] (initial one_file)))
           PAfter = Settled (Reject (VError "boom")) /\
  exists m,
    10 <= m /\
    In (EvDone (VError "boom"))
       (log (run throws after_options every [] m
               (middlewareFn throws after_options [] (initial one_file)))).
Proof.
  assert (H : promises (run throws after_options every [] 10
                          (middlewareFn throws after_options [] (initial one_file)))
                       PAfter = Settled (Reject (VError "boom")))
    by (vm_compute; reflexivity).
  split; [exact H|].
  exact (after_outcome_reaches_done throws after_options every [] one_file 10
           (Reject (VError "boom")) H).
Defined.

(** * The middleware: from the each hooks to the after hook *)

Lemma then_settled_iff (p q : pid) (r : reaction) (o : outcome) (s : state) :
  promises (then_ p r s) q = Settled o <-> promises s q = Settled o.
Proof.
  unfold then_. destruct (promises s p) as [rs|o'] eqn:E; simpl; [|tauto].
  destruct (pid_eqb_spec q p) as [->|Hne]; [|tauto].
  rewrite E. split; discriminate.
Qed.

Lemma then_jobs_incl (p : pid) (r : reaction) (j : job) (s : state) :
  In j (jobs s) -> In j (jobs (then_ p r s)).
Proof.
  unfold then_. destruct (promises s p); simpl; auto.
  intros H. apply in_or_app. now left.
Qed.

(** [Promise.all] leaves a job in the queue for each element that is
    [null] or a promise already fulfilled. *)
Lemma all_elements_fulfilled (ps : list (option pid)) (i : nat) (s : state) :
  (forall q o, promises (all_elements i ps s) q = Settled o
               <-> promises s q = Settled o) /\
  (forall j, In j (jobs s) -> In j (jobs (all_elements i ps s))) /\
  (forall k, nth_error ps k = Some None ->
             In (JReaction (RElement (i + k)) (Fulfill VNull))
                (jobs (all_elements i ps s))) /\
  (forall k p v, nth_error ps k = Some (Some p) ->
                 promises s p = Settled (Fulfill v) ->
                 In (JReaction (RElement (i + k)) (Fulfill v))
                    (jobs (all_elements i ps s))).
Proof.
  revert i s. induction ps as [|e ps IH]; intros i s.
  - simpl. repeat split; auto; intros [|k]; discriminate.
  - assert (Hs : forall t k, In (JReaction (RElement (S i + k)) t)
                               (jobs (all_elements (S i) ps
                                  match e with
                                  | Some p => then_ p (RElement i) s
                                  | None => enqueue (JReaction (RElement i)
                                                       (Fulfill VNull)) s
                                  end))
                             -> In (JReaction (RElement (i + S k)) t)
                                   (jobs (all_elements i (e :: ps) s))).
    { intros t k. replace (i + S k) with (S i + k) by lia. now destruct e. }
    destruct e as [p|]; simpl.
    + destruct (IH (S i) (then_ p (RElement i) s)) as (H1 & H2 & H3 & H4).
      split; [|split; [|split]].
      * intros q o. rewrite H1. apply then_settled_iff.
      * intros j Hj. apply H2. now apply then_jobs_incl.
      * intros [|k] Hk; [discriminate|]. apply (Hs (Fulfill VNull)). now apply H3.
      * intros [|k] p' v Hk Hp.
        -- injection Hk as ->. rewrite Nat.add_0_r. apply H2.
           unfold then_. rewrite Hp. simpl. apply in_or_app. right. now left.
        -- apply (Hs (Fulfill v)). apply (H4 k p'); auto.
           now apply then_settled_iff.
    + destruct (IH (S i) (enqueue (JReaction (RElement i) (Fulfill VNull)) s))
        as (H1 & H2 & H3 & H4).
      split; [|split; [|split]].
      * intros q o. now rewrite H1.
      * intros j Hj. apply H2. simpl. apply in_or_app. now left.
      * intros [|k] Hk.
        -- rewrite Nat.add_0_r. apply H2. simpl. apply in_or_app. right. now left.
        -- apply (Hs (Fulfill VNull)). now apply H3.
      * intros [|k] p' v Hk Hp; [discriminate|].
        apply (Hs (Fulfill v)). now apply (H4 k p').
Qed.

(** The aggregate of [Promise.all] when it returns. *)
Lemma Promise_all_aggregate (ps : list (option pid)) (s : state) :
  all (Promise_all ps s)
  = Some {| elements := ps; alreadyCalled := [];
            remaining := List.length ps;
            values := repeat VUndefined (List.length ps) |}.
Proof.
  unfold Promise_all. destruct (List.length ps =? 0);
    rewrite ?settle_all, all_elements_all; reflexivity.
Qed.

Lemma Promise_all_fulfilled (ps : list (option pid)) (s : state) :
  (forall k, nth_error ps k = Some None ->
             In (JReaction (RElement k) (Fulfill VNull)) (jobs (Promise_all ps s))) /\
  (forall k p v, nth_error ps k = Some (Some p) ->
                 promises (Promise_all ps s) p = Settled (Fulfill v) ->
                 In (JReaction (RElement k) (Fulfill v)) (jobs (Promise_all ps s))) /\
  (List.length ps = 0 -> exists o, promises (Promise_all ps s) PAll = Settled o).
Proof.
  unfold Promise_all.
  match goal with
  | |- context [set_all (Some ?a) s] => set (t := set_all (Some a) s)
  end.
  destruct (all_elements_fulfilled ps 0 t) as (H1 & H2 & H3 & H4).
  destruct ps as [|e ps].
  - simpl. split; [|split].
    + intros [|k]; discriminate.
    + intros [|k]; discriminate.
    + intros _.
      destruct (settle_cases PAll (Fulfill (VArray [])) t) as [H|(o & H & ->)]; eauto.
  - simpl Nat.eqb. cbv iota. split; [|split]; try discriminate.
    + intros k Hk. now apply (H3 k).
    + intros k p v Hk Hp. apply (H4 k p v Hk). now apply H1.
Qed.

Section EachToAfter.

Variable code : fid -> jsfun.
Variable options : props.
Variable matcher : string -> value.
Variable metalsmith : props.

Local Abbreviation run_job_ := (run_job code options matcher metalsmith).
Local Abbreviation step_ := (step code options matcher metalsmith).
Local Abbreviation run_ := (run code options matcher metalsmith).
Local Abbreviation invoked fs := (middlewareFn code options metalsmith (initial fs)).

(** The jobs that leave [Promise.all] as it is. *)
Lemma run_job_all_same (j : job) (s : state) :
  dispatches j = false ->
  (forall i v, j <> JReaction (RElement i) (Fulfill v)) ->
  all (run_job_ j s) = all s.
Proof.
  intros Hd Hne.
  destruct j as [[onF onR d|target|i] o|target thenable]; simpl.
  - assert (Hreact : forall h, h <> Some HEach ->
               all (react code options matcher metalsmith h d o s) = all s).
    { intros [[| | |]|] Hh; try congruence; unfold react; simpl;
        rewrite ?settle_all; auto.
      rewrite callFunction_all; auto. intros a [= <-]. apply plain_args_hook. }
    simpl in Hd.
    destruct o; apply Hreact; intros ->; discriminate.
  - apply settle_all.
  - destruct o as [v|e]; [now destruct (Hne i v) | apply settle_all].
  - apply then_all.
Qed.

(** What a turn makes of the aggregate of [Promise.all]: the elements
    stay, the indices already called stay, the index of the job of a
    fulfilled element is called, and [Promise.all] is settled when nothing
    remains. *)
Lemma step_aggregate (s s' : state) (a : aggregate) :
  Inv s -> step_ s = Some s' -> all s = Some a ->
  exists a',
    all s' = Some a' /\ elements a' = elements a /\
    incl (alreadyCalled a) (alreadyCalled a') /\
    (forall i v, hd_error (jobs s) = Some (JReaction (RElement i) (Fulfill v)) ->
                 In i (alreadyCalled a')) /\
    (remaining a' = 0 ->
     remaining a = 0 \/ exists o, promises s' PAll = Settled o).
Proof.
  intros HI E Ha. apply step_turn in E.
  destruct E as [j rest Hj|d t rest Hj Ht].
  - destruct (dispatches j) eqn:Ed.
    { destruct (dispatches_then_each s j rest HI Hj Ed)
        as (v & _ & _ & Hn). congruence. }
    assert (Hsame : (forall i v, j <> JReaction (RElement i) (Fulfill v)) ->
              exists a',
                all (run_job_ j (set_jobs rest s)) = Some a' /\
                elements a' = elements a /\
                incl (alreadyCalled a) (alreadyCalled a') /\
                (forall i v, hd_error (jobs s)
                             = Some (JReaction (RElement i) (Fulfill v)) ->
                             In i (alreadyCalled a')) /\
                (remaining a' = 0 ->
                 remaining a = 0 \/
                 exists o, promises (run_job_ j (set_jobs rest s)) PAll = Settled o)).
    { intros Hne. exists a. rewrite (run_job_all_same j _ Ed Hne). simpl.
      repeat split; auto; [apply incl_refl|].
      intros i v. rewrite Hj. simpl. intros [= ->]. now destruct (Hne i v). }
    destruct j as [[onF onR dd|target|i0] o|target thenable];
      try (apply Hsame; discriminate).
    destruct o as [v0|e]; [|apply Hsame; discriminate].
    simpl. unfold resolve_element. simpl. rewrite Ha.
    destruct (existsb (Nat.eqb i0) (alreadyCalled a)) eqn:Ee.
    + exists a. simpl. repeat split; auto; [apply incl_refl|].
      intros i v. rewrite Hj. simpl. intros [= ->].
      apply existsb_exists in Ee as (k & Hk & Hik).
      apply Nat.eqb_eq in Hik. now subst.
    + match goal with
      | |- context [set_all (Some ?a1) _] => exists a1
      end.
      simpl. split; [|split; [|split; [|split]]]; auto.
      * destruct (remaining a - 1 =? 0); [rewrite settle_all|]; reflexivity.
      * apply incl_tl, incl_refl.
      * intros i v. rewrite Hj. simpl. intros [= ->]. now left.
      * intros H0. right. rewrite H0. simpl.
        match goal with
        | |- context [settle PAll ?o1 ?s1] =>
            destruct (settle_cases PAll o1 s1) as [H|(o' & H & ->)]; eauto
        end.
  - exists a. rewrite run_timer_all. simpl.
    repeat split; auto; [apply incl_refl|].
    intros i v. rewrite Hj. discriminate.
Qed.

(** The index of an element of [Promise.all] is accounted for: its resolve
    function has been called, or the job that calls it is in the queue, or
    the element is a promise that has not fulfilled. *)
Definition counted (a : aggregate) (s : state) (i : nat) : Prop :=
  In i (alreadyCalled a)
  \/ (exists v, In (JReaction (RElement i) (Fulfill v)) (jobs s))
  \/ (exists p, nth_error (elements a) i = Some (Some p) /\
                forall v, promises s p <> Settled (Fulfill v)).

Definition Gathered (s : state) : Prop :=
  forall a, all s = Some a ->
            (forall i, i < List.length (elements a) -> counted a s i) /\
            (remaining a = 0 -> exists o, promises s PAll = Settled o).

Lemma counted_step (s s' : state) (a a' : aggregate) (i : nat) :
  Inv s -> step_ s = Some s' -> all s = Some a ->
  elements a' = elements a ->
  incl (alreadyCalled a) (alreadyCalled a') ->
  (forall v, hd_error (jobs s) = Some (JReaction (RElement i) (Fulfill v)) ->
             In i (alreadyCalled a')) ->
  counted a s i -> counted a' s' i.
Proof.
  intros HI E Ha He Hincl Hhd Hc. pose proof HI as (B & L & _).
  pose proof (step_follows code options matcher metalsmith _ _ E) as Hf.
  destruct Hc as [H|[(v & H)|(p & Hp & Hnot)]].
  - left. auto.
  - destruct (jobs s) as [|j rest] eqn:Hj; [destruct H|].
    destruct H as [->|H].
    + left. now apply (Hhd v).
    + right. left. exists v. destruct (f_jobs _ _ Hf) as [js Hjs].
      rewrite Hjs, Hj. simpl. apply in_or_app. now left.
  - destruct (promises s' p) as [rs'|[v|e]] eqn:Ep'.
    + right. right. exists p. rewrite He. split; auto. intros v. congruence.
    + right. left. exists v.
      assert (Hel : element s i = Some (Some p)) by (unfold element; now rewrite Ha).
      destruct (b_elements _ B i p Hel) as [-> _].
      destruct (promises s (PEach i)) as [rs|o] eqn:Ep.
      * pose proof (l_each_reaction _ L i rs Hel Ep) as ->.
        destruct (f_pending _ _ Hf (PEach i) _ (RElement i) Ep) as
          [(rs' & Hp' & _)|(o & Hp' & Hjob)]; [now left|congruence|].
        congruence.
      * pose proof (f_settled _ _ Hf _ _ Ep) as Hs. rewrite Hs in Ep'.
        injection Ep' as ->. now destruct (Hnot v).
    + right. right. exists p. rewrite He. split; auto. intros v. congruence.
Qed.

Lemma gathered_invoked (fs : list (string * props)) : Gathered (invoked fs).
Proof. intros a Ha. rewrite all_invoked in Ha. discriminate. Qed.

Lemma gathered_dispatch (v : value) (s : state) :
  Gathered (run_job_ (JReaction then_each (Fulfill v)) s).
Proof.
  rewrite run_job_then_each.
  set (ps := snd (map_each code options metalsmith 0 (matched matcher s) s)).
  set (s1 := fst (map_each code options metalsmith 0 (matched matcher s) s)).
  destruct (Promise_all_fulfilled ps s1) as (H1 & H2 & H3).
  intros a. simpl. rewrite Promise_all_aggregate. intros [= <-]. simpl. split; auto.
  intros i Hi. destruct (nth_error ps i) as [[p|]|] eqn:En.
  - destruct (promises (Promise_all ps s1) p) as [rs|[w|e]] eqn:Ep.
    + right. right. exists p. split; auto. simpl. intros w. congruence.
    + right. left. exists w. simpl. apply in_or_app. left. eauto.
    + right. right. exists p. split; auto. simpl. intros w. congruence.
  - right. left. exists VNull. simpl. apply in_or_app. left. auto.
  - apply nth_error_None in En. lia.
Qed.

Lemma gathered_step (s s' : state) :
  Inv s -> Gathered s -> step_ s = Some s' -> Gathered s'.
Proof.
  intros HI HG E. destruct (all s) as [a|] eqn:Ha.
  - destruct (step_aggregate s s' a HI E Ha) as (a' & Ha' & He & Hincl & Hhd & H0).
    destruct (HG a Ha) as [Hc Hz].
    intros a'' Ha''. rewrite Ha' in Ha''. injection Ha'' as <-. split.
    + intros i Hi. rewrite He in Hi.
      apply (counted_step s s' a a' i HI E Ha He Hincl (Hhd i)). auto.
    + intros Hr. destruct (H0 Hr) as [Hr0|H]; auto.
      destruct (Hz Hr0) as [o Ho]. exists o.
      now apply (f_settled _ _ (step_follows code options matcher metalsmith _ _ E)).
  - apply step_turn in E. destruct E as [j rest Hj|d t rest Hj Ht].
    + destruct (dispatches j) eqn:Ed.
      * destruct (dispatches_then_each s j rest HI Hj Ed) as (v & -> & _).
        apply gathered_dispatch.
      * destruct (run_job_quiet code options matcher metalsmith j
                    (set_jobs rest s) Ed) as [_ Hn].
        intros a' Ha'. rewrite Hn in Ha' by exact Ha. discriminate.
    + intros a' Ha'. rewrite run_timer_all in Ha'. simpl in Ha'. congruence.
Qed.

Lemma gathered_run (n : nat) (s : state) : Inv s -> Gathered s -> Gathered (run_ n s).
Proof.
  revert s. induction n as [|n IH]; intros s HI HG; simpl; auto.
  destruct (step_ s) as [s'|] eqn:E; auto.
  apply IH; [eapply inv_step | eapply gathered_step]; eauto.
Qed.

Lemma run_aggregate (n : nat) (s : state) (a : aggregate) :
  Inv s -> all s = Some a ->
  exists a', all (run_ n s) = Some a' /\ elements a' = elements a /\
             incl (alreadyCalled a) (alreadyCalled a').
Proof.
  revert s a. induction n as [|n IH]; intros s a HI Ha; simpl.
  - exists a. repeat split; auto. apply incl_refl.
  - destruct (step_ s) as [s'|] eqn:E.
    + destruct (step_aggregate s s' a HI E Ha) as (a1 & Ha1 & He1 & Hi1 & _).
      destruct (IH s' a1 (inv_step _ _ _ _ _ _ HI E) Ha1) as (a2 & Ha2 & He2 & Hi2).
      exists a2. repeat split; auto; [congruence|].
      eapply incl_tran; eauto.
    + exists a. repeat split; auto. apply incl_refl.
Qed.

(** When the each phase has fulfilled, the job that enters the after phase
    is in the queue until the after hook is called. *)
Definition RelayAfter (s : state) : Prop :=
  forall v, promises s PEachPhase = Settled (Fulfill v) ->
            In (JReaction then_after (Fulfill v)) (jobs s) \/ started s PAfter.

Lemma then_after_starts (v : value) (s : state) :
  started (run_job_ (JReaction then_after (Fulfill v)) s) PAfter.
Proof.
  rewrite run_job_then_after.
  assert (H : started (callFunction code PAfter (option_ options "after")
                         (Some [files_value s; VObject metalsmith]) s) PAfter).
  { apply callFunction_started; [|now right].
    intros a [= <-]. apply plain_args_hook. }
  exact H.
Qed.

Lemma relay_after_invoked (fs : list (string * props)) : RelayAfter (invoked fs).
Proof.
  intros v Hv. exfalso.
  destruct (inv_middlewareFn code options metalsmith fs) as (B & _).
  destruct (b_eachphase _ B _ Hv) as [(e & He & _)|Ha]; [discriminate|].
  apply (all_started _ _ B Ha). apply all_invoked.
Qed.

Lemma relay_after_step (s s' : state) :
  Inv s -> RelayAfter s -> step_ s = Some s' -> RelayAfter s'.
Proof.
  intros HI HR E v Hv. pose proof HI as (B & L & C & F).
  pose proof (step_follows code options matcher metalsmith _ _ E) as Hf.
  destruct (promises s PEachPhase) as [rs|o] eqn:Hb.
  - pose proof (c_eachphase _ C rs Hb) as ->.
    destruct (f_pending _ _ Hf PEachPhase [then_after] then_after Hb)
      as [(rs' & Hp & _)|(o & Hp & Hj)]; [now left|congruence|].
    left. congruence.
  - assert (o = Fulfill v) as ->.
    { pose proof (f_settled _ _ Hf _ _ Hb). congruence. }
    destruct (HR v Hb) as [Hj|Hs].
    + apply step_turn in E. destruct E as [j rest Hjs|d t rest Hjs Ht].
      * rewrite Hjs in Hj. destruct Hj as [->|Hj].
        -- right. apply then_after_starts.
        -- left. destruct (f_jobs _ _ Hf) as [js H].
           rewrite H, Hjs. simpl. apply in_or_app. now left.
      * rewrite Hjs in Hj. destruct Hj.
    + right. destruct (f_log _ _ Hf) as [l Hl]. unfold started.
      rewrite Hl. apply in_or_app. now left.
Qed.

Lemma relay_after_run (n : nat) (s : state) :
  Inv s -> RelayAfter s -> RelayAfter (run_ n s).
Proof.
  revert s. induction n as [|n IH]; intros s HI HR; simpl; auto.
  destruct (step_ s) as [s'|] eqn:E; auto.
  apply IH; [eapply inv_step | eapply relay_after_step]; eauto.
Qed.

(** When every element that is a promise has fulfilled, the resolve
    functions of the first [m] elements get called. *)
Lemma gather (s : state) (a : aggregate) (m : nat) :
  Inv s -> Gathered s -> all s = Some a ->
  (forall i p, nth_error (elements a) i = Some (Some p) ->
               exists v, promises s p = Settled (Fulfill v)) ->
  m <= List.length (elements a) ->
  exists k a', all (run_ k s) = Some a' /\ elements a' = elements a /\
               forall i, i < m -> In i (alreadyCalled a').
Proof.
  intros HI HG Ha Hful. induction m as [|m IH]; intros Hm.
  - exists 0, a. repeat split; auto. intros i Hi. lia.
  - destruct IH as (k & a1 & Ha1 & He1 & Hc1); [lia|].
    assert (HI1 : Inv (run_ k s)) by now apply inv_run.
    destruct (gathered_run k s HI HG a1 Ha1) as [Hc _].
    destruct (Hc m) as [H|[(v & Hj)|(p & Hp & Hnot)]]; [rewrite He1; lia| | |].
    + exists k, a1. repeat split; auto. intros i Hi.
      destruct (Nat.eq_dec i m) as [->|Hne]; auto. apply Hc1. lia.
    + destruct (job_turn code options matcher metalsmith _ _ HI1 Hj)
        as (n1 & rest & HI2 & Hj2 & Hrun).
      destruct (run_aggregate n1 _ a1 HI1 Ha1) as (a2 & Ha2 & He2 & Hi2).
      assert (E : step_ (run_ n1 (run_ k s)) = Some (run_ (S n1) (run_ k s))).
      { rewrite Hrun. unfold step. now rewrite Hj2. }
      destruct (step_aggregate _ _ a2 HI2 E Ha2) as (a3 & Ha3 & He3 & Hi3 & Hhd & _).
      exists (k + S n1), a3. rewrite run_add. repeat split; auto; [congruence|].
      intros i Hi. destruct (Nat.eq_dec i m) as [->|Hne].
      * apply (Hhd m v). now rewrite Hj2.
      * apply Hi3, Hi2, Hc1. lia.
    + exfalso. rewrite He1 in Hp. destruct (Hful m p Hp) as [v Hv].
      apply (Hnot v). now apply run_settled.
Qed.

Lemma all_called_none_remains (s : state) (a : aggregate) :
  Base s -> all s = Some a ->
  (forall i, i < List.length (elements a) -> In i (alreadyCalled a)) ->
  remaining a = 0.
Proof.
  intros B Ha Hc.
  assert (Hle : List.length (seq 0 (List.length (elements a)))
                <= List.length (alreadyCalled a)).
  { apply NoDup_incl_length; [apply seq_NoDup|].
    intros i Hi. apply in_seq in Hi. apply Hc. lia. }
  rewrite length_seq in Hle.
  pose proof (b_remaining _ B a Ha). lia.
Qed.

(** X19. Once the each phase is entered and every invocation of the each
    hook that was started has fulfilled, the after hook is called after
    finitely many more turns of the event loop. *)
Theorem after_follows_each (fs : list (string * props)) (n : nat) :
  all (run_ n (invoked fs)) <> None ->
  (forall i, started (run_ n (invoked fs)) (PEach i) ->
             exists v, promises (run_ n (invoked fs)) (PEach i)
                       = Settled (Fulfill v)) ->
  exists m, n <= m /\ started (run_ m (invoked fs)) PAfter.
Proof.
  intros Hall Hful.
  pose proof (inv_middlewareFn code options metalsmith fs) as HI0.
  set (s := run_ n (invoked fs)) in *.
  assert (HI : Inv s) by now apply inv_run.
  assert (HG : Gathered s) by (apply gathered_run; auto; apply gathered_invoked).
  destruct (all s) as [a|] eqn:Ha; [clear Hall|congruence].
  assert (Hel : forall i p, nth_error (elements a) i = Some (Some p) ->
                            exists v, promises s p = Settled (Fulfill v)).
  { intros i p Hp. destruct HI as (B & _).
    assert (He : element s i = Some (Some p)) by (unfold element; now rewrite Ha).
    destruct (b_elements _ B i p He) as [-> Hs]. auto. }
  destruct (gather s a (List.length (elements a)) HI HG Ha Hel (le_n _))
    as (k & a' & Ha' & He' & Hc).
  set (t := run_ k s) in *.
  assert (HIt : Inv t) by now apply inv_run.
  pose proof HIt as (Bt & _).
  assert (Hr : remaining a' = 0).
  { apply (all_called_none_remains t); auto. now rewrite He'. }
  destruct (gathered_run k s HI HG a' Ha') as [_ Hz].
  destruct (Hz Hr) as [o Ho].
  assert (exists w, o = Fulfill w) as [w ->].
  { destruct o as [w|e]; [now exists w|]. exfalso.
    destruct (b_all_rejected _ Bt e Ho) as (i & rest & Hf).
    assert (Hin : In (i, e) (each_failures (log t))) by (rewrite Hf; now left).
    apply each_failures_In in Hin. apply (b_settle_log _ Bt) in Hin.
    assert (Hs : started t (PEach i))
      by (eapply (b_settled_started _ Bt); eauto; exact I).
    pose proof (b_started_element _ Bt i a' Hs Ha') as Hn. rewrite He' in Hn.
    destruct (Hel i _ Hn) as [v Hv].
    assert (Hv' : promises t (PEach i) = Settled (Fulfill v))
      by (apply run_settled; exact Hv).
    congruence. }
  destruct (stage_all code options matcher metalsmith t _ HIt Ho) as [n2 H2].
  assert (Ht : run_ n2 t = run_ (n + k + n2) (invoked fs)).
  { unfold t, s. now rewrite !run_add. }
  rewrite Ht in H2.
  assert (HI2 : Inv (run_ (n + k + n2) (invoked fs))) by now apply inv_run.
  destruct (relay_after_run (n + k + n2) _ HI0 (relay_after_invoked fs) w H2)
    as [Hj|Hs].
  - destruct (job_turn code options matcher metalsmith _ _ HI2 Hj)
      as (n3 & rest & _ & _ & Hrun).
    exists (n + k + n2 + S n3). split; [lia|].
    rewrite run_add, Hrun. apply then_after_starts.
  - exists (n + k + n2). split; [lia | exact Hs].
Qed.

End EachToAfter.

(** The two conditions as checks on a state. *)
Definition each_phase_entered (s : state) : bool :=
  match all s with
  | Some _ => true
  | None => false
  end.

Definition started_each_fulfilled (s : state) : bool :=
  forallb (fun ev =>
             match ev with
             | EvCallFunction (PEach i) =>
                 match promises s (PEach i) with
                 | Settled (Fulfill _) => true
                 | _ => false
                 end
             | _ => true
             end) (log s).

Lemma each_phase_entered_all (s : state) :
  each_phase_entered s = true -> all s <> None.
Proof. unfold each_phase_entered. now destruct (all s). Qed.

Lemma started_each_fulfilled_all (s : state) :
  started_each_fulfilled s = true ->
  forall i, started s (PEach i) -> exists v, promises s (PEach i) = Settled (Fulfill v).
Proof.
  intros Hb i Hs. unfold started_each_fulfilled in Hb.
  pose proof (proj1 (forallb_forall _ _) Hb _ Hs) as H. simpl in H.
  destruct (promises s (PEach i)) as [rs|[v|e]]; try discriminate. now exists v.
Qed.

Lemma after_follows_each_witness :
  all (run (returns VUndefined) each_options every [] 2
         (middlewareFn (returns VUndefined) each_options [] (initial two_files)))
  <> None /\
  (forall i,
      started (run (returns VUndefined) each_options every [] 2
                 (middlewareFn (returns VUndefined) each_options []
                    (initial two_files))) (PEach i) ->
      exists v,
        promises (run (returns VUndefined) each_options every [] 2
                    (middlewareFn (returns VUndefined) each_options []
                       (initial two_files))) (PEach i) = Settled (Fulfill v)) /\
  exists m,
    2 <= m /\
    started (run (returns VUndefined) each_options every [] m
               (middlewareFn (returns VUndefined) each_options []
                  (initial two_files))) PAfter.
Proof.
  assert (H1 : each_phase_entered
                 (run (returns VUndefined) each_options every [] 2
                    (middlewareFn (returns VUndefined) each_options []
                       (initial two_files))) = true)
    by (vm_compute; reflexivity).
  assert (H2 : started_each_fulfilled
                 (run (returns VUndefined) each_options every [] 2
                    (middlewareFn (returns VUndefined) each_options []
                       (initial two_files))) = true)
    by (vm_compute; reflexivity).
  split; [exact (each_phase_entered_all _ H1)|].
  split; [exact (started_each_fulfilled_all _ H2)|].
  exact (after_follows_each (returns VUndefined) each_options every [] two_files 2
           (each_phase_entered_all _ H1) (started_each_fulfilled_all _ H2)).
Defined.

(** * clone and defaultOptions on a heap *)

(** The objects of the program live in a heap, and a value is a primitive
    or a reference to an object: a clone is an object of its own, which the
    values of the sections above, trees without identity, cannot tell from
    the original. *)

Module Heap.

Definition loc : Type := nat.

Inductive val : Type :=
| Undefined
| Null
| Bool (b : bool)
| Num (n : Z)
| Str (s : string)
| Ref (l : loc).

(** What [clone] and [defaultOptions] tell of an object: whether [typeof]
    gives ["function"] for it, whether it is an [instanceof RegExp], whether
    [Array.isArray] holds of it; an object made by [{}]; any other object (a
    [Date], a [Buffer], a [Map], an [Error], an instance of a class). *)
Inductive class : Type :=
| Function
| RegExp
| Array
| Plain
| Other (name : string).

(** An object: its class and its own enumerable properties, in the order
    of their creation.  The properties hold values; the prototype of the
    object and the properties that are not enumerable are not shown. *)
Record object : Type := { class_of : class; own : list (string * val) }.

(** The object at the location [l] is the element [l] of the heap. *)
Definition heap : Type := list object.

(** [Object.keys(o)] *)
Definition Object_keys (o : object) : list string :=
  keys_in_order (map fst (own o)).

(** [o[key]] for a property of the object's own. *)
Definition get (h : heap) (l : loc) (key : string) : val :=
  match nth_error h l with
  | Some o =>
      match lookup key (own o) with
      | Some v => v
      | None => Undefined
      end
  | None => Undefined
  end.

Fixpoint update (l : loc) (o : object) (h : heap) : heap :=
  match h, l with
  | [], _ => []
  | _ :: rest, 0 => o :: rest
  | x :: rest, S l' => x :: update l' o rest
  end.

(** [o[key] = v] for an object made by [{}] or by [[]]. *)
Definition put (l : loc) (key : string) (v : val) (h : heap) : heap :=
  match nth_error h l with
  | Some o => update l {| class_of := class_of o; own := assign key v (own o) |} h
  | None => h
  end.

(** ** exports.clone *)

(** The objects that [clone] returns as they are: [typeof original !==
    "object"] or [original instanceof RegExp]. *)
Definition shared (c : class) : bool :=
  match c with
  | Function | RegExp => true
  | _ => false
  end.

(** [Array.isArray(original) ? [] : {}] *)
Definition rebuilt (c : class) : class :=
  match c with
  | Array => Array
  | _ => Plain
  end.

(** The loop [result[keys[i]] = exports.clone(original[keys[i]])]. *)
Fixpoint copy_keys (clone : heap -> val -> option (heap * val))
  (original result : loc) (keys : list string) (h : heap) : option heap :=
  match keys with
  | [] => Some h
  | key :: rest =>
      match clone h (get h original key) with
      | Some (h1, v) => copy_keys clone original result rest (put result key v h1)
      | None => None
      end
  end.

(** [clone(original)] in the heap [h]: the heap it leaves and the value it
    returns.  The recursion of the source has no bound: [fuel] bounds its
    depth here, and [None] is a call that has not returned within it. *)
Fixpoint clone (fuel : nat) (h : heap) (original : val) : option (heap * val) :=
  match original with
  | Ref l =>
      match nth_error h l with
      | None => None
      | Some o =>
          if shared (class_of o) then Some (h, original)
          else
            match fuel with
            | 0 => None
            | S fuel' =>
                let result := List.length h in
                match copy_keys (clone fuel') l result (Object_keys o)
                        (h ++ [{| class_of := rebuilt (class_of o); own := [] |}])
                with
                | Some h' => Some (h', Ref result)
                | None => None
                end
            end
      end
  | _ => Some (h, original)
  end.

(** ** exports.defaultOptions *)

(** [typeof o === "object"] for an object. *)
Definition typeof_object (c : class) : bool :=
  match c with
  | Function => false
  | _ => true
  end.

(** The callback of [Object.keys(override).forEach]. *)
Fixpoint override_keys (clone : heap -> val -> option (heap * val))
  (override result : loc) (keys : list string) (h : heap) : option heap :=
  match keys with
  | [] => Some h
  | key :: rest =>
      match nth_error h result with
      | None => None
      | Some r =>
          if hasOwnProperty (own r) key then
            match clone h (get h override key) with
            | Some (h1, v) =>
                override_keys clone override result rest (put result key v h1)
            | None => None
            end
          else override_keys clone override result rest h
      end
  end.

(** [defaultOptions(defaults, override)] for an object [defaults]. *)
Definition defaultOptions (fuel : nat) (h : heap) (defaults : loc) (override : val)
  : option (heap * loc) :=
  match nth_error h defaults with
  | None => None
  | Some d =>
      let result := List.length h in
      match copy_keys (clone fuel) defaults result (Object_keys d)
              (h ++ [{| class_of := Plain; own := [] |}])
      with
      | None => None
      | Some h1 =>
          match override with
          | Ref lo =>
              match nth_error h1 lo with
              | Some o =>
                  if typeof_object (class_of o) then
                    match override_keys (clone fuel) lo result (Object_keys o) h1 with
                    | Some h2 => Some (h2, result)
                    | None => None
                    end
                  else Some (h1, result)
              | None => None
              end
          | _ => Some (h1, result)
          end
      end
  end.

(** ** Properties *)

Fixpoint distinct (keys : list string) : bool :=
  match keys with
  | [] => true
  | key :: rest => negb (existsb (String.eqb key) rest) && distinct rest
  end.

(** Every object of the heap has each of its keys once. *)
Definition distinct_keys (h : heap) : bool :=
  forallb (fun o => distinct (map fst (own o))) h.

(** The object has no function and no regular expression under a key
    [__proto__] of its own.  Such a value would become the prototype of the
    result, and an assignment [result[key] = ...] to a key that the
    prototype has as a read-only property (the [name] of a function, the
    [source] of a regular expression) throws a [TypeError] in strict code. *)
Definition assignable (h : heap) (o : object) : bool :=
  match lookup "__proto__" (own o) with
  | Some (Ref l) =>
      match nth_error h l with
      | Some p => negb (shared (class_of p))
      | None => false
      end
  | _ => true
  end.

(** The value is nested to a depth of [n] at most, as far as [clone] goes
    into it, and the objects that [clone] goes into are assignable. *)
Fixpoint bounded (n : nat) (h : heap) (v : val) : bool :=
  match v with
  | Ref l =>
      match nth_error h l with
      | None => false
      | Some o =>
          shared (class_of o)
          || match n with
             | 0 => false
             | S n' =>
                 assignable h o
                 && forallb (fun kv => bounded n' h (snd kv)) (own o)
             end
      end
  | _ => true
  end.

(** [v'] is a copy of [v] as [clone] makes it: the same value for a
    primitive, a function and a regular expression; for any other object
    [l] of the heap as it was, below [lo], a new object [l'], at [base] or
    above: an array for an array and else an object as [{}] makes it, with
    the keys that [Object.keys] lists for [l], in the same order, but for
    [__proto__], and under each key a copy of the value that [l] has under
    it. *)
Inductive copy (h : heap) (lo base : nat) : val -> val -> Prop :=
| copy_primitive v :
    match v with Ref _ => False | _ => True end -> copy h lo base v v
| copy_shared l o :
    l < lo -> nth_error h l = Some o -> shared (class_of o) = true ->
    copy h lo base (Ref l) (Ref l)
| copy_object l l' o o' :
    l < lo -> base <= l' ->
    nth_error h l = Some o -> nth_error h l' = Some o' ->
    shared (class_of o) = false ->
    class_of o' = rebuilt (class_of o) ->
    map fst (own o') = filter not_proto (Object_keys o) ->
    (forall key, In key (map fst (own o')) ->
                 copy h lo base (get h l key) (get h l' key)) ->
    copy h lo base (Ref l) (Ref l').

(** *** The heap *)

Lemma distinct_NoDup (keys : list string) : distinct keys = true -> NoDup keys.
Proof.
  induction keys as [|key keys IH]; simpl; [constructor|].
  intros H. apply andb_prop in H as [H1 H2]. constructor; auto.
  intros Hin. apply existsb_eqb_In in Hin. rewrite Hin in H1. discriminate.
Qed.

Lemma distinct_keys_NoDup (h : heap) (l : loc) (o : object) :
  distinct_keys h = true -> nth_error h l = Some o -> NoDup (map fst (own o)).
Proof.
  unfold distinct_keys. rewrite forallb_forall. intros H Ho.
  apply distinct_NoDup, H. eapply nth_error_In; eauto.
Qed.

Lemma update_length (l : loc) (o : object) (h : heap) :
  List.length (update l o h) = List.length h.
Proof.
  revert l. induction h as [|x h IH]; intros [|l]; simpl; auto.
Qed.

Lemma update_app (pre : heap) (o o' : object) (ext : heap) :
  update (List.length pre) o' (pre ++ o :: ext) = pre ++ o' :: ext.
Proof.
  induction pre as [|x pre IH]; simpl; auto. now rewrite IH.
Qed.

Lemma nth_error_middle (pre : heap) (o : object) (ext : heap) :
  nth_error (pre ++ o :: ext) (List.length pre) = Some o.
Proof.
  rewrite nth_error_app2 by lia. now rewrite Nat.sub_diag.
Qed.

Lemma put_app (pre : heap) (o : object) (ext : heap) (key : string) (v : val) :
  put (List.length pre) key v (pre ++ o :: ext)
  = pre ++ {| class_of := class_of o; own := assign key v (own o) |} :: ext.
Proof.
  unfold put. rewrite nth_error_middle. apply update_app.
Qed.

Lemma nth_error_below (pre ext : heap) (l : loc) :
  l < List.length pre -> nth_error (pre ++ ext) l = nth_error pre l.
Proof. intros H. now apply nth_error_app1. Qed.

Lemma nth_error_above (pre : heap) (o o' : object) (ext : heap) (l : loc) :
  l <> List.length pre ->
  nth_error (pre ++ o' :: ext) l = nth_error (pre ++ o :: ext) l.
Proof.
  intros H. destruct (Nat.lt_ge_cases l (List.length pre)) as [Hlt|Hge].
  - now rewrite !nth_error_app1.
  - rewrite !nth_error_app2 by lia.
    destruct (l - List.length pre) as [|k] eqn:E; [lia | reflexivity].
Qed.

(** *** [clone] leaves the objects of the heap as they are *)

Lemma copy_keys_extends (clone_ : heap -> val -> option (heap * val))
  (original : loc) (keys : list string) :
  (forall h v h' v', clone_ h v = Some (h', v') -> exists ext, h' = h ++ ext) ->
  forall pre o ext h',
    copy_keys clone_ original (List.length pre) keys (pre ++ o :: ext) = Some h' ->
    exists o' ext', h' = pre ++ o' :: ext' /\ class_of o' = class_of o.
Proof.
  intros Hclone. induction keys as [|key keys IH]; intros pre o ext h'; simpl.
  - intros [= <-]. now exists o, ext.
  - destruct (clone_ _ _) as [[h1 v]|] eqn:E; [|discriminate].
    destruct (Hclone _ _ _ _ E) as [ext1 ->].
    rewrite <- app_assoc. simpl. rewrite put_app. intros H.
    destruct (IH _ _ _ _ H) as (o' & ext' & -> & Hc). now exists o', ext'.
Qed.

Lemma clone_extends (fuel : nat) :
  forall h v h' v', clone fuel h v = Some (h', v') -> exists ext, h' = h ++ ext.
Proof.
  assert (Hsame : forall h : heap, exists ext, h = h ++ ext)
    by (intros h; exists []; now rewrite app_nil_r).
  induction fuel as [|fuel IH]; intros h v h' v'; destruct v as [ | | | | |l];
    simpl; try (intros [= <- _]; apply Hsame).
  - destruct (nth_error h l) as [o|]; [|discriminate].
    destruct (shared (class_of o)); [|discriminate]. intros [= <- _]. apply Hsame.
  - destruct (nth_error h l) as [o|]; [|discriminate].
    destruct (shared (class_of o)); [intros [= <- _]; apply Hsame|].
    destruct (copy_keys _ _ _ _ _) as [h1|] eqn:E; [|discriminate].
    intros [= <- _].
    destruct (copy_keys_extends _ _ _ IH h _ [] h1 E) as (o' & ext' & -> & _).
    now exists (o' :: ext').
Qed.

(** *** Copies *)

Lemma copy_weaken (h : heap) (lo base base' : nat) (v v' : val) :
  base' <= base -> copy h lo base v v' -> copy h lo base' v v'.
Proof.
  intros Hle H. induction H as [v Hv|l o Hl Ho Hs|l l' o o' Hl Hb Ho Ho' Hs Hc Hk _ IH].
  - now apply copy_primitive.
  - eapply copy_shared; eauto.
  - eapply copy_object; eauto. lia.
Qed.

(** A copy stays one when the heap changes between [lo] and [base]. *)
Lemma copy_stable (h h2 : heap) (lo base : nat) (v v' : val) :
  (forall l, l < lo \/ base <= l -> l < List.length h ->
             nth_error h2 l = nth_error h l) ->
  copy h lo base v v' -> copy h2 lo base v v'.
Proof.
  intros Hsame H.
  assert (Hin : forall l o, nth_error h l = Some o -> l < List.length h).
  { intros l o E. apply nth_error_Some. congruence. }
  induction H as [v Hv|l o Hl Ho Hs|l l' o o' Hl Hb Ho Ho' Hs Hc Hk _ IH].
  - now apply copy_primitive.
  - eapply copy_shared; eauto. rewrite Hsame; eauto.
  - assert (E : nth_error h2 l = Some o) by (rewrite Hsame; eauto).
    assert (E' : nth_error h2 l' = Some o') by (rewrite Hsame; eauto).
    eapply copy_object; eauto.
    intros key Hkey. unfold get. rewrite E, E'.
    specialize (IH key Hkey). unfold get in IH. now rewrite Ho, Ho' in IH.
Qed.

Lemma lookup_In_value {A : Type} (key : string) (v : A) (o : list (string * A)) :
  lookup key o = Some v -> exists k, In (k, v) o.
Proof.
  induction o as [|[k w] o IH]; simpl; [discriminate|].
  destruct (String.eqb k key); [intros [= ->]; eauto|].
  intros E. destruct (IH E) as [k' Hk']. eauto.
Qed.

(** The statement about [clone] with the fuel [n]. *)
Definition clones (n : nat) (h0 : heap) : Prop :=
  forall ext v,
    bounded n h0 v = true ->
    exists ext' v',
      clone n (h0 ++ ext) v = Some ((h0 ++ ext) ++ ext', v') /\
      copy ((h0 ++ ext) ++ ext') (List.length h0) (List.length (h0 ++ ext)) v v'.

(** The values that the object [r] holds under its keys are copies of the
    ones that [source] gives. *)
Definition copied (h : heap) (lo base : nat) (source : string -> val) (r : object)
  : Prop :=
  forall key v', lookup key (own r) = Some v' -> copy h lo base (source key) v'.

Lemma lookup_keys {A : Type} (key : string) (o : list (string * A)) :
  In key (map fst o) -> exists v, lookup key o = Some v.
Proof.
  intros H. destruct (lookup key o) as [v|] eqn:E; eauto.
  apply lookup_None_keys in E. contradiction.
Qed.

Lemma not_proto_In (keys : list string) :
  ~ In "__proto__" (filter not_proto keys).
Proof. intros H. apply filter_In in H as [_ H]. discriminate. Qed.

(** One turn of the loops: the value is cloned and put under the key. *)
Lemma put_copied (n : nat) (h0 pre : heap) (r : object) (ext : heap)
  (source source' : string -> val) (key : string) (v : val) :
  clones n h0 -> (exists e0, pre = h0 ++ e0) ->
  bounded n h0 v = true ->
  copied (pre ++ r :: ext) (List.length h0) (S (List.length pre)) source r ->
  source' key = v -> (forall k, key <> k -> source' k = source k) ->
  exists ext' v',
    clone n (pre ++ r :: ext) v = Some (pre ++ r :: ext', v') /\
    copied (pre ++ {| class_of := class_of r; own := define key v' (own r) |} :: ext')
      (List.length h0) (S (List.length pre)) source'
      {| class_of := class_of r; own := define key v' (own r) |} /\
    copied (pre ++ r :: ext') (List.length h0) (S (List.length pre)) source r.
Proof.
  intros Hclones [e0 ->] Hv Hr Hsource Hother.
  destruct (Hclones (e0 ++ r :: ext) v Hv) as (ext1 & v' & Hc & Hcopy).
  rewrite app_assoc in Hc, Hcopy.
  rewrite <- (app_assoc (h0 ++ e0) (r :: ext) ext1) in Hc, Hcopy. simpl in Hc, Hcopy.
  exists (ext ++ ext1), v'. split; [exact Hc|].
  assert (Hlen : S (List.length (h0 ++ e0)) <= List.length ((h0 ++ e0) ++ r :: ext)).
  { rewrite !length_app. simpl. lia. }
  assert (Hold : copied ((h0 ++ e0) ++ r :: ext ++ ext1) (List.length h0)
                   (S (List.length (h0 ++ e0))) source r).
  { intros k w Hk. eapply copy_stable; [|apply (Hr k w Hk)].
    intros l _ Hl. change (r :: ext ++ ext1) with ((r :: ext) ++ ext1).
    rewrite app_assoc. now apply nth_error_below. }
  split; [|exact Hold].
  intros k w. simpl. intros Hk.
  eapply copy_stable with (h := (h0 ++ e0) ++ r :: ext ++ ext1).
  { intros l Hl _. apply nth_error_above. rewrite length_app in *. lia. }
  destruct (String.eqb_spec key k) as [<-|Hne].
  - rewrite lookup_define_same in Hk. injection Hk as <-. rewrite Hsource.
    eapply copy_weaken; [|exact Hcopy]. exact Hlen.
  - rewrite lookup_define_other in Hk by exact Hne. rewrite (Hother k Hne).
    now apply Hold.
Qed.

(** The object is assignable and its values are nested to a depth of [n]
    at most. *)
Definition values_bounded (n : nat) (h : heap) (l : loc) : bool :=
  match nth_error h l with
  | Some o => assignable h o && forallb (fun kv => bounded n h (snd kv)) (own o)
  | None => false
  end.

Lemma values_bounded_get (n : nat) (h : heap) (l : loc) (key : string) :
  values_bounded n h l = true -> bounded n h (get h l key) = true.
Proof.
  unfold values_bounded, get. destruct (nth_error h l) as [o|]; [|discriminate].
  intros H. apply andb_prop in H as [_ H].
  destruct (lookup key (own o)) as [v|] eqn:E; [|now destruct n].
  rewrite forallb_forall in H. destruct (lookup_In_value _ _ _ E) as [k Hk].
  apply (H (k, v) Hk).
Qed.

Lemma get_below (h0 e0 : heap) (r : object) (ext : heap) (l : loc) (key : string) :
  l < List.length h0 ->
  get ((h0 ++ e0) ++ r :: ext) l key = get h0 l key.
Proof.
  intros H. unfold get. now rewrite <- app_assoc, nth_error_below.
Qed.

(** The loop of [clone], and the first loop of [defaultOptions]. *)
Lemma copy_keys_copies (n : nat) (h0 : heap) (original : loc) :
  clones n h0 -> values_bounded n h0 original = true ->
  forall keys done pre r ext,
    (exists e0, pre = h0 ++ e0) ->
    NoDup (done ++ keys) ->
    map fst (own r) = filter not_proto done ->
    copied (pre ++ r :: ext) (List.length h0) (S (List.length pre))
      (get h0 original) r ->
    exists r' ext',
      copy_keys (clone n) original (List.length pre) keys (pre ++ r :: ext)
      = Some (pre ++ r' :: ext') /\
      class_of r' = class_of r /\
      map fst (own r') = filter not_proto (done ++ keys) /\
      copied (pre ++ r' :: ext') (List.length h0) (S (List.length pre))
        (get h0 original) r'.
Proof.
  intros Hclones Hvalues.
  assert (Hl : original < List.length h0).
  { unfold values_bounded in Hvalues. apply nth_error_Some.
    destruct (nth_error h0 original); [discriminate | discriminate]. }
  induction keys as [|key keys IH]; intros done pre r ext Hpre Hnd Hkeys Hr; simpl.
  - exists r, ext. rewrite app_nil_r. auto.
  - assert (Hsame : get (pre ++ r :: ext) original key = get h0 original key).
    { destruct Hpre as [e0 ->]. now apply get_below. }
    rewrite Hsame.
    destruct (put_copied n h0 pre r ext (get h0 original) (get h0 original) key _
                Hclones Hpre (values_bounded_get _ _ _ key Hvalues) Hr eq_refl
                (fun _ _ => eq_refl))
      as (ext1 & v' & -> & Hnew & Hold).
    rewrite put_app.
    assert (Hnd' : NoDup ((done ++ [key]) ++ keys))
      by (rewrite <- app_assoc; exact Hnd).
    assert (Hfresh : ~ In key done).
    { intros Hin. apply NoDup_remove_2 in Hnd. apply Hnd, in_or_app. now left. }
    destruct (String.eqb_spec key "__proto__") as [->|Hne].
    + rewrite assign_proto.
      2: { unfold hasOwnProperty.
           destruct (lookup "__proto__" (own r)) eqn:E; auto.
           destruct (not_proto_In done). rewrite <- Hkeys.
           eapply lookup_Some_keys; eauto. }
      destruct (IH (done ++ ["__proto__"]) pre r ext1 Hpre Hnd') as (r' & ext' & H).
      * rewrite filter_app. simpl. now rewrite app_nil_r.
      * exact Hold.
      * exists r', ext'. rewrite <- app_assoc in H. destruct r. exact H.
    + rewrite assign_name by exact Hne.
      destruct (IH (done ++ [key]) pre
                  {| class_of := class_of r; own := define key v' (own r) |}
                  ext1 Hpre Hnd') as (r' & ext' & H).
      * simpl. rewrite keys_define_absent, Hkeys, filter_app.
        -- simpl. unfold not_proto at 3.
           destruct (String.eqb_spec key "__proto__"); [contradiction | reflexivity].
        -- rewrite Hkeys. intros Hin. apply filter_In in Hin as [Hin _]. auto.
      * exact Hnew.
      * exists r', ext'. now rewrite <- app_assoc in H.
Qed.

Lemma clones_all (h0 : heap) : distinct_keys h0 = true -> forall n, clones n h0.
Proof.
  intros Hdistinct.
  assert (Hprim : forall n ext v,
             match v with Ref _ => False | _ => True end ->
             exists ext' v',
               clone n (h0 ++ ext) v = Some ((h0 ++ ext) ++ ext', v') /\
               copy ((h0 ++ ext) ++ ext') (List.length h0)
                 (List.length (h0 ++ ext)) v v').
  { intros n ext v Hv. exists [], v. rewrite app_nil_r. split.
    - destruct n, v; try reflexivity; contradiction.
    - now apply copy_primitive. }
  assert (Hshared : forall n ext l o,
             nth_error h0 l = Some o -> shared (class_of o) = true ->
             exists ext' v',
               clone n (h0 ++ ext) (Ref l) = Some ((h0 ++ ext) ++ ext', v') /\
               copy ((h0 ++ ext) ++ ext') (List.length h0)
                 (List.length (h0 ++ ext)) (Ref l) v').
  { intros n ext l o Ho Hs.
    assert (Hl : l < List.length h0) by (apply nth_error_Some; congruence).
    exists [], (Ref l). rewrite app_nil_r. split.
    - destruct n; simpl; now rewrite nth_error_below, Ho, Hs.
    - eapply copy_shared; eauto. now rewrite nth_error_below. }
  induction n as [|n IH]; intros ext v Hv; destruct v as [ | | | | |l];
    try (now apply Hprim); simpl in Hv;
    destruct (nth_error h0 l) as [o|] eqn:Ho; try discriminate;
    destruct (shared (class_of o)) eqn:Hs; try (eapply Hshared; eauto; fail);
    simpl in Hv; try discriminate.
  assert (Hl : l < List.length h0) by (apply nth_error_Some; congruence).
  assert (Hvalues : values_bounded n h0 l = true)
    by (unfold values_bounded; now rewrite Ho).
  clear Hv.
  destruct (copy_keys_copies n h0 l IH Hvalues (Object_keys o) [] (h0 ++ ext)
              {| class_of := rebuilt (class_of o); own := [] |} [])
    as (r' & ext' & Hloop & Hclass & Hkeys & Hcopied).
  - now exists ext.
  - simpl. apply keys_in_order_NoDup. eapply distinct_keys_NoDup; eauto.
  - reflexivity.
  - intros key v' H. discriminate.
  - exists (r' :: ext'), (Ref (List.length (h0 ++ ext))). split.
    + simpl. rewrite nth_error_below, Ho, Hs by exact Hl. now rewrite Hloop.
    + eapply copy_object with (o := o) (o' := r'); eauto.
      * rewrite <- app_assoc. now rewrite nth_error_below.
      * apply nth_error_middle.
      * intros key Hkey. destruct (lookup_keys key (own r') Hkey) as [v' Hv'].
        unfold get at 2. rewrite nth_error_middle, Hv'.
        rewrite get_below by exact Hl.
        eapply copy_weaken; [|apply (Hcopied key v' Hv')]. lia.
Qed.

(** X1. [clone] makes a deep copy.  In a heap whose objects have each of
    their keys once, for a value nested to a depth of [n] at most, in which
    no object has a function or a regular expression under a key [__proto__]
    of its own, [clone] returns, with the fuel [n]; the objects that the heap had are as they
    were, new ones come after them; and the value returned is a copy of the
    original: the original itself for a primitive, a function and a regular
    expression, and for any other object a new object, an array for an array
    and else an object as [{}] makes it, whatever the class of the original,
    with the keys that [Object.keys] lists for the original, but for
    [__proto__], in the same order, each with a copy of the value of the
    original. *)
Theorem clone_deep (n : nat) (h : heap) (original : val) :
  distinct_keys h = true -> bounded n h original = true ->
  exists ext v,
    clone n h original = Some (h ++ ext, v) /\
    copy (h ++ ext) (List.length h) (List.length h) original v.
Proof.
  intros Hd Hb. destruct (clones_all h Hd n [] original Hb) as (ext & v & Hc & Hcopy).
  rewrite app_nil_r in Hc, Hcopy. now exists ext, v.
Qed.

(** *** defaultOptions *)







(** *** A value that holds itself *)

Lemma copy_keys_cycle (clone_ : heap -> val -> option (heap * val))
  (h0 : heap) (l : loc) (key : string) :
  l < List.length h0 ->
  get h0 l key = Ref l ->
  (forall h v h' v', clone_ h v = Some (h', v') -> exists ext, h' = h ++ ext) ->
  (forall ext, clone_ (h0 ++ ext) (Ref l) = None) ->
  forall keys pre r ext,
    (exists e0, pre = h0 ++ e0) -> In key keys ->
    copy_keys clone_ l (List.length pre) keys (pre ++ r :: ext) = None.
Proof.
  intros Hl Hself Hextends Hnone.
  induction keys as [|k keys IH]; intros pre r ext [e0 ->] Hin; [destruct Hin|].
  simpl. rewrite get_below by exact Hl.
  destruct (String.eqb_spec k key) as [->|Hne].
  - rewrite Hself, <- app_assoc. now rewrite Hnone.
  - destruct (clone_ _ _) as [[h1 v]|] eqn:E; auto.
    destruct (Hextends _ _ _ _ E) as [ext1 ->].
    rewrite <- (app_assoc (h0 ++ e0)). simpl. rewrite put_app.
    apply IH; [now exists e0|]. destruct Hin; [contradiction | assumption].
Qed.

(** X21. [clone] does not return for an object that holds itself under
    one of its keys: whatever the fuel, the call has not returned within
    it.  ("Does not handle circular references.") *)
Theorem clone_cycle (h : heap) (l : loc) (o : object) (key : string) :
  nth_error h l = Some o -> shared (class_of o) = false ->
  lookup key (own o) = Some (Ref l) ->
  forall fuel, clone fuel h (Ref l) = None.
Proof.
  intros Ho Hs Hkey fuel.
  assert (Hl : l < List.length h) by (apply nth_error_Some; congruence).
  assert (H : forall ext, clone fuel (h ++ ext) (Ref l) = None).
  { induction fuel as [|fuel IH]; intros ext; simpl;
      rewrite nth_error_below, Ho, Hs by exact Hl; auto.
    rewrite (copy_keys_cycle (clone fuel) h l key Hl); auto.
    - unfold get. now rewrite Ho, Hkey.
    - apply clone_extends.
    - now exists ext.
    - unfold Object_keys. apply In_keys_in_order. eapply lookup_Some_keys; eauto. }
  specialize (H []). now rewrite app_nil_r in H.
Qed.

End Heap.

(** An object with an array, a function and a date. *)
Definition nested : Heap.heap :=
  [{| Heap.class_of := Heap.Plain;
      Heap.own := [("list", Heap.Ref 1); ("hook", Heap.Ref 2); ("when", Heap.Ref 3)] |};
   {| Heap.class_of := Heap.Array; Heap.own := [("0", Heap.Str "x")] |};
   {| Heap.class_of := Heap.Function; Heap.own := [] |};
   {| Heap.class_of := Heap.Other "Date"; Heap.own := [] |}].

Lemma clone_deep_witness :
  Heap.clone 2 nested (Heap.Ref 0)
  = Some (nested
          ++ [{| Heap.class_of := Heap.Plain;
                 Heap.own := [("list", Heap.Ref 5); ("hook", Heap.Ref 2);
                              ("when", Heap.Ref 6)] |};
              {| Heap.class_of := Heap.Array; Heap.own := [("0", Heap.Str "x")] |};
              {| Heap.class_of := Heap.Plain; Heap.own := [] |}],
          Heap.Ref 4) /\
  exists ext v,
    Heap.clone 2 nested (Heap.Ref 0) = Some (nested ++ ext, v) /\
    Heap.copy (nested ++ ext) 4 4 (Heap.Ref 0) v.
Proof.
  split; [reflexivity|].
  apply (Heap.clone_deep 2 nested (Heap.Ref 0)); reflexivity.
Defined.

(** An object that holds itself. *)
Definition selfish : Heap.heap :=
  [{| Heap.class_of := Heap.Plain; Heap.own := [("self", Heap.Ref 0)] |}].

Lemma clone_cycle_witness : Heap.clone 100 selfish (Heap.Ref 0) = None.
Proof.
  apply (Heap.clone_cycle selfish 0
           {| Heap.class_of := Heap.Plain; Heap.own := [("self", Heap.Ref 0)] |}
           "self"); reflexivity.
Defined.



